(** * A growable contiguous container on raw memory: [RawMemory<T>] and [Vector<T>]

    Shallow embedding of [advanced-vector/vector.h].

    The C++ code separates allocation from construction, so the model keeps
    the two apart as well.  A heap maps block addresses to arrays of slots; a
    slot is either raw memory ([None]) or holds a live object ([Some x]).
    Every operation of [T] that may throw consults a schedule carried by the
    world, so that "the k-th fallible operation throws" can be chosen freely.
    Functions run in a state monad with three outcomes: normal return, a
    propagating exception, or a fault (failed [assert], access outside a block
    or to raw memory; the behaviour of the C++ program is then undefined). *)

From stdpp Require Import base numbers option list gmap.
From Stdlib Require Import NArith Lia.

Set Default Proof Using "Type*".
Local Open Scope N_scope.

(** ** Machine integers *)

(** [size_t] is a 64-bit unsigned integer.  Values are kept in [N]; the places
    where the source multiplies are reduced explicitly with [wrap]. *)
Definition SIZE_MOD : N := 2 ^ 64.
Definition PTRDIFF_MAX : N := 2 ^ 63 - 1.
Definition wrap (x : N) : N := x mod SIZE_MOD.

(** ** Pointers *)

Definition addr := positive.

(** A [T*] is a block and a slot offset in it; [nullptr] has no block. *)
Record ptr := Ptr { base : option addr; offset : N }.

Definition nullptr : ptr := Ptr None 0.

Definition ptr_add (p : ptr) (k : N) : ptr := Ptr (base p) (offset p + k).
Definition ptr_pred (p : ptr) : ptr := Ptr (base p) (offset p - 1).

Infix "+ₚ" := ptr_add (at level 50, left associativity).

Global Instance ptr_eq_dec : EqDecision ptr.
Proof. solve_decision. Defined.

(** ** Element types *)

(** What the container needs to know about [T]: its size, the value produced
    by value-initialisation, the state a moved-from object is left in, and the
    two type traits tested by [InitializeDataUsingOtherData]. *)
Class Element (T : Type) := {
  sizeof : N;
  sizeof_pos : 0 < sizeof;
  value_init : T;
  moved_from : T → T;
  is_nothrow_move_constructible : bool;
  is_copy_constructible : bool;
}.

(** How an object is constructed or assigned. *)
Inductive how := ByValueInit | ByCopy | ByMove | ByArgs.

Global Instance how_eq_dec : EqDecision how.
Proof. solve_decision. Defined.

(** Element-level and allocator-level actions, recorded in order. *)
Inductive event :=
  | EvAlloc (bytes : N)
  | EvFree
  | EvConstruct (k : how)
  | EvAssign (k : how)
  | EvDestroy.

Global Instance event_eq_dec : EqDecision event.
Proof. solve_decision. Defined.

Inductive exn := bad_alloc | elem_exn.

(** ** The state-and-exception monad *)

Inductive outcome (S A : Type) :=
  | Ok (a : A) (s : S)
  | Raise (e : exn) (s : S)
  | Fault.
Global Arguments Ok {S A} a s.
Global Arguments Raise {S A} e s.
Global Arguments Fault {S A}.

Definition M (S A : Type) : Type := S → outcome S A.

Definition ret {S A} (a : A) : M S A := fun s => Ok a s.

Definition bind {S A B} (m : M S A) (k : A → M S B) : M S B := fun s =>
  match m s with
  | Ok a s' => k a s'
  | Raise e s' => Raise e s'
  | Fault => Fault
  end.

Notation "x <- m ;; k" := (bind m (fun x => k))
  (at level 100, m at next level, right associativity).
Notation "m ;;; k" := (bind m (fun _ => k))
  (at level 100, right associativity).

Definition get {S} : M S S := fun s => Ok s s.
Definition put {S} (s : S) : M S unit := fun _ => Ok tt s.

(** [assert(b)] *)
Definition assert {S} (b : bool) : M S unit := fun s =>
  if b then Ok tt s else Fault.

(** [try { m } catch (...) { h; throw; }], which is also how the destructor of
    a local runs while an exception unwinds its scope.  The handlers and
    destructors of this code are [noexcept]: one that does not return
    normally terminates the program. *)
Definition on_exception {S A} (m : M S A) (h : M S unit) : M S A := fun s =>
  match m s with
  | Ok a s' => Ok a s'
  | Raise e s' =>
      match h s' with
      | Ok _ s'' => Raise e s''
      | _ => Fault
      end
  | Fault => Fault
  end.

(** Run a computation on the second component of a pair state. *)
Definition on_world {V W A} (m : M W A) : M (V * W) A := fun s =>
  match m s.2 with
  | Ok a w' => Ok a (s.1, w')
  | Raise e w' => Raise e (s.1, w')
  | Fault => Fault
  end.

(** Partial-correctness triples: [post m s Q E] says that [m] run from [s]
    either returns a result and state in [Q], or raises with the state in
    [E], or faults. *)
Definition post {S A} (m : M S A) (s : S)
    (Q : A → S → Prop) (E : exn → S → Prop) : Prop :=
  match m s with
  | Ok a s' => Q a s'
  | Raise e s' => E e s'
  | Fault => True
  end.

(** A computation is safe from a state when it does not fault there: it
    returns or it throws. *)
Definition safe {S A} (m : M S A) (s : S) : Prop := m s ≠ Fault.

(** [guard m s Q E]: [m] does not fault from [s]; if it returns, result and
    state satisfy [Q]; if it throws, the state it leaves satisfies [E].  With
    [E] saying that a handler returns, this is what makes [on_exception]
    safe. *)
Definition guard {S A} (m : M S A) (s : S) (Q : A → S → Prop) (E : S → Prop) : Prop :=
  match m s with
  | Ok a s' => Q a s'
  | Raise _ s' => E s'
  | Fault => False
  end.

Section Memory.
Context {T : Type} `{Element T}.

(** ** The world: heap, throw schedule, event log *)

Record World := {
  heap : gmap addr (list (option T));
  fuse : nat → bool;     (* [fuse k]: the k-th fallible action throws *)
  tick : nat;            (* fallible actions attempted so far *)
  log : list event;      (* completed actions *)
}.

Definition set_heap (h : gmap addr (list (option T))) (w : World) : World :=
  {| heap := h; fuse := fuse w; tick := tick w; log := log w |}.
Definition record (ev : event) (w : World) : World :=
  {| heap := heap w; fuse := fuse w; tick := tick w; log := log w ++ [ev] |}.
Definition advance (w : World) : World :=
  {| heap := heap w; fuse := fuse w; tick := S (tick w); log := log w |}.

(** The slot a pointer designates: [None] outside every block, [Some None]
    for raw memory, [Some (Some x)] for a live object. *)
Definition peek (h : gmap addr (list (option T))) (p : ptr) : option (option T) :=
  match base p with
  | Some a =>
      match h !! a with
      | Some blk => blk !! N.to_nat (offset p)
      | None => None
      end
  | None => None
  end.

Definition poke (h : gmap addr (list (option T))) (p : ptr) (x : option T)
    : gmap addr (list (option T)) :=
  match base p with
  | Some a => alter (fun blk => <[N.to_nat (offset p) := x]> blk) a h
  | None => h
  end.

(** A fallible action: throws when the schedule says so. *)
Definition may_throw (e : exn) : M World unit := fun w =>
  if fuse w (tick w) then Raise e (advance w) else Ok tt (advance w).

Definition emit (ev : event) : M World unit := fun w => Ok tt (record ev w).

(** Write a slot that exists. *)
Definition store (p : ptr) (x : option T) : M World unit := fun w =>
  match peek (heap w) p with
  | Some _ => Ok tt (set_heap (poke (heap w) p x) w)
  | None => Fault
  end.

(** Read the live object at [p]. *)
Definition read (p : ptr) : M World T := fun w =>
  match peek (heap w) p with
  | Some (Some x) => Ok x w
  | _ => Fault
  end.

(** Whether constructing this way can throw: a move constructor declared
    [noexcept] cannot. *)
Definition ctor_throws (k : how) : bool :=
  match k with
  | ByMove => negb is_nothrow_move_constructible
  | _ => true
  end.

(** [new (p) T(...)] producing the value [x]. *)
Definition construct_at (k : how) (p : ptr) (x : T) : M World unit :=
  (if ctor_throws k then may_throw elem_exn else ret tt) ;;;
  store p (Some x) ;;;
  emit (EvConstruct k).

(** [p->~T()] *)
Definition destroy_at (p : ptr) : M World unit :=
  _ <- read p ;;
  store p None ;;;
  emit EvDestroy.

(** Copy-construction and move-construction of [*dst] from [*src]. *)
Definition copy_construct (dst src : ptr) : M World unit :=
  x <- read src ;;
  construct_at ByCopy dst x.

Definition move_construct (dst src : ptr) : M World unit :=
  x <- read src ;;
  construct_at ByMove dst x ;;;
  store src (Some (moved_from x)).

(** [*dst = x] for a live [*dst]. *)
Definition assign_at (k : how) (dst : ptr) (x : T) : M World unit :=
  _ <- read dst ;;
  may_throw elem_exn ;;;
  store dst (Some x) ;;;
  emit (EvAssign k).

(** Copy-assignment and move-assignment of [*src] to the live [*dst]. *)
Definition copy_assign (dst src : ptr) : M World unit :=
  x <- read src ;;
  assign_at ByCopy dst x.

Definition move_assign (dst src : ptr) : M World unit :=
  x <- read src ;;
  assign_at ByMove dst x ;;;
  store src (Some (moved_from x)).

(** ** The allocator *)

(** [operator new(bytes)]: the request fails with [bad_alloc] when the
    schedule says so, and always when it exceeds [PTRDIFF_MAX], the largest
    object the platform supports.  The block returned has room for
    [bytes / sizeof(T)] objects. *)
Definition operator_new (bytes : N) : M World ptr := fun w =>
  if (PTRDIFF_MAX <? bytes) || fuse w (tick w) then Raise bad_alloc (advance w)
  else
    let a := fresh (dom (heap w)) in
    Ok (Ptr (Some a) 0)
       (record (EvAlloc bytes)
          (set_heap (<[a := replicate (N.to_nat (bytes / sizeof)) None]> (heap w))
             (advance w))).

(** [operator delete(p)]: nothing for [nullptr], otherwise [p] must be the
    start of an allocated block. *)
Definition operator_delete (p : ptr) : M World unit := fun w =>
  match base p with
  | None => if offset p =? 0 then Ok tt w else Fault
  | Some a =>
      if offset p =? 0 then
        match heap w !! a with
        | Some _ => Ok tt (record EvFree (set_heap (delete a (heap w)) w))
        | None => Fault
        end
      else Fault
  end.

(** ** Pointer comparison and difference (within one array) *)

Definition same_array (p q : ptr) : bool := bool_decide (base p = base q).

(** [p <= q], [p < q], [p == q], [p - q]; relating pointers into different
    arrays is a fault. *)
Definition ptr_le {S} (p q : ptr) : M S bool :=
  assert (same_array p q) ;;; ret (offset p <=? offset q).
Definition ptr_lt {S} (p q : ptr) : M S bool :=
  assert (same_array p q) ;;; ret (offset p <? offset q).
Definition ptr_diff {S} (p q : ptr) : M S N :=
  assert (same_array p q && (offset q <=? offset p)) ;;; ret (offset p - offset q).

(** ** Algorithms of <memory> and <algorithm> *)

(** [std::destroy_n(first, n)] *)
Fixpoint destroy_loop (first : ptr) (n : nat) : M World unit :=
  match n with
  | O => ret tt
  | S n' => destroy_at first ;;; destroy_loop (first +ₚ 1) n'
  end.

Definition destroy_n (first : ptr) (n : N) : M World ptr :=
  destroy_loop first (N.to_nat n) ;;; ret (first +ₚ n).

(** [std::uninitialized_value_construct_n(first, n)]: if a construction
    throws, the objects constructed so far are destroyed. *)
Fixpoint value_construct_loop (first : ptr) (n : nat) : M World unit :=
  match n with
  | O => ret tt
  | S n' =>
      construct_at ByValueInit first value_init ;;;
      on_exception (value_construct_loop (first +ₚ 1) n') (destroy_at first)
  end.

Definition uninitialized_value_construct_n (first : ptr) (n : N) : M World ptr :=
  value_construct_loop first (N.to_nat n) ;;; ret (first +ₚ n).

(** [std::uninitialized_copy_n(first, n, d_first)] *)
Fixpoint uninit_copy_loop (first : ptr) (n : nat) (d_first : ptr) : M World unit :=
  match n with
  | O => ret tt
  | S n' =>
      copy_construct d_first first ;;;
      on_exception (uninit_copy_loop (first +ₚ 1) n' (d_first +ₚ 1))
                   (destroy_at d_first)
  end.

Definition uninitialized_copy_n (first : ptr) (n : N) (d_first : ptr) : M World ptr :=
  uninit_copy_loop first (N.to_nat n) d_first ;;; ret (d_first +ₚ n).

(** [std::uninitialized_move_n(first, n, d_first)] *)
Fixpoint uninit_move_loop (first : ptr) (n : nat) (d_first : ptr) : M World unit :=
  match n with
  | O => ret tt
  | S n' =>
      move_construct d_first first ;;;
      on_exception (uninit_move_loop (first +ₚ 1) n' (d_first +ₚ 1))
                   (destroy_at d_first)
  end.

Definition uninitialized_move_n (first : ptr) (n : N) (d_first : ptr)
    : M World (ptr * ptr) :=
  uninit_move_loop first (N.to_nat n) d_first ;;; ret (first +ₚ n, d_first +ₚ n).

(** [std::copy(first, last, d_first)] *)
Fixpoint copy_loop (first : ptr) (n : nat) (d_first : ptr) : M World unit :=
  match n with
  | O => ret tt
  | S n' => copy_assign d_first first ;;; copy_loop (first +ₚ 1) n' (d_first +ₚ 1)
  end.

Definition std_copy (first last d_first : ptr) : M World ptr :=
  n <- ptr_diff last first ;;
  copy_loop first (N.to_nat n) d_first ;;;
  ret (d_first +ₚ n).

(** [std::move(first, last, d_first)] *)
Fixpoint move_loop (first : ptr) (n : nat) (d_first : ptr) : M World unit :=
  match n with
  | O => ret tt
  | S n' => move_assign d_first first ;;; move_loop (first +ₚ 1) n' (d_first +ₚ 1)
  end.

Definition std_move (first last d_first : ptr) : M World ptr :=
  n <- ptr_diff last first ;;
  move_loop first (N.to_nat n) d_first ;;;
  ret (d_first +ₚ n).

(** [std::move_backward(first, last, d_last)]: while [first != last], both
    [last] and [d_last] step back by one and the object at [last] is
    move-assigned to the one at [d_last]. *)
Fixpoint move_backward_loop (n : nat) (last d_last : ptr) : M World unit :=
  match n with
  | O => ret tt
  | S n' =>
      move_assign (ptr_pred d_last) (ptr_pred last) ;;;
      move_backward_loop n' (ptr_pred last) (ptr_pred d_last)
  end.

Definition std_move_backward (first last d_last : ptr) : M World ptr :=
  n <- ptr_diff last first ;;
  move_backward_loop (N.to_nat n) last d_last ;;;
  ret (Ptr (base d_last) (offset d_last - n)).

(** ** [RawMemory<T>] *)

Record RawMemory := { buffer_ : ptr; capacity_ : N }.

(** [RawMemory() = default] *)
Definition RawMemory_default : RawMemory := {| buffer_ := nullptr; capacity_ := 0 |}.

(** [n != 0 ? operator new(n * sizeof(T)) : nullptr]; the product is computed
    in [size_t]. *)
Definition Allocate (n : N) : M World ptr :=
  if n =? 0 then ret nullptr else operator_new (wrap (n * sizeof)).

Definition Deallocate (buf : ptr) : M World unit := operator_delete buf.

(** [explicit RawMemory(size_t capacity)] *)
Definition RawMemory_ctor (capacity : N) : M World RawMemory :=
  buf <- Allocate capacity ;;
  ret {| buffer_ := buf; capacity_ := capacity |}.

(** [RawMemory(RawMemory&& other)]: the new object and what is left of
    [other].  Only [other.buffer_] is reset. *)
Definition RawMemory_move_ctor (other : RawMemory) : RawMemory * RawMemory :=
  ({| buffer_ := buffer_ other; capacity_ := capacity_ other |},
   {| buffer_ := nullptr; capacity_ := capacity_ other |}).

(** [void Swap(RawMemory& other)] *)
Definition RawMemory_Swap (this other : RawMemory) : RawMemory * RawMemory :=
  ({| buffer_ := buffer_ other; capacity_ := capacity_ other |},
   {| buffer_ := buffer_ this; capacity_ := capacity_ this |}).

(** A reference argument is either the object itself or another object. *)
Inductive operand (A : Type) := Self | Other (x : A).
Global Arguments Self {A}.
Global Arguments Other {A} x.

(** [RawMemory& operator=(RawMemory&& rhs)] *)
Definition RawMemory_move_assign (this : RawMemory) (rhs : operand RawMemory)
    : RawMemory * operand RawMemory :=
  match rhs with
  | Self => (this, Self)
  | Other r => let '(t, r') := RawMemory_Swap this r in (t, Other r')
  end.

(** [~RawMemory()] *)
Definition RawMemory_dtor (this : RawMemory) : M World unit :=
  Deallocate (buffer_ this).

(** [T* operator+(size_t offset)] *)
Definition RawMemory_plus {S} (this : RawMemory) (off : N) : M S ptr :=
  assert (off <=? capacity_ this) ;;;
  ret (buffer_ this +ₚ off).

(** [T& operator[](size_t index)]; the reference is the address of the slot. *)
Definition RawMemory_at {S} (this : RawMemory) (index : N) : M S ptr :=
  assert (index <? capacity_ this) ;;;
  ret (buffer_ this +ₚ index).

Definition GetAddress (this : RawMemory) : ptr := buffer_ this.
Definition RawMemory_Capacity (this : RawMemory) : N := capacity_ this.

(** ** [Vector<T>] *)

Record Vector := { data_ : RawMemory; size_ : N }.

(** A member function runs on the object and the world. *)
Definition Obj : Type := Vector * World.

Definition this : M Obj Vector := fun s => Ok s.1 s.
Definition set_data (d : RawMemory) : M Obj unit := fun s =>
  Ok tt ({| data_ := d; size_ := size_ s.1 |}, s.2).
Definition set_size (n : N) : M Obj unit := fun s =>
  Ok tt ({| data_ := data_ s.1; size_ := n |}, s.2).

Definition Size (v : Vector) : N := size_ v.
Definition Capacity (v : Vector) : N := RawMemory_Capacity (data_ v).

(** [Vector() = default] *)
Definition Vector_default : Vector := {| data_ := RawMemory_default; size_ := 0 |}.

(** [explicit Vector(size_t size)].  When the body throws, the member
    [data_], already constructed, is destroyed. *)
Definition Vector_ctor (size : N) : M World Vector :=
  data <- RawMemory_ctor size ;;
  on_exception (uninitialized_value_construct_n (GetAddress data) size)
               (RawMemory_dtor data) ;;;
  ret {| data_ := data; size_ := size |}.

(** [Vector(const Vector& other)] *)
Definition Vector_copy_ctor (other : Vector) : M World Vector :=
  data <- RawMemory_ctor (size_ other) ;;
  on_exception
    (uninitialized_copy_n (GetAddress (data_ other)) (size_ other) (GetAddress data))
    (RawMemory_dtor data) ;;;
  ret {| data_ := data; size_ := size_ other |}.

(** [~Vector()], followed by the destructor of the member [data_]. *)
Definition Vector_dtor (v : Vector) : M World unit :=
  destroy_n (GetAddress (data_ v)) (size_ v) ;;;
  RawMemory_dtor (data_ v).

(** [void Swap(Vector& other)]; the result is what [other] has become. *)
Definition Vector_Swap (other : operand Vector) : M Obj (operand Vector) :=
  match other with
  | Self => ret Self
  | Other o =>
      v <- this ;;
      let '(d, od) := RawMemory_Swap (data_ v) (data_ o) in
      set_data d ;;;
      set_size (size_ o) ;;;
      ret (Other {| data_ := od; size_ := size_ v |})
  end.

(** [Vector(Vector&& other)]: the members are default-initialised, then
    swapped with [other]'s.  The result is the new object and what [other]
    has become. *)
Definition Vector_move_ctor (other : Vector) : M World (Vector * Vector) := fun w =>
  match Vector_Swap (Other other) (Vector_default, w) with
  | Ok (Other o) s => Ok (s.1, o) s.2
  | Ok Self s => Fault
  | Raise e s => Raise e s.2
  | Fault => Fault
  end.

(** [Vector& operator=(Vector&& rhs)] *)
Definition Vector_move_assign (rhs : operand Vector) : M Obj (operand Vector) :=
  match rhs with
  | Self => ret Self
  | Other _ => Vector_Swap rhs
  end.

Definition begin : M Obj ptr := v <- this ;; ret (GetAddress (data_ v)).
Definition end_ : M Obj ptr := v <- this ;; RawMemory_plus (data_ v) (size_ v).
Definition cbegin : M Obj ptr := v <- this ;; ret (GetAddress (data_ v)).
Definition cend : M Obj ptr := v <- this ;; RawMemory_plus (data_ v) (size_ v).

(** [void PopBack()]; [--size_] follows the assertion, so it cannot wrap. *)
Definition PopBack : M Obj unit :=
  v <- this ;;
  assert (negb (size_ v =? 0)) ;;;
  r <- RawMemory_at (data_ v) (size_ v - 1) ;;
  on_world (destroy_at r) ;;;
  set_size (size_ v - 1).

(** [InitializeDataUsingOtherData(start_from, start_to, count)] *)
Definition InitializeDataUsingOtherData (start_from start_to : ptr) (count : N)
    : M World unit :=
  if is_nothrow_move_constructible || negb is_copy_constructible then
    uninitialized_move_n start_from count start_to ;;; ret tt
  else
    uninitialized_copy_n start_from count start_to ;;; ret tt.

(** [void Reserve(size_t new_capacity)].  The local [new_data] is destroyed
    when its scope is left, by an exception or at the end, where it holds the
    old block. *)
Definition Reserve (new_capacity : N) : M Obj unit :=
  v <- this ;;
  if new_capacity <=? RawMemory_Capacity (data_ v) then ret tt
  else
    new_data <- on_world (RawMemory_ctor new_capacity) ;;
    on_exception
      (on_world (InitializeDataUsingOtherData
                   (GetAddress (data_ v)) (GetAddress new_data) (size_ v)) ;;;
       on_world (destroy_n (GetAddress (data_ v)) (size_ v)))
      (on_world (RawMemory_dtor new_data)) ;;;
    let '(d, nd) := RawMemory_Swap (data_ v) new_data in
    set_data d ;;;
    on_world (RawMemory_dtor nd).

(** [void Resize(size_t new_size)] *)
Definition Resize (new_size : N) : M Obj unit :=
  v <- this ;;
  (if new_size <? size_ v then
     p <- RawMemory_plus (data_ v) new_size ;;
     on_world (destroy_n p (size_ v - new_size)) ;;;
     ret tt
   else
     Reserve new_size ;;;
     v' <- this ;;
     p <- RawMemory_plus (data_ v') (size_ v') ;;
     on_world (uninitialized_value_construct_n p (new_size - size_ v')) ;;;
     ret tt) ;;;
  set_size new_size.

(** A constructor call [T(args...)] is given by the way it constructs and the
    value it produces: [ByCopy x] for an argument [const T&] designating an
    object of value [x], [ByMove x] for [T&&], [ByArgs x] otherwise.  A local
    [T temp(args...)] lives outside the heap; only its construction and
    destruction are recorded. *)
Definition construct_local (k : how) : M World unit :=
  (if ctor_throws k then may_throw elem_exn else ret tt) ;;;
  emit (EvConstruct k).
Definition destroy_local : M World unit := emit EvDestroy.

(** [iterator EmplaceWithRealloc(const_iterator pos, Args&&... args)];
    [size_ * 2] and [++size_] are computed in [size_t]. *)
Definition EmplaceWithRealloc (pos : ptr) (k : how) (x : T) : M Obj ptr :=
  v <- this ;;
  cb <- cbegin ;;
  pos_index <- ptr_diff pos cb ;;
  new_data <- on_world (RawMemory_ctor (if size_ v =? 0 then 1 else wrap (size_ v * 2))) ;;
  on_exception
    (slot <- RawMemory_plus new_data pos_index ;;
     on_world (construct_at k slot x) ;;;
     on_exception
       (on_world (InitializeDataUsingOtherData
                    (GetAddress (data_ v)) (GetAddress new_data) pos_index))
       (r <- RawMemory_at new_data pos_index ;; on_world (destroy_at r)) ;;;
     from <- RawMemory_plus (data_ v) pos_index ;;
     to <- RawMemory_plus new_data pos_index ;;
     on_exception
       (on_world (InitializeDataUsingOtherData from (to +ₚ 1) (size_ v - pos_index)))
       (on_world (destroy_n (GetAddress new_data) (pos_index + 1)) ;;; ret tt) ;;;
     on_world (destroy_n (GetAddress (data_ v)) (size_ v)) ;;;
     ret tt)
    (on_world (RawMemory_dtor new_data)) ;;;
  let '(d, nd) := RawMemory_Swap (data_ v) new_data in
  set_data d ;;;
  set_size (wrap (size_ v + 1)) ;;;
  r <- RawMemory_plus d pos_index ;;
  on_world (RawMemory_dtor nd) ;;;
  ret r.

(** [iterator EmplaceWithoutRealloc(const_iterator pos, Args&&... args)] *)
Definition EmplaceWithoutRealloc (pos : ptr) (k : how) (x : T) : M Obj ptr :=
  v <- this ;;
  cb <- cbegin ;;
  pos_index <- ptr_diff pos cb ;;
  ce <- cend ;;
  (if bool_decide (pos = ce) then
     slot <- RawMemory_plus (data_ v) (size_ v) ;;
     on_world (construct_at k slot x)
   else
     on_world (construct_local k) ;;;
     on_exception
       (slot <- RawMemory_plus (data_ v) (size_ v) ;;
        back <- RawMemory_at (data_ v) (size_ v - 1) ;;
        on_world (move_construct slot back) ;;;
        first <- RawMemory_plus (data_ v) pos_index ;;
        last <- RawMemory_plus (data_ v) (size_ v - 1) ;;
        d_last <- RawMemory_plus (data_ v) (size_ v) ;;
        on_world (std_move_backward first last d_last) ;;;
        r <- RawMemory_at (data_ v) pos_index ;;
        on_world (assign_at ByMove r x))
       (on_world destroy_local) ;;;
     on_world destroy_local) ;;;
  set_size (wrap (size_ v + 1)) ;;;
  RawMemory_plus (data_ v) pos_index.

(** [iterator Emplace(const_iterator pos, Args&&... args)] *)
Definition Emplace (pos : ptr) (k : how) (x : T) : M Obj ptr :=
  b <- begin ;;
  e <- end_ ;;
  c1 <- ptr_le b pos ;;
  c2 <- ptr_le pos e ;;
  assert (c1 && c2) ;;;
  v <- this ;;
  if size_ v =? Capacity v then EmplaceWithRealloc pos k x
  else EmplaceWithoutRealloc pos k x.

(** [Insert(pos, const T&)] and [Insert(pos, T&&)] *)
Definition Insert_copy (pos : ptr) (value : T) : M Obj ptr := Emplace pos ByCopy value.
Definition Insert_move (pos : ptr) (value : T) : M Obj ptr := Emplace pos ByMove value.

(** [T& EmplaceBack(Args&&... args)] *)
Definition EmplaceBack (k : how) (x : T) : M Obj ptr :=
  e <- cend ;;
  Emplace e k x.

(** [PushBack(const T&)] and [PushBack(T&&)] *)
Definition PushBack_copy (value : T) : M Obj unit := EmplaceBack ByCopy value ;;; ret tt.
Definition PushBack_move (value : T) : M Obj unit := EmplaceBack ByMove value ;;; ret tt.

(** [iterator Erase(const_iterator pos)] *)
Definition Erase (pos : ptr) : M Obj ptr :=
  b <- begin ;;
  e <- end_ ;;
  c1 <- ptr_le b pos ;;
  c2 <- ptr_lt pos e ;;
  assert (c1 && c2) ;;;
  v <- this ;;
  cb <- cbegin ;;
  pos_index <- ptr_diff pos cb ;;
  first <- RawMemory_plus (data_ v) pos_index ;;
  last <- end_ ;;
  d_first <- RawMemory_plus (data_ v) pos_index ;;
  on_world (std_move (first +ₚ 1) last d_first) ;;;
  PopBack ;;;
  RawMemory_plus (data_ v) pos_index.

(** [T& operator[](size_t index)] *)
Definition Vector_at (index : N) : M Obj ptr :=
  v <- this ;;
  assert (index <? size_ v) ;;;
  RawMemory_at (data_ v) index.

(** [Vector& operator=(const Vector& rhs)].  The conditional expression
    evaluates one of its two branches. *)
Definition Vector_copy_assign (rhs : operand Vector) : M Obj unit :=
  match rhs with
  | Self => ret tt
  | Other rhs =>
      v <- this ;;
      (if RawMemory_Capacity (data_ v) <? size_ rhs then
         rhs_copy <- on_world (Vector_copy_ctor rhs) ;;
         o <- Vector_Swap (Other rhs_copy) ;;
         match o with
         | Other rhs_copy' => on_world (Vector_dtor rhs_copy')
         | Self => ret tt
         end
       else
         last <- RawMemory_plus (data_ rhs) (N.min (size_ rhs) (size_ v)) ;;
         on_world (std_copy (GetAddress (data_ rhs)) last (GetAddress (data_ v))) ;;;
         if size_ rhs <? size_ v then
           p <- RawMemory_plus (data_ v) (size_ rhs) ;;
           on_world (destroy_n p (size_ v - size_ rhs)) ;;;
           ret tt
         else
           from <- RawMemory_plus (data_ rhs) (size_ v) ;;
           to <- RawMemory_plus (data_ v) (size_ v) ;;
           on_world (uninitialized_copy_n from (size_ rhs - size_ v) to) ;;;
           ret tt) ;;;
      set_size (size_ rhs)
  end.

(** ** Observations *)

(** The values of the [n] live objects starting at [p], if they are all
    there. *)
Fixpoint live_range (h : gmap addr (list (option T))) (p : ptr) (n : nat)
    : option (list T) :=
  match n with
  | O => Some []
  | S n' =>
      match peek h p with
      | Some (Some x) =>
          match live_range h (p +ₚ 1) n' with
          | Some l => Some (x :: l)
          | None => None
          end
      | _ => None
      end
  end.

(** The elements of a sequence, in order. *)
Definition contents (v : Vector) (w : World) : option (list T) :=
  live_range (heap w) (buffer_ (data_ v)) (N.to_nat (size_ v)).

(** Number of slots of the block a storage owner points to. *)
Definition slots (rm : RawMemory) (w : World) : N :=
  match base (buffer_ rm) with
  | Some a =>
      match heap w !! a with
      | Some blk => N.of_nat (length blk)
      | None => 0
      end
  | None => 0
  end.

(** A storage owner as [Allocate] makes them: null with capacity zero, or the
    start of a live block obtained for its capacity. *)
Definition raw_ok (rm : RawMemory) (w : World) : bool :=
  (offset (buffer_ rm) =? 0) &&
  match base (buffer_ rm) with
  | None => capacity_ rm =? 0
  | Some a =>
      negb (capacity_ rm =? 0) &&
      bool_decide (is_Some (heap w !! a)) &&
      (slots rm w =? wrap (capacity_ rm * sizeof) / sizeof) &&
      (wrap (capacity_ rm * sizeof) <=? PTRDIFF_MAX)
  end.

(** A well-formed sequence: its storage is well-formed and the first [size_]
    slots hold live objects. *)
Definition vec_ok (v : Vector) (w : World) : bool :=
  raw_ok (data_ v) w &&
  (size_ v <=? slots (data_ v) w) &&
  bool_decide (is_Some (contents v w)).

End Memory.

Global Arguments World T : clear implicits.
Global Arguments Obj T : clear implicits.

(** ** Relations between worlds used to state frame properties *)

Section Relations.
Context {T : Type} `{Element T}.

Definition is_live (h : gmap addr (list (option T))) (q : ptr) : Prop :=
  ∃ x, peek h q = Some (Some x).

(** Same blocks, of the same lengths. *)
Definition same_shape (h h' : gmap addr (list (option T))) : Prop :=
  ∀ a, length <$> (h' !! a) = length <$> (h !! a).

(** [q] is one of the [n] slots starting at [p]. *)
Definition in_range (p : ptr) (n : nat) (q : ptr) : Prop :=
  base q = base p ∧ offset p <= offset q < offset p + N.of_nat n.

(** Only slots in [P] were written. *)
Definition touch (P : ptr → Prop) (w w' : World T) : Prop :=
  same_shape (heap w) (heap w') ∧
  ∀ q, ¬ P q → peek (heap w') q = peek (heap w) q.

(** No block appeared or vanished, and live objects stayed live. *)
Definition keeps_live (w w' : World T) : Prop :=
  same_shape (heap w) (heap w') ∧
  ∀ q, is_live (heap w) q → is_live (heap w') q.

(** Two sequences do not share a block. *)
Definition apart (r v : Vector) : Prop :=
  ∀ a, base (buffer_ (data_ r)) = Some a → base (buffer_ (data_ v)) ≠ Some a.

(** Live objects outside the array of [dst] stayed live. *)
Definition stays_live_off (dst : ptr) (w w' : World T) : Prop :=
  ∀ q, base q ≠ base dst → is_live (heap w) q → is_live (heap w') q.

(** Blocks outside [A] are untouched. *)
Definition outside (A : addr → Prop) (w w' : World T) : Prop :=
  ∀ b, ¬ A b → heap w' !! b = heap w !! b.

(** The roll-back of a failed construction loop leaves [j] constructions
    followed by [j] destructions in the log. *)
Definition rolled_back (k : how) (n : nat) (w w' : World T) : Prop :=
  ∃ j, (j < n)%nat ∧
       log w' = log w ++ replicate j (EvConstruct k) ++ replicate j EvDestroy.

(** The way [InitializeDataUsingOtherData] relocates objects of type [T]. *)
Definition relocation_kind : how :=
  if is_nothrow_move_constructible || negb is_copy_constructible
  then ByMove else ByCopy.

(** Well-formed storage, as a proposition. *)
Inductive raw_view (rm : RawMemory) (w : World T) : Prop :=
  | RawNull :
      buffer_ rm = nullptr → capacity_ rm = 0 → raw_view rm w
  | RawBlock a blk :
      buffer_ rm = Ptr (Some a) 0 →
      capacity_ rm ≠ 0 →
      heap w !! a = Some blk →
      N.of_nat (length blk) = wrap (capacity_ rm * sizeof) / sizeof →
      wrap (capacity_ rm * sizeof) <= PTRDIFF_MAX →
      raw_view rm w.

(** Number of allocations in a log. *)
Fixpoint allocs (l : list event) : nat :=
  match l with
  | [] => 0
  | EvAlloc _ :: l' => S (allocs l')
  | _ :: l' => allocs l'
  end.

(** No allocation happened. *)
Definition quiet (w w' : World T) : Prop := allocs (log w') = allocs (log w).

(** Nothing happened outside block [a] that a failed reallocation into [a]
    could not undo by freeing [a]: blocks keep their shape, live objects
    elsewhere stay live, and they are untouched when relocation copies. *)
Definition confined (a : addr) (w w' : World T) : Prop :=
  same_shape (heap w) (heap w') ∧
  stays_live_off (Ptr (Some a) 0) w w' ∧
  (relocation_kind = ByCopy → outside (eq a) w w').

(** [confined], with the heap outside [a] untouched as soon as the element
    type can be copied or moves without throwing. *)
Definition undoable (a : addr) (w w' : World T) : Prop :=
  same_shape (heap w) (heap w') ∧
  stays_live_off (Ptr (Some a) 0) w w' ∧
  (is_copy_constructible = true ∨ is_nothrow_move_constructible = true →
   outside (eq a) w w').

(** What [RawMemory(n)] did: nothing for [n = 0], otherwise a fresh block of
    raw slots. *)
Definition allocated (n : N) (rm : RawMemory) (w w' : World T) : Prop :=
  capacity_ rm = n ∧
  ((n = 0 ∧ buffer_ rm = nullptr ∧ w' = w) ∨
   (n ≠ 0 ∧ ∃ a,
      buffer_ rm = Ptr (Some a) 0 ∧
      heap w !! a = None ∧
      heap w' = <[a := replicate (N.to_nat (wrap (n * sizeof) / sizeof)) None]> (heap w) ∧
      wrap (n * sizeof) <= PTRDIFF_MAX ∧
      log w' = log w ++ [EvAlloc (wrap (n * sizeof))])).

(** Only blocks in [A] were written, and no block appeared or vanished. *)
Definition inside (A : addr → Prop) (w w' : World T) : Prop :=
  outside A w w' ∧ same_shape (heap w) (heap w').

(** The block a sequence owns. *)
Definition own (v : Vector) (b : addr) : Prop := base (buffer_ (data_ v)) = Some b.

(** What a call on a sequence may do to the heap, [v] being the sequence
    before and [v'] after: every address that is neither the block the
    sequence had nor the block it has now is as before (a block there is
    unchanged, and where there was none there is none); and a block the
    sequence gave up has been freed. *)
Definition blocks_ok (v v' : Vector) (w w' : World T) : Prop :=
  (∀ b, ¬ own v b → ¬ own v' b → heap w' !! b = heap w !! b) ∧
  (∀ b, own v b → ¬ own v' b → heap w' !! b = None).

(** What [~RawMemory()] did. *)
Definition released (rm : RawMemory) (w w' : World T) : Prop :=
  (buffer_ rm = nullptr ∧ w' = w) ∨
  (∃ a, buffer_ rm = Ptr (Some a) 0 ∧ is_Some (heap w !! a) ∧
        heap w' = delete a (heap w) ∧ log w' = log w ++ [EvFree]).

End Relations.

(** ** Calling sequences *)

(** The doubling chain 1, 2, 4, 8, ...: its smallest value that is at least
    [n], and the number of steps it takes to get there from an empty
    sequence. *)
Definition chain (n : N) : N := if n =? 0 then 0 else 2 ^ N.log2_up n.
Definition reallocations (n : N) : nat :=
  if n =? 0 then 0%nat else S (N.to_nat (N.log2_up n)).

Section Calls.
Context {T : Type} `{Element T}.

(** Appending the elements of a list one at a time. *)
Fixpoint EmplaceBack_all (xs : list (how * T)) : M (Obj T) unit :=
  match xs with
  | [] => ret tt
  | (k, x) :: xs' => EmplaceBack k x ;;; EmplaceBack_all xs'
  end.

(** The public member functions that modify a sequence. *)
Inductive method :=
  | MCopyAssign (rhs : operand Vector)
  | MMoveAssign (rhs : operand Vector)
  | MSwap (other : operand Vector)
  | MPushBackCopy (x : T)
  | MPushBackMove (x : T)
  | MEmplaceBack (k : how) (x : T)
  | MPopBack
  | MResize (n : N)
  | MReserve (n : N)
  | MEmplace (pos : ptr) (k : how) (x : T)
  | MInsertCopy (pos : ptr) (x : T)
  | MInsertMove (pos : ptr) (x : T)
  | MErase (pos : ptr).

(** A call; the result is what the reference argument has become. *)
Definition invoke (m : method) : M (Obj T) (operand Vector) :=
  match m with
  | MCopyAssign rhs => Vector_copy_assign rhs ;;; ret rhs
  | MMoveAssign rhs => Vector_move_assign rhs
  | MSwap other => Vector_Swap other
  | MPushBackCopy x => PushBack_copy x ;;; ret Self
  | MPushBackMove x => PushBack_move x ;;; ret Self
  | MEmplaceBack k x => EmplaceBack k x ;;; ret Self
  | MPopBack => PopBack ;;; ret Self
  | MResize n => Resize n ;;; ret Self
  | MReserve n => Reserve n ;;; ret Self
  | MEmplace pos k x => Emplace pos k x ;;; ret Self
  | MInsertCopy pos x => Insert_copy pos x ;;; ret Self
  | MInsertMove pos x => Insert_move pos x ;;; ret Self
  | MErase pos => Erase pos ;;; ret Self
  end.

(** Two sequences own different blocks. *)
Definition apartb (r v : Vector) : bool :=
  match base (buffer_ (data_ r)), base (buffer_ (data_ v)) with
  | Some a, Some b => negb (Pos.eqb a b)
  | _, _ => true
  end.

(** A reference argument designates the object itself or another
    well-formed sequence. *)
Definition operand_ok (o : operand Vector) (v : Vector) (w : World T) : bool :=
  match o with
  | Self => true
  | Other r => vec_ok r w && apartb r v
  end.

Definition method_ok (m : method) (v : Vector) (w : World T) : bool :=
  match m with
  | MCopyAssign o | MMoveAssign o | MSwap o => operand_ok o v w
  | _ => true
  end.

(** The invariant of the specification. *)
Definition invariant (v : Vector) (w : World T) : Prop :=
  vec_ok v w = true ∧ 0 <= size_ v <= Capacity v.

(** The byte count [n * sizeof(T)] of a block for [n] objects is
    representable in [size_t], so that [Allocate(n)] asks for a block of [n]
    slots and not for one of the wrapped-around size. *)
Definition fits (n : N) : bool := n * sizeof <? SIZE_MOD.

(** A sequence in good standing: well-formed, with a block as large as its
    capacity says. *)
Definition sound (v : Vector) (w : World T) : bool :=
  vec_ok v w && fits (Capacity v).

(** A position in the range [begin(), begin() + n] of a sequence. *)
Definition within (pos : ptr) (v : Vector) (n : N) : bool :=
  bool_decide (base pos = base (buffer_ (data_ v))) && (offset pos <=? n).

Definition operand_valid (o : operand Vector) (v : Vector) (w : World T) : bool :=
  match o with
  | Self => true
  | Other r => sound r w && apartb r v
  end.

(** The arguments of a call meet the preconditions the code asserts or
    relies on: positions inside the sequence, [PopBack] on a sequence that is
    not empty, sizes whose byte count is representable, reference arguments
    that are sequences of their own. *)
Definition method_valid (m : method) (v : Vector) (w : World T) : bool :=
  match m with
  | MCopyAssign o | MMoveAssign o | MSwap o => operand_valid o v w
  | MPushBackCopy _ | MPushBackMove _ | MEmplaceBack _ _ => true
  | MPopBack => negb (size_ v =? 0)
  | MResize n | MReserve n => fits n
  | MEmplace pos _ _ | MInsertCopy pos _ | MInsertMove pos _ => within pos v (size_ v)
  | MErase pos => within pos v (size_ v) && negb (offset pos =? size_ v)
  end.

End Calls.

Global Arguments method T : clear implicits.

(** ** Element types and states used as examples *)

(** [int]: trivially copyable. *)
Global Program Instance int_element : Element N := {|
  sizeof := 4;
  value_init := 0;
  moved_from := fun x => x;
  is_nothrow_move_constructible := true;
  is_copy_constructible := true;
|}.
Next Obligation. reflexivity. Qed.

(** A string-like type: copying may throw, and so may moving; a moved-from
    string is empty. *)
Global Program Instance text_element : Element (list N) := {|
  sizeof := 32;
  value_init := [];
  moved_from := fun _ => [];
  is_nothrow_move_constructible := false;
  is_copy_constructible := true;
|}.
Next Obligation. reflexivity. Qed.

(** A move-only handle whose move constructor may throw; a moved-from handle
    is null. *)
Global Program Instance handle_element : Element (option N) := {|
  sizeof := 8;
  value_init := None;
  moved_from := fun _ => None;
  is_nothrow_move_constructible := false;
  is_copy_constructible := false;
|}.
Next Obligation. reflexivity. Qed.

(** No action throws. *)
Definition never : nat → bool := fun _ => false.
(** Only the [k]-th fallible action throws. *)
Definition only (k : nat) : nat → bool := fun n => Nat.eqb n k.

(** A world with one block at address 1. *)
Definition one_block {T} (blk : list (option T)) (f : nat → bool) : World T :=
  {| heap := {[ 1%positive := blk ]}; fuse := f; tick := 0; log := [] |}.

(** A sequence of [n] elements in the block at address [a], of capacity [c]. *)
Definition seq_at (a : addr) (c n : N) : Vector :=
  {| data_ := {| buffer_ := Ptr (Some a) 0; capacity_ := c |}; size_ := n |}.

(** A world with two blocks: address 1 and address 2. *)
Definition two_blocks {T} (b1 b2 : list (option T)) (f : nat → bool) : World T :=
  {| heap := <[ 2%positive := b2 ]> {[ 1%positive := b1 ]};
     fuse := f; tick := 0; log := [] |}.

(** Two elements in a block of capacity 2: a full sequence. *)
Definition full_seq : Vector := seq_at 1%positive 2 2.
Definition full_world {T} (a b : T) (f : nat → bool) : World T :=
  one_block [Some a; Some b] f.

(** Three integers in a block of capacity 4. *)
Definition spare_seq : Vector := seq_at 1%positive 4 3.
Definition spare_world : World N :=
  one_block [Some 10; Some 20; Some 30; None] never.

(** Two sequences of integers side by side: [10; 20] and [30]. *)
Definition left_seq : Vector := seq_at 1%positive 2 2.
Definition right_seq : Vector := seq_at 2%positive 1 1.
Definition pair_world : World N :=
  two_blocks [Some 10; Some 20] [Some 30] never.

(** A heap without blocks. *)
Definition empty_world {T} (f : nat → bool) : World T :=
  {| heap := ∅; fuse := f; tick := 0; log := [] |}.

(** Three strings in a block of capacity 4. *)
Definition words_seq : Vector := seq_at 1%positive 4 3.
Definition words_world (f : nat → bool) : World (list N) :=
  one_block [Some [1]; Some [2]; Some [3]; None] f.

(** * Reasoning rules for the monad *)

Section Rules.
Context {S : Type}.
Implicit Types s : S.

Lemma post_ret {A} (a : A) s Q E : Q a s → post (ret a) s Q E.
Proof. done. Qed.

Lemma post_bind {A B} (m : M S A) (k : A → M S B) s Qm Em Q E :
  post m s Qm Em →
  (∀ a s1, Qm a s1 → post (k a) s1 Q E) →
  (∀ e s1, Em e s1 → E e s1) →
  post (bind m k) s Q E.
Proof.
  unfold post, bind. intros Hm HQ HE.
  destruct (m s) as [a s1|e s1|]; [by apply HQ | by apply HE | done].
Qed.

Lemma post_conseq {A} (m : M S A) s Q Q' E E' :
  post m s Q E →
  (∀ a s', Q a s' → Q' a s') →
  (∀ e s', E e s' → E' e s') →
  post m s Q' E'.
Proof.
  unfold post. intros Hm HQ HE. destruct (m s); eauto.
Qed.

Lemma post_and {A} (m : M S A) s Q1 Q2 E1 E2 :
  post m s Q1 E1 → post m s Q2 E2 →
  post m s (fun a s' => Q1 a s' ∧ Q2 a s') (fun e s' => E1 e s' ∧ E2 e s').
Proof.
  unfold post. intros H1 H2. destruct (m s); eauto.
Qed.

Lemma post_assert (b : bool) s Q E : (b = true → Q tt s) → post (assert b) s Q E.
Proof.
  unfold post, assert. intros Hb. destruct b; eauto.
Qed.

Lemma post_get s Q E : Q s s → post get s Q E.
Proof. done. Qed.

Lemma post_on_exception {A} (m : M S A) (h : M S unit) s Qm Em Q E :
  post m s Qm Em →
  (∀ a s1, Qm a s1 → Q a s1) →
  (∀ e s1, Em e s1 → post h s1 (fun _ s2 => E e s2) (fun _ _ => True)) →
  post (on_exception m h) s Q E.
Proof.
  unfold post, on_exception. intros Hm HQ HE.
  destruct (m s) as [a s1|e s1|]; [by apply HQ | | done].
  specialize (HE _ _ Hm). by destruct (h s1).
Qed.

Lemma post_Ok {A} (m : M S A) s Q E a s' :
  post m s Q E → m s = Ok a s' → Q a s'.
Proof. unfold post. intros Hp Heq. by rewrite Heq in Hp. Qed.

Lemma post_Raise {A} (m : M S A) s Q E e s' :
  post m s Q E → m s = Raise e s' → E e s'.
Proof. unfold post. intros Hp Heq. by rewrite Heq in Hp. Qed.

Lemma post_intro {A} (m : M S A) s (Q : A → S → Prop) (E : exn → S → Prop) :
  (∀ a s', m s = Ok a s' → Q a s') →
  (∀ e s', m s = Raise e s' → E e s') →
  post m s Q E.
Proof. unfold post. intros HQ HE. destruct (m s); eauto. Qed.

End Rules.

Lemma post_on_world {V W A} (m : M W A) (v : V) (w : W) Q E :
  post m w (fun a w' => Q a (v, w')) (fun e w' => E e (v, w')) →
  post (on_world m) (v, w) Q E.
Proof.
  unfold post, on_world. simpl. intros Hm. destruct (m w); eauto.
Qed.

(** Stepping through a computation: the first action is handled with a known
    triple, the continuation and the exceptional exit remain. *)
Ltac step_with lem :=
  eapply post_bind; [ eapply lem | cbv beta | cbv beta ].
Ltac step_world lem :=
  eapply post_bind; [ eapply post_on_world, lem | cbv beta | cbv beta ].

(** * The heap *)

Section Heap.
Context {T : Type} `{Element T}.
Implicit Types h : gmap addr (list (option T)).
Implicit Types p q : ptr.
Implicit Types w : World T.

Lemma ptr_eq p q : base p = base q → offset p = offset q → p = q.
Proof. destruct p, q; simpl; congruence. Qed.

Lemma ptr_add_0 p : p +ₚ 0 = p.
Proof. apply ptr_eq; simpl; [done | lia]. Qed.

Lemma ptr_add_add p a b : p +ₚ a +ₚ b = p +ₚ (a + b).
Proof. apply ptr_eq; simpl; [done | lia]. Qed.

Lemma peek_poke h p x q :
  peek (poke h p x) q =
    if decide (p = q) then (fun _ => x) <$> peek h p else peek h q.
Proof.
  unfold peek, poke. destruct p as [[a|] i], q as [[b|] j]; cbn [base offset].
  - rewrite lookup_alter. destruct (decide (a = b)) as [->|Hab].
    + destruct (h !! b) as [blk|] eqn:Hb; cbn [fmap option_fmap option_map].
      * destruct (decide (i = j)) as [->|Hij].
        -- rewrite decide_True by done.
           destruct (blk !! N.to_nat j) eqn:Hj; cbn [fmap option_fmap option_map].
           ++ apply list_lookup_insert_eq. by eapply lookup_lt_Some.
           ++ rewrite list_insert_ge; [done|]. by apply lookup_ge_None.
        -- rewrite decide_False by congruence.
           apply list_lookup_insert_ne. lia.
      * by case_decide.
    + rewrite decide_False by congruence. done.
  - by rewrite decide_False.
  - by rewrite decide_False.
  - by case_decide.
Qed.

Lemma peek_poke_eq h p x : is_Some (peek h p) → peek (poke h p x) p = Some x.
Proof.
  intros [y Hy]. rewrite peek_poke, decide_True by done. by rewrite Hy.
Qed.

Lemma peek_poke_ne h p x q : p ≠ q → peek (poke h p x) q = peek h q.
Proof. intros. by rewrite peek_poke, decide_False. Qed.

Lemma same_shape_refl h : same_shape h h.
Proof. done. Qed.

Lemma same_shape_trans h1 h2 h3 :
  same_shape h1 h2 → same_shape h2 h3 → same_shape h1 h3.
Proof. intros H12 H23 a. by rewrite H23, H12. Qed.

Lemma same_shape_poke h p x : same_shape h (poke h p x).
Proof.
  intros a. unfold poke. destruct (base p) as [b|]; [|done].
  rewrite lookup_alter. destruct (decide (b = a)) as [->|]; [|done].
  destruct (h !! a); simpl; [|done]. by rewrite length_insert.
Qed.

Lemma touch_refl P w : touch P w w.
Proof. split; [apply same_shape_refl | done]. Qed.

Lemma touch_trans P w1 w2 w3 : touch P w1 w2 → touch P w2 w3 → touch P w1 w3.
Proof.
  intros [S1 F1] [S2 F2]. split; [by eapply same_shape_trans|].
  intros q Hq. by rewrite F2, F1.
Qed.

Lemma touch_mono (P P' : ptr → Prop) w w' :
  (∀ q, P q → P' q) → touch P w w' → touch P' w w'.
Proof. intros HP [S1 F1]. split; [done|]. intros q Hq. apply F1. naive_solver. Qed.

Lemma touch_heap_eq P w w' :
  heap w' = heap w → touch P w w'.
Proof. intros Hh. split; rewrite Hh; [apply same_shape_refl | done]. Qed.

Lemma touch_poke P w w' p x :
  P p → heap w' = poke (heap w) p x → touch P w w'.
Proof.
  intros HP Hh. split; rewrite Hh; [apply same_shape_poke|].
  intros q Hq. apply peek_poke_ne. congruence.
Qed.

Lemma keeps_live_refl w : keeps_live w w.
Proof. split; [apply same_shape_refl | done]. Qed.

Lemma keeps_live_trans w1 w2 w3 :
  keeps_live w1 w2 → keeps_live w2 w3 → keeps_live w1 w3.
Proof.
  intros [S1 L1] [S2 L2]. split; [by eapply same_shape_trans | eauto].
Qed.

Lemma keeps_live_heap_eq w w' : heap w' = heap w → keeps_live w w'.
Proof. intros Hh. split; rewrite Hh; [apply same_shape_refl | done]. Qed.

Lemma keeps_live_poke w w' p x :
  heap w' = poke (heap w) p (Some x) → keeps_live w w'.
Proof.
  intros Hh. split; rewrite Hh; [apply same_shape_poke|].
  intros q [y Hy]. unfold is_live. rewrite peek_poke.
  destruct (decide (p = q)) as [->|]; [|by exists y].
  exists x. by rewrite Hy.
Qed.

(** Blocks none of whose slots may have been written are unchanged. *)
Lemma touch_block P w w' a :
  touch P w w' → (∀ q, P q → base q ≠ Some a) → heap w' !! a = heap w !! a.
Proof.
  intros [Hs Hf] HP. specialize (Hs a).
  destruct (heap w' !! a) as [b'|] eqn:Hb', (heap w !! a) as [b|] eqn:Hb;
    simplify_eq/=; [|done].
  f_equal. apply list_eq. intros i.
  specialize (Hf (Ptr (Some a) (N.of_nat i))).
  unfold peek in Hf. simpl in Hf. rewrite Hb', Hb, Nat2N.id in Hf.
  apply Hf. intros Hq. by eapply HP.
Qed.

Lemma allocs_app l1 l2 : allocs (l1 ++ l2) = (allocs l1 + allocs l2)%nat.
Proof.
  induction l1 as [|e l1 IH]; [done|]. destruct e; simpl; by rewrite ?IH.
Qed.

Lemma allocs_replicate n e :
  (∀ b, e ≠ EvAlloc b) → allocs (replicate n e) = 0%nat.
Proof.
  intros He. induction n as [|n IH]; [done|]. destruct e; simpl; try done.
  by destruct (He bytes).
Qed.

Lemma quiet_refl w : quiet w w.
Proof. done. Qed.

Lemma quiet_trans w1 w2 w3 : quiet w1 w2 → quiet w2 w3 → quiet w1 w3.
Proof. unfold quiet. congruence. Qed.

Lemma quiet_log w w' evs :
  log w' = log w ++ evs → allocs evs = 0%nat → quiet w w'.
Proof. unfold quiet. intros -> He. rewrite allocs_app. lia. Qed.

Lemma quiet_log_eq w w' : log w' = log w → quiet w w'.
Proof. unfold quiet. by intros ->. Qed.

Lemma quiet_replicate w w' n e :
  log w' = log w ++ replicate n e → (∀ b, e ≠ EvAlloc b) → quiet w w'.
Proof. intros Hl He. eapply quiet_log; [done|]. by apply allocs_replicate. Qed.

Lemma same_shape_slots h h' (rm : RawMemory) w w' :
  heap w = h → heap w' = h' → same_shape h h' → slots rm w' = slots rm w.
Proof.
  intros <- <- Hs. unfold slots. destruct (base (buffer_ rm)) as [a|]; [|done].
  specialize (Hs a). destruct (heap w' !! a), (heap w !! a); simplify_eq/=; [|done].
  by f_equal.
Qed.

End Heap.

(** * Element-level actions and the allocator *)

Section Primitives.
Context {T : Type} `{Element T}.
Implicit Types h : gmap addr (list (option T)).
Implicit Types p q dst src : ptr.
Implicit Types w : World T.

Ltac crush :=
  unfold post, bind, ret, assert, may_throw, emit, store, read,
    set_heap, record, advance; simpl.

Lemma read_post p w :
  post (read p) w
    (fun x w' => w' = w ∧ peek (heap w) p = Some (Some x))
    (fun _ _ => False).
Proof. crush. by destruct (peek (heap w) p) as [[x|]|]. Qed.

Lemma construct_at_post k p x w :
  post (construct_at k p x) w
    (fun _ w' => is_Some (peek (heap w) p) ∧
                 heap w' = poke (heap w) p (Some x) ∧
                 log w' = log w ++ [EvConstruct k])
    (fun _ w' => heap w' = heap w ∧ log w' = log w ∧ ctor_throws k = true).
Proof.
  unfold construct_at. crush.
  destruct (ctor_throws k); crush;
    [destruct (fuse w (tick w)); crush; [done|] |];
    destruct (peek (heap w) p); crush; eauto.
Qed.

Lemma construct_local_post k w :
  post (construct_local k) w
    (fun _ w' => heap w' = heap w ∧ log w' = log w ++ [EvConstruct k])
    (fun _ w' => heap w' = heap w ∧ log w' = log w).
Proof.
  unfold construct_local. crush.
  destruct (ctor_throws k); crush; [destruct (fuse w (tick w)); crush|]; done.
Qed.

Lemma destroy_local_post w :
  post destroy_local w
    (fun _ w' => heap w' = heap w ∧ log w' = log w ++ [EvDestroy])
    (fun _ _ => False).
Proof. done. Qed.

Lemma destroy_at_post p w :
  post (destroy_at p) w
    (fun _ w' => is_live (heap w) p ∧
                 heap w' = poke (heap w) p None ∧
                 log w' = log w ++ [EvDestroy])
    (fun _ _ => False).
Proof.
  unfold destroy_at, is_live. crush.
  destruct (peek (heap w) p) as [[x|]|] eqn:Hp; crush; rewrite ?Hp; crush; eauto.
Qed.

Lemma copy_construct_post dst src w :
  post (copy_construct dst src) w
    (fun _ w' => ∃ x, peek (heap w) src = Some (Some x) ∧
                 is_Some (peek (heap w) dst) ∧
                 heap w' = poke (heap w) dst (Some x) ∧
                 log w' = log w ++ [EvConstruct ByCopy])
    (fun _ w' => heap w' = heap w ∧ log w' = log w).
Proof.
  unfold copy_construct. step_with read_post.
  - intros x w1 [-> Hx]. eapply post_conseq; [apply construct_at_post| |].
    + intros _ w' (? & ? & ?). eauto.
    + intros _ w' (? & ? & ?). eauto.
  - done.
Qed.

Lemma move_construct_post dst src w :
  post (move_construct dst src) w
    (fun _ w' => ∃ x, peek (heap w) src = Some (Some x) ∧
                 is_Some (peek (heap w) dst) ∧
                 heap w' = poke (poke (heap w) dst (Some x)) src (Some (moved_from x)) ∧
                 log w' = log w ++ [EvConstruct ByMove])
    (fun _ w' => heap w' = heap w ∧ log w' = log w ∧
                 is_nothrow_move_constructible = false).
Proof.
  unfold move_construct. step_with read_post.
  - intros x w1 [-> Hx]. step_with construct_at_post.
    + intros _ w2 (Hd & Hh & Hl). crush.
      destruct (peek (heap w2) src) eqn:Hs; crush; [|done].
      exists x. by rewrite Hh.
    + intros _ w2 (? & ? & Hk). simpl in Hk. repeat split; try done.
      by destruct is_nothrow_move_constructible.
  - done.
Qed.

Lemma assign_at_post k dst x w :
  post (assign_at k dst x) w
    (fun _ w' => is_live (heap w) dst ∧
                 heap w' = poke (heap w) dst (Some x) ∧
                 log w' = log w ++ [EvAssign k])
    (fun _ w' => heap w' = heap w ∧ log w' = log w).
Proof.
  unfold assign_at, is_live. crush.
  destruct (peek (heap w) dst) as [[y|]|] eqn:Hd; crush; try done.
  destruct (fuse w (tick w)); crush; [done|].
  rewrite Hd. crush. eauto.
Qed.

Lemma copy_assign_post dst src w :
  post (copy_assign dst src) w
    (fun _ w' => ∃ x, peek (heap w) src = Some (Some x) ∧
                 is_live (heap w) dst ∧
                 heap w' = poke (heap w) dst (Some x) ∧
                 log w' = log w ++ [EvAssign ByCopy])
    (fun _ w' => heap w' = heap w ∧ log w' = log w).
Proof.
  unfold copy_assign. step_with read_post.
  - intros x w1 [-> Hx]. eapply post_conseq; [apply assign_at_post| |].
    + intros _ w' (? & ? & ?). eauto.
    + done.
  - done.
Qed.

Lemma move_assign_post dst src w :
  post (move_assign dst src) w
    (fun _ w' => ∃ x, peek (heap w) src = Some (Some x) ∧
                 is_live (heap w) dst ∧
                 heap w' = poke (poke (heap w) dst (Some x)) src (Some (moved_from x)) ∧
                 log w' = log w ++ [EvAssign ByMove])
    (fun _ w' => heap w' = heap w ∧ log w' = log w).
Proof.
  unfold move_assign. step_with read_post.
  - intros x w1 [-> Hx]. step_with assign_at_post.
    + intros _ w2 (Hd & Hh & Hl). crush.
      destruct (peek (heap w2) src) eqn:Hs; crush; [|done].
      exists x. by rewrite Hh.
    + done.
  - done.
Qed.

Lemma operator_new_post bytes w :
  post (operator_new bytes) w
    (fun p w' => ∃ a, p = Ptr (Some a) 0 ∧ heap w !! a = None ∧
                 heap w' = <[a := replicate (N.to_nat (bytes / sizeof)) None]> (heap w) ∧
                 bytes <= PTRDIFF_MAX ∧
                 log w' = log w ++ [EvAlloc bytes])
    (fun _ w' => heap w' = heap w ∧ log w' = log w).
Proof.
  unfold post, operator_new.
  destruct (PTRDIFF_MAX <? bytes) eqn:Hb; simpl; [done|].
  destruct (fuse w (tick w)); simpl; [done|].
  eexists. repeat split; try done.
  - apply not_elem_of_dom. apply is_fresh.
  - by apply N.ltb_ge.
Qed.

Lemma operator_delete_post p w :
  post (operator_delete p) w
    (fun _ w' => (p = nullptr ∧ w' = w) ∨
                 (∃ a, p = Ptr (Some a) 0 ∧ is_Some (heap w !! a) ∧
                       heap w' = delete a (heap w) ∧ log w' = log w ++ [EvFree]))
    (fun _ _ => False).
Proof.
  unfold post, operator_delete. destruct p as [[a|] i]; simpl.
  - destruct (N.eqb_spec i 0) as [->|]; [|done].
    destruct (heap w !! a) eqn:Ha; [|done]. right. exists a. eauto.
  - destruct (N.eqb_spec i 0) as [->|]; [|done]. by left.
Qed.

Lemma Allocate_post n w :
  post (Allocate n) w
    (fun p w' =>
       (n = 0 ∧ p = nullptr ∧ w' = w) ∨
       (n ≠ 0 ∧ ∃ a, p = Ptr (Some a) 0 ∧ heap w !! a = None ∧
          heap w' = <[a := replicate (N.to_nat (wrap (n * sizeof) / sizeof)) None]> (heap w) ∧
          wrap (n * sizeof) <= PTRDIFF_MAX ∧
          log w' = log w ++ [EvAlloc (wrap (n * sizeof))]))
    (fun _ w' => heap w' = heap w ∧ log w' = log w).
Proof.
  unfold Allocate. destruct (N.eqb_spec n 0) as [->|Hn].
  - apply post_ret. by left.
  - eapply post_conseq; [apply operator_new_post| |done].
    intros p w' (a & ? & ? & ? & ? & ?). right. split; [done|]. by exists a.
Qed.

End Primitives.

(** * Ranges of slots *)

Section Ranges.
Context {T : Type} `{Element T}.
Implicit Types h : gmap addr (list (option T)).
Implicit Types p q dst src : ptr.
Implicit Types w : World T.

Lemma in_range_0 p q : ¬ in_range p 0 q.
Proof. unfold in_range. lia. Qed.

Lemma in_range_S p n q : in_range p (S n) q ↔ q = p ∨ in_range (p +ₚ 1) n q.
Proof.
  unfold in_range, ptr_add. destruct p as [b i], q as [c j]; cbn [base offset].
  split.
  - intros [-> Hr]. destruct (decide (j = i)) as [->|]; [by left|right].
    split; [done|lia].
  - intros [Heq|[-> Hr]]; [simplify_eq|]; split; try done; lia.
Qed.

Lemma in_range_first p n : in_range p (S n) p.
Proof. apply in_range_S. by left. Qed.

Lemma in_range_next p n q : in_range (p +ₚ 1) n q → in_range p (S n) q.
Proof. intros. apply in_range_S. by right. Qed.

Lemma not_in_range_self p n : ¬ in_range (p +ₚ 1) n p.
Proof. unfold in_range, ptr_add. cbn [base offset]. lia. Qed.

Lemma in_range_base p n q : in_range p n q → base q = base p.
Proof. by intros [? _]. Qed.

Lemma in_range_mono p n m q : (n ≤ m)%nat → in_range p n q → in_range p m q.
Proof. unfold in_range. intros ? [? ?]. split; [done|lia]. Qed.

Lemma in_range_add p n q :
  in_range p n q ↔ ∃ i, (i < n)%nat ∧ q = p +ₚ N.of_nat i.
Proof.
  unfold in_range, ptr_add. destruct p as [b i], q as [c j]; cbn [base offset].
  split.
  - intros [-> Hr]. exists (N.to_nat (j - i)). split; [lia|]. f_equal. lia.
  - intros (k & Hk & Heq). simplify_eq. split; [done|lia].
Qed.

Lemma live_range_ext h h' p n :
  (∀ q, in_range p n q → peek h' q = peek h q) →
  live_range h' p n = live_range h p n.
Proof.
  revert p. induction n as [|n IH]; intros p Hq; [done|].
  cbn [live_range]. rewrite (Hq p) by apply in_range_first.
  rewrite (IH (p +ₚ 1)); [done|]. intros q Hr. by apply Hq, in_range_next.
Qed.

Lemma live_range_touch P w w' p n :
  touch P w w' → (∀ q, in_range p n q → ¬ P q) →
  live_range (heap w') p n = live_range (heap w) p n.
Proof.
  intros [_ Hf] HP. apply live_range_ext. intros q Hq. by apply Hf, HP.
Qed.

Lemma live_range_S h p n x l :
  peek h p = Some (Some x) → live_range h (p +ₚ 1) n = Some l →
  live_range h p (S n) = Some (x :: l).
Proof. intros Hp Hl. cbn [live_range]. by rewrite Hp, Hl. Qed.

Lemma live_range_S_inv h p n l :
  live_range h p (S n) = Some l →
  ∃ x l', l = x :: l' ∧ peek h p = Some (Some x) ∧ live_range h (p +ₚ 1) n = Some l'.
Proof.
  cbn [live_range]. destruct (peek h p) as [[x|]|]; try done.
  destruct (live_range h (p +ₚ 1) n) as [l'|]; [|done].
  intros [= <-]. eauto.
Qed.

Lemma live_range_length h p n l : live_range h p n = Some l → length l = n.
Proof.
  revert p l. induction n as [|n IH]; intros p l Hl.
  - by injection Hl as <-.
  - apply live_range_S_inv in Hl as (x & l' & -> & _ & Hl'). simpl.
    f_equal. by eapply IH.
Qed.

Lemma live_range_lookup h p n l i x :
  live_range h p n = Some l → l !! i = Some x →
  peek h (p +ₚ N.of_nat i) = Some (Some x).
Proof.
  revert p l i. induction n as [|n IH]; intros p l i Hl Hi.
  - injection Hl as <-. done.
  - apply live_range_S_inv in Hl as (y & l' & -> & Hp & Hl').
    destruct i as [|i]; simpl in Hi.
    + injection Hi as ->. by rewrite ptr_add_0.
    + replace (p +ₚ N.of_nat (S i)) with (p +ₚ 1 +ₚ N.of_nat i)
        by (rewrite ptr_add_add; f_equal; lia).
      by eapply IH.
Qed.

Lemma live_range_intro h p n l :
  length l = n →
  (∀ i x, l !! i = Some x → peek h (p +ₚ N.of_nat i) = Some (Some x)) →
  live_range h p n = Some l.
Proof.
  revert p l. induction n as [|n IH]; intros p l Hlen Hl.
  - by destruct l.
  - destruct l as [|x l]; [done|]. apply live_range_S.
    + specialize (Hl 0%nat x eq_refl). by rewrite ptr_add_0 in Hl.
    + apply IH; [by injection Hlen|]. intros i y Hi.
      specialize (Hl (S i) y Hi).
      by replace (p +ₚ N.of_nat (S i)) with (p +ₚ 1 +ₚ N.of_nat i) in Hl
        by (rewrite ptr_add_add; f_equal; lia).
Qed.

Lemma live_range_snoc h p n l x :
  live_range h p n = Some l → peek h (p +ₚ N.of_nat n) = Some (Some x) →
  live_range h p (S n) = Some (l ++ [x]).
Proof.
  intros Hl Hx. pose proof (live_range_length _ _ _ _ Hl) as Hlen.
  apply live_range_intro; [rewrite length_app; simpl; lia|].
  intros i y Hi. apply lookup_app_Some in Hi as [Hi|[Hge Hi]].
  - by eapply live_range_lookup.
  - apply list_lookup_singleton_Some in Hi as [Hi <-].
    by replace i with n by lia.
Qed.

Lemma live_range_is_live h p n :
  is_Some (live_range h p n) ↔ ∀ q, in_range p n q → is_live h q.
Proof.
  split.
  - intros [l Hl] q Hq. apply in_range_add in Hq as (i & Hi & ->).
    pose proof (live_range_length _ _ _ _ Hl) as Hlen.
    destruct (lookup_lt_is_Some_2 l i) as [x Hx]; [lia|].
    exists x. by eapply live_range_lookup.
  - revert p. induction n as [|n IH]; intros p Hq; [by eexists|].
    destruct (Hq p) as [x Hx]; [apply in_range_first|].
    destruct (IH (p +ₚ 1)) as [l Hl].
    { intros q Hr. by apply Hq, in_range_next. }
    exists (x :: l). by apply live_range_S.
Qed.

Lemma live_range_take h p n m l :
  (m ≤ n)%nat → live_range h p n = Some l → live_range h p m = Some (take m l).
Proof.
  intros Hm Hl. pose proof (live_range_length _ _ _ _ Hl) as Hlen.
  apply live_range_intro; [rewrite length_take; lia|].
  intros i x Hi. apply lookup_take_Some in Hi as [Hi ?].
  by eapply live_range_lookup.
Qed.

Lemma live_range_drop h p n m l :
  (m ≤ n)%nat → live_range h p n = Some l →
  live_range h (p +ₚ N.of_nat m) (n - m) = Some (drop m l).
Proof.
  intros Hm Hl. pose proof (live_range_length _ _ _ _ Hl) as Hlen.
  apply live_range_intro; [rewrite length_drop; lia|].
  intros i x Hi. rewrite lookup_drop in Hi.
  rewrite ptr_add_add.
  replace (N.of_nat m + N.of_nat i) with (N.of_nat (m + i)) by lia.
  by eapply live_range_lookup.
Qed.

Lemma live_range_app h p n m l1 l2 :
  live_range h p n = Some l1 →
  live_range h (p +ₚ N.of_nat n) m = Some l2 →
  live_range h p (n + m) = Some (l1 ++ l2).
Proof.
  intros H1 H2.
  pose proof (live_range_length _ _ _ _ H1) as Hlen1.
  pose proof (live_range_length _ _ _ _ H2) as Hlen2.
  apply live_range_intro; [rewrite length_app; lia|].
  intros i x Hi. apply lookup_app_Some in Hi as [Hi|[Hge Hi]].
  - by eapply live_range_lookup.
  - eapply live_range_lookup in Hi; [|done].
    rewrite ptr_add_add in Hi.
    by replace (N.of_nat n + N.of_nat (i - length l1)) with (N.of_nat i) in Hi by lia.
Qed.

End Ranges.

(** * The library algorithms *)

Section Loops.
Context {T : Type} `{Element T}.
Implicit Types h : gmap addr (list (option T)).
Implicit Types p q dst src first : ptr.
Implicit Types w : World T.

Lemma replicate_snoc {A} (n : nat) (x : A) : replicate n x ++ [x] = replicate (S n) x.
Proof. by rewrite <- replicate_cons_app. Qed.

Lemma keeps_live_move w w' dst src x y :
  heap w' = poke (poke (heap w) dst (Some x)) src (Some y) → keeps_live w w'.
Proof.
  intros Hh. eapply keeps_live_trans with (w2 := set_heap (poke (heap w) dst (Some x)) w).
  - by eapply keeps_live_poke.
  - by eapply keeps_live_poke.
Qed.

Lemma destroy_loop_post p n w :
  post (destroy_loop p n) w
    (fun _ w' => touch (in_range p n) w w' ∧
                 (∀ q, in_range p n q → is_live (heap w) q) ∧
                 (∀ q, in_range p n q → peek (heap w') q = Some None) ∧
                 log w' = log w ++ replicate n EvDestroy)
    (fun _ _ => False).
Proof.
  revert p w. induction n as [|n IH]; intros p w; cbn [destroy_loop].
  - apply post_ret. split; [apply touch_refl|].
    split; [by intros q ?%in_range_0|]. split; [by intros q ?%in_range_0|].
    by rewrite app_nil_r.
  - step_with destroy_at_post; [|done].
    intros _ w1 (Hlive & Hh & Hl).
    eapply post_conseq; [apply IH| |done].
    intros _ w' (Ht & Hlv & Hn & Hl'). cbv beta.
    assert (touch (in_range p (S n)) w w1) as Ht1
      by (eapply touch_poke; [apply in_range_first|done]).
    split; [|split; [|split]].
    + eapply touch_trans; [done|]. eapply touch_mono; [|done].
      apply in_range_next.
    + intros q [->|Hq]%in_range_S; [done|].
      destruct (Hlv q Hq) as [x Hx]. exists x.
      rewrite Hh, peek_poke_ne in Hx; [done|].
      intros ->. by eapply not_in_range_self.
    + intros q [->|Hq]%in_range_S; [|by apply Hn].
      destruct Ht as [_ Hf]. rewrite Hf by apply not_in_range_self.
      rewrite Hh. apply peek_poke_eq. destruct Hlive as [x ->]. by eexists.
    + rewrite Hl', Hl, <- app_assoc. done.
Qed.

Lemma destroy_n_post p n w :
  post (destroy_n p n) w
    (fun _ w' => touch (in_range p (N.to_nat n)) w w' ∧
                 (∀ q, in_range p (N.to_nat n) q → is_live (heap w) q) ∧
                 (∀ q, in_range p (N.to_nat n) q → peek (heap w') q = Some None) ∧
                 log w' = log w ++ replicate (N.to_nat n) EvDestroy)
    (fun _ _ => False).
Proof.
  unfold destroy_n. step_with destroy_loop_post; [|done].
  intros _ w' Hq. by apply post_ret.
Qed.

Lemma value_construct_loop_post p n w :
  post (value_construct_loop p n) w
    (fun _ w' => touch (in_range p n) w w' ∧
                 live_range (heap w') p n = Some (replicate n value_init) ∧
                 log w' = log w ++ replicate n (EvConstruct ByValueInit))
    (fun _ w' => touch (in_range p n) w w').
Proof.
  revert p w. induction n as [|n IH]; intros p w; cbn [value_construct_loop].
  - apply post_ret. split; [apply touch_refl|]. by rewrite app_nil_r.
  - step_with construct_at_post.
    + intros _ w1 (Hs & Hh & Hl).
      assert (touch (in_range p (S n)) w w1) as Ht1
        by (eapply touch_poke; [apply in_range_first|done]).
      eapply post_on_exception; [apply IH| |].
      * intros _ w' (Ht & Hv & Hl'). split; [|split].
        -- eapply touch_trans; [done|]. eapply touch_mono; [|done].
           apply in_range_next.
        -- apply live_range_S; [|done].
           destruct Ht as [_ Hf]. rewrite Hf by apply not_in_range_self.
           rewrite Hh. by apply peek_poke_eq.
        -- rewrite Hl', Hl, <- app_assoc. done.
      * intros e w2 Ht. cbv beta in Ht.
        eapply post_conseq; [apply destroy_at_post| |done].
        intros _ w3 (_ & Hh3 & _). cbv beta.
        eapply touch_trans; [done|]. eapply touch_trans.
        -- eapply touch_mono; [|done]. apply in_range_next.
        -- eapply touch_poke; [apply in_range_first|done].
    + intros e w1 (Hh & _). by apply touch_heap_eq.
Qed.

Lemma uninitialized_value_construct_n_post p n w :
  post (uninitialized_value_construct_n p n) w
    (fun _ w' => touch (in_range p (N.to_nat n)) w w' ∧
                 live_range (heap w') p (N.to_nat n)
                   = Some (replicate (N.to_nat n) value_init) ∧
                 log w' = log w ++ replicate (N.to_nat n) (EvConstruct ByValueInit))
    (fun _ w' => touch (in_range p (N.to_nat n)) w w').
Proof.
  unfold uninitialized_value_construct_n.
  step_with value_construct_loop_post; [|done].
  intros _ w' Hq. by apply post_ret.
Qed.

Lemma rolled_back_first k n w w' :
  log w' = log w → rolled_back k (S n) w w'.
Proof. intros Hl. exists 0%nat. split; [lia|]. by rewrite Hl, app_nil_r. Qed.

Lemma rolled_back_step k n w w1 w2 w3 :
  log w1 = log w ++ [EvConstruct k] →
  rolled_back k n w1 w2 →
  log w3 = log w2 ++ [EvDestroy] →
  rolled_back k (S n) w w3.
Proof.
  intros H1 (j & Hj & H2) H3. exists (S j). split; [lia|].
  rewrite H3, H2, H1, <- !app_assoc. f_equal. simpl. f_equal.
  by rewrite replicate_snoc.
Qed.

Lemma uninit_copy_loop_post src n dst w :
  post (uninit_copy_loop src n dst) w
    (fun _ w' => touch (in_range dst n) w w' ∧
                 log w' = log w ++ replicate n (EvConstruct ByCopy) ∧
                 (∀ q, in_range dst n q → is_live (heap w') q) ∧
                 (base src ≠ base dst →
                  ∃ l, live_range (heap w) src n = Some l ∧
                       live_range (heap w') dst n = Some l))
    (fun _ w' => touch (in_range dst n) w w' ∧ rolled_back ByCopy n w w').
Proof.
  revert src dst w. induction n as [|n IH]; intros src dst w; cbn [uninit_copy_loop].
  - apply post_ret. split; [apply touch_refl|]. split; [by rewrite app_nil_r|].
    split; [by intros q ?%in_range_0|]. intros _. by exists [].
  - step_with copy_construct_post.
    + intros _ w1 (x & Hx & Hs & Hh & Hl).
      assert (touch (in_range dst (S n)) w w1) as Ht1
        by (eapply touch_poke; [apply in_range_first|done]).
      eapply post_on_exception; [apply IH| |].
      * intros _ w' (Ht & Hl' & Hlv & Hv). split; [|split; [|split]].
        -- eapply touch_trans; [done|]. eapply touch_mono; [|done].
           apply in_range_next.
        -- rewrite Hl', Hl, <- app_assoc. done.
        -- intros q [->|Hq]%in_range_S; [|by apply Hlv].
           exists x. destruct Ht as [_ Hf]. rewrite Hf by apply not_in_range_self.
           rewrite Hh. by apply peek_poke_eq.
        -- intros Hb. destruct Hv as (l & Hl1 & Hl2); [done|].
           exists (x :: l). split.
           ++ apply live_range_S; [done|]. rewrite <- Hl1, Hh.
              symmetry. apply live_range_ext. intros q Hq.
              apply peek_poke_ne. intros ->. apply in_range_base in Hq. done.
           ++ apply live_range_S; [|done].
              destruct Ht as [_ Hf]. rewrite Hf by apply not_in_range_self.
              rewrite Hh. by apply peek_poke_eq.
      * intros e w2 (Ht & Hr). eapply post_conseq; [apply destroy_at_post| |done].
        intros _ w3 (_ & Hh3 & Hl3). cbv beta. split.
        -- eapply touch_trans; [done|]. eapply touch_trans.
           ++ eapply touch_mono; [|done]. apply in_range_next.
           ++ eapply touch_poke; [apply in_range_first|done].
        -- by eapply rolled_back_step.
    + intros e w1 (Hh & Hl). split; [by apply touch_heap_eq|].
      by apply rolled_back_first.
Qed.

Lemma uninit_move_loop_post src n dst w :
  post (uninit_move_loop src n dst) w
    (fun _ w' => touch (fun q => in_range dst n q ∨ in_range src n q) w w' ∧
                 log w' = log w ++ replicate n (EvConstruct ByMove) ∧
                 stays_live_off dst w w' ∧
                 (base src ≠ base dst →
                  ∃ l, live_range (heap w) src n = Some l ∧
                       live_range (heap w') dst n = Some l))
    (fun _ w' => is_nothrow_move_constructible = false ∧
                 touch (fun q => in_range dst n q ∨ in_range src n q) w w' ∧
                 rolled_back ByMove n w w' ∧
                 stays_live_off dst w w').
Proof.
  revert src dst w. induction n as [|n IH]; intros src dst w; cbn [uninit_move_loop].
  - apply post_ret. split; [apply touch_refl|]. split; [by rewrite app_nil_r|].
    split; [by intros q _|]. intros _. by exists [].
  - step_with move_construct_post.
    + intros _ w1 (x & Hx & Hs & Hh & Hl).
      assert (touch (fun q => in_range dst (S n) q ∨ in_range src (S n) q) w w1) as Ht1.
      { eapply touch_trans with (w2 := set_heap (poke (heap w) dst (Some x)) w).
        - eapply touch_poke; [left; apply in_range_first|done].
        - eapply touch_poke; [right; apply in_range_first|done]. }
      assert (∀ q, in_range (dst +ₚ 1) n q ∨ in_range (src +ₚ 1) n q →
                   in_range dst (S n) q ∨ in_range src (S n) q) as Hmono.
      { intros q [Hq|Hq]; [left|right]; by apply in_range_next. }
      eapply post_on_exception; [apply IH| |].
      * intros _ w' (Ht & Hl' & Hoff & Hv). split; [|split; [|split]].
        -- eapply touch_trans; [done|].
           eapply touch_mono; [|exact Ht]. exact Hmono.
        -- rewrite Hl', Hl, <- app_assoc. done.
        -- intros q Hq Hlive. apply Hoff; [done|].
           eapply keeps_live_move; [exact Hh|done].
        -- intros Hb. destruct Hv as (l & Hl1 & Hl2); [done|].
           exists (x :: l). split.
           ++ apply live_range_S; [done|]. rewrite <- Hl1, Hh.
              symmetry. apply live_range_ext. intros q Hq.
              rewrite !peek_poke_ne; [done| |].
              ** intros ->. apply in_range_base in Hq. done.
              ** intros ->. by eapply not_in_range_self.
           ++ apply live_range_S; [|done].
              destruct Ht as [_ Hf]. rewrite Hf.
              ** rewrite Hh, peek_poke_ne by (intros ->; done).
                 by apply peek_poke_eq.
              ** intros [Hq|Hq]; [by eapply not_in_range_self|].
                 apply in_range_base in Hq. done.
      * intros e w2 (Hnt & Ht & Hr & Hoff).
        eapply post_conseq; [apply destroy_at_post| |done].
        intros _ w3 (_ & Hh3 & Hl3). cbv beta. split; [done|]. split; [|split].
        -- eapply touch_trans; [done|]. eapply touch_trans.
           ++ eapply touch_mono; [|exact Ht]. exact Hmono.
           ++ eapply touch_poke; [left; apply in_range_first|done].
        -- by eapply rolled_back_step.
        -- intros q Hq Hlive. unfold is_live. rewrite Hh3, peek_poke_ne by congruence.
           apply Hoff; [done|]. eapply keeps_live_move; [exact Hh|done].
    + intros e w1 (Hh & Hl & Hnt). split; [done|].
      split; [by apply touch_heap_eq|]. split; [by apply rolled_back_first|].
      intros q _. unfold is_live. by rewrite Hh.
Qed.

Lemma copy_loop_post src n dst w :
  post (copy_loop src n dst) w
    (fun _ w' => touch (in_range dst n) w w' ∧ keeps_live w w')
    (fun _ w' => touch (in_range dst n) w w' ∧ keeps_live w w').
Proof.
  revert src dst w. induction n as [|n IH]; intros src dst w; cbn [copy_loop].
  - apply post_ret. split; [apply touch_refl | apply keeps_live_refl].
  - step_with copy_assign_post.
    + intros _ w1 (x & Hx & Hd & Hh & Hl).
      eapply post_conseq; [apply IH| |]; intros _ w' [Ht Hk]; cbv beta.
      all: split; [|eapply keeps_live_trans; [by eapply keeps_live_poke|done]].
      all: eapply touch_trans; [eapply touch_poke; [apply in_range_first|done]|].
      all: eapply touch_mono; [|exact Ht]; apply in_range_next.
    + intros e w1 (Hh & Hl). split; [by apply touch_heap_eq|by apply keeps_live_heap_eq].
Qed.

(** Moving a range one slot down, as [Erase] does. *)
Lemma move_loop_post d n w :
  post (move_loop (d +ₚ 1) n d) w
    (fun _ w' => touch (in_range d (S n)) w w' ∧ keeps_live w w' ∧
                 ∃ l, live_range (heap w) (d +ₚ 1) n = Some l ∧
                      live_range (heap w') d n = Some l)
    (fun _ w' => touch (in_range d (S n)) w w' ∧ keeps_live w w').
Proof.
  revert d w. induction n as [|n IH]; intros d w; cbn [move_loop].
  - apply post_ret. split; [apply touch_refl|]. split; [apply keeps_live_refl|].
    by exists [].
  - step_with move_assign_post.
    + intros _ w1 (x & Hx & Hd & Hh & Hl).
      assert (touch (in_range d (S (S n))) w w1) as Ht1.
      { eapply touch_trans with (w2 := set_heap (poke (heap w) d (Some x)) w).
        - eapply touch_poke; [apply in_range_first|done].
        - eapply touch_poke; [apply in_range_next, in_range_first|done]. }
      assert (keeps_live w w1) as Hk1 by (by eapply keeps_live_move).
      eapply post_conseq; [apply IH| |].
      * intros _ w' (Ht & Hk & l & Hl1 & Hl2). cbv beta. split; [|split].
        -- eapply touch_trans; [done|].
           eapply touch_mono; [|exact Ht]. apply in_range_next.
        -- by eapply keeps_live_trans.
        -- exists (x :: l). split.
           ++ apply live_range_S; [done|]. rewrite <- Hl1, Hh.
              symmetry. apply live_range_ext. intros q Hq.
              rewrite !peek_poke_ne; [done| |]; intros <-;
                unfold in_range, ptr_add in Hq; cbn [base offset] in Hq; lia.
           ++ apply live_range_S; [|done].
              destruct Ht as [_ Hf]. rewrite Hf by apply not_in_range_self.
              rewrite Hh, peek_poke_ne.
              ** apply peek_poke_eq. destruct Hd as [y ->]. by eexists.
              ** intros Heq. apply (f_equal offset) in Heq.
                 unfold ptr_add in Heq. cbn [offset] in Heq. lia.
      * intros e w' (Ht & Hk). cbv beta. split.
        -- eapply touch_trans; [done|].
           eapply touch_mono; [|exact Ht]. apply in_range_next.
        -- by eapply keeps_live_trans.
    + intros e w1 (Hh & Hl). split; [by apply touch_heap_eq|by apply keeps_live_heap_eq].
Qed.

Lemma ptr_pred_add p n : ptr_pred (p +ₚ N.of_nat (S n)) = p +ₚ N.of_nat n.
Proof. apply ptr_eq; unfold ptr_pred, ptr_add; cbn [base offset]; [done|lia]. Qed.

Lemma ptr_pred_add_1 p n : ptr_pred (p +ₚ N.of_nat (S n) +ₚ 1) = p +ₚ N.of_nat n +ₚ 1.
Proof. apply ptr_eq; unfold ptr_pred, ptr_add; cbn [base offset]; [done|lia]. Qed.

(** Moving a range one slot up from the back, as [EmplaceWithoutRealloc]
    does. *)
Lemma move_backward_loop_post first n w :
  post (move_backward_loop n (first +ₚ N.of_nat n) (first +ₚ N.of_nat n +ₚ 1)) w
    (fun _ w' => touch (in_range first (S n)) w w' ∧ keeps_live w w' ∧ quiet w w' ∧
                 ∃ l, live_range (heap w) first n = Some l ∧
                      live_range (heap w') (first +ₚ 1) n = Some l)
    (fun _ w' => touch (in_range first (S n)) w w' ∧ keeps_live w w').
Proof.
  revert w. induction n as [|n IH]; intros w; cbn [move_backward_loop].
  - apply post_ret. split; [apply touch_refl|]. split; [apply keeps_live_refl|].
    split; [apply quiet_refl|]. by exists [].
  - rewrite ptr_pred_add, ptr_pred_add_1. step_with move_assign_post.
    + intros _ w1 (x & Hx & Hd & Hh & Hl).
      assert (touch (in_range first (S (S n))) w w1) as Ht1.
      { eapply touch_trans with
          (w2 := set_heap (poke (heap w) (first +ₚ N.of_nat n +ₚ 1) (Some x)) w).
        - eapply touch_poke; [|done]. apply in_range_add. exists (S n).
          split; [lia|]. rewrite ptr_add_add. f_equal. lia.
        - eapply touch_poke; [|done]. apply in_range_add. exists n.
          split; [lia|done]. }
      assert (keeps_live w w1) as Hk1 by (by eapply keeps_live_move).
      eapply post_conseq; [apply IH| |].
      * intros _ w' (Ht & Hk & Hquiet & l & Hl1 & Hl2). cbv beta.
        split; [|split; [|split]].
        -- eapply touch_trans; [done|].
           eapply touch_mono; [|exact Ht]. intros q. by apply in_range_mono; lia.
        -- by eapply keeps_live_trans.
        -- eapply quiet_trans; [|exact Hquiet]. by eapply quiet_log.
        -- exists (l ++ [x]). split.
           ++ apply live_range_snoc; [|done]. rewrite <- Hl1, Hh.
              symmetry. apply live_range_ext. intros q Hq.
              rewrite !peek_poke_ne; [done| |]; intros <-;
                unfold in_range, ptr_add in Hq; cbn [base offset] in Hq; lia.
           ++ apply live_range_snoc; [done|].
              destruct Ht as [_ Hf].
              replace (first +ₚ 1 +ₚ N.of_nat n) with (first +ₚ N.of_nat n +ₚ 1)
                by (rewrite !ptr_add_add; f_equal; lia).
              rewrite Hf.
              ** rewrite Hh, peek_poke_ne.
                 { apply peek_poke_eq. destruct Hd as [y ->]. by eexists. }
                 intros Heq. apply (f_equal offset) in Heq.
                 unfold ptr_add in Heq. cbn [offset] in Heq. lia.
              ** unfold in_range, ptr_add. cbn [base offset]. lia.
      * intros e w' (Ht & Hk). cbv beta. split.
        -- eapply touch_trans; [done|].
           eapply touch_mono; [|exact Ht]. intros q. by apply in_range_mono; lia.
        -- by eapply keeps_live_trans.
    + intros e w1 (Hh & Hl). split; [by apply touch_heap_eq|by apply keeps_live_heap_eq].
Qed.

Lemma std_move_backward_post first n w :
  post (std_move_backward first (first +ₚ N.of_nat n) (first +ₚ N.of_nat n +ₚ 1)) w
    (fun _ w' => touch (in_range first (S n)) w w' ∧ keeps_live w w' ∧ quiet w w' ∧
                 ∃ l, live_range (heap w) first n = Some l ∧
                      live_range (heap w') (first +ₚ 1) n = Some l)
    (fun _ w' => touch (in_range first (S n)) w w' ∧ keeps_live w w').
Proof.
  unfold std_move_backward, ptr_diff.
  eapply post_bind with (Qm := fun k w' => k = N.of_nat n ∧ w' = w)
                        (Em := fun _ _ => False); [| |done].
  { unfold post, bind, assert, ret. cbn [base offset ptr_add].
    destruct (same_array _ _ && _); [|done]. split; [lia|done]. }
  intros k w' [-> ->]. rewrite Nat2N.id.
  step_with move_backward_loop_post; [|done].
  intros _ w' Hq. by apply post_ret.
Qed.

Lemma std_move_post d last w :
  post (std_move (d +ₚ 1) last d) w
    (fun _ w' => base last = base d ∧ offset d + 1 <= offset last ∧
                 touch (in_range d (S (N.to_nat (offset last - (offset d + 1))))) w w' ∧
                 keeps_live w w' ∧
                 ∃ l, live_range (heap w) (d +ₚ 1)
                        (N.to_nat (offset last - (offset d + 1))) = Some l ∧
                      live_range (heap w') d
                        (N.to_nat (offset last - (offset d + 1))) = Some l)
    (fun _ w' => keeps_live w w').
Proof.
  unfold std_move, ptr_diff.
  eapply post_bind with
    (Qm := fun k w' => k = offset last - (offset d + 1) ∧ w' = w ∧
                       base last = base d ∧ offset d + 1 <= offset last)
    (Em := fun _ _ => False); [| |done].
  { unfold post, bind, assert, ret. cbn [base offset ptr_add].
    destruct (same_array _ _ && _) eqn:Hc; [|done].
    apply andb_true_iff in Hc as [Hb%bool_decide_eq_true Hle%N.leb_le]. done. }
  intros k w' (-> & -> & Hb & Hle).
  step_with move_loop_post.
  - intros _ w' (Ht & Hk & Hl). by apply post_ret.
  - by intros e w' [_ Hk].
Qed.

Lemma std_copy_post first last d_first w :
  post (std_copy first last d_first) w
    (fun _ w' => keeps_live w w' ∧
                 touch (in_range d_first (N.to_nat (offset last - offset first))) w w')
    (fun _ w' => keeps_live w w' ∧
                 touch (in_range d_first (N.to_nat (offset last - offset first))) w w').
Proof.
  unfold std_copy, ptr_diff.
  eapply post_bind with (Qm := fun k w' => k = offset last - offset first ∧ w' = w)
                        (Em := fun _ _ => False); [| |done].
  { unfold post, bind, assert, ret.
    destruct (same_array _ _ && _); done. }
  intros k w' (-> & ->).
  step_with copy_loop_post.
  - intros _ w' (Ht & Hk). by apply post_ret.
  - by intros e w' [Ht Hk].
Qed.

End Loops.

(** * Stepping through member functions *)

Section Steps.
Context {T : Type} `{Element T}.
Implicit Types v : Vector.
Implicit Types w : World T.
Implicit Types rm : RawMemory.

Lemma post_bind_assoc {S A B C} (m : M S A) (k1 : A → M S B) (k2 : B → M S C) s Q E :
  post (bind m (fun a => bind (k1 a) k2)) s Q E →
  post (bind (bind m k1) k2) s Q E.
Proof. unfold post, bind. by destruct (m s). Qed.

Lemma post_this {A} (k : Vector → M (Obj T) A) v w Q E :
  post (k v) (v, w) Q E → post (bind this k) (v, w) Q E.
Proof. done. Qed.

Lemma post_set_data {A} (k : unit → M (Obj T) A) d v w Q E :
  post (k tt) ({| data_ := d; size_ := size_ v |}, w) Q E →
  post (bind (set_data d) k) (v, w) Q E.
Proof. done. Qed.

Lemma post_set_size {A} (k : unit → M (Obj T) A) n v w Q E :
  post (k tt) ({| data_ := data_ v; size_ := n |}, w) Q E →
  post (bind (set_size n) k) (v, w) Q E.
Proof. done. Qed.

Lemma post_assert_bind {S A} (b : bool) (k : unit → M S A) s Q E :
  (b = true → post (k tt) s Q E) → post (bind (assert b) k) s Q E.
Proof. intros Hk. unfold post, bind, assert in *. destruct b; [by apply Hk|done]. Qed.

Lemma post_plus_bind {S A} rm off (k : ptr → M S A) s Q E :
  (off <= capacity_ rm → post (k (buffer_ rm +ₚ off)) s Q E) →
  post (bind (RawMemory_plus rm off) k) s Q E.
Proof.
  intros Hk. unfold RawMemory_plus. apply post_bind_assoc, post_assert_bind.
  intros Hle%N.leb_le. by apply Hk.
Qed.

Lemma post_at_bind {S A} rm index (k : ptr → M S A) s Q E :
  (index < capacity_ rm → post (k (buffer_ rm +ₚ index)) s Q E) →
  post (bind (RawMemory_at rm index) k) s Q E.
Proof.
  intros Hk. unfold RawMemory_at. apply post_bind_assoc, post_assert_bind.
  intros Hlt%N.ltb_lt. by apply Hk.
Qed.

Lemma post_plus {S} rm off (s : S) Q E :
  (off <= capacity_ rm → Q (buffer_ rm +ₚ off) s) →
  post (RawMemory_plus rm off) s Q E.
Proof.
  intros Hk. unfold RawMemory_plus. apply post_assert_bind.
  intros Hle%N.leb_le. by apply Hk.
Qed.

Lemma post_ptr_le_bind {S A} p q (k : bool → M S A) s Q E :
  (base p = base q → post (k (offset p <=? offset q)) s Q E) →
  post (bind (ptr_le p q) k) s Q E.
Proof.
  intros Hk. unfold ptr_le. apply post_bind_assoc, post_assert_bind.
  intros Hb%bool_decide_eq_true. by apply Hk.
Qed.

Lemma post_ptr_lt_bind {S A} p q (k : bool → M S A) s Q E :
  (base p = base q → post (k (offset p <? offset q)) s Q E) →
  post (bind (ptr_lt p q) k) s Q E.
Proof.
  intros Hk. unfold ptr_lt. apply post_bind_assoc, post_assert_bind.
  intros Hb%bool_decide_eq_true. by apply Hk.
Qed.

Lemma post_ptr_diff_bind {S A} p q (k : N → M S A) s Q E :
  (base p = base q → offset q <= offset p → post (k (offset p - offset q)) s Q E) →
  post (bind (ptr_diff p q) k) s Q E.
Proof.
  intros Hk. unfold ptr_diff. apply post_bind_assoc, post_assert_bind.
  intros [Hb%bool_decide_eq_true Hle%N.leb_le]%andb_true_iff. by apply Hk.
Qed.

Lemma post_world_bind {A B} (m : M (World T) A) (k : A → M (Obj T) B) v w Qm Em Q E :
  post m w Qm Em →
  (∀ a w1, Qm a w1 → post (k a) (v, w1) Q E) →
  (∀ e w1, Em e w1 → E e (v, w1)) →
  post (bind (on_world m) k) (v, w) Q E.
Proof.
  intros Hm HQ HE. unfold post, bind, on_world in *. simpl.
  destruct (m w) as [a w1|e w1|]; [by apply HQ | by apply HE | done].
Qed.

End Steps.

(** * Storage blocks *)

Section Storage.
Context {T : Type} `{Element T}.
Implicit Types h : gmap addr (list (option T)).
Implicit Types p q : ptr.
Implicit Types v : Vector.
Implicit Types w : World T.
Implicit Types rm : RawMemory.

Lemma PTRDIFF_MAX_val : PTRDIFF_MAX = 9223372036854775807.
Proof. reflexivity. Qed.

Lemma SIZE_MOD_val : SIZE_MOD = 18446744073709551616.
Proof. reflexivity. Qed.

Lemma wrap_le x : wrap x <= x.
Proof. unfold wrap. apply N.Div0.mod_le. Qed.

Lemma wrap_small x : x < SIZE_MOD → wrap x = x.
Proof. apply N.mod_small. Qed.

Lemma raw_okP rm w : raw_ok rm w = true ↔ raw_view rm w.
Proof.
  unfold raw_ok, slots. destruct rm as [[[a|] o] c]; cbn [buffer_ capacity_ base offset].
  - split.
    + intros [Ho%N.eqb_eq Hr]%andb_true_iff. subst o.
      apply andb_true_iff in Hr as [Hr Hb%N.leb_le].
      apply andb_true_iff in Hr as [Hr Hl%N.eqb_eq].
      apply andb_true_iff in Hr as [Hc%negb_true_iff%N.eqb_neq Hs%bool_decide_eq_true].
      destruct Hs as [blk Hblk]. rewrite Hblk in Hl.
      by eapply RawBlock.
    + intros [Hb Hc|a' blk Hb Hc Hh Hlen Hbytes]; cbn [buffer_ capacity_] in *; [done|].
      injection Hb as -> ->. rewrite Hh, Hlen. cbn.
      rewrite N.eqb_refl. apply N.eqb_neq in Hc. rewrite Hc. cbn. by apply N.leb_le.
  - split.
    + intros [Ho%N.eqb_eq Hc%N.eqb_eq]%andb_true_iff. subst. by apply RawNull.
    + intros [Hb Hc|a' blk Hb Hc Hh Hlen Hbytes]; cbn [buffer_ capacity_] in *; [|done].
      injection Hb as ->. by subst.
Qed.

Lemma vec_okP v w :
  vec_ok v w = true ↔
  raw_view (data_ v) w ∧ size_ v <= slots (data_ v) w ∧ is_Some (contents v w).
Proof.
  unfold vec_ok. rewrite !andb_true_iff, raw_okP, N.leb_le, bool_decide_eq_true.
  tauto.
Qed.

Lemma slots_null rm w : buffer_ rm = nullptr → slots rm w = 0.
Proof. unfold slots. by intros ->. Qed.

Lemma slots_block rm w a blk :
  buffer_ rm = Ptr (Some a) 0 → heap w !! a = Some blk →
  slots rm w = N.of_nat (length blk).
Proof. intros Hb Hh. unfold slots. rewrite Hb. cbn. by rewrite Hh. Qed.

Lemma slots_le_capacity rm w : raw_view rm w → slots rm w <= capacity_ rm.
Proof.
  intros [Hb Hc|a blk Hb Hc Hh Hlen Hbytes].
  - rewrite slots_null by done. lia.
  - erewrite slots_block, Hlen by done.
    pose proof sizeof_pos.
    etrans; [apply N.Div0.div_le_mono, wrap_le|].
    rewrite N.div_mul by lia. done.
Qed.

Lemma slots_bytes rm w : raw_view rm w → slots rm w * sizeof <= PTRDIFF_MAX.
Proof.
  intros [Hb Hc|a blk Hb Hc Hh Hlen Hbytes].
  - rewrite slots_null by done. rewrite PTRDIFF_MAX_val. lia.
  - erewrite slots_block, Hlen by done.
    etrans; [|exact Hbytes]. rewrite N.mul_comm. apply N.Div0.mul_div_le.
Qed.

(** A storage owner whose block has room for [capacity_] objects was
    allocated without overflow. *)
Lemma full_bytes rm w :
  raw_view rm w → capacity_ rm <= slots rm w →
  capacity_ rm * sizeof <= PTRDIFF_MAX.
Proof.
  intros Hv Hle. etrans; [|by apply slots_bytes].
  by apply N.mul_le_mono_r.
Qed.

Lemma bytes_bound n : n * sizeof <= PTRDIFF_MAX → n <= PTRDIFF_MAX.
Proof.
  intros Hn. pose proof sizeof_pos. etrans; [|exact Hn].
  rewrite <- (N.mul_1_r n) at 1. apply N.mul_le_mono_l. lia.
Qed.

Lemma vec_ok_size_le_capacity v w : vec_ok v w = true → size_ v <= Capacity v.
Proof.
  intros (Hr & Hs & _)%vec_okP. etrans; [exact Hs|]. by apply slots_le_capacity.
Qed.

Lemma peek_insert_ne h a blk q :
  base q ≠ Some a → peek (<[a := blk]> h) q = peek h q.
Proof.
  intros Hq. unfold peek. destruct (base q) as [b|]; [|done].
  rewrite lookup_insert_ne by congruence. done.
Qed.

Lemma peek_insert_eq h a blk i :
  peek (<[a := blk]> h) (Ptr (Some a) i) = blk !! N.to_nat i.
Proof. unfold peek. cbn [base offset]. by rewrite lookup_insert_eq. Qed.

Lemma peek_delete_ne h a q :
  base q ≠ Some a → peek (delete a h) q = peek h q.
Proof.
  intros Hq. unfold peek. destruct (base q) as [b|]; [|done].
  rewrite lookup_delete_ne by congruence. done.
Qed.

Lemma peek_lookup h a i x :
  peek h (Ptr (Some a) i) = Some x →
  ∃ blk, h !! a = Some blk ∧ i < N.of_nat (length blk).
Proof.
  unfold peek. cbn [base offset]. destruct (h !! a) as [blk|]; [|done].
  intros Hx%lookup_lt_Some. exists blk. split; [done|lia].
Qed.

Lemma peek_outside A w w' q a :
  outside A w w' → base q = Some a → ¬ A a →
  peek (heap w') q = peek (heap w) q.
Proof.
  intros Ho Hq Ha. unfold peek. rewrite Hq. by rewrite Ho.
Qed.

Lemma live_range_slots h a blk n :
  h !! a = Some blk → is_Some (live_range h (Ptr (Some a) 0) n) →
  N.of_nat n <= N.of_nat (length blk).
Proof.
  intros Hb [l Hl]. destruct n as [|n]; [lia|].
  pose proof (live_range_length _ _ _ _ Hl) as Hlen.
  destruct (lookup_lt_is_Some_2 l n) as [x Hx]; [lia|].
  eapply live_range_lookup in Hx; [|done].
  apply peek_lookup in Hx as (blk' & Hb' & Hlt).
  cbn [base offset ptr_add] in *. simplify_eq. lia.
Qed.

Lemma outside_refl A w : outside A w w.
Proof. done. Qed.

Lemma outside_trans A w1 w2 w3 : outside A w1 w2 → outside A w2 w3 → outside A w1 w3.
Proof. intros H1 H2 b Hb. by rewrite H2, H1. Qed.

Lemma outside_mono (A A' : addr → Prop) w w' :
  (∀ a, A a → A' a) → outside A w w' → outside A' w w'.
Proof. intros HA Ho b Hb. apply Ho. naive_solver. Qed.

Lemma outside_heap_eq A w w' : heap w' = heap w → outside A w w'.
Proof. intros Hh b _. by rewrite Hh. Qed.

Lemma outside_insert A w w' a blk :
  A a → heap w' = <[a := blk]> (heap w) → outside A w w'.
Proof. intros Ha Hh b Hb. rewrite Hh, lookup_insert_ne; [done|]. by intros ->. Qed.

Lemma outside_delete A w w' a :
  A a → heap w' = delete a (heap w) → outside A w w'.
Proof. intros Ha Hh b Hb. rewrite Hh, lookup_delete_ne; [done|]. by intros ->. Qed.

Lemma outside_touch (A : addr → Prop) P w w' :
  (∀ q a, P q → base q = Some a → A a) → touch P w w' → outside A w w'.
Proof.
  intros HP Ht b Hb. eapply touch_block; [done|].
  intros q Hq Hqb. by eapply Hb, HP.
Qed.

(** Writing into a fresh block and freeing it restores the heap. *)
Lemma outside_fresh_eq w w' a :
  outside (eq a) w w' → heap w !! a = None → heap w' !! a = None →
  heap w' = heap w.
Proof.
  intros Ho H1 H2. apply map_eq. intros b.
  destruct (decide (a = b)) as [<-|Hne]; [by rewrite H1, H2|]. by apply Ho.
Qed.

Lemma vec_ok_heap_eq v w w' : heap w' = heap w → vec_ok v w' = vec_ok v w.
Proof.
  intros Hh. unfold vec_ok, raw_ok, slots, contents. by rewrite Hh.
Qed.

Lemma raw_view_transfer rm w w' :
  raw_view rm w →
  (∀ a, base (buffer_ rm) = Some a →
        length <$> heap w' !! a = length <$> heap w !! a) →
  raw_view rm w' ∧ slots rm w' = slots rm w.
Proof.
  intros [Hb Hc|a blk Hb Hc Hh Hlen Hbytes] Hs.
  - split; [by apply RawNull|]. by rewrite !slots_null.
  - specialize (Hs a). rewrite Hb in Hs. specialize (Hs eq_refl).
    rewrite Hh in Hs. destruct (heap w' !! a) as [blk'|] eqn:Hh'; [|done].
    injection Hs as Hs. split.
    + eapply RawBlock; eauto. by rewrite Hs.
    + erewrite !slots_block by done. by rewrite Hs.
Qed.

Lemma live_range_null h n l : live_range h nullptr n = Some l → n = 0%nat.
Proof. destruct n; [done|]. by intros (x & l' & _ & Hp & _)%live_range_S_inv. Qed.

Lemma live_range_le_slots rm w n :
  raw_view rm w → is_Some (live_range (heap w) (buffer_ rm) n) →
  N.of_nat n <= slots rm w.
Proof.
  intros [Hb Hc|a blk Hb Hc Hh Hlen Hbytes] Hl.
  - rewrite Hb in Hl. destruct Hl as [l ->%live_range_null]. lia.
  - erewrite slots_block by done. rewrite Hb in Hl. by eapply live_range_slots.
Qed.

Lemma vec_ok_make v w :
  raw_view (data_ v) w → is_Some (contents v w) → vec_ok v w = true.
Proof.
  intros Hr Hc. apply vec_okP. split; [done|]. split; [|done].
  pose proof (live_range_le_slots _ _ _ Hr Hc). lia.
Qed.

Lemma raw_view_base_ne rm w a :
  raw_view rm w → heap w !! a = None → base (buffer_ rm) ≠ Some a.
Proof.
  intros [Hb Hc|a' blk Hb Hc Hh Hlen Hbytes] Ha; rewrite Hb; cbn; [done|].
  intros [= ->]. congruence.
Qed.

Lemma raw_view_outside A rm w w' :
  raw_view rm w → outside A w w' →
  (∀ a, base (buffer_ rm) = Some a → ¬ A a) →
  raw_view rm w'.
Proof.
  intros Hr Ho HA. eapply raw_view_transfer; [done|].
  intros a Ha. by rewrite Ho by by apply HA.
Qed.

Lemma released_outside rm w w' :
  released rm w w' → outside (fun b => base (buffer_ rm) = Some b) w w'.
Proof.
  intros [[Hb ->]|(a & Hb & Hs & Hh & Hl)]; [apply outside_refl|].
  eapply outside_delete; [|done]. by rewrite Hb.
Qed.

Lemma live_range_outside A w w' p n :
  outside A w w' → (∀ a, base p = Some a → ¬ A a) →
  live_range (heap w') p n = live_range (heap w) p n.
Proof.
  intros Ho HA. apply live_range_ext. intros q Hq%in_range_base.
  unfold peek. rewrite Hq. destruct (base p) as [a|]; [|done].
  by rewrite Ho by by apply HA.
Qed.

(** A sequence stays well-formed as long as its block keeps its length and
    its live objects stay live. *)
Lemma vec_ok_transfer v w w' :
  vec_ok v w = true →
  (∀ a, base (buffer_ (data_ v)) = Some a →
        length <$> heap w' !! a = length <$> heap w !! a) →
  (∀ q, in_range (buffer_ (data_ v)) (N.to_nat (size_ v)) q →
        is_live (heap w) q → is_live (heap w') q) →
  vec_ok v w' = true.
Proof.
  intros (Hr & Hs & Hc)%vec_okP Hlen Hlive. apply vec_okP.
  destruct (raw_view_transfer _ _ _ Hr Hlen) as [Hr' Hs'].
  split; [done|]. split; [by rewrite Hs'|].
  unfold contents in *. apply live_range_is_live. intros q Hq.
  apply Hlive; [done|]. by eapply live_range_is_live.
Qed.

Lemma vec_ok_outside A v w w' :
  vec_ok v w = true → outside A w w' →
  (∀ a, base (buffer_ (data_ v)) = Some a → ¬ A a) →
  vec_ok v w' = true ∧ contents v w' = contents v w.
Proof.
  intros Hok Ho HA.
  assert (contents v w' = contents v w) as Hc by (by eapply live_range_outside).
  split; [|done]. apply vec_okP in Hok as (Hr & Hs & Hl).
  apply vec_ok_make; [by eapply raw_view_outside|by rewrite Hc].
Qed.

End Storage.

(** * Storage owners and relocation *)

Section Relocation.
Context {T : Type} `{Element T}.
Implicit Types h : gmap addr (list (option T)).
Implicit Types p q : ptr.
Implicit Types v : Vector.
Implicit Types w : World T.
Implicit Types rm : RawMemory.

Lemma RawMemory_ctor_post n w :
  post (RawMemory_ctor n) w
    (fun rm w' => allocated n rm w w')
    (fun _ w' => heap w' = heap w ∧ log w' = log w).
Proof.
  unfold RawMemory_ctor. step_with Allocate_post; [|done].
  intros p w' Hp. apply post_ret. split; [done|]. cbn [buffer_].
  destruct Hp as [(? & ? & ?)|(? & a & ? & ?)]; [by left|right].
  split; [done|]. by exists a.
Qed.

Lemma RawMemory_dtor_post rm w :
  post (RawMemory_dtor rm) w (fun _ w' => released rm w w') (fun _ _ => False).
Proof. apply operator_delete_post. Qed.

Lemma allocated_raw_view n rm w w' :
  allocated n rm w w' → raw_view rm w'.
Proof.
  intros [Hc [(-> & Hb & ->)|(Hn & a & Hb & Hfresh & Hh & Hbytes & Hl)]].
  - by apply RawNull.
  - subst n.
    eapply (RawBlock _ _ a); [done|done|rewrite Hh; apply lookup_insert_eq| |done].
    rewrite length_replicate. lia.
Qed.

Lemma allocated_outside n rm w w' :
  allocated n rm w w' → outside (fun a => base (buffer_ rm) = Some a) w w'.
Proof.
  intros [Hc [(-> & Hb & ->)|(Hn & a & Hb & Hfresh & Hh & Hbytes & Hl)]].
  - apply outside_refl.
  - eapply outside_insert; [|done]. by rewrite Hb.
Qed.

Lemma uninitialized_copy_n_post src n dst w :
  post (uninitialized_copy_n src n dst) w
    (fun _ w' => touch (in_range dst (N.to_nat n)) w w' ∧
                 log w' = log w ++ replicate (N.to_nat n) (EvConstruct ByCopy) ∧
                 (∀ q, in_range dst (N.to_nat n) q → is_live (heap w') q) ∧
                 (base src ≠ base dst →
                  ∃ l, live_range (heap w) src (N.to_nat n) = Some l ∧
                       live_range (heap w') dst (N.to_nat n) = Some l))
    (fun _ w' => touch (in_range dst (N.to_nat n)) w w' ∧
                 rolled_back ByCopy (N.to_nat n) w w').
Proof.
  unfold uninitialized_copy_n. step_with uninit_copy_loop_post; [|done].
  intros _ w' Hq. by apply post_ret.
Qed.

Lemma uninitialized_move_n_post src n dst w :
  post (uninitialized_move_n src n dst) w
    (fun _ w' => touch (fun q => in_range dst (N.to_nat n) q ∨
                                 in_range src (N.to_nat n) q) w w' ∧
                 log w' = log w ++ replicate (N.to_nat n) (EvConstruct ByMove) ∧
                 stays_live_off dst w w' ∧
                 (base src ≠ base dst →
                  ∃ l, live_range (heap w) src (N.to_nat n) = Some l ∧
                       live_range (heap w') dst (N.to_nat n) = Some l))
    (fun _ w' => is_nothrow_move_constructible = false ∧
                 touch (fun q => in_range dst (N.to_nat n) q ∨
                                 in_range src (N.to_nat n) q) w w' ∧
                 rolled_back ByMove (N.to_nat n) w w' ∧
                 stays_live_off dst w w').
Proof.
  unfold uninitialized_move_n. step_with uninit_move_loop_post; [|done].
  intros _ w' Hq. by apply post_ret.
Qed.

Lemma touch_stays_live_off dst n w w' :
  touch (in_range dst n) w w' → stays_live_off dst w w'.
Proof.
  intros [_ Hf] q Hq. unfold is_live. rewrite Hf; [done|].
  intros Hr%in_range_base. done.
Qed.

Lemma stays_live_off_refl dst w : stays_live_off dst w w.
Proof. by intros q _. Qed.

Lemma stays_live_off_trans dst w1 w2 w3 :
  stays_live_off dst w1 w2 → stays_live_off dst w2 w3 → stays_live_off dst w1 w3.
Proof. intros H1 H2 q Hq Hl. by apply H2, H1. Qed.

Lemma confined_refl a w : confined a w w.
Proof.
  split; [apply same_shape_refl|]. split; [apply stays_live_off_refl|].
  intros _. apply outside_refl.
Qed.

Lemma confined_trans a w1 w2 w3 : confined a w1 w2 → confined a w2 w3 → confined a w1 w3.
Proof.
  intros (S1 & L1 & O1) (S2 & L2 & O2). split; [by eapply same_shape_trans|].
  split; [by eapply stays_live_off_trans|].
  intros Hk. eapply outside_trans; eauto.
Qed.

Lemma confined_touch a P w w' :
  (∀ q, P q → base q = Some a) → touch P w w' → confined a w w'.
Proof.
  intros HP Ht. split; [apply Ht|]. split.
  - destruct Ht as [_ Hf]. intros q Hq. unfold is_live. rewrite Hf; [done|].
    intros Hq'%HP. cbn in Hq. congruence.
  - intros _. eapply outside_touch; [|done]. intros q b Hq%HP. congruence.
Qed.

Lemma confined_heap_eq a w w' : heap w' = heap w → confined a w w'.
Proof.
  intros Hh. eapply confined_touch with (P := fun _ => False); [done|].
  by apply touch_heap_eq.
Qed.

Lemma confined_poke a w w' i x :
  heap w' = poke (heap w) (Ptr (Some a) i) x → confined a w w'.
Proof.
  intros Hh. eapply confined_touch with (P := eq (Ptr (Some a) i)).
  - by intros q <-.
  - by eapply touch_poke.
Qed.

(** Relocation: what it writes, what it records, what it produces; and, when
    it throws, that objects outside the destination are still alive, and
    untouched if they were copied. *)
Lemma InitializeDataUsingOtherData_post src dst n w :
  post (InitializeDataUsingOtherData src dst n) w
    (fun _ w' => touch (fun q => in_range dst (N.to_nat n) q ∨
                                 in_range src (N.to_nat n) q) w w' ∧
                 log w' = log w ++ replicate (N.to_nat n) (EvConstruct relocation_kind) ∧
                 (∀ a, base dst = Some a → confined a w w') ∧
                 (base src ≠ base dst →
                  ∃ l, live_range (heap w) src (N.to_nat n) = Some l ∧
                       live_range (heap w') dst (N.to_nat n) = Some l))
    (fun _ w' => is_nothrow_move_constructible = false ∧
                 rolled_back relocation_kind (N.to_nat n) w w' ∧
                 stays_live_off dst w w' ∧
                 touch (fun q => in_range dst (N.to_nat n) q ∨
                                 in_range src (N.to_nat n) q) w w' ∧
                 (is_copy_constructible = true → touch (in_range dst (N.to_nat n)) w w') ∧
                 (∀ a, base dst = Some a → confined a w w')).
Proof.
  unfold InitializeDataUsingOtherData, confined, relocation_kind.
  destruct (is_nothrow_move_constructible || negb is_copy_constructible) eqn:Hk.
  - step_with uninitialized_move_n_post.
    + intros _ w' (Ht & Hl & Hoff & Hv). apply post_ret.
      split; [done|]. split; [done|]. split; [|done].
      intros a Ha. split; [apply Ht|]. split; [|done].
      intros q Hq. apply Hoff. cbn in Hq. congruence.
    + intros e w' (Hnt & Ht & Hr & Hoff).
      split; [done|]. split; [done|]. split; [done|]. split; [done|]. split.
      * intros Hc. rewrite Hnt, Hc in Hk. done.
      * intros a Ha. split; [apply Ht|]. split; [|done].
        intros q Hq. apply Hoff. cbn in Hq. congruence.
  - apply orb_false_iff in Hk as [Hnt Hc].
    assert (∀ w', touch (in_range dst (N.to_nat n)) w w' →
                  ∀ a, base dst = Some a →
                    same_shape (heap w) (heap w') ∧
                    stays_live_off (Ptr (Some a) 0) w w' ∧
                    (ByCopy = ByCopy → outside (eq a) w w')) as Hconf.
    { intros w' Ht a Ha.
      assert (∀ q, in_range dst (N.to_nat n) q → base q = Some a) as HP
        by (intros q Hq%in_range_base; congruence).
      pose proof (confined_touch a _ w w' HP Ht) as (S1 & L1 & _).
      split; [done|]. split; [done|]. intros _.
      eapply outside_touch; [|exact Ht]. intros q b Hq%HP. congruence. }
    step_with uninitialized_copy_n_post.
    + intros _ w' (Ht & Hl & _ & Hv). apply post_ret.
      split; [|split; [done|split; [by apply Hconf|done]]].
      eapply touch_mono; [|exact Ht]. by left.
    + intros e w' (Ht & Hr).
      split; [done|]. split; [done|].
      split; [by eapply touch_stays_live_off|].
      split; [|split; [done|by apply Hconf]].
      eapply touch_mono; [|exact Ht]. by left.
Qed.

End Relocation.

(** * Unwinding a failed reallocation *)

Section Unwinding.
Context {T : Type} `{Element T}.
Implicit Types h : gmap addr (list (option T)).
Implicit Types p q : ptr.
Implicit Types v : Vector.
Implicit Types w : World T.
Implicit Types rm : RawMemory.

Lemma post_ret_bind {S A B} (a : A) (k : A → M S B) s Q E :
  post (k a) s Q E → post (bind (ret a) k) s Q E.
Proof. done. Qed.

Lemma post_cbegin_bind {A} (k : ptr → M (Obj T) A) v w Q E :
  post (k (buffer_ (data_ v))) (v, w) Q E → post (bind cbegin k) (v, w) Q E.
Proof. done. Qed.

Lemma post_begin_bind {A} (k : ptr → M (Obj T) A) v w Q E :
  post (k (buffer_ (data_ v))) (v, w) Q E → post (bind begin k) (v, w) Q E.
Proof. done. Qed.

Lemma post_cend_bind {A} (k : ptr → M (Obj T) A) v w Q E :
  (size_ v <= capacity_ (data_ v) →
   post (k (buffer_ (data_ v) +ₚ size_ v)) (v, w) Q E) →
  post (bind cend k) (v, w) Q E.
Proof.
  intros Hk. unfold cend. apply post_bind_assoc, post_this. by apply post_plus_bind.
Qed.

Lemma post_end_bind {A} (k : ptr → M (Obj T) A) v w Q E :
  (size_ v <= capacity_ (data_ v) →
   post (k (buffer_ (data_ v) +ₚ size_ v)) (v, w) Q E) →
  post (bind end_ k) (v, w) Q E.
Proof.
  intros Hk. unfold end_. apply post_bind_assoc, post_this. by apply post_plus_bind.
Qed.

Lemma post_world_on_exception_bind {A B} (m : M (World T) A) (h : M (Obj T) unit)
    (k : A → M (Obj T) B) v w Qm Em Q E :
  post m w Qm Em →
  (∀ a w1, Qm a w1 → post (k a) (v, w1) Q E) →
  (∀ e w1, Em e w1 → post h (v, w1) (fun _ s2 => E e s2) (fun _ _ => True)) →
  post (bind (on_exception (on_world m) h) k) (v, w) Q E.
Proof.
  intros Hm HQ HE. unfold post, bind, on_exception, on_world in *. simpl.
  destruct (m w) as [a w1|e w1|]; [by apply HQ| |done].
  specialize (HE _ _ Hm). by destruct (h (v, w1)).
Qed.

Lemma released_quiet rm w w' : released rm w w' → quiet w w'.
Proof.
  intros [[_ ->]|(a & _ & _ & _ & Hl)]; [apply quiet_refl|].
  by eapply quiet_log.
Qed.

Lemma undoable_refl a w : undoable a w w.
Proof.
  split; [apply same_shape_refl|]. split; [apply stays_live_off_refl|].
  intros _. apply outside_refl.
Qed.

Lemma undoable_trans a w1 w2 w3 : undoable a w1 w2 → undoable a w2 w3 → undoable a w1 w3.
Proof.
  intros (S1 & L1 & O1) (S2 & L2 & O2). split; [by eapply same_shape_trans|].
  split; [by eapply stays_live_off_trans|].
  intros Hk. eapply outside_trans; eauto.
Qed.

Lemma undoable_touch a P w w' :
  (∀ q, P q → base q = Some a) → touch P w w' → undoable a w w'.
Proof.
  intros HP Ht. destruct (confined_touch a P w w' HP Ht) as (S1 & L1 & _).
  split; [done|]. split; [done|]. intros _.
  eapply outside_touch; [|done]. intros q b Hq%HP. congruence.
Qed.

Lemma undoable_heap_eq a w w' : heap w' = heap w → undoable a w w'.
Proof.
  intros Hh. eapply undoable_touch with (P := fun _ => False); [done|].
  by apply touch_heap_eq.
Qed.

Lemma undoable_poke a w w' i x :
  heap w' = poke (heap w) (Ptr (Some a) i) x → undoable a w w'.
Proof.
  intros Hh. eapply undoable_touch with (P := eq (Ptr (Some a) i)).
  - by intros q <-.
  - by eapply touch_poke.
Qed.

(** Once a relocation has thrown, moves can throw, so what relocation did
    was confined to copies. *)
Lemma confined_undoable a w w' :
  is_nothrow_move_constructible = false → confined a w w' → undoable a w w'.
Proof.
  intros Hnt (S1 & L1 & O1). split; [done|]. split; [done|].
  intros [Hc|Hc]; [|congruence]. apply O1.
  unfold relocation_kind. by rewrite Hnt, Hc.
Qed.

(** Freeing the new block after a failure gives back the old sequence. *)
Lemma realloc_unwind v w w1 w2 a blk new_data :
  vec_ok v w = true →
  heap w !! a = None →
  heap w1 = <[a := blk]> (heap w) →
  buffer_ new_data = Ptr (Some a) 0 →
  undoable a w1 w2 →
  post (on_world (RawMemory_dtor new_data)) (v, w2)
    (fun _ s => s.1 = v ∧ vec_ok v s.2 = true ∧
                (is_copy_constructible = true ∨ is_nothrow_move_constructible = true →
                 heap s.2 = heap w))
    (fun _ _ => True).
Proof.
  intros Hok Hfresh Hh1 Hb (Hs2 & Hoff & Hcopy).
  pose proof Hok as (Hraw & Hsz & Hcont)%vec_okP.
  pose proof (raw_view_base_ne _ _ _ Hraw Hfresh) as Hne.
  assert (outside (eq a) w w1) as Ho1 by (by eapply outside_insert).
  assert (∀ b, base (buffer_ (data_ v)) = Some b → ¬ a = b) as Hnb
    by (intros b Hb' ->; by rewrite Hb' in Hne).
  eapply post_on_world, post_conseq; [apply RawMemory_dtor_post| |done].
  intros [] w3 Hrel. cbn.
  pose proof (released_outside _ _ _ Hrel) as Ho3. rewrite Hb in Ho3. cbn in Ho3.
  destruct Hrel as [[Hb' _]|(a' & Hb' & _ & Hh3 & _)]; [by rewrite Hb in Hb'|].
  rewrite Hb in Hb'. injection Hb' as <-.
  split; [done|]. split.
  - eapply vec_ok_transfer; [done| |].
    + intros b Hb'. rewrite Ho3 by (intros [= ->]; by eapply Hnb).
      rewrite Hs2, Hh1, lookup_insert_ne; [done|]. by apply Hnb.
    + intros q Hq%in_range_base Hlive. unfold is_live.
      rewrite Hh3, peek_delete_ne by congruence.
      apply Hoff; [cbn; congruence|]. unfold is_live.
      rewrite Hh1, peek_insert_ne by congruence. done.
  - intros Hc. eapply outside_fresh_eq; [|done|].
    + eapply outside_trans; [exact Ho1|]. eapply outside_trans; [by apply Hcopy|].
      eapply outside_mono; [|exact Ho3]. by intros b [= ->].
    + rewrite Hh3. apply lookup_delete_eq.
Qed.

End Unwinding.

(** Side conditions on ranges of slots. *)
Ltac range_disjoint :=
  unfold in_range, ptr_add; cbn [base offset]; intros;
  intuition (try congruence; try lia).

(** * Member functions of [Vector] *)

Section Members.
Context {T : Type} `{Element T}.
Implicit Types h : gmap addr (list (option T)).
Implicit Types p q : ptr.
Implicit Types v : Vector.
Implicit Types w : World T.
Implicit Types rm : RawMemory.

(** [Reserve]: on success the sequence has the same elements in storage of
    the requested capacity; on failure it is the same sequence, still
    well-formed, and the heap is as before unless objects were moved. *)
Lemma Reserve_post n v w :
  vec_ok v w = true →
  post (Reserve n) (v, w)
    (fun _ s' => vec_ok s'.1 s'.2 = true ∧
                 size_ s'.1 = size_ v ∧
                 Capacity s'.1 = N.max n (Capacity v) ∧
                 contents s'.1 s'.2 = contents v w ∧
                 (n <= Capacity v → s' = (v, w)))
    (fun _ s' => s'.1 = v ∧ vec_ok v s'.2 = true ∧
                 (is_copy_constructible = true ∨ is_nothrow_move_constructible = true →
                  heap s'.2 = heap w)).
Proof.
  intros Hok. unfold Reserve. apply post_this.
  destruct (N.leb_spec n (RawMemory_Capacity (data_ v))) as [Hle|Hgt].
  { apply post_ret. cbn. unfold Capacity. repeat split; try done. lia. }
  pose proof Hok as (Hraw & Hsz & Hcont)%vec_okP.
  eapply post_world_bind; [apply RawMemory_ctor_post| |].
  2:{ intros e w1 [Hh Hl]. cbn. split; [done|].
      split; [by rewrite (vec_ok_heap_eq _ _ _ Hh)|done]. }
  intros new_data w1 Halloc.
  pose proof (allocated_raw_view _ _ _ _ Halloc) as Hraw1.
  destruct Halloc as [Hcap [(Hn0 & _)|(Hn & a & Hb & Hfresh & Hh1 & Hbytes & Hl1)]].
  { unfold RawMemory_Capacity in Hgt. lia. }
  pose proof (raw_view_base_ne _ _ _ Hraw Hfresh) as Hne.
  assert (outside (eq a) w w1) as Ho1 by (by eapply outside_insert).
  assert (∀ b, base (buffer_ (data_ v)) = Some b → ¬ a = b) as Hnb
    by (intros b Hb' ->; by rewrite Hb' in Hne).
  unfold GetAddress. rewrite Hb.
  eapply post_bind with
    (Qm := fun _ s => s.1 = v ∧ same_shape (heap w1) (heap s.2) ∧
                      live_range (heap s.2) (Ptr (Some a) 0) (N.to_nat (size_ v))
                        = contents v w)
    (Em := fun _ s => s.1 = v ∧ vec_ok v s.2 = true ∧
                      (is_copy_constructible = true ∨ is_nothrow_move_constructible = true →
                       heap s.2 = heap w)).
  - eapply post_on_exception with
      (Qm := fun _ s => s.1 = v ∧ same_shape (heap w1) (heap s.2) ∧
                        live_range (heap s.2) (Ptr (Some a) 0) (N.to_nat (size_ v))
                          = contents v w)
      (Em := fun _ s => s.1 = v ∧ same_shape (heap w1) (heap s.2) ∧
                        stays_live_off (Ptr (Some a) 0) w1 s.2 ∧
                        (is_copy_constructible = true ∨
                         is_nothrow_move_constructible = true →
                         outside (eq a) w1 s.2)); [|done|].
    + eapply post_world_bind; [apply InitializeDataUsingOtherData_post| |].
      * intros _ w2 (Ht2 & Hl2 & _ & Hv2).
        eapply post_on_world, post_conseq; [apply destroy_n_post| |done].
        intros _ w3 (Ht3 & _ & _ & Hl3). cbn.
        split; [done|]. split.
        { eapply same_shape_trans; [apply Ht2|apply Ht3]. }
        destruct Hv2 as (l & Hl & Hl'); [done|].
        rewrite (live_range_touch _ _ _ _ _ Ht3).
        2:{ intros q Hq Hq'. apply in_range_base in Hq, Hq'. cbn in Hq.
            congruence. }
        rewrite Hl', <- Hl. unfold contents.
        eapply live_range_outside; [exact Ho1|done].
      * intros e w2 (Hnt & Hr & Hoff & Ht & Hcopy & _). cbn.
        split; [done|]. split; [apply Ht|]. split; [done|].
        intros [Hc|Hc]; [|congruence].
        eapply outside_touch; [|by apply Hcopy].
        intros q b Hq%in_range_base Hb'. cbn in Hq. congruence.
    + intros e [v2 w2] (Hv & Hs2 & Hoff & Hcopy). cbn in Hv, Hs2, Hoff, Hcopy. subst v2.
      eapply post_on_world, post_conseq; [apply RawMemory_dtor_post| |done].
      intros [] w3 Hrel. cbn.
      pose proof (released_outside _ _ _ Hrel) as Ho3. rewrite Hb in Ho3. cbn in Ho3.
      destruct Hrel as [[Hb' _]|(a' & Hb' & _ & Hh3 & _)]; [by rewrite Hb in Hb'|].
      rewrite Hb in Hb'. injection Hb' as <-.
      split; [done|]. split.
      * eapply vec_ok_transfer; [done| |].
        -- intros b Hb'. rewrite Ho3 by (intros [= ->]; by eapply Hnb).
           rewrite Hs2, Hh1, lookup_insert_ne; [done|]. by apply Hnb.
        -- intros q Hq%in_range_base Hlive. unfold is_live.
           rewrite Hh3, peek_delete_ne by congruence.
           apply Hoff; [cbn; congruence|]. unfold is_live.
           rewrite Hh1, peek_insert_ne by congruence. done.
      * intros Hc. eapply outside_fresh_eq; [|done|].
        -- eapply outside_trans; [exact Ho1|]. eapply outside_trans; [by apply Hcopy|].
           eapply outside_mono; [|exact Ho3]. by intros b [= ->].
        -- rewrite Hh3. apply lookup_delete_eq.
  - intros _ [v3 w3] (Hv & Hs3 & Hl3). cbn in Hv, Hs3, Hl3. subst v3.
    cbn [RawMemory_Swap]. apply post_set_data.
    eapply post_on_world, post_conseq; [apply RawMemory_dtor_post| |done].
    intros [] w4 Hrel. cbn [fst snd buffer_ capacity_ data_ size_].
    pose proof (released_outside _ _ _ Hrel) as Ho4. cbn [buffer_] in Ho4.
    assert (contents {| data_ := {| buffer_ := buffer_ new_data;
                                    capacity_ := capacity_ new_data |};
                        size_ := size_ v |} w4 = contents v w) as Hc4.
    { unfold contents at 1. cbn [data_ size_ buffer_]. rewrite Hb, <- Hl3.
      eapply live_range_outside; [exact Ho4|].
      intros b [= <-] Hb'. by eapply Hnb. }
    split; [|split; [done|split; [|split; [done|]]]].
    + apply vec_ok_make; [|by rewrite Hc4].
      eapply raw_view_transfer; [|].
      * instantiate (1 := w1). by destruct new_data.
      * cbn [data_ buffer_]. rewrite Hb. intros b [= <-].
        rewrite Ho4 by (intros Hb'; by eapply Hnb). apply Hs3.
    + unfold Capacity, RawMemory_Capacity in *. cbn. lia.
    + unfold RawMemory_Capacity in Hgt. unfold Capacity, RawMemory_Capacity. lia.
  - done.
Qed.

(** The reallocating insertion. *)
Lemma EmplaceWithRealloc_post pos k x v w :
  vec_ok v w = true → size_ v = Capacity v → offset pos <= size_ v →
  post (EmplaceWithRealloc pos k x) (v, w)
    (fun r s' =>
       vec_ok s'.1 s'.2 = true ∧
       size_ s'.1 = size_ v + 1 ∧
       Capacity s'.1 = (if Capacity v =? 0 then 1 else 2 * Capacity v) ∧
       r = buffer_ (data_ s'.1) +ₚ offset pos ∧
       allocs (log s'.2) = S (allocs (log w)) ∧
       ∀ l, contents v w = Some l →
            contents s'.1 s'.2 =
              Some (take (N.to_nat (offset pos)) l ++ x :: drop (N.to_nat (offset pos)) l))
    (fun _ s' => s'.1 = v ∧ vec_ok v s'.2 = true ∧
                 (is_copy_constructible = true ∨ is_nothrow_move_constructible = true →
                  heap s'.2 = heap w)).
Proof.
  intros Hok Hfull Hpos.
  pose proof Hok as (Hraw & Hsz & [l Hl])%vec_okP.
  assert (offset (buffer_ (data_ v)) = 0) as Hbuf0
    by (by destruct Hraw as [-> ?|? ? -> ? ? ? ?]).
  assert (Capacity v <= PTRDIFF_MAX) as Hcapm.
  { apply bytes_bound. eapply full_bytes; [done|]. unfold Capacity, RawMemory_Capacity in *. lia. }
  set (i := offset pos) in *. set (ni := N.to_nat i).
  set (old := buffer_ (data_ v)) in *.
  unfold EmplaceWithRealloc. apply post_this, post_cbegin_bind, post_ptr_diff_bind.
  intros Hbase _. fold old. rewrite Hbuf0, N.sub_0_r. fold i.
  assert ((if size_ v =? 0 then 1 else wrap (size_ v * 2))
          = (if Capacity v =? 0 then 1 else 2 * Capacity v)) as ->.
  { rewrite Hfull. destruct (N.eqb_spec (Capacity v) 0); [done|].
    rewrite wrap_small; [lia|]. rewrite SIZE_MOD_val, PTRDIFF_MAX_val in *. lia. }
  set (ncap := if Capacity v =? 0 then 1 else 2 * Capacity v).
  assert (ncap ≠ 0) as Hncap by (unfold ncap; destruct (N.eqb_spec (Capacity v) 0); lia).
  eapply post_world_bind; [apply RawMemory_ctor_post| |].
  2:{ intros e w1 [Hh _]. cbn. split; [done|].
      split; [by rewrite (vec_ok_heap_eq _ _ _ Hh)|done]. }
  intros new_data w1 Halloc.
  pose proof (allocated_raw_view _ _ _ _ Halloc) as Hraw1.
  destruct Halloc as [Hcap [(Hn0 & _)|(_ & a & Hb & Hfresh & Hh1 & Hbytes & Hl1)]]; [done|].
  pose proof (raw_view_base_ne _ _ _ Hraw Hfresh) as Hne. fold old in Hne.
  assert (outside (eq a) w w1) as Ho1 by (by eapply outside_insert).
  assert (∀ b, base old = Some b → ¬ a = b) as Hnb
    by (intros b Hb' ->; by rewrite Hb' in Hne).
  assert (live_range (heap w1) old (N.to_nat (size_ v)) = Some l) as Hl_1.
  { rewrite <- Hl. unfold contents. by eapply live_range_outside. }
  unfold GetAddress. fold old. rewrite Hb.
  eapply post_bind with
    (Qm := fun _ s => s.1 = v ∧ same_shape (heap w1) (heap s.2) ∧ quiet w1 s.2 ∧
                      live_range (heap s.2) (Ptr (Some a) 0) (ni + S (N.to_nat (size_ v) - ni))
                        = Some (take ni l ++ x :: drop ni l))
    (Em := fun _ s => s.1 = v ∧ vec_ok v s.2 = true ∧
                      (is_copy_constructible = true ∨ is_nothrow_move_constructible = true →
                       heap s.2 = heap w)).
  - eapply post_on_exception with
      (Qm := fun _ s => s.1 = v ∧ same_shape (heap w1) (heap s.2) ∧ quiet w1 s.2 ∧
                        live_range (heap s.2) (Ptr (Some a) 0) (ni + S (N.to_nat (size_ v) - ni))
                          = Some (take ni l ++ x :: drop ni l))
      (Em := fun _ s => s.1 = v ∧ undoable a w1 s.2); [|done|].
    2:{ intros e [v2 w2] [Hv Hu]. cbn in Hv, Hu. subst v2. by eapply realloc_unwind. }
    apply post_plus_bind. intros Hile. rewrite Hb.
    change ({| base := Some a; offset := 0 |} +ₚ i) with (Ptr (Some a) i).
    eapply post_world_bind; [apply construct_at_post| |].
    2:{ intros e w2 (Hh2 & _). cbn. split; [done|]. by apply undoable_heap_eq. }
    intros [] w2 (Hs2 & Hh2 & Hl2).
    assert (undoable a w1 w2) as Hu2 by (by eapply undoable_poke).
    assert (peek (heap w2) (Ptr (Some a) i) = Some (Some x)) as Hx2
      by (rewrite Hh2; by apply peek_poke_eq).
    assert (live_range (heap w2) old (N.to_nat (size_ v)) = Some l) as Hl_2.
    { assert (touch (in_range (Ptr (Some a) i) 1) w1 w2) as Ht2
        by (eapply touch_poke; [apply in_range_first|done]).
      rewrite (live_range_touch _ _ _ _ _ Ht2) by range_disjoint. done. }
    (* the prefix *)
    eapply post_world_on_exception_bind; [apply InitializeDataUsingOtherData_post| |].
    2:{ intros e w3 (Hnt & _ & _ & _ & _ & Hc3).
        apply post_at_bind. intros _. rewrite Hb.
        change ({| base := Some a; offset := 0 |} +ₚ i) with (Ptr (Some a) i).
        eapply post_on_world, post_conseq; [apply destroy_at_post| |done].
        intros [] w3' (_ & Hh3' & _). cbn. split; [done|].
        eapply undoable_trans; [exact Hu2|]. eapply undoable_trans.
        - apply confined_undoable; [done|]. by apply Hc3.
        - by eapply undoable_poke. }
    intros [] w3 (Ht3 & Hl3 & Hc3 & Hv3). specialize (Hc3 a eq_refl).
    destruct Hv3 as (l1 & Hl1a & Hl1b); [done|]. fold ni in Hl1a, Hl1b, Ht3.
    assert (ni ≤ N.to_nat (size_ v))%nat as Hni by lia.
    assert (l1 = take ni l) as ->.
    { pose proof (live_range_take _ _ _ ni _ Hni Hl_2). congruence. }
    apply post_plus_bind. intros _. apply post_plus_bind. intros _. rewrite Hb.
    change ({| base := Some a; offset := 0 |} +ₚ i +ₚ 1) with (Ptr (Some a) (i + 1)).
    (* the suffix *)
    eapply post_world_on_exception_bind; [apply InitializeDataUsingOtherData_post| |].
    2:{ intros e w4 (Hnt & _ & _ & _ & _ & Hc4).
        eapply post_world_bind; [apply destroy_n_post| |done].
        intros p w4' (Ht4' & _). apply post_ret. cbn. split; [done|].
        eapply undoable_trans; [exact Hu2|]. eapply undoable_trans.
        - apply confined_undoable; [done|exact Hc3].
        - eapply undoable_trans.
          + apply confined_undoable; [done|]. by apply Hc4.
          + eapply undoable_touch; [|exact Ht4']. by intros q Hq%in_range_base. }
    intros [] w4 (Ht4 & Hl4 & Hc4 & Hv4). specialize (Hc4 a eq_refl).
    destruct Hv4 as (l2 & Hl2a & Hl2b); [done|].
    replace (N.to_nat (size_ v - i)) with (N.to_nat (size_ v) - ni)%nat in * by lia.
    fold old in Hl2a, Ht4.
    assert (l2 = drop ni l) as ->.
    { pose proof (live_range_drop _ _ _ ni _ Hni Hl_2) as Hd.
      replace (old +ₚ N.of_nat ni) with (old +ₚ i) in Hd by (f_equal; lia).
      rewrite <- (live_range_touch _ _ _ _ _ Ht3) in Hd; [congruence|].
      range_disjoint. }
    eapply post_world_bind; [apply destroy_n_post| |done].
    intros p w5 (Ht5 & _ & _ & Hl5). apply post_ret. cbn.
    split; [done|]. split.
    { eapply same_shape_trans; [apply Hu2|]. eapply same_shape_trans; [apply Ht3|].
      eapply same_shape_trans; [apply Ht4|apply Ht5]. }
    split.
    { eapply quiet_trans; [by eapply quiet_log|].
      eapply quiet_trans; [by eapply quiet_replicate|].
      eapply quiet_trans; [by eapply quiet_replicate|]. by eapply quiet_replicate. }
    apply live_range_app.
    + rewrite (live_range_touch _ _ _ _ _ Ht5) by range_disjoint.
      rewrite (live_range_touch _ _ _ _ _ Ht4) by range_disjoint. done.
    + change ({| base := Some a; offset := 0 |} +ₚ N.of_nat ni) with (Ptr (Some a) (N.of_nat ni)).
      replace (N.of_nat ni) with i by lia.
      apply live_range_S.
      * destruct Ht5 as [_ ->]; [|range_disjoint].
        destruct Ht4 as [_ ->]; [|range_disjoint].
        destruct Ht3 as [_ ->]; [done|range_disjoint].
      * change ({| base := Some a; offset := i |} +ₚ 1) with (Ptr (Some a) (i + 1)).
        rewrite (live_range_touch _ _ _ _ _ Ht5) by range_disjoint. done.
  - intros [] [v5 w5] (Hv & Hs5 & Hq5 & Hl5). cbn in Hv, Hs5, Hq5, Hl5. subst v5.
    cbn [RawMemory_Swap]. apply post_set_data, post_set_size, post_plus_bind.
    cbn [buffer_ capacity_]. intros _.
    eapply post_world_bind; [apply RawMemory_dtor_post| |done].
    intros [] w6 Hrel. apply post_ret. cbn [fst snd buffer_ capacity_ data_ size_].
    pose proof (released_outside _ _ _ Hrel) as Ho6. cbn [buffer_] in Ho6. fold old in Ho6.
    assert (wrap (size_ v + 1) = size_ v + 1) as Hw.
    { apply wrap_small. rewrite SIZE_MOD_val, PTRDIFF_MAX_val in *. lia. }
    rewrite Hw.
    assert (contents {| data_ := {| buffer_ := buffer_ new_data;
                                    capacity_ := capacity_ new_data |};
                        size_ := size_ v + 1 |} w6
            = Some (take ni l ++ x :: drop ni l)) as Hc6.
    { unfold contents. cbn [data_ size_ buffer_]. rewrite Hb, <- Hl5.
      replace (N.to_nat (size_ v + 1)) with (ni + S (N.to_nat (size_ v) - ni))%nat by lia.
      eapply live_range_outside; [exact Ho6|].
      intros b [= <-] Hb'. by eapply Hnb. }
    split; [|split; [done|split; [done|split; [done|split]]]].
    + apply vec_ok_make; [|by rewrite Hc6].
      eapply raw_view_transfer.
      * instantiate (1 := w1). by destruct new_data.
      * cbn [data_ buffer_]. rewrite Hb. intros b [= <-].
        rewrite Ho6 by (intros Hb'; by eapply Hnb). apply Hs5.
    + rewrite (released_quiet _ _ _ Hrel), Hq5, Hl1, allocs_app. simpl. lia.
    + intros l' Hl'. rewrite Hl in Hl'. injection Hl' as <-. exact Hc6.
  - done.
Qed.

Lemma vec_ok_offset v w : vec_ok v w = true → offset (buffer_ (data_ v)) = 0.
Proof. intros (Hraw & _)%vec_okP. by destruct Hraw as [-> ?|? ? -> ? ? ? ?]. Qed.

Lemma vec_ok_size_bound v w : vec_ok v w = true → size_ v <= PTRDIFF_MAX.
Proof.
  intros (Hraw & Hsz & _)%vec_okP. etrans; [exact Hsz|].
  apply bytes_bound. by apply slots_bytes.
Qed.

Lemma wrap_succ_size v w : vec_ok v w = true → wrap (size_ v + 1) = size_ v + 1.
Proof.
  intros Hb%vec_ok_size_bound. apply wrap_small.
  rewrite SIZE_MOD_val, PTRDIFF_MAX_val in *. lia.
Qed.

(** A sequence is still well-formed after its size changed, if the slots up
    to the new size are alive. *)
Lemma vec_ok_resized v w w' n l :
  vec_ok v w = true → same_shape (heap w) (heap w') →
  live_range (heap w') (buffer_ (data_ v)) (N.to_nat n) = Some l →
  vec_ok {| data_ := data_ v; size_ := n |} w' = true ∧
  contents {| data_ := data_ v; size_ := n |} w' = Some l.
Proof.
  intros (Hraw & _)%vec_okP Hs Hl. split; [|done].
  apply vec_ok_make; [|by eexists].
  eapply raw_view_transfer; [done|]. intros a _. apply Hs.
Qed.

(** The insertion into spare capacity. *)
Lemma EmplaceWithoutRealloc_post pos k x v w :
  vec_ok v w = true → offset pos <= size_ v →
  post (EmplaceWithoutRealloc pos k x) (v, w)
    (fun r s' =>
       vec_ok s'.1 s'.2 = true ∧
       size_ s'.1 = size_ v + 1 ∧
       data_ s'.1 = data_ v ∧
       r = buffer_ (data_ v) +ₚ offset pos ∧
       quiet w s'.2 ∧
       ∀ l, contents v w = Some l →
            contents s'.1 s'.2 =
              Some (take (N.to_nat (offset pos)) l ++ x :: drop (N.to_nat (offset pos)) l))
    (fun _ s' => s'.1 = v ∧ vec_ok v s'.2 = true).
Proof.
  intros Hok Hpos.
  pose proof Hok as (Hraw & Hsz & [l Hl])%vec_okP.
  pose proof (vec_ok_offset _ _ Hok) as Hbuf0.
  pose proof (wrap_succ_size _ _ Hok) as Hw.
  pose proof (live_range_length _ _ _ _ Hl) as Hlen.
  set (i := offset pos) in *. set (ni := N.to_nat i).
  set (buf := buffer_ (data_ v)) in *.
  assert (∀ w', keeps_live w w' → vec_ok v w' = true) as Hkeep.
  { intros w' [Hs Hk]. eapply vec_ok_transfer; [done| |by intros q _; apply Hk].
    intros a _. apply Hs. }
  assert (∀ w', same_shape (heap w) (heap w') → quiet w w' →
    live_range (heap w') buf (N.to_nat (size_ v + 1)) = Some (take ni l ++ x :: drop ni l) →
    vec_ok {| data_ := data_ v; size_ := size_ v + 1 |} w' = true
    ∧ size_ v + 1 = size_ v + 1
      ∧ data_ v = data_ v
        ∧ buf +ₚ i = buf +ₚ i
          ∧ quiet w w'
            ∧ (∀ l0, contents v w = Some l0 →
                 contents {| data_ := data_ v; size_ := size_ v + 1 |} w'
                 = Some (take ni l0 ++ x :: drop ni l0))) as Hfinish.
  { intros w' Hs Hq Hl'.
    destruct (vec_ok_resized v w w' (size_ v + 1) _ Hok Hs Hl') as [Hok' Hc'].
    repeat split; try done. intros l0 Hl0. rewrite Hl in Hl0. by injection Hl0 as <-. }
  unfold EmplaceWithoutRealloc. apply post_this, post_cbegin_bind, post_ptr_diff_bind.
  intros Hbase _. fold buf. rewrite Hbuf0, N.sub_0_r. fold i.
  apply post_cend_bind. intros Hsc. fold buf.
  destruct (bool_decide (pos = buf +ₚ size_ v)) eqn:Hend; cbv iota.
  - (* at the end *)
    apply bool_decide_eq_true in Hend.
    assert (i = size_ v) as Hi.
    { unfold i. rewrite Hend. unfold ptr_add. cbn [offset]. lia. }
    apply post_bind_assoc, post_plus_bind. intros _. fold buf.
    eapply post_world_bind; [apply construct_at_post| |].
    2:{ intros e w1 (Hh1 & _). cbn. split; [done|].
        by rewrite (vec_ok_heap_eq _ _ _ Hh1). }
    intros [] w1 (Hs1 & Hh1 & Hl1).
    apply post_set_size, post_plus. intros _. fold buf. rewrite Hw.
    cbn [fst snd data_ size_].
    assert (touch (in_range (buf +ₚ size_ v) 1) w w1) as Ht1
      by (eapply touch_poke; [apply in_range_first|done]).
    apply Hfinish; [apply Ht1|by eapply quiet_log|].
    replace (N.to_nat (size_ v + 1)) with (S (N.to_nat (size_ v))) by lia.
    rewrite take_ge, drop_ge by lia.
    apply live_range_snoc.
    + rewrite (live_range_touch _ _ _ _ _ Ht1) by range_disjoint. done.
    + rewrite N2Nat.id, Hh1. by apply peek_poke_eq.
  - (* in the middle *)
    apply bool_decide_eq_false in Hend.
    assert (i < size_ v) as Hi.
    { destruct (decide (i = size_ v)) as [Heq|]; [|lia]. destruct Hend.
      apply ptr_eq; [done|]. unfold ptr_add. cbn [offset]. fold i. lia. }
    set (n' := (N.to_nat (size_ v) - 1 - ni)%nat).
    apply post_bind_assoc.
    eapply post_world_bind; [apply construct_local_post| |].
    2:{ intros e w1 (Hh1 & _). cbn. split; [done|].
        by rewrite (vec_ok_heap_eq _ _ _ Hh1). }
    intros [] w1 (Hh1 & Hl1). apply post_bind_assoc.
    eapply post_bind with
      (Qm := fun _ s => s.1 = v ∧ keeps_live w s.2 ∧ quiet w s.2 ∧
                        live_range (heap s.2) buf (ni + S (S n'))
                          = Some (take ni l ++ x :: drop ni l))
      (Em := fun _ s => s.1 = v ∧ vec_ok v s.2 = true).
    + eapply post_on_exception with
        (Qm := fun _ s => s.1 = v ∧ keeps_live w s.2 ∧ quiet w s.2 ∧
                          live_range (heap s.2) buf (ni + S (S n'))
                            = Some (take ni l ++ x :: drop ni l))
        (Em := fun _ s => s.1 = v ∧ keeps_live w s.2); [|done|].
      2:{ intros e [v2 w2] [Hv Hk]. cbn in Hv, Hk. subst v2.
          eapply post_on_world, post_conseq; [apply destroy_local_post| |done].
          intros [] w3 (Hh3 & _). cbn. split; [done|].
          rewrite (vec_ok_heap_eq _ _ _ Hh3). by apply Hkeep. }
      assert (keeps_live w w1) as Hk1 by (by apply keeps_live_heap_eq).
      apply post_plus_bind. intros _. apply post_at_bind. intros _. fold buf.
      eapply post_world_bind; [apply move_construct_post| |].
      2:{ intros e w2 (Hh2 & _). cbn. split; [done|].
          eapply keeps_live_trans; [exact Hk1|]. by apply keeps_live_heap_eq. }
      intros [] w2 (y & Hy & Hs2 & Hh2 & Hl2).
      assert (keeps_live w w2) as Hk2
        by (eapply keeps_live_trans; [exact Hk1|]; by eapply keeps_live_move).
      assert (touch (in_range (buf +ₚ (size_ v - 1)) 2) w w2) as Ht2.
      { eapply touch_trans with (w2 := w1); [by apply touch_heap_eq|].
        eapply touch_trans with (w2 := set_heap (poke (heap w1) (buf +ₚ size_ v) (Some y)) w1).
        - eapply touch_poke; [|done]. apply in_range_add. exists 1%nat.
          split; [lia|]. rewrite ptr_add_add. f_equal. lia.
        - eapply touch_poke; [apply in_range_first|done]. }
      do 3 (apply post_plus_bind; intros _). fold buf.
      replace (buf +ₚ (size_ v - 1)) with (buf +ₚ i +ₚ N.of_nat n') in *
        by (rewrite ptr_add_add; f_equal; lia).
      replace (buf +ₚ size_ v) with (buf +ₚ i +ₚ N.of_nat n' +ₚ 1) in *
        by (rewrite !ptr_add_add; f_equal; lia).
      eapply post_world_bind; [apply std_move_backward_post| |].
      2:{ intros e w3 (_ & Hk3). cbn. split; [done|]. by eapply keeps_live_trans. }
      intros p3 w3 (Ht3 & Hk3 & Hq3 & l' & Hl'a & Hl'b).
      apply post_at_bind. intros _. fold buf.
      eapply post_on_world, post_conseq; [apply assign_at_post| |].
      2:{ intros e w4 (Hh4 & _). cbn. split; [done|].
          eapply keeps_live_trans; [exact Hk2|].
          eapply keeps_live_trans; [exact Hk3|]. by apply keeps_live_heap_eq. }
      intros [] w4 (Hlive4 & Hh4 & Hl4). cbn.
      assert (touch (in_range (buf +ₚ i) 1) w3 w4) as Ht4
        by (eapply touch_poke; [apply in_range_first|done]).
      split; [done|]. split.
      { eapply keeps_live_trans; [exact Hk2|].
        eapply keeps_live_trans; [exact Hk3|]. by eapply keeps_live_poke. }
      split.
      { eapply quiet_trans; [by eapply quiet_log|].
        eapply quiet_trans; [by eapply quiet_log|].
        eapply quiet_trans; [exact Hq3|]. by eapply quiet_log. }
      (* the elements from [i] on, before the insertion *)
      assert (ni ≤ N.to_nat (size_ v))%nat as Hni by lia.
      pose proof (live_range_drop _ _ _ ni _ Hni Hl) as Hd.
      fold buf in Hd. replace (N.of_nat ni) with i in Hd by lia.
      replace (N.to_nat (size_ v) - ni)%nat with (S n') in Hd by lia.
      pose proof (live_range_length _ _ _ _ Hd) as Hdlen.
      destruct (lookup_lt_is_Some_2 (drop ni l) n') as [y' Hy']; [lia|].
      assert (y' = y) as ->.
      { pose proof (live_range_lookup _ _ _ _ _ _ Hd Hy') as Hp.
        rewrite Hh1 in Hy. congruence. }
      assert (l' = take n' (drop ni l)) as ->.
      { assert (n' ≤ S n')%nat as Hle by lia.
        pose proof (live_range_take _ _ _ n' _ Hle Hd) as Ht.
        rewrite <- (live_range_touch _ _ _ _ _ Ht2) in Ht by range_disjoint.
        congruence. }
      assert (take n' (drop ni l) ++ [y] = drop ni l) as Hsplit.
      { rewrite <- (take_S_r _ _ _ Hy'). apply take_ge. lia. }
      apply live_range_app.
      * rewrite (live_range_touch _ _ _ _ _ Ht4) by range_disjoint.
        rewrite (live_range_touch _ _ _ _ _ Ht3) by range_disjoint.
        rewrite (live_range_touch _ _ _ _ _ Ht2) by range_disjoint.
        exact (live_range_take _ _ _ ni _ Hni Hl).
      * replace (N.of_nat ni) with i by lia. apply live_range_S.
        { rewrite Hh4. apply peek_poke_eq. destruct Hlive4 as [z ->]. by eexists. }
        rewrite <- Hsplit. apply live_range_snoc.
        -- rewrite (live_range_touch _ _ _ _ _ Ht4) by range_disjoint. done.
        -- destruct Ht4 as [_ ->]; [|range_disjoint].
           destruct Ht3 as [_ ->]; [|range_disjoint].
           replace (buf +ₚ i +ₚ 1 +ₚ N.of_nat n') with (buf +ₚ i +ₚ N.of_nat n' +ₚ 1)
             by (rewrite !ptr_add_add; f_equal; lia).
           rewrite Hh2, peek_poke_ne.
           ++ by apply peek_poke_eq.
           ++ intros Heq%(f_equal offset). unfold ptr_add in Heq.
              cbn [offset] in Heq. lia.
    + intros [] [v4 w4] (Hv & Hk4 & Hq4 & Hl4). cbn in Hv, Hk4, Hq4, Hl4. subst v4.
      eapply post_world_bind; [apply destroy_local_post| |done].
      intros [] w5 (Hh5 & Hl5).
      apply post_set_size, post_plus. intros _. fold buf. rewrite Hw.
      cbn [fst snd data_ size_].
      apply Hfinish.
      * rewrite Hh5. apply Hk4.
      * eapply quiet_trans; [exact Hq4|]. by eapply quiet_log.
      * rewrite Hh5. by replace (N.to_nat (size_ v + 1)) with (ni + S (S n'))%nat by lia.
    + done.
Qed.

(** [Emplace] checks the position and dispatches on [size_ == Capacity()]. *)
Lemma Emplace_post pos k x v w :
  vec_ok v w = true →
  post (Emplace pos k x) (v, w)
    (fun r s' =>
       base pos = base (buffer_ (data_ v)) ∧ offset pos <= size_ v ∧
       vec_ok s'.1 s'.2 = true ∧
       size_ s'.1 = size_ v + 1 ∧
       Capacity s'.1 =
         (if size_ v =? Capacity v
          then (if Capacity v =? 0 then 1 else 2 * Capacity v)
          else Capacity v) ∧
       r = buffer_ (data_ s'.1) +ₚ offset pos ∧
       allocs (log s'.2) =
         (allocs (log w) + (if (size_ v =? Capacity v)%N then 1 else 0))%nat ∧
       ∀ l, contents v w = Some l →
            contents s'.1 s'.2 =
              Some (take (N.to_nat (offset pos)) l ++ x :: drop (N.to_nat (offset pos)) l))
    (fun _ s' => s'.1 = v ∧ vec_ok v s'.2 = true ∧
                 (size_ v = Capacity v →
                  is_copy_constructible = true ∨ is_nothrow_move_constructible = true →
                  heap s'.2 = heap w)).
Proof.
  intros Hok. pose proof (vec_ok_offset _ _ Hok) as Hbuf0.
  unfold Emplace. apply post_begin_bind, post_end_bind. intros Hsc.
  apply post_ptr_le_bind. intros Hb1. apply post_ptr_le_bind. intros Hb2.
  apply post_assert_bind. intros [_ Hle%N.leb_le]%andb_true_iff.
  unfold ptr_add in Hle. cbn [offset] in Hle. rewrite Hbuf0 in Hle.
  apply post_this. destruct (N.eqb_spec (size_ v) (Capacity v)) as [Hfull|Hspare].
  - eapply post_conseq; [apply EmplaceWithRealloc_post; [done|done|lia]| |].
    + intros r [v' w'] (Hok' & Hs' & Hc' & Hr' & Ha' & Hl'). cbn in *.
      repeat split; try done; lia.
    + intros e [v' w'] (Hv' & Hok' & Hh'). cbn in *. done.
  - eapply post_conseq; [apply EmplaceWithoutRealloc_post; [done|lia]| |].
    + intros r [v' w'] (Hok' & Hs' & Hd' & Hr' & Hq' & Hl'). cbn in *.
      repeat split; try done.
      * unfold Capacity. by rewrite Hd'.
      * by rewrite Hd'.
      * unfold quiet in Hq'. lia.
    + intros e [v' w'] (Hv' & Hok'). cbn in *. done.
Qed.

Lemma PopBack_post v w :
  post PopBack (v, w)
    (fun _ s' => size_ v ≠ 0 ∧
                 s'.1 = {| data_ := data_ v; size_ := size_ v - 1 |} ∧
                 touch (in_range (buffer_ (data_ v) +ₚ (size_ v - 1)) 1) w s'.2)
    (fun _ _ => False).
Proof.
  unfold PopBack. apply post_this, post_assert_bind.
  intros Hne%negb_true_iff%N.eqb_neq. apply post_at_bind. intros _.
  eapply post_world_bind; [apply destroy_at_post| |done].
  intros [] w1 (_ & Hh1 & _). apply post_set_size, post_ret. cbn.
  split; [done|]. split; [done|].
  eapply touch_poke; [apply in_range_first|done].
Qed.

(** [Erase]. *)
Lemma Erase_post pos v w :
  vec_ok v w = true →
  post (Erase pos) (v, w)
    (fun r s' =>
       base pos = base (buffer_ (data_ v)) ∧ offset pos < size_ v ∧
       vec_ok s'.1 s'.2 = true ∧
       size_ s'.1 = size_ v - 1 ∧
       data_ s'.1 = data_ v ∧
       r = buffer_ (data_ v) +ₚ offset pos ∧
       ∀ l, contents v w = Some l →
            contents s'.1 s'.2 =
              Some (take (N.to_nat (offset pos)) l ++ drop (S (N.to_nat (offset pos))) l))
    (fun _ s' => s'.1 = v ∧ vec_ok v s'.2 = true).
Proof.
  intros Hok. pose proof (vec_ok_offset _ _ Hok) as Hbuf0.
  pose proof Hok as (Hraw & Hsz & [l Hl])%vec_okP.
  set (i := offset pos) in *. set (ni := N.to_nat i).
  set (buf := buffer_ (data_ v)) in *.
  unfold Erase. apply post_begin_bind, post_end_bind. intros Hsc. fold buf.
  apply post_ptr_le_bind. intros Hb1. apply post_ptr_lt_bind. intros Hb2.
  apply post_assert_bind. intros [_ Hlt%N.ltb_lt]%andb_true_iff.
  unfold ptr_add in Hlt. cbn [offset] in Hlt. rewrite Hbuf0 in Hlt. fold i in Hlt.
  apply post_this, post_cbegin_bind, post_ptr_diff_bind. intros _ _.
  fold buf. rewrite Hbuf0, N.sub_0_r. fold i.
  apply post_plus_bind. intros _. apply post_end_bind. intros _.
  apply post_plus_bind. intros _. fold buf.
  eapply post_world_bind; [apply std_move_post| |].
  2:{ intros e w1 [Hs Hk]. cbn. split; [done|].
      eapply vec_ok_transfer; [done| |by intros q _; apply Hk].
      intros a _. apply Hs. }
  intros p1 w1 (_ & _ & Ht1 & Hk1 & l' & Hl'a & Hl'b).
  unfold ptr_add in Ht1, Hl'a, Hl'b. cbn [base offset] in Ht1, Hl'a, Hl'b.
  rewrite Hbuf0 in Ht1, Hl'a, Hl'b.
  replace (N.to_nat (0 + size_ v - (0 + i + 1))) with (N.to_nat (size_ v) - S ni)%nat
    in * by lia.
  set (n := (N.to_nat (size_ v) - S ni)%nat) in *.
  eapply post_bind; [apply PopBack_post| |done].
  intros [] [v2 w2] (Hne & Hv2 & Ht2). cbn in Hv2, Ht2. subst v2.
  apply post_plus. intros _. fold buf. cbn [fst snd data_ size_].
  assert (S ni ≤ N.to_nat (size_ v))%nat as Hni by lia.
  assert (live_range (heap w2) buf (N.to_nat (size_ v - 1))
          = Some (take ni l ++ drop (S ni) l)) as Hl2.
  { replace (N.to_nat (size_ v - 1)) with (ni + n)%nat by lia.
    apply live_range_app.
    - rewrite (live_range_touch _ _ _ _ _ Ht2) by (fold buf; range_disjoint).
      rewrite (live_range_touch _ _ _ _ _ Ht1) by range_disjoint.
      assert (ni ≤ N.to_nat (size_ v))%nat as Hni' by lia.
      exact (live_range_take _ _ _ ni _ Hni' Hl).
    - rewrite (live_range_touch _ _ _ _ _ Ht2) by (fold buf; range_disjoint).
      pose proof (live_range_drop _ _ _ (S ni) _ Hni Hl) as Hd. fold buf n in Hd.
      replace (buf +ₚ N.of_nat ni) with (Ptr (base buf) (0 + i))
        by (apply ptr_eq; unfold ptr_add; cbn [base offset]; [done|lia]).
      replace (buf +ₚ N.of_nat (S ni)) with (Ptr (base buf) (0 + i + 1)) in Hd
        by (apply ptr_eq; unfold ptr_add; cbn [base offset]; [done|lia]).
      congruence. }
  assert (same_shape (heap w) (heap w2)) as Hs2
    by (eapply same_shape_trans; [apply Ht1|apply Ht2]).
  destruct (vec_ok_resized v w w2 (size_ v - 1) _ Hok Hs2 Hl2) as [Hok2 Hc2].
  repeat split; try done.
  intros l0 Hl0. rewrite Hl in Hl0. by injection Hl0 as <-.
Qed.

Lemma post_set_size_last n v w (Q : unit → Obj T → Prop) E :
  Q tt ({| data_ := data_ v; size_ := n |}, w) → post (set_size n) (v, w) Q E.
Proof. done. Qed.

(** Writing beyond the live range leaves the sequence well-formed. *)
Lemma vec_ok_touch_tail v w w' p n :
  vec_ok v w = true → touch (in_range p n) w w' →
  base p = base (buffer_ (data_ v)) → size_ v <= offset p →
  vec_ok v w' = true ∧ contents v w' = contents v w.
Proof.
  intros Hok Ht Hb Hoff. pose proof (vec_ok_offset _ _ Hok) as Hbuf0.
  assert (contents v w' = contents v w) as Hc.
  { unfold contents. apply (live_range_touch _ _ _ _ _ Ht). range_disjoint. }
  split; [|done]. apply vec_okP in Hok as (Hraw & _ & Hl).
  apply vec_ok_make; [|by rewrite Hc].
  eapply raw_view_transfer; [done|]. intros a _. apply Ht.
Qed.

(** [Resize]. *)
Lemma Resize_post n v w :
  vec_ok v w = true →
  post (Resize n) (v, w)
    (fun _ s' =>
       vec_ok s'.1 s'.2 = true ∧ size_ s'.1 = n ∧
       Capacity s'.1 = N.max n (Capacity v) ∧
       ∀ l, contents v w = Some l →
            contents s'.1 s'.2 =
              Some (take (N.to_nat n) l ++ replicate (N.to_nat n - length l) value_init))
    (fun _ s' => vec_ok s'.1 s'.2 = true ∧ size_ s'.1 = size_ v).
Proof.
  intros Hok. pose proof (vec_ok_offset _ _ Hok) as Hbuf0.
  pose proof (vec_ok_size_le_capacity _ _ Hok) as Hsc.
  unfold Resize. apply post_this. destruct (N.ltb_spec n (size_ v)) as [Hlt|Hge].
  - apply post_bind_assoc, post_plus_bind. intros _. apply post_bind_assoc.
    eapply post_world_bind; [apply destroy_n_post| |done].
    intros p w1 (Ht1 & _). apply post_ret_bind, post_set_size_last.
    cbn [fst snd data_ size_].
    pose proof Hok as (_ & _ & [l Hl])%vec_okP.
    pose proof (live_range_length _ _ _ _ Hl) as Hlen.
    assert (N.to_nat n ≤ N.to_nat (size_ v))%nat as Hn by lia.
    pose proof (live_range_take _ _ _ _ _ Hn Hl) as Htake.
    rewrite <- (live_range_touch _ _ _ _ _ Ht1) in Htake by range_disjoint.
    destruct (vec_ok_resized v w w1 n _ Hok (proj1 Ht1) Htake) as [Hok1 Hc1].
    split; [done|]. split; [done|]. split; [unfold Capacity in *; cbn; lia|].
    intros l0 Hl0. rewrite Hl in Hl0. injection Hl0 as <-.
    rewrite Hc1. replace (N.to_nat n - length l)%nat with 0%nat by lia.
    by rewrite app_nil_r.
  - apply post_bind_assoc.
    eapply post_bind; [by apply Reserve_post| |].
    2:{ intros e [v1 w1] (Hv1 & Hok1 & _). cbn in *. by subst v1. }
    intros [] [v1 w1] (Hok1 & Hs1 & Hc1 & Hcont1 & _). cbn in Hok1, Hs1, Hc1, Hcont1.
    pose proof (vec_ok_offset _ _ Hok1) as Hbuf1.
    apply post_bind_assoc, post_this, post_bind_assoc, post_plus_bind. intros _.
    apply post_bind_assoc.
    eapply post_world_bind; [apply uninitialized_value_construct_n_post| |].
    2:{ intros e w2 Ht2. cbn.
        destruct (vec_ok_touch_tail _ _ _ _ _ Hok1 Ht2) as [Hok2 _]; [done| |done].
        unfold ptr_add. cbn [offset]. lia. }
    intros p w2 (Ht2 & Hl2 & _). apply post_ret_bind, post_set_size_last.
    cbn [fst snd data_ size_].
    pose proof Hok1 as (_ & _ & [l Hl])%vec_okP.
    pose proof (live_range_length _ _ _ _ Hl) as Hlen.
    assert (live_range (heap w2) (buffer_ (data_ v1)) (N.to_nat n)
            = Some (l ++ replicate (N.to_nat (n - size_ v1)) value_init)) as Hl2'.
    { replace (N.to_nat n) with (N.to_nat (size_ v1) + N.to_nat (n - size_ v1))%nat by lia.
      apply live_range_app.
      - rewrite (live_range_touch _ _ _ _ _ Ht2) by range_disjoint. exact Hl.
      - by rewrite N2Nat.id. }
    destruct (vec_ok_resized v1 w1 w2 n _ Hok1 (proj1 Ht2) Hl2') as [Hok2 Hc2].
    split; [done|]. split; [done|]. split; [done|].
    intros l0 Hl0. rewrite <- Hcont1, Hl in Hl0. injection Hl0 as <-.
    rewrite Hc2, take_ge by lia.
    by replace (N.to_nat n - length l)%nat with (N.to_nat (n - size_ v1)) by lia.
Qed.

(** [Vector(size_t)]: a failed construction leaves the heap as it was. *)
Lemma Vector_ctor_post n w :
  post (Vector_ctor n) w
    (fun v w' => vec_ok v w' = true ∧ size_ v = n ∧ Capacity v = n ∧
                 contents v w' = Some (replicate (N.to_nat n) value_init) ∧
                 outside (fun b => base (buffer_ (data_ v)) = Some b) w w' ∧
                 (∀ b, base (buffer_ (data_ v)) = Some b → heap w !! b = None))
    (fun _ w' => heap w' = heap w).
Proof.
  unfold Vector_ctor. step_with RawMemory_ctor_post; [|by intros e w' [? _]].
  intros data w1 Halloc.
  pose proof (allocated_raw_view _ _ _ _ Halloc) as Hraw1.
  pose proof (allocated_outside _ _ _ _ Halloc) as Ho1.
  assert (∀ w2, touch (in_range (GetAddress data) (N.to_nat n)) w1 w2 →
                outside (fun b => base (buffer_ data) = Some b) w w2) as Hout.
  { intros w2 Ht2. eapply outside_trans; [exact Ho1|].
    eapply outside_touch; [|exact Ht2].
    intros q b Hq%in_range_base Hb. unfold GetAddress in Hq. congruence. }
  assert (∀ b, base (buffer_ data) = Some b → heap w !! b = None) as Hfr.
  { intros b Hb.
    destruct Halloc as [_ [(_ & Hb' & _)|(_ & a & Hb' & Hfresh & _)]];
      rewrite Hb' in Hb; [done|]. by injection Hb as <-. }
  eapply post_bind with
    (Qm := fun _ w2 => touch (in_range (GetAddress data) (N.to_nat n)) w1 w2 ∧
                       live_range (heap w2) (GetAddress data) (N.to_nat n)
                         = Some (replicate (N.to_nat n) value_init))
    (Em := fun _ w' => heap w' = heap w); [| |done].
  - eapply post_on_exception; [apply uninitialized_value_construct_n_post| |].
    + by intros p w2 (Ht2 & Hl2 & _).
    + intros e w2 Ht2. cbv beta in Ht2. specialize (Hout _ Ht2).
      eapply post_conseq; [apply RawMemory_dtor_post| |done].
      intros [] w3 Hrel. cbv beta.
      pose proof (released_outside _ _ _ Hrel) as Ho3.
      apply map_eq. intros b.
      destruct (decide (base (buffer_ data) = Some b)) as [Hb|Hb].
      * rewrite (Hfr _ Hb).
        destruct Hrel as [[Hb' _]|(a & Hb' & _ & -> & _)]; rewrite Hb' in Hb; [done|].
        injection Hb as ->. apply lookup_delete_eq.
      * rewrite Ho3 by done. by apply Hout.
  - intros [] w2 (Ht2 & Hl2). apply post_ret.
    destruct Halloc as [Hcap _].
    split; [|split; [done|split; [done|split; [done|split; [by apply Hout|done]]]]].
    apply vec_ok_make; [|by eexists].
    eapply raw_view_transfer; [exact Hraw1|]. intros a _. apply Ht2.
Qed.

(** [Vector(const Vector&)]: the copy has the size and elements of the
    source and exactly as much capacity; the source is untouched. *)
Lemma Vector_copy_ctor_post other w :
  vec_ok other w = true →
  post (Vector_copy_ctor other) w
    (fun v w' => vec_ok v w' = true ∧ size_ v = size_ other ∧
                 Capacity v = size_ other ∧
                 contents v w' = contents other w ∧
                 outside (fun b => base (buffer_ (data_ v)) = Some b) w w' ∧
                 (∀ b, base (buffer_ (data_ v)) = Some b → heap w !! b = None))
    (fun _ w' => heap w' = heap w).
Proof.
  intros Hok. pose proof Hok as (Hraw & _ & [l Hl])%vec_okP.
  unfold Vector_copy_ctor. step_with RawMemory_ctor_post; [|by intros e w' [? _]].
  intros data w1 Halloc.
  pose proof (allocated_raw_view _ _ _ _ Halloc) as Hraw1.
  pose proof (allocated_outside _ _ _ _ Halloc) as Ho1.
  assert (∀ w2, touch (in_range (GetAddress data) (N.to_nat (size_ other))) w1 w2 →
                outside (fun b => base (buffer_ data) = Some b) w w2) as Hout.
  { intros w2 Ht2. eapply outside_trans; [exact Ho1|].
    eapply outside_touch; [|exact Ht2].
    intros q b Hq%in_range_base Hb. unfold GetAddress in Hq. congruence. }
  assert (∀ b, base (buffer_ data) = Some b → heap w !! b = None) as Hfr.
  { intros b Hb.
    destruct Halloc as [_ [(_ & Hb' & _)|(_ & a & Hb' & Hfresh & _)]];
      rewrite Hb' in Hb; [done|]. by injection Hb as <-. }
  assert (live_range (heap w1) (buffer_ (data_ other)) (N.to_nat (size_ other)) = Some l)
    as Hl1.
  { rewrite <- Hl. eapply live_range_outside; [exact Ho1|].
    intros a Ha Hb. specialize (Hfr _ Hb).
    eapply raw_view_base_ne in Hfr; [|exact Hraw]. done. }
  eapply post_bind with
    (Qm := fun _ w2 => touch (in_range (GetAddress data) (N.to_nat (size_ other))) w1 w2 ∧
                       live_range (heap w2) (GetAddress data) (N.to_nat (size_ other))
                         = Some l)
    (Em := fun _ w' => heap w' = heap w); [| |done].
  - eapply post_on_exception; [apply uninitialized_copy_n_post| |].
    + intros p w2 (Ht2 & _ & Hlv & Hv). cbv beta. split; [done|].
      destruct (decide (size_ other = 0)) as [Hz|Hnz].
      { unfold contents in Hl. rewrite Hz in *. cbn in Hl. injection Hl as <-. done. }
      unfold GetAddress in *.
      destruct Hv as (l' & Hl'a & Hl'b); [|congruence].
      destruct Halloc as [_ [(Hz & _)|(_ & a & Hb' & Hfresh & _)]]; [done|].
      rewrite Hb'. cbn. by eapply raw_view_base_ne.
    + intros e w2 [Ht2 _]. specialize (Hout _ Ht2).
      eapply post_conseq; [apply RawMemory_dtor_post| |done].
      intros [] w3 Hrel. cbv beta.
      pose proof (released_outside _ _ _ Hrel) as Ho3.
      apply map_eq. intros b.
      destruct (decide (base (buffer_ data) = Some b)) as [Hb|Hb].
      * rewrite (Hfr _ Hb).
        destruct Hrel as [[Hb' _]|(a & Hb' & _ & -> & _)]; rewrite Hb' in Hb; [done|].
        injection Hb as ->. apply lookup_delete_eq.
      * rewrite Ho3 by done. by apply Hout.
  - intros [] w2 (Ht2 & Hl2). apply post_ret.
    destruct Halloc as [Hcap _].
    split; [|split; [done|split; [done|split; [by rewrite Hl|split; [by apply Hout|done]]]]].
    apply vec_ok_make; [|by eexists].
    eapply raw_view_transfer; [exact Hraw1|]. intros a _. apply Ht2.
Qed.

(** [~Vector()] only concerns the block of the sequence. *)
Lemma Vector_dtor_post v w :
  post (Vector_dtor v) w
    (fun _ w' => outside (fun b => base (buffer_ (data_ v)) = Some b) w w')
    (fun _ _ => False).
Proof.
  unfold Vector_dtor. step_with destroy_n_post; [|done].
  intros p w1 (Ht1 & _).
  eapply post_conseq; [apply RawMemory_dtor_post| |done].
  intros [] w2 Hrel. cbv beta.
  eapply outside_trans; [|by apply released_outside].
  eapply outside_touch; [|exact Ht1].
  intros q b Hq%in_range_base Hb. unfold GetAddress in Hq. congruence.
Qed.

(** [Swap] exchanges the two sequences and does nothing else. *)
Lemma Vector_Swap_Other o v w :
  Vector_Swap (Other o) (v, w) =
    Ok (Other {| data_ := {| buffer_ := buffer_ (data_ v);
                            capacity_ := capacity_ (data_ v) |};
                 size_ := size_ v |})
       ({| data_ := {| buffer_ := buffer_ (data_ o);
                       capacity_ := capacity_ (data_ o) |};
           size_ := size_ o |}, w).
Proof. done. Qed.

Lemma Vector_eta v :
  {| data_ := {| buffer_ := buffer_ (data_ v); capacity_ := capacity_ (data_ v) |};
     size_ := size_ v |} = v.
Proof. by destruct v as [[? ?] ?]. Qed.

(** [operator=(const Vector&)] keeps both sequences well-formed, whether it
    returns or throws. *)
Lemma Vector_copy_assign_post r v w :
  vec_ok v w = true → vec_ok r w = true → apart r v →
  post (Vector_copy_assign (Other r)) (v, w)
    (fun _ s' => vec_ok s'.1 s'.2 = true ∧ size_ s'.1 = size_ r ∧
                 vec_ok r s'.2 = true ∧ apart r s'.1)
    (fun _ s' => vec_ok s'.1 s'.2 = true ∧ vec_ok r s'.2 = true ∧ apart r s'.1).
Proof.
  intros Hok Hokr Hap.
  pose proof (vec_ok_offset _ _ Hok) as Hbuf0.
  pose proof (vec_ok_offset _ _ Hokr) as Hbufr0.
  unfold Vector_copy_assign. apply post_this.
  destruct (N.ltb_spec (RawMemory_Capacity (data_ v)) (size_ r)) as [Hlt|Hge].
  - (* copy and swap *)
    apply post_bind_assoc.
    eapply post_world_bind; [by apply Vector_copy_ctor_post| |].
    2:{ intros e w1 Hh1. cbn. by rewrite !(vec_ok_heap_eq _ _ _ Hh1). }
    intros c w1 (Hokc & Hsc & Hcc & Hcontc & Hoc & Hfrc).
    assert (apart r c) as Hapc.
    { intros a Ha Hc. specialize (Hfrc _ Hc).
      apply vec_okP in Hokr as (Hrawr & _).
      eapply raw_view_base_ne in Hfrc; [|exact Hrawr]. done. }
    assert (apart v c) as Hapv.
    { intros a Ha Hc. specialize (Hfrc _ Hc).
      apply vec_okP in Hok as (Hrawv & _).
      eapply raw_view_base_ne in Hfrc; [|exact Hrawv]. done. }
    destruct (vec_ok_outside _ r w w1 Hokr Hoc) as [Hokr1 _].
    { intros a Ha Hc. by eapply Hapc. }
    destruct (vec_ok_outside _ v w w1 Hok Hoc) as [Hokv1 _].
    { intros a Ha Hc. by eapply Hapv. }
    apply post_bind_assoc.
    eapply post_bind with (Qm := fun o s => o = Other v ∧ s = (c, w1))
                          (Em := fun _ _ => False); [| |done].
    { unfold post. rewrite Vector_Swap_Other, !Vector_eta. done. }
    intros o s [-> ->].
    eapply post_world_bind; [apply Vector_dtor_post| |done].
    intros [] w2 Ho2. apply post_set_size_last. cbn [fst snd data_ size_].
    rewrite <- Hsc.
    replace {| data_ := data_ c; size_ := size_ c |} with c by (by destruct c).
    destruct (vec_ok_outside _ c w1 w2 Hokc Ho2) as [Hokc2 _].
    { intros a Ha Hc. by eapply Hapv. }
    destruct (vec_ok_outside _ r w1 w2 Hokr1 Ho2) as [Hokr2 _].
    { intros a Ha Hc. by eapply Hap. }
    done.
  - (* element-wise *)
    set (buf := buffer_ (data_ v)) in *.
    assert (∀ p n w1 w2, touch (in_range p n) w1 w2 → base p = base buf →
                         vec_ok r w1 = true → vec_ok r w2 = true) as Hrhs.
    { intros p n w1 w2 Ht Hp Hok1.
      eapply (vec_ok_outside (fun b => base buf = Some b)); [done| |].
      - eapply outside_touch; [|exact Ht].
        intros q b Hq%in_range_base Hb. congruence.
      - intros a Ha Hb. by eapply Hap. }
    apply post_bind_assoc, post_plus_bind. intros _. apply post_bind_assoc.
    unfold GetAddress. fold buf.
    eapply post_world_bind with
      (Qm := fun _ w1 => vec_ok v w1 = true ∧ vec_ok r w1 = true)
      (Em := fun _ w1 => vec_ok v w1 = true ∧ vec_ok r w1 = true);
      [| |by intros e w1 [? ?]].
    { assert (∀ w1, keeps_live w w1 ∧
                touch (in_range buf (N.to_nat
                  (offset (buffer_ (data_ r) +ₚ size_ r `min` size_ v)
                   - offset (buffer_ (data_ r))))) w w1 →
                vec_ok v w1 = true ∧ vec_ok r w1 = true) as Hboth.
      { intros w1 [[Hs Hk] Ht]. split; [|by eapply Hrhs].
        eapply vec_ok_transfer; [done| |by intros q _; apply Hk].
        intros a _. apply Hs. }
      eapply post_conseq; [apply std_copy_post| |]; intros ? w1 Hq; by apply Hboth. }
    intros p1 w1 [Hok1 Hokr1].
    pose proof Hok1 as (_ & _ & [l1 Hl1])%vec_okP.
    destruct (N.ltb_spec (size_ r) (size_ v)) as [Hshrink|Hgrow].
    + apply post_bind_assoc, post_plus_bind. intros _. fold buf.
      apply post_bind_assoc.
      eapply post_world_bind; [apply destroy_n_post| |done].
      intros p2 w2 (Ht2 & _). apply post_ret_bind, post_set_size_last.
      cbn [fst snd data_ size_].
      assert (N.to_nat (size_ r) ≤ N.to_nat (size_ v))%nat as Hn by lia.
      pose proof (live_range_take _ _ _ _ _ Hn Hl1) as Htake.
      rewrite <- (live_range_touch _ _ _ _ _ Ht2) in Htake by (fold buf; range_disjoint).
      destruct (vec_ok_resized v w1 w2 (size_ r) _ Hok1 (proj1 Ht2) Htake) as [Hok2 _].
      split; [done|]. split; [done|]. split; [|done].
      by eapply Hrhs.
    + apply post_bind_assoc, post_plus_bind. intros _.
      apply post_bind_assoc, post_plus_bind. intros _. fold buf.
      apply post_bind_assoc.
      eapply post_world_bind; [apply uninitialized_copy_n_post| |].
      2:{ intros e w2 [Ht2 _]. cbn.
          destruct (vec_ok_touch_tail _ _ _ _ _ Hok1 Ht2) as [Hok2 _]; [done| |].
          { unfold ptr_add. cbn [offset]. lia. }
          split; [done|]. split; [|done]. by eapply Hrhs. }
      intros p2 w2 (Ht2 & _ & Hlv & _). apply post_ret_bind, post_set_size_last.
      cbn [fst snd data_ size_].
      assert (is_Some (live_range (heap w2) buf (N.to_nat (size_ r)))) as [l2 Hl2].
      { apply live_range_is_live. intros q Hq.
        destruct (decide (offset q < size_ v)) as [Hlo|Hhi].
        - unfold is_live. destruct Ht2 as [_ ->]; [|range_disjoint].
          assert (in_range buf (N.to_nat (size_ v)) q) as Hq'
            by (revert Hq; range_disjoint).
          revert Hq'. apply live_range_is_live. by eexists.
        - apply Hlv. revert Hq. range_disjoint. }
      destruct (vec_ok_resized v w1 w2 (size_ r) _ Hok1 (proj1 Ht2) Hl2) as [Hok2 _].
      split; [done|]. split; [done|]. split; [|done].
      by eapply Hrhs.
Qed.

End Members.

(** * The growth law *)

Section Growth.

Lemma chain_0 : chain 0 = 0.
Proof. done. Qed.

Lemma chain_pos k : k ≠ 0 → chain k = 2 ^ N.log2_up k.
Proof. intros Hk. unfold chain. by destruct (N.eqb_spec k 0). Qed.

Lemma chain_ge k : k <= chain k.
Proof.
  destruct (N.eq_dec k 0) as [->|Hk]; [done|]. rewrite chain_pos by done.
  destruct (N.eq_dec k 1) as [->|Hk1]; [done|].
  apply N.log2_up_spec. lia.
Qed.

Lemma chain_least k j : k <= 2 ^ j → chain k <= 2 ^ j.
Proof.
  intros Hj. destruct (N.eq_dec k 0) as [->|Hk]; [rewrite chain_0; lia|].
  rewrite chain_pos by done. apply N.pow_le_mono_r; [lia|].
  rewrite <- (N.log2_up_pow2 j) by lia. by apply N.log2_up_le_mono.
Qed.

Lemma log2_up_succ_full k :
  k ≠ 0 → k = 2 ^ N.log2_up k → N.log2_up (k + 1) = N.log2_up k + 1.
Proof.
  intros Hk Hfull. rewrite N.add_1_r. rewrite N.add_1_r.
  apply N.log2_up_eq_succ_iff_pow2; [lia|]. by exists (N.log2_up k).
Qed.

Lemma log2_up_succ_spare k :
  k ≠ 0 → k ≠ 2 ^ N.log2_up k → N.log2_up (k + 1) = N.log2_up k.
Proof.
  intros Hk Hspare. rewrite N.add_1_r.
  destruct (N.log2_up_succ_or k) as [Hs|Hs]; [|done].
  apply N.log2_up_eq_succ_iff_pow2 in Hs as [b Hb]; [|lia].
  destruct Hspare. rewrite Hb at 2. rewrite N.log2_up_pow2 by lia. done.
Qed.

(** One step of the growth policy moves along the chain. *)
Lemma chain_succ k :
  chain (k + 1) =
    if k =? chain k then (if chain k =? 0 then 1 else 2 * chain k) else chain k.
Proof.
  destruct (N.eq_dec k 0) as [->|Hk]; [done|].
  rewrite (chain_pos (k + 1)) by lia. rewrite (chain_pos k) by done.
  assert (2 ^ N.log2_up k ≠ 0) as Hp by (apply N.pow_nonzero; lia).
  destruct (N.eqb_spec k (2 ^ N.log2_up k)) as [Hfull|Hspare].
  - apply N.eqb_neq in Hp. rewrite Hp.
    rewrite log2_up_succ_full by done. by rewrite N.add_1_r, N.pow_succ_r'.
  - by rewrite log2_up_succ_spare.
Qed.

Lemma reallocations_succ k :
  reallocations (k + 1) =
    (reallocations k + (if (k =? chain k)%N then 1 else 0))%nat.
Proof.
  destruct (N.eq_dec k 0) as [->|Hk]; [done|].
  unfold reallocations. rewrite (chain_pos k) by done.
  destruct (N.eqb_spec (k + 1) 0) as [?|_]; [lia|].
  destruct (N.eqb_spec k 0) as [?|_]; [done|].
  destruct (N.eqb_spec k (2 ^ N.log2_up k)) as [Hfull|Hspare].
  - rewrite log2_up_succ_full by done. lia.
  - rewrite log2_up_succ_spare by done. lia.
Qed.

End Growth.

(** * The properties of the specification *)

Section Claims.
Context {T : Type} `{Element T}.
Implicit Types v : Vector.
Implicit Types w : World T.

Lemma vec_ok_eta v w :
  vec_ok {| data_ := {| buffer_ := buffer_ (data_ v); capacity_ := capacity_ (data_ v) |};
            size_ := size_ v |} w = vec_ok v w.
Proof. by rewrite Vector_eta. Qed.

Lemma vec_ok_default w : vec_ok Vector_default w = true.
Proof. done. Qed.

Lemma invariant_intro v w : vec_ok v w = true → invariant v w.
Proof.
  intros Hok. split; [done|]. split; [lia|]. by eapply vec_ok_size_le_capacity.
Qed.

Lemma apartb_apart (r v : Vector) : apartb r v = true → apart r v.
Proof.
  unfold apartb, apart. intros Hb a Ha. rewrite Ha in Hb.
  destruct (base (buffer_ (data_ v))) as [b|]; [|done].
  intros [= ->]. by rewrite Pos.eqb_refl in Hb.
Qed.

Lemma EmplaceBack_post k x v w :
  vec_ok v w = true →
  post (EmplaceBack k x) (v, w)
    (fun r s' =>
       vec_ok s'.1 s'.2 = true ∧
       size_ s'.1 = size_ v + 1 ∧
       Capacity s'.1 =
         (if size_ v =? Capacity v
          then (if Capacity v =? 0 then 1 else 2 * Capacity v)
          else Capacity v) ∧
       r = buffer_ (data_ s'.1) +ₚ size_ v ∧
       allocs (log s'.2) =
         (allocs (log w) + (if (size_ v =? Capacity v)%N then 1 else 0))%nat ∧
       ∀ l, contents v w = Some l → contents s'.1 s'.2 = Some (l ++ [x]))
    (fun _ s' => s'.1 = v ∧ vec_ok v s'.2 = true).
Proof.
  intros Hok. pose proof (vec_ok_offset _ _ Hok) as Hbuf0.
  unfold EmplaceBack. apply post_cend_bind. intros _.
  eapply post_conseq; [by apply Emplace_post| |].
  - intros r [v' w'] (_ & _ & Hok' & Hs' & Hc' & Hr' & Ha' & Hl').
    unfold ptr_add in Hr', Hl'. cbn [base offset fst snd] in *.
    rewrite Hbuf0 in Hr', Hl'. cbn in Hr', Hl'.
    repeat split; try done. intros l Hl. rewrite (Hl' l Hl).
    pose proof (live_range_length _ _ _ _ Hl) as Hlen.
    by rewrite take_ge, drop_ge by lia.
  - by intros e [v' w'] (Hv' & Hok' & _).
Qed.

(** Appending one at a time walks along the doubling chain. *)
Lemma EmplaceBack_all_post xs v w :
  vec_ok v w = true → Capacity v = chain (size_ v) →
  post (EmplaceBack_all xs) (v, w)
    (fun _ s' =>
       size_ s'.1 = size_ v + N.of_nat (length xs) ∧
       Capacity s'.1 = chain (size_ v + N.of_nat (length xs)) ∧
       (allocs (log s'.2) + reallocations (size_ v) =
        allocs (log w) + reallocations (size_ v + N.of_nat (length xs)))%nat)
    (fun _ _ => True).
Proof.
  revert v w. induction xs as [|[k x] xs IH]; intros v w Hok Hcap; cbn [EmplaceBack_all].
  - apply post_ret. cbn. rewrite N.add_0_r. done.
  - eapply post_bind; [by apply EmplaceBack_post| |done].
    intros r [v1 w1] (Hok1 & Hs1 & Hc1 & _ & Ha1 & _). cbn [fst snd] in *.
    assert (Capacity v1 = chain (size_ v1)) as Hcap1.
    { rewrite Hc1, Hs1, chain_succ, Hcap. done. }
    eapply post_conseq; [by apply IH| |done].
    intros [] [v2 w2] (Hs2 & Hc2 & Ha2). cbn [fst snd length] in *.
    replace (size_ v + N.of_nat (S (length xs)))
      with (size_ v1 + N.of_nat (length xs)) by lia.
    split; [done|]. split; [done|].
    assert (reallocations (size_ v1) =
            (reallocations (size_ v) + (if (size_ v =? Capacity v)%N then 1 else 0))%nat)
      as Hr1 by (by rewrite Hs1, reallocations_succ, Hcap).
    destruct (size_ v =? Capacity v); lia.
Qed.

(** C3. Growth policy: a reallocating [Emplace] makes the capacity 1 if it
    was 0 and otherwise exactly twice what it was.  Consequently, appending
    [n] elements to an empty sequence leaves it with [n] elements and with the
    smallest capacity of the chain 1, 2, 4, 8, ... that is at least [n]
    (capacity 0 for [n = 0]), after [1 + ceil (log2 n)] allocations for
    [n >= 1] and none for [n = 0]. *)
Theorem growth_law :
  (∀ v w pos k x r v' w',
     vec_ok v w = true → size_ v = Capacity v →
     Emplace pos k x (v, w) = Ok r (v', w') →
     Capacity v' = (if Capacity v =? 0 then 1 else 2 * Capacity v)) ∧
  (∀ (xs : list (how * T)) w v' w',
     EmplaceBack_all xs (Vector_default, w) = Ok tt (v', w') →
     size_ v' = N.of_nat (length xs) ∧
     Capacity v' = chain (N.of_nat (length xs)) ∧
     N.of_nat (length xs) <= chain (N.of_nat (length xs)) ∧
     (∀ j, N.of_nat (length xs) <= 2 ^ j → chain (N.of_nat (length xs)) <= 2 ^ j) ∧
     allocs (log w') = (allocs (log w) + reallocations (N.of_nat (length xs)))%nat).
Proof.
  split.
  - intros v w pos k x r v' w' Hok Hfull Heq.
    pose proof (post_Ok _ _ _ _ _ _ (Emplace_post pos k x v w Hok) Heq)
      as (_ & _ & _ & _ & Hc & _).
    cbn [fst] in Hc. rewrite Hc. by rewrite (proj2 (N.eqb_eq _ _) Hfull).
  - intros xs w v' w' Heq.
    pose proof (post_Ok _ _ _ _ _ _
      (EmplaceBack_all_post xs Vector_default w (vec_ok_default w) eq_refl) Heq)
      as (Hs & Hc & Ha).
    cbn in Hs, Hc, Ha. rewrite N.add_0_l in Hs, Hc, Ha.
    split; [done|]. split; [done|].
    split; [apply chain_ge|]. split; [apply chain_least|]. lia.
Qed.

(** C7. Order preservation: a successful [Emplace] at offset [i] puts the
    new element at index [i], keeps the elements before it, and shifts those
    from [i] on by one, in order; a successful [Erase] at offset [i] removes
    the element at index [i] and shifts the later ones down by one. *)
Theorem insert_erase_order v w l :
  vec_ok v w = true → contents v w = Some l →
  (∀ pos k x r v' w',
     Emplace pos k x (v, w) = Ok r (v', w') →
     (N.to_nat (offset pos) ≤ length l)%nat ∧
     size_ v' = size_ v + 1 ∧
     contents v' w' =
       Some (take (N.to_nat (offset pos)) l ++ x :: drop (N.to_nat (offset pos)) l)) ∧
  (∀ pos r v' w',
     Erase pos (v, w) = Ok r (v', w') →
     (N.to_nat (offset pos) < length l)%nat ∧
     size_ v' = size_ v - 1 ∧
     contents v' w' =
       Some (take (N.to_nat (offset pos)) l ++ drop (S (N.to_nat (offset pos))) l)).
Proof.
  intros Hok Hl. pose proof (live_range_length _ _ _ _ Hl) as Hlen. split.
  - intros pos k x r v' w' Heq.
    pose proof (post_Ok _ _ _ _ _ _ (Emplace_post pos k x v w Hok) Heq)
      as (_ & Hpos & _ & Hs & _ & _ & _ & Hc).
    cbn [fst snd] in *. split; [lia|]. split; [done|]. by apply Hc.
  - intros pos r v' w' Heq.
    pose proof (post_Ok _ _ _ _ _ _ (Erase_post pos v w Hok) Heq)
      as (_ & Hpos & _ & Hs & _ & _ & Hc).
    cbn [fst snd] in *. split; [lia|]. split; [done|]. by apply Hc.
Qed.

(** C8. Copy round-trip: the copy has the size of the source and the same
    elements in the same order, whatever the capacity of the source; its own
    capacity is its size, and the source keeps its elements. *)
Theorem copy_roundtrip other w v' w' :
  vec_ok other w = true →
  Vector_copy_ctor other w = Ok v' w' →
  size_ v' = size_ other ∧
  contents v' w' = contents other w ∧
  contents other w' = contents other w ∧
  Capacity v' = size_ other.
Proof.
  intros Hok Heq.
  pose proof (post_Ok _ _ _ _ _ _ (Vector_copy_ctor_post other w Hok) Heq)
    as (_ & Hs & Hc & Hcont & Hout & Hfr).
  split; [done|]. split; [done|]. split; [|done].
  eapply vec_ok_outside; [done|exact Hout|].
  intros a Ha Hb. specialize (Hfr _ Hb).
  apply vec_okP in Hok as (Hraw & _).
  eapply raw_view_base_ne in Hfr; [|exact Hraw]. done.
Qed.

(** C10. A successful [Emplace] returns [begin() + (pos - begin())] in the
    storage the sequence has afterwards, and the new element is there;
    [EmplaceBack] returns the address of the appended element, which is the
    last one of the sequence. *)
Theorem emplace_returns_position v w k x r v' w' :
  vec_ok v w = true →
  (∀ pos,
     Emplace pos k x (v, w) = Ok r (v', w') →
     r = buffer_ (data_ v') +ₚ (offset pos - offset (buffer_ (data_ v))) ∧
     peek (heap w') r = Some (Some x)) ∧
  (EmplaceBack k x (v, w) = Ok r (v', w') →
   r = buffer_ (data_ v') +ₚ size_ v ∧
   size_ v' = size_ v + 1 ∧
   peek (heap w') r = Some (Some x)).
Proof.
  intros Hok. pose proof (vec_ok_offset _ _ Hok) as Hbuf0.
  pose proof Hok as (_ & _ & [l Hl])%vec_okP.
  pose proof (live_range_length _ _ _ _ Hl) as Hlen.
  assert (∀ pos, Emplace pos k x (v, w) = Ok r (v', w') →
            r = buffer_ (data_ v') +ₚ offset pos ∧
            size_ v' = size_ v + 1 ∧
            peek (heap w') r = Some (Some x)) as Hmain.
  { intros pos Heq.
    pose proof (post_Ok _ _ _ _ _ _ (Emplace_post pos k x v w Hok) Heq)
      as (_ & Hpos & _ & Hsz & _ & Hr & _ & Hc).
    cbn [fst snd] in *. split; [done|]. split; [done|]. specialize (Hc l Hl).
    rewrite Hr. replace (offset pos) with (N.of_nat (N.to_nat (offset pos))) at 1 by lia.
    eapply live_range_lookup; [exact Hc|].
    rewrite lookup_app_r; rewrite length_take; [|lia].
    by replace (N.to_nat (offset pos) - N.to_nat (offset pos) `min` length l)%nat
      with 0%nat by lia. }
  split.
  - intros pos Heq. rewrite Hbuf0, N.sub_0_r.
    destruct (Hmain _ Heq) as (Hr & _ & Hp). done.
  - unfold EmplaceBack. unfold bind at 1.
    cbv [cend bind this RawMemory_plus assert ret fst].
    destruct (size_ v <=? capacity_ (data_ v)); [|done].
    intros Heq. destruct (Hmain _ Heq) as (Hr & Hs & Hp). split; [|done].
    rewrite Hr. unfold ptr_add. cbn [base offset]. by rewrite Hbuf0.
Qed.

Lemma invoke_self_post {A} (m : M (Obj T) A) v w :
  post m (v, w)
    (fun _ s' => vec_ok s'.1 s'.2 = true)
    (fun _ s' => vec_ok s'.1 s'.2 = true) →
  post (m ;;; ret Self) (v, w)
    (fun (o : operand Vector) s' =>
       invariant s'.1 s'.2 ∧
       match o with Other r => invariant r s'.2 | Self => True end)
    (fun _ s' => invariant s'.1 s'.2).
Proof.
  intros Hm. eapply post_bind; [exact Hm| |].
  - intros a [v' w'] Hok. apply post_ret. split; [|done]. by apply invariant_intro.
  - intros e [v' w'] Hok. by apply invariant_intro.
Qed.

Lemma invoke_post (m : method T) v w :
  vec_ok v w = true → method_ok m v w = true →
  post (invoke m) (v, w)
    (fun o s' =>
       invariant s'.1 s'.2 ∧
       match o with Other r => invariant r s'.2 | Self => True end)
    (fun _ s' => invariant s'.1 s'.2).
Proof.
  intros Hok Hm.
  assert (∀ pos k x,
    post (Emplace pos k x) (v, w)
      (fun _ s' => vec_ok s'.1 s'.2 = true) (fun _ s' => vec_ok s'.1 s'.2 = true)) as Hemplace.
  { intros pos k x. eapply post_conseq; [by apply Emplace_post| |].
    - by intros r [v' w'] (_ & _ & Hok' & _).
    - intros e [v' w'] (-> & Hok' & _). done. }
  assert (∀ k x,
    post (EmplaceBack k x) (v, w)
      (fun _ s' => vec_ok s'.1 s'.2 = true) (fun _ s' => vec_ok s'.1 s'.2 = true)) as Hback.
  { intros k x. eapply post_conseq; [by apply EmplaceBack_post| |].
    - by intros r [v' w'] (Hok' & _).
    - intros e [v' w'] (-> & Hok'). done. }
  destruct m as [rhs|rhs|other|x|x|k x| |n|n|pos k x|pos x|pos x|pos]; cbn [invoke method_ok] in *.
  - (* copy assignment *)
    destruct rhs as [|r]; cbn [operand_ok] in Hm.
    { apply post_ret. split; [by apply invariant_intro|done]. }
    apply andb_true_iff in Hm as [Hokr Hap%apartb_apart].
    eapply post_bind; [by apply Vector_copy_assign_post| |].
    + intros [] [v' w'] (Hok' & _ & Hokr' & _). apply post_ret.
      split; by apply invariant_intro.
    + intros e [v' w'] (Hok' & _). by apply invariant_intro.
  - (* move assignment *)
    destruct rhs as [|r]; cbn [operand_ok Vector_move_assign] in *.
    { apply post_ret. split; [by apply invariant_intro|done]. }
    apply andb_true_iff in Hm as [Hokr _].
    unfold post. rewrite Vector_Swap_Other. cbn [fst snd].
    rewrite !Vector_eta. split; by apply invariant_intro.
  - (* swap *)
    destruct other as [|r]; cbn [operand_ok Vector_Swap] in *.
    { apply post_ret. split; [by apply invariant_intro|done]. }
    apply andb_true_iff in Hm as [Hokr _].
    change (post (Vector_Swap (Other r)) (v, w)
      (fun o s' => invariant s'.1 s'.2 ∧
         match o with Other r0 => invariant r0 s'.2 | Self => True end)
      (fun _ s' => invariant s'.1 s'.2)).
    unfold post. rewrite Vector_Swap_Other. cbn [fst snd].
    rewrite !Vector_eta. split; by apply invariant_intro.
  - apply invoke_self_post. unfold PushBack_copy.
    eapply post_bind; [apply Hback| |done]. intros r s' Hs. by apply post_ret.
  - apply invoke_self_post. unfold PushBack_move.
    eapply post_bind; [apply Hback| |done]. intros r s' Hs. by apply post_ret.
  - apply invoke_self_post, Hback.
  - apply invoke_self_post.
    eapply post_conseq; [apply PopBack_post| |done].
    intros [] [v' w'] (Hne & -> & Ht). cbn [fst snd] in *.
    pose proof Hok as (_ & _ & [l Hl])%vec_okP.
    assert (N.to_nat (size_ v - 1) ≤ N.to_nat (size_ v))%nat as Hn by lia.
    pose proof (live_range_take _ _ _ _ _ Hn Hl) as Htake.
    rewrite <- (live_range_touch _ _ _ _ _ Ht) in Htake.
    2:{ pose proof (vec_ok_offset _ _ Hok). range_disjoint. }
    by destruct (vec_ok_resized v w w' (size_ v - 1) _ Hok (proj1 Ht) Htake).
  - apply invoke_self_post.
    eapply post_conseq; [by apply Resize_post| |].
    + by intros [] [v' w'] (Hok' & _).
    + by intros e [v' w'] (Hok' & _).
  - apply invoke_self_post.
    eapply post_conseq; [by apply Reserve_post| |].
    + by intros [] [v' w'] (Hok' & _).
    + intros e [v' w'] (-> & Hok' & _). done.
  - apply invoke_self_post, Hemplace.
  - apply invoke_self_post, Hemplace.
  - apply invoke_self_post, Hemplace.
  - apply invoke_self_post.
    eapply post_conseq; [by apply Erase_post| |].
    + by intros r [v' w'] (_ & _ & Hok' & _).
    + intros e [v' w'] (-> & Hok'). done.
Qed.

(** C2. The invariant [0 <= size <= capacity], together with the rest of the
    data-model invariant (the storage is the block owned, and the first
    [size] slots hold live objects), holds for every sequence a constructor
    returns and is kept by every member function, on normal return and when an
    exception leaves it, for the sequence itself and for the sequence passed
    by reference.  Destruction ends the lifetime of the sequence, so nothing
    remains to be said after it. *)
Theorem size_capacity_invariant :
  (∀ w, invariant Vector_default w) ∧
  (∀ n w v' w', Vector_ctor n w = Ok v' w' → invariant v' w') ∧
  (∀ other w v' w',
     invariant other w → Vector_copy_ctor other w = Ok v' w' →
     invariant v' w' ∧ invariant other w') ∧
  (∀ other w v' o' w',
     invariant other w → Vector_move_ctor other w = Ok (v', o') w' →
     invariant v' w' ∧ invariant o' w') ∧
  (∀ (m : method T) v w,
     invariant v w → method_ok m v w = true →
     match invoke m (v, w) with
     | Ok o (v', w') =>
         invariant v' w' ∧
         match o with Other r => invariant r w' | Self => True end
     | Raise _ (v', w') => invariant v' w'
     | Fault => True
     end).
Proof.
  split; [|split; [|split; [|split]]].
  - intros w. apply invariant_intro, vec_ok_default.
  - intros n w v' w' Heq.
    by pose proof (post_Ok _ _ _ _ _ _ (Vector_ctor_post n w) Heq) as (?%invariant_intro & _).
  - intros other w v' w' [Hok _] Heq.
    pose proof (post_Ok _ _ _ _ _ _ (Vector_copy_ctor_post other w Hok) Heq)
      as (Hok' & _ & _ & _ & Hout & Hfr).
    split; [by apply invariant_intro|]. apply invariant_intro.
    eapply vec_ok_outside; [done|exact Hout|].
    intros a Ha Hb. specialize (Hfr _ Hb).
    apply vec_okP in Hok as (Hraw & _).
    eapply raw_view_base_ne in Hfr; [|exact Hraw]. done.
  - intros other w v' o' w' [Hok _] Heq.
    unfold Vector_move_ctor in Heq. rewrite Vector_Swap_Other in Heq.
    cbn [fst snd] in Heq. injection Heq as <- <- <-.
    rewrite Vector_eta. split; [by apply invariant_intro|].
    apply invariant_intro, vec_ok_default.
  - intros m v w [Hok _] Hm.
    pose proof (invoke_post m v w Hok Hm) as Hp. unfold post in Hp.
    destruct (invoke m (v, w)) as [o [v' w']|e [v' w']|]; done.
Qed.

(** C4, as the code has it.  Moving a sequence exchanges storage and size
    and touches neither heap nor log, so no element is constructed, assigned
    or destroyed.  After move-construction the source is empty with capacity
    0; after move-assignment the source holds what the destination held;
    self-assignment changes nothing. *)
Theorem move_is_swap :
  (∀ other w,
     Vector_move_ctor other w = Ok (other, Vector_default) w) ∧
  (∀ v rhs w,
     Vector_move_assign (Other rhs) (v, w) = Ok (Other v) (rhs, w)) ∧
  (∀ v w,
     Vector_move_assign Self (v, w) = Ok Self (v, w)).
Proof.
  split; [|split].
  - intros other w. unfold Vector_move_ctor. rewrite Vector_Swap_Other.
    cbn [fst snd]. by rewrite Vector_eta.
  - intros v rhs w. cbn [Vector_move_assign].
    by rewrite Vector_Swap_Other, !Vector_eta.
  - done.
Qed.

Lemma RawMemory_eta (rm : RawMemory) :
  {| buffer_ := buffer_ rm; capacity_ := capacity_ rm |} = rm.
Proof. by destruct rm. Qed.

(** C5, as the code has it.  Move-construction hands buffer and capacity to
    the new owner and leaves the source with a null address;
    move-assignment from another owner exchanges the two, so the source then
    owns what the destination owned; self-assignment changes nothing; and
    destroying an owner whose address is null does nothing. *)
Theorem raw_memory_moves :
  (∀ other : RawMemory,
     (RawMemory_move_ctor other).1 = other ∧
     buffer_ (RawMemory_move_ctor other).2 = nullptr) ∧
  (∀ this rhs : RawMemory,
     RawMemory_move_assign this (Other rhs) = (rhs, Other this)) ∧
  (∀ this : RawMemory,
     RawMemory_move_assign this Self = (this, Self)) ∧
  (∀ (c : N) w,
     RawMemory_dtor {| buffer_ := nullptr; capacity_ := c |} w = Ok tt w).
Proof.
  split; [|split; [|split]].
  - intros other. cbn. by rewrite RawMemory_eta.
  - intros this rhs. cbn. by rewrite !RawMemory_eta.
  - done.
  - done.
Qed.

End Claims.

(** * The properties at concrete sequences *)

Section Examples.

(** The scenario of the specification: append 10, 20, 30 to an empty
    sequence, insert 15 at position 1, erase position 0. *)
Example scenario :
  match
    (PushBack_copy 10 ;;; PushBack_copy 20 ;;; PushBack_copy 30 ;;;
     b <- begin ;; Insert_copy (b +ₚ 1) 15 ;;;
     b <- begin ;; Erase b)
      (Vector_default, {| heap := ∅; fuse := never; tick := 0; log := [] |})
  with
  | Ok _ (v, w) => size_ v = 3 ∧ Capacity v = 4 ∧ contents v w = Some [15; 20; 30]
  | _ => False
  end.
Proof. vm_compute. done. Qed.

Lemma growth_law_witness :
  (∃ r v' w',
     Emplace (Ptr (Some 1%positive) 1) ByCopy 15 (full_seq, full_world 10 20 never)
       = Ok r (v', w') ∧
     Capacity v' = 4) ∧
  (∃ v' w',
     EmplaceBack_all [(ByCopy, 10); (ByMove, 20); (ByArgs, 30)]
       (Vector_default, {| heap := ∅; fuse := never; tick := 0; log := [] |})
       = Ok tt (v', w') ∧
     size_ v' = 3 ∧ Capacity v' = 4 ∧ 3 <= 4 ∧
     (∀ j, 3 <= 2 ^ j → 4 <= 2 ^ j) ∧
     allocs (log w') = 3%nat).
Proof.
  split.
  - eexists _, _, _. split; [vm_compute; reflexivity|].
    eapply (proj1 growth_law full_seq (full_world 10 20 never)
              (Ptr (Some 1%positive) 1) ByCopy 15);
      [reflexivity|reflexivity|vm_compute; reflexivity].
  - eexists _, _. split; [vm_compute; reflexivity|].
    apply (proj2 (@growth_law N _)
             [(ByCopy, 10); (ByMove, 20); (ByArgs, 30)]
             {| heap := ∅; fuse := never; tick := 0; log := [] |}).
    vm_compute; reflexivity.
Defined.

Lemma relocation_choice_examples :
  @relocation_kind N _ = ByMove ∧
  @relocation_kind (list N) _ = ByCopy ∧
  @relocation_kind (option N) _ = ByMove.
Proof. done. Qed.

Lemma insert_erase_order_witness :
  (∃ r v' w',
     Emplace (Ptr (Some 1%positive) 1) ByCopy 15 (spare_seq, spare_world) = Ok r (v', w') ∧
     contents v' w' = Some [10; 15; 20; 30]) ∧
  (∃ r v' w',
     Erase (Ptr (Some 1%positive) 0) (spare_seq, spare_world) = Ok r (v', w') ∧
     contents v' w' = Some [20; 30]).
Proof.
  assert (vec_ok spare_seq spare_world = true) as Hok by reflexivity.
  assert (contents spare_seq spare_world = Some [10; 20; 30]) as Hl by reflexivity.
  destruct (insert_erase_order spare_seq spare_world [10; 20; 30] Hok Hl)
    as [Hins Hera].
  split.
  - eexists _, _, _. split; [vm_compute; reflexivity|].
    exact (proj2 (proj2 (Hins (Ptr (Some 1%positive) 1) ByCopy 15 _ _ _
                           ltac:(vm_compute; reflexivity)))).
  - eexists _, _, _. split; [vm_compute; reflexivity|].
    exact (proj2 (proj2 (Hera (Ptr (Some 1%positive) 0) _ _ _
                           ltac:(vm_compute; reflexivity)))).
Defined.

Lemma copy_roundtrip_witness :
  ∃ v' w',
    Vector_copy_ctor spare_seq spare_world = Ok v' w' ∧
    size_ v' = 3 ∧
    contents v' w' = Some [10; 20; 30] ∧
    contents spare_seq w' = Some [10; 20; 30] ∧
    Capacity v' = 3.
Proof.
  eexists _, _. split; [vm_compute; reflexivity|].
  apply (copy_roundtrip spare_seq spare_world); [reflexivity|].
  vm_compute; reflexivity.
Defined.

Lemma emplace_returns_position_witness :
  (∃ v' w',
     Emplace (Ptr (Some 1%positive) 1) ByCopy 15 (full_seq, full_world 10 20 never)
       = Ok (Ptr (Some 2%positive) 1) (v', w') ∧
     Ptr (Some 2%positive) 1 = buffer_ (data_ v') +ₚ 1 ∧
     peek (heap w') (Ptr (Some 2%positive) 1) = Some (Some 15)) ∧
  (∃ v' w',
     EmplaceBack ByCopy 40 (spare_seq, spare_world)
       = Ok (Ptr (Some 1%positive) 3) (v', w') ∧
     Ptr (Some 1%positive) 3 = buffer_ (data_ v') +ₚ 3 ∧
     size_ v' = 4 ∧
     peek (heap w') (Ptr (Some 1%positive) 3) = Some (Some 40)) ∧
  (∃ v' w',
     EmplaceBack ByArgs 30 (full_seq, full_world 10 20 never)
       = Ok (Ptr (Some 2%positive) 2) (v', w') ∧
     Ptr (Some 2%positive) 2 = buffer_ (data_ v') +ₚ 2 ∧
     size_ v' = 3 ∧
     peek (heap w') (Ptr (Some 2%positive) 2) = Some (Some 30)).
Proof.
  assert (vec_ok full_seq (full_world 10 20 never) = true) as Hok by reflexivity.
  assert (vec_ok spare_seq spare_world = true) as Hok' by reflexivity.
  split; [|split].
  - eexists _, _. split; [vm_compute; reflexivity|].
    eapply (proj1 (emplace_returns_position full_seq (full_world 10 20 never)
                     ByCopy 15 _ _ _ Hok) (Ptr (Some 1%positive) 1)).
    vm_compute; reflexivity.
  - eexists _, _. split; [vm_compute; reflexivity|].
    eapply (proj2 (emplace_returns_position spare_seq spare_world
                     ByCopy 40 _ _ _ Hok')).
    vm_compute; reflexivity.
  - eexists _, _. split; [vm_compute; reflexivity|].
    eapply (proj2 (emplace_returns_position full_seq (full_world 10 20 never)
                     ByArgs 30 _ _ _ Hok)).
    vm_compute; reflexivity.
Defined.

Lemma size_capacity_invariant_witness :
  match invoke (MInsertCopy (Ptr (Some 1%positive) 1) 15)
          (full_seq, full_world 10 20 never) with
  | Ok o (v', w') =>
      invariant v' w' ∧ match o with Other r => invariant r w' | Self => True end
  | Raise _ (v', w') => invariant v' w'
  | Fault => True
  end.
Proof.
  apply (proj2 (proj2 (proj2 (proj2 size_capacity_invariant)))).
  - split; [reflexivity|]. vm_compute. split; discriminate.
  - reflexivity.
Defined.

(** With a move-only element type whose move constructor throws on the
    second relocated element, the reallocating insertion propagates the
    exception but the first element has already been moved from. *)
Lemma strong_guarantee_fails_move_only :
  vec_ok full_seq (full_world (Some 1) (Some 2) (only 3)) = true ∧
  size_ full_seq = Capacity full_seq ∧
  contents full_seq (full_world (Some 1) (Some 2) (only 3)) = Some [Some 1; Some 2] ∧
  ∃ w',
    Emplace (Ptr (Some 1%positive) 2) ByArgs (Some 3)
      (full_seq, full_world (Some 1) (Some 2) (only 3))
      = Raise elem_exn (full_seq, w') ∧
    contents full_seq w' = Some [None; Some 2].
Proof.
  split; [reflexivity|]. split; [reflexivity|]. split; [reflexivity|].
  eexists. split; vm_compute; reflexivity.
Qed.

(** Move-assignment into a non-empty destination leaves the source with the
    destination's two elements and capacity. *)
Lemma move_assign_source_not_empty :
  vec_ok left_seq pair_world = true ∧
  vec_ok right_seq pair_world = true ∧
  Vector_move_assign (Other right_seq) (left_seq, pair_world)
    = Ok (Other left_seq) (right_seq, pair_world) ∧
  size_ left_seq = 2 ∧ Capacity left_seq = 2.
Proof. repeat split; reflexivity. Qed.

(** Move-assignment of storage into a non-empty destination leaves the
    source owning the destination's block. *)
Lemma raw_move_assign_source_not_empty :
  RawMemory_move_assign (data_ left_seq) (Other (data_ right_seq))
    = (data_ right_seq, Other (data_ left_seq)) ∧
  buffer_ (data_ left_seq) ≠ nullptr ∧
  capacity_ (data_ left_seq) = 2.
Proof. repeat split; try reflexivity. discriminate. Qed.

End Examples.

(** * Further properties of the member functions *)

Section Further.
Context {T : Type} `{Element T}.
Implicit Types h : gmap addr (list (option T)).
Implicit Types p q : ptr.
Implicit Types v : Vector.
Implicit Types w : World T.
Implicit Types rm : RawMemory.

(** ** Lists with one element inserted *)

Lemma take_inserted {A} (l : list A) i x :
  (i ≤ length l)%nat → take i (take i l ++ x :: drop i l) = take i l.
Proof. intros Hi. apply take_app_length'. rewrite length_take. lia. Qed.

Lemma drop_inserted {A} (l : list A) i x :
  (i ≤ length l)%nat → drop (S i) (take i l ++ x :: drop i l) = drop i l.
Proof.
  intros Hi. rewrite drop_app_ge; rewrite length_take; [|lia].
  by replace (S i - i `min` length l)%nat with 1%nat by lia.
Qed.

Lemma lookup_inserted_before {A} (l : list A) i j x :
  (j < i)%nat → (i ≤ length l)%nat → (take i l ++ x :: drop i l) !! j = l !! j.
Proof.
  intros Hj Hi. rewrite lookup_app_l by (rewrite length_take; lia).
  by apply lookup_take_lt.
Qed.

Lemma size_of_contents v w l : contents v w = Some l → size_ v = N.of_nat (length l).
Proof. intros Hl%live_range_length. lia. Qed.

(** ** Appending *)

Lemma EmplaceBack_all_contents xs v w l :
  vec_ok v w = true → contents v w = Some l →
  post (EmplaceBack_all xs) (v, w)
    (fun _ s' => vec_ok s'.1 s'.2 = true ∧ contents s'.1 s'.2 = Some (l ++ xs.*2))
    (fun _ _ => True).
Proof.
  revert v w l. induction xs as [|[k x] xs IH]; intros v w l Hok Hl; cbn [EmplaceBack_all].
  - apply post_ret. cbn. by rewrite app_nil_r.
  - eapply post_bind; [by apply EmplaceBack_post| |done].
    intros r [v1 w1] (Hok1 & _ & _ & _ & _ & Hl1). cbn [fst snd] in *.
    eapply post_conseq; [apply (IH v1 w1 (l ++ [x])); [done|by apply Hl1]| |done].
    intros [] [v2 w2] [Hok2 Hl2]. cbn in *. split; [done|].
    by rewrite Hl2, <- app_assoc.
Qed.

Lemma PushBack_contents k x v w l v' w' :
  vec_ok v w = true → contents v w = Some l →
  (EmplaceBack k x ;;; ret tt) (v, w) = Ok tt (v', w') →
  contents v' w' = Some (l ++ [x]).
Proof.
  intros Hok Hl Heq. unfold bind in Heq.
  destruct (EmplaceBack k x (v, w)) as [r [v1 w1]|e s1|] eqn:He; [|done|done].
  injection Heq as <- <-.
  pose proof (post_Ok _ _ _ _ _ _ (EmplaceBack_post k x v w Hok) He)
    as (_ & _ & _ & _ & _ & Hc).
  by apply Hc.
Qed.

(** X1. Appending builds the list: after [EmplaceBack] (or [PushBack]) of
    the values [xs] one after the other, the sequence holds its former
    elements followed by [xs], in order, and its size has grown by the length
    of [xs]. *)
Theorem append_builds_list v w l :
  vec_ok v w = true → contents v w = Some l →
  (∀ xs v' w',
     EmplaceBack_all xs (v, w) = Ok tt (v', w') →
     size_ v' = size_ v + N.of_nat (length xs) ∧
     contents v' w' = Some (l ++ xs.*2)) ∧
  (∀ x v' w',
     PushBack_copy x (v, w) = Ok tt (v', w') → contents v' w' = Some (l ++ [x])) ∧
  (∀ x v' w',
     PushBack_move x (v, w) = Ok tt (v', w') → contents v' w' = Some (l ++ [x])).
Proof.
  intros Hok Hl. split; [|split].
  - intros xs v' w' Heq.
    pose proof (post_Ok _ _ _ _ _ _ (EmplaceBack_all_contents xs v w l Hok Hl) Heq)
      as [_ Hc].
    cbn [fst snd] in Hc. split; [|done].
    apply size_of_contents in Hc, Hl. rewrite Hc, Hl, length_app, length_fmap. lia.
  - intros x v' w'. by apply PushBack_contents.
  - intros x v' w'. by apply PushBack_contents.
Qed.

(** ** Round trips *)

(** X2. Inserting an element and erasing it again through the iterator that
    [Emplace] returned gives back the elements and the size the sequence had
    (the storage may have been reallocated in between); the iterator [Erase]
    returns is at the same index. *)
Theorem insert_then_erase pos k x v w r v' w' :
  vec_ok v w = true →
  (p <- Emplace pos k x ;; Erase p) (v, w) = Ok r (v', w') →
  size_ v' = size_ v ∧
  contents v' w' = contents v w ∧
  r = buffer_ (data_ v') +ₚ offset pos.
Proof.
  intros Hok Heq. unfold bind in Heq.
  destruct (Emplace pos k x (v, w)) as [p [v1 w1]|e s1|] eqn:He; [|done|done].
  pose proof (post_Ok _ _ _ _ _ _ (Emplace_post pos k x v w Hok) He)
    as (_ & Hpos & Hok1 & Hs1 & _ & Hp & _ & Hc1).
  cbn [fst snd] in *.
  pose proof (post_Ok _ _ _ _ _ _ (Erase_post p v1 w1 Hok1) Heq)
    as (_ & _ & _ & Hs2 & Hd2 & Hr & Hc2).
  cbn [fst snd] in *.
  pose proof Hok as (_ & _ & [l Hl])%vec_okP.
  pose proof (live_range_length _ _ _ _ Hl) as Hlen.
  pose proof (vec_ok_offset _ _ Hok1) as Hbuf1.
  assert (offset p = offset pos) as Hoff.
  { rewrite Hp. unfold ptr_add. cbn [offset]. lia. }
  rewrite Hoff in Hc2, Hr.
  split; [lia|]. split; [|by rewrite Hd2].
  rewrite (Hc2 _ (Hc1 l Hl)), Hl.
  rewrite take_inserted, drop_inserted by lia. by rewrite take_drop.
Qed.

(** ** [PopBack] *)

Lemma destroy_at_live p w x :
  peek (heap w) p = Some (Some x) →
  destroy_at p w = Ok tt (record EvDestroy (set_heap (poke (heap w) p None) w)).
Proof.
  intros Hp. unfold destroy_at, bind, read, store, emit. rewrite Hp. cbn. by rewrite Hp.
Qed.

Lemma PopBack_ok v w l :
  vec_ok v w = true → contents v w = Some l → size_ v ≠ 0 →
  ∃ w', PopBack (v, w) = Ok tt ({| data_ := data_ v; size_ := size_ v - 1 |}, w') ∧
        vec_ok {| data_ := data_ v; size_ := size_ v - 1 |} w' = true ∧
        contents {| data_ := data_ v; size_ := size_ v - 1 |} w' = Some (removelast l) ∧
        log w' = log w ++ [EvDestroy].
Proof.
  intros Hok Hl Hne. pose proof (vec_ok_offset _ _ Hok) as Hbuf0.
  pose proof (vec_ok_size_le_capacity _ _ Hok) as Hsc. unfold Capacity, RawMemory_Capacity in Hsc.
  pose proof (live_range_length _ _ _ _ Hl) as Hlen.
  destruct (l !! N.to_nat (size_ v - 1)) as [x|] eqn:Hx.
  2:{ apply lookup_ge_None in Hx. lia. }
  assert (peek (heap w) (buffer_ (data_ v) +ₚ (size_ v - 1)) = Some (Some x)) as Hp.
  { replace (size_ v - 1) with (N.of_nat (N.to_nat (size_ v - 1))) at 1 by lia.
    by eapply live_range_lookup. }
  pose proof (PopBack_post v w) as Hpost. unfold post in Hpost.
  assert (PopBack (v, w) =
          Ok tt ({| data_ := data_ v; size_ := size_ v - 1 |},
                 record EvDestroy
                   (set_heap (poke (heap w) (buffer_ (data_ v) +ₚ (size_ v - 1)) None) w)))
    as Heq.
  { unfold PopBack, bind, this, assert, RawMemory_at, ret, on_world, set_size.
    cbn [fst snd].
    rewrite (proj2 (N.eqb_neq _ _) Hne). cbn [negb].
    rewrite (proj2 (N.ltb_lt (size_ v - 1) (capacity_ (data_ v)))) by lia.
    cbv [bind assert ret]. cbn [fst snd]. by rewrite (destroy_at_live _ _ _ Hp). }
  rewrite Heq in Hpost. destruct Hpost as (_ & _ & Ht). cbn [fst snd] in Ht.
  eexists. split; [exact Heq|].
  assert (N.to_nat (size_ v - 1) ≤ N.to_nat (size_ v))%nat as Hn by lia.
  pose proof (live_range_take _ _ _ _ _ Hn Hl) as Htake.
  rewrite <- (live_range_touch _ _ _ _ _ Ht) in Htake by range_disjoint.
  destruct (vec_ok_resized v w _ (size_ v - 1) _ Hok (proj1 Ht) Htake) as [Hok' Hc'].
  split; [done|]. split; [|done].
  rewrite Hc', removelast_firstn_len. do 2 f_equal. lia.
Qed.

(** X3. [PopBack] on a sequence that is not empty always returns: it
    destroys the last element and nothing else, keeps storage and capacity,
    and leaves the other elements in place.  On an empty sequence its
    assertion fails. *)
Theorem pop_back_removes_last v w l :
  vec_ok v w = true → contents v w = Some l →
  (size_ v = 0 → PopBack (v, w) = Fault) ∧
  (size_ v ≠ 0 →
   ∃ w', PopBack (v, w) = Ok tt ({| data_ := data_ v; size_ := size_ v - 1 |}, w') ∧
         contents {| data_ := data_ v; size_ := size_ v - 1 |} w' = Some (removelast l) ∧
         log w' = log w ++ [EvDestroy] ∧
         same_shape (heap w) (heap w')).
Proof.
  intros Hok Hl. split.
  - intros Hz. unfold PopBack, bind, this, assert. cbn [fst]. by rewrite Hz.
  - intros Hne. destruct (PopBack_ok v w l Hok Hl Hne) as (w' & Heq & _ & Hc & Hlog).
    exists w'. split; [done|]. split; [done|]. split; [done|].
    pose proof (post_Ok _ _ _ _ _ _ (PopBack_post v w) Heq) as (_ & _ & Ht).
    apply Ht.
Qed.

(** X4. Appending an element and removing it again with [PopBack] gives back
    the elements and the size the sequence had. *)
Theorem push_then_pop k x v w v' w' :
  vec_ok v w = true →
  (EmplaceBack k x ;;; PopBack) (v, w) = Ok tt (v', w') →
  size_ v' = size_ v ∧ contents v' w' = contents v w.
Proof.
  intros Hok Heq. unfold bind in Heq.
  destruct (EmplaceBack k x (v, w)) as [r [v1 w1]|e s1|] eqn:He; [|done|done].
  pose proof (post_Ok _ _ _ _ _ _ (EmplaceBack_post k x v w Hok) He)
    as (Hok1 & Hs1 & _ & _ & _ & Hc1).
  cbn [fst snd] in *.
  pose proof Hok as (_ & _ & [l Hl])%vec_okP.
  specialize (Hc1 l Hl).
  assert (size_ v1 ≠ 0) as Hne by lia.
  destruct (PopBack_ok v1 w1 _ Hok1 Hc1 Hne) as (w2 & Heq2 & _ & Hc2 & _).
  rewrite Heq2 in Heq. injection Heq as <- <-. cbn [size_].
  split; [lia|]. by rewrite Hc2, Hl, removelast_last.
Qed.

(** ** [Resize] *)

Lemma Reserve_noop n v w : n <= Capacity v → Reserve n (v, w) = Ok tt (v, w).
Proof.
  intros Hle. unfold Reserve, bind, this, ret. cbn [fst].
  unfold Capacity in Hle. by rewrite (proj2 (N.leb_le _ _) Hle).
Qed.

Lemma Resize_shrink_post n v w :
  vec_ok v w = true → n <= size_ v →
  post (Resize n) (v, w)
    (fun _ s' => data_ s'.1 = data_ v ∧
                 log s'.2 = log w ++ replicate (N.to_nat (size_ v - n)) EvDestroy)
    (fun _ _ => False).
Proof.
  intros Hok Hle. pose proof (vec_ok_size_le_capacity _ _ Hok) as Hsc.
  unfold Resize. apply post_this. destruct (N.ltb_spec n (size_ v)) as [Hlt|Hge].
  - apply post_bind_assoc, post_plus_bind. intros _. apply post_bind_assoc.
    eapply post_world_bind; [apply destroy_n_post| |done].
    intros p w1 (_ & _ & _ & Hlog). apply post_ret_bind, post_set_size_last. done.
  - assert (n = size_ v) as -> by lia.
    unfold post, bind. rewrite Reserve_noop by lia.
    unfold this, RawMemory_plus, assert, bind, ret, on_world. cbn [fst snd].
    unfold Capacity, RawMemory_Capacity in Hsc.
    rewrite (proj2 (N.leb_le _ _) Hsc). cbn [fst snd].
    rewrite N.sub_diag. cbn. rewrite app_nil_r. by destruct v.
Qed.

Lemma Resize_raise_post n v w :
  vec_ok v w = true →
  post (Resize n) (v, w)
    (fun _ _ => True)
    (fun _ s' => size_ s'.1 = size_ v ∧
                 (is_copy_constructible = true ∨ is_nothrow_move_constructible = true →
                  contents s'.1 s'.2 = contents v w)).
Proof.
  intros Hok. unfold Resize. apply post_this.
  destruct (N.ltb_spec n (size_ v)) as [Hlt|Hge].
  - apply post_bind_assoc, post_plus_bind. intros _. apply post_bind_assoc.
    eapply post_world_bind; [apply destroy_n_post| |done].
    intros p w1 _. by apply post_ret_bind, post_set_size_last.
  - apply post_bind_assoc.
    eapply post_bind; [by apply Reserve_post| |].
    2:{ intros e [v1 w1] (Hv1 & Hok1 & Hh1). cbn in *. subst v1. split; [done|].
        intros Hc. unfold contents. by rewrite (Hh1 Hc). }
    intros [] [v1 w1] (Hok1 & Hs1 & Hc1 & Hcont1 & _). cbn in Hok1, Hs1, Hc1, Hcont1.
    apply post_bind_assoc, post_this, post_bind_assoc, post_plus_bind. intros _.
    apply post_bind_assoc.
    eapply post_world_bind; [apply uninitialized_value_construct_n_post| |].
    2:{ intros e w2 Ht2. cbn.
        destruct (vec_ok_touch_tail _ _ _ _ _ Hok1 Ht2) as [_ Hc2]; [done| |].
        - unfold ptr_add. cbn [offset]. lia.
        - split; [done|]. intros _. by rewrite Hc2. }
    intros p w2 _. by apply post_ret_bind, post_set_size_last.
Qed.

(** X5. [Resize(n)] keeps the first [n] elements when it shrinks and appends
    value-initialised elements when it grows; the capacity becomes the larger
    of [n] and the former capacity. *)
Theorem resize_contents n v w l v' w' :
  vec_ok v w = true → contents v w = Some l →
  Resize n (v, w) = Ok tt (v', w') →
  size_ v' = n ∧
  Capacity v' = N.max n (Capacity v) ∧
  contents v' w' =
    Some (take (N.to_nat n) l ++ replicate (N.to_nat n - length l) value_init).
Proof.
  intros Hok Hl Heq.
  pose proof (post_Ok _ _ _ _ _ _ (Resize_post n v w Hok) Heq) as (_ & Hs & Hc & Hcont).
  cbn [fst snd] in *. split; [done|]. split; [done|]. by apply Hcont.
Qed.

(** X6. Exceptions of [Resize(n)]: shrinking, or resizing to the present
    size, never throws, keeps the storage and destroys exactly the elements
    dropped.  When growing throws, the size is unchanged, and so are the
    elements if the element type can be copied or moves without throwing. *)
Theorem resize_exceptions n v w :
  vec_ok v w = true →
  (n <= size_ v →
   match Resize n (v, w) with
   | Ok _ (v', w') =>
       data_ v' = data_ v ∧
       log w' = log w ++ replicate (N.to_nat (size_ v - n)) EvDestroy
   | Raise _ _ => False
   | Fault => True
   end) ∧
  (∀ e v' w',
     Resize n (v, w) = Raise e (v', w') →
     size_ v < n ∧ size_ v' = size_ v ∧
     (is_copy_constructible = true ∨ is_nothrow_move_constructible = true →
      contents v' w' = contents v w)).
Proof.
  intros Hok. split.
  - intros Hle. pose proof (Resize_shrink_post n v w Hok Hle) as Hp. unfold post in Hp.
    by destruct (Resize n (v, w)) as [[] [v' w']|e s'|].
  - intros e v' w' Heq.
    pose proof (post_Raise _ _ _ _ _ _ (Resize_raise_post n v w Hok) Heq) as [Hs Hc].
    cbn [fst snd] in *. split; [|done].
    destruct (N.le_gt_cases n (size_ v)) as [Hle|Hgt]; [|done].
    by pose proof (post_Raise _ _ _ _ _ _ (Resize_shrink_post n v w Hok Hle) Heq).
Qed.

(** ** Constructors *)

(** X7. [Vector(n)] makes a sequence of [n] value-initialised elements whose
    capacity is [n], in a block that did not exist before; blocks that
    existed are untouched.  [Vector(0)] is the empty sequence and calls no
    allocator. *)
Theorem sized_constructor n w :
  (∀ v w',
     Vector_ctor n w = Ok v w' →
     size_ v = n ∧ Capacity v = n ∧
     contents v w' = Some (replicate (N.to_nat n) value_init) ∧
     (∀ b, is_Some (heap w !! b) → heap w' !! b = heap w !! b)) ∧
  Vector_ctor 0 w = Ok Vector_default w.
Proof.
  split; [|done]. intros v w' Heq.
  pose proof (post_Ok _ _ _ _ _ _ (Vector_ctor_post n w) Heq)
    as (_ & Hs & Hc & Hcont & Hout & Hfr).
  split; [done|]. split; [done|]. split; [done|].
  intros b [blk Hb]. apply Hout. intros Hbase. specialize (Hfr _ Hbase). congruence.
Qed.

(** ** [Erase] *)

(** X9. A successful [Erase] keeps storage and capacity and returns the
    position it was given, which now holds the element that followed the
    erased one, or is [end()] if the last element was erased.  If it throws,
    size and storage are unchanged. *)
Theorem erase_returns_next pos v w l :
  vec_ok v w = true → contents v w = Some l →
  (∀ r v' w',
     Erase pos (v, w) = Ok r (v', w') →
     r = pos ∧ data_ v' = data_ v ∧
     match l !! S (N.to_nat (offset pos)) with
     | Some y => peek (heap w') r = Some (Some y)
     | None => r = buffer_ (data_ v') +ₚ size_ v'
     end) ∧
  (∀ e v' w', Erase pos (v, w) = Raise e (v', w') → v' = v).
Proof.
  intros Hok Hl. pose proof (vec_ok_offset _ _ Hok) as Hbuf0.
  pose proof (live_range_length _ _ _ _ Hl) as Hlen. split.
  - intros r v' w' Heq.
    pose proof (post_Ok _ _ _ _ _ _ (Erase_post pos v w Hok) Heq)
      as (Hb & Hlt & _ & Hs & Hd & Hr & Hc).
    cbn [fst snd] in *. specialize (Hc l Hl).
    assert (r = pos) as Hrp.
    { rewrite Hr. apply ptr_eq; unfold ptr_add; cbn [base offset]; [done|lia]. }
    split; [done|]. split; [done|].
    destruct (l !! S (N.to_nat (offset pos))) as [y|] eqn:Hy.
    + rewrite Hr. replace (offset pos) with (N.of_nat (N.to_nat (offset pos))) at 1 by lia.
      rewrite <- Hd. eapply live_range_lookup; [exact Hc|].
      rewrite lookup_app_r; rewrite length_take; [|lia].
      rewrite lookup_drop. rewrite <- Hy. f_equal. lia.
    + apply lookup_ge_None in Hy. rewrite Hr, Hd. f_equal. lia.
  - intros e v' w' Heq.
    by pose proof (post_Raise _ _ _ _ _ _ (Erase_post pos v w Hok) Heq) as [Hv _].
Qed.

(** ** Insertion into spare capacity *)

Lemma Emplace_spare_post pos k x v w :
  vec_ok v w = true → size_ v ≠ Capacity v →
  post (Emplace pos k x) (v, w)
    (fun _ s' => data_ s'.1 = data_ v ∧ quiet w s'.2)
    (fun _ _ => True).
Proof.
  intros Hok Hne. pose proof (vec_ok_offset _ _ Hok) as Hbuf0.
  unfold Emplace. apply post_begin_bind, post_end_bind. intros Hsc.
  apply post_ptr_le_bind. intros Hb1. apply post_ptr_le_bind. intros Hb2.
  apply post_assert_bind. intros [_ Hle%N.leb_le]%andb_true_iff.
  unfold ptr_add in Hle. cbn [offset] in Hle. rewrite Hbuf0 in Hle.
  apply post_this. rewrite (proj2 (N.eqb_neq _ _) Hne).
  eapply post_conseq; [apply EmplaceWithoutRealloc_post; [done|lia]| |done].
  by intros r [v' w'] (_ & _ & Hd' & _ & Hq' & _).
Qed.

Lemma EmplaceBack_all_spare xs v w :
  vec_ok v w = true → size_ v + N.of_nat (length xs) <= Capacity v →
  post (EmplaceBack_all xs) (v, w)
    (fun _ s' => data_ s'.1 = data_ v ∧ quiet w s'.2)
    (fun _ _ => True).
Proof.
  revert v w. induction xs as [|[k x] xs IH]; intros v w Hok Hle; cbn [EmplaceBack_all].
  - apply post_ret. split; [done|apply quiet_refl].
  - cbn [length] in Hle.
    assert (post (EmplaceBack k x) (v, w)
              (fun _ s' => data_ s'.1 = data_ v ∧ quiet w s'.2) (fun _ _ => True)) as Hsp.
    { unfold EmplaceBack. apply post_cend_bind. intros _.
      apply Emplace_spare_post; [done|lia]. }
    eapply post_bind;
      [exact (post_and _ _ _ _ _ _ (EmplaceBack_post k x v w Hok) Hsp)| |done].
    intros r [v1 w1] [(Hok1 & Hs1 & _) [Hd1 Hq1]]. cbn [fst snd] in *.
    eapply post_conseq; [apply (IH v1 w1); [done|]| |done].
    + unfold Capacity. rewrite Hd1. fold (Capacity v). lia.
    + intros [] [v2 w2] [Hd2 Hq2]. cbn [fst snd] in *.
      split; [congruence|]. by eapply quiet_trans.
Qed.

(** X10. An insertion into spare capacity (size below capacity) allocates
    nothing and keeps storage and capacity; it returns the position it was
    given, and the elements in front of that position stay where they
    were. *)
Theorem spare_capacity_keeps_storage pos k x v w l r v' w' :
  vec_ok v w = true → contents v w = Some l → size_ v < Capacity v →
  Emplace pos k x (v, w) = Ok r (v', w') →
  data_ v' = data_ v ∧
  allocs (log w') = allocs (log w) ∧
  r = pos ∧
  ∀ j y, (j < N.to_nat (offset pos))%nat → l !! j = Some y →
         peek (heap w') (buffer_ (data_ v) +ₚ N.of_nat j) = Some (Some y).
Proof.
  intros Hok Hl Hlt Heq. pose proof (vec_ok_offset _ _ Hok) as Hbuf0.
  pose proof (live_range_length _ _ _ _ Hl) as Hlen.
  assert (size_ v ≠ Capacity v) as Hne by lia.
  pose proof (post_Ok _ _ _ _ _ _ (Emplace_spare_post pos k x v w Hok Hne) Heq)
    as [Hd Hq].
  pose proof (post_Ok _ _ _ _ _ _ (Emplace_post pos k x v w Hok) Heq)
    as (Hb & Hpos & _ & _ & _ & Hr & _ & Hc).
  cbn [fst snd] in *. specialize (Hc l Hl).
  split; [done|]. split; [done|]. split.
  - rewrite Hr, Hd. apply ptr_eq; unfold ptr_add; cbn [base offset]; [done|lia].
  - intros j y Hj Hy. rewrite <- Hd. eapply live_range_lookup; [exact Hc|].
    rewrite lookup_inserted_before by lia. done.
Qed.

(** X11. After [Reserve(n)], appending elements up to a size of [n] never
    allocates and never moves the storage. *)
Theorem reserve_then_append n xs v w v1 w1 v' w' :
  vec_ok v w = true → size_ v + N.of_nat (length xs) <= n →
  Reserve n (v, w) = Ok tt (v1, w1) →
  EmplaceBack_all xs (v1, w1) = Ok tt (v', w') →
  data_ v' = data_ v1 ∧
  Capacity v' = N.max n (Capacity v) ∧
  allocs (log w') = allocs (log w1).
Proof.
  intros Hok Hle Hres Happ.
  pose proof (post_Ok _ _ _ _ _ _ (Reserve_post n v w Hok) Hres)
    as (Hok1 & Hs1 & Hc1 & _).
  cbn [fst snd] in *.
  assert (size_ v1 + N.of_nat (length xs) <= Capacity v1) as Hle1 by lia.
  pose proof (post_Ok _ _ _ _ _ _ (EmplaceBack_all_spare xs v1 w1 Hok1 Hle1) Happ)
    as [Hd Hq].
  cbn [fst snd] in *. split; [done|]. split; [|done].
  unfold Capacity. rewrite Hd. exact Hc1.
Qed.

End Further.

(** * Absence of faults *)

Section SafeRules.
Context {S : Type}.
Implicit Types s : S.

Lemma safe_ret {A} (a : A) s : safe (ret a) s.
Proof. done. Qed.

Lemma safe_bind {A B} (m : M S A) (k : A → M S B) s Qm Em :
  post m s Qm Em → safe m s →
  (∀ a s1, Qm a s1 → safe (k a) s1) →
  safe (bind m k) s.
Proof.
  unfold post, safe, bind. intros Hp Hs Hk.
  destruct (m s) as [a s1|e s1|]; [by apply Hk|done|done].
Qed.

Lemma safe_bind_assoc {A B C} (m : M S A) (k1 : A → M S B) (k2 : B → M S C) s :
  safe (bind m (fun a => bind (k1 a) k2)) s → safe (bind (bind m k1) k2) s.
Proof. unfold safe, bind. by destruct (m s). Qed.

Lemma safe_ret_bind {A B} (a : A) (k : A → M S B) s :
  safe (k a) s → safe (bind (ret a) k) s.
Proof. done. Qed.

Lemma safe_assert_bind {A} (b : bool) (k : unit → M S A) s :
  b = true → safe (k tt) s → safe (bind (assert b) k) s.
Proof. by intros ->. Qed.

Lemma safe_assert (b : bool) s : b = true → safe (assert b) s.
Proof. by intros ->. Qed.

(** A handler that returns keeps the computation safe; one that throws or
    faults does not. *)
Lemma safe_on_exception {A} (m : M S A) (h : M S unit) s Qm Em :
  post m s Qm Em → safe m s →
  (∀ e s1, Em e s1 → ∃ s2, h s1 = Ok tt s2) →
  safe (on_exception m h) s.
Proof.
  unfold post, safe, on_exception. intros Hp Hs Hh.
  destruct (m s) as [a s1|e s1|]; [done| |done].
  by destruct (Hh e s1 Hp) as [s2 ->].
Qed.

Lemma safe_plus_bind {A} rm off (k : ptr → M S A) s :
  off <= capacity_ rm → safe (k (buffer_ rm +ₚ off)) s →
  safe (bind (RawMemory_plus rm off) k) s.
Proof.
  intros Hle%N.leb_le Hk. unfold RawMemory_plus. apply safe_bind_assoc.
  by apply safe_assert_bind.
Qed.

Lemma safe_plus rm off s : off <= capacity_ rm → safe (RawMemory_plus rm off) s.
Proof.
  intros Hle%N.leb_le. unfold RawMemory_plus. by apply safe_assert_bind.
Qed.

Lemma safe_at_bind {A} rm index (k : ptr → M S A) s :
  index < capacity_ rm → safe (k (buffer_ rm +ₚ index)) s →
  safe (bind (RawMemory_at rm index) k) s.
Proof.
  intros Hlt%N.ltb_lt Hk. unfold RawMemory_at. apply safe_bind_assoc.
  by apply safe_assert_bind.
Qed.

Lemma safe_ptr_le_bind {A} p q (k : bool → M S A) s :
  base p = base q → safe (k (offset p <=? offset q)) s →
  safe (bind (ptr_le p q) k) s.
Proof.
  intros Hb Hk. unfold ptr_le. apply safe_bind_assoc, safe_assert_bind; [|done].
  by apply bool_decide_eq_true.
Qed.

Lemma safe_ptr_lt_bind {A} p q (k : bool → M S A) s :
  base p = base q → safe (k (offset p <? offset q)) s →
  safe (bind (ptr_lt p q) k) s.
Proof.
  intros Hb Hk. unfold ptr_lt. apply safe_bind_assoc, safe_assert_bind; [|done].
  by apply bool_decide_eq_true.
Qed.

Lemma safe_ptr_diff_bind {A} p q (k : N → M S A) s :
  base p = base q → offset q <= offset p → safe (k (offset p - offset q)) s →
  safe (bind (ptr_diff p q) k) s.
Proof.
  intros Hb Hle%N.leb_le Hk. unfold ptr_diff.
  apply safe_bind_assoc, safe_assert_bind; [|done].
  apply andb_true_iff. split; [by apply bool_decide_eq_true|done].
Qed.

End SafeRules.

Section SafeSteps.
Context {T : Type} `{Element T}.
Implicit Types h : gmap addr (list (option T)).
Implicit Types p q : ptr.
Implicit Types v : Vector.
Implicit Types w : World T.
Implicit Types rm : RawMemory.

Lemma safe_on_world {A} (m : M (World T) A) v w : safe m w → safe (on_world m) (v, w).
Proof. unfold safe, on_world. cbn. by destruct (m w). Qed.

Lemma safe_world_bind {A B} (m : M (World T) A) (k : A → M (Obj T) B) v w Qm Em :
  post m w Qm Em → safe m w →
  (∀ a w1, Qm a w1 → safe (k a) (v, w1)) →
  safe (bind (on_world m) k) (v, w).
Proof.
  unfold post, safe, bind, on_world. cbn. intros Hp Hs Hk.
  destruct (m w) as [a w1|e w1|]; [by apply Hk|done|done].
Qed.

Lemma safe_this {A} (k : Vector → M (Obj T) A) v w :
  safe (k v) (v, w) → safe (bind this k) (v, w).
Proof. done. Qed.

Lemma safe_set_data {A} (k : unit → M (Obj T) A) d v w :
  safe (k tt) ({| data_ := d; size_ := size_ v |}, w) →
  safe (bind (set_data d) k) (v, w).
Proof. done. Qed.

Lemma safe_set_size {A} (k : unit → M (Obj T) A) n v w :
  safe (k tt) ({| data_ := data_ v; size_ := n |}, w) →
  safe (bind (set_size n) k) (v, w).
Proof. done. Qed.

Lemma safe_cbegin_bind {A} (k : ptr → M (Obj T) A) v w :
  safe (k (buffer_ (data_ v))) (v, w) → safe (bind cbegin k) (v, w).
Proof. done. Qed.

Lemma safe_begin_bind {A} (k : ptr → M (Obj T) A) v w :
  safe (k (buffer_ (data_ v))) (v, w) → safe (bind begin k) (v, w).
Proof. done. Qed.

Lemma safe_cend_bind {A} (k : ptr → M (Obj T) A) v w :
  size_ v <= capacity_ (data_ v) →
  safe (k (buffer_ (data_ v) +ₚ size_ v)) (v, w) →
  safe (bind cend k) (v, w).
Proof.
  intros Hle Hk. unfold cend. apply safe_bind_assoc, safe_this.
  by apply safe_plus_bind.
Qed.

Lemma safe_end_bind {A} (k : ptr → M (Obj T) A) v w :
  size_ v <= capacity_ (data_ v) →
  safe (k (buffer_ (data_ v) +ₚ size_ v)) (v, w) →
  safe (bind end_ k) (v, w).
Proof.
  intros Hle Hk. unfold end_. apply safe_bind_assoc, safe_this.
  by apply safe_plus_bind.
Qed.

(** ** Element operations *)

Lemma peek_poke_is_Some h p x q : is_Some (peek h q) → is_Some (peek (poke h p x) q).
Proof.
  intros [y Hy]. rewrite peek_poke. destruct (decide (p = q)) as [->|]; [|by eexists].
  rewrite Hy. by eexists.
Qed.

Lemma is_live_poke h p x q : is_live h q → is_live (poke h p (Some x)) q.
Proof.
  intros [y Hy]. unfold is_live. rewrite peek_poke.
  destruct (decide (p = q)) as [->|]; [|by eexists].
  rewrite Hy. by eexists.
Qed.

Lemma is_live_is_Some h q : is_live h q → is_Some (peek h q).
Proof. intros [y Hy]. by eexists. Qed.

Lemma construct_at_safe k p x w :
  is_Some (peek (heap w) p) → safe (construct_at k p x) w.
Proof.
  intros [y Hy]. unfold safe, construct_at, bind, may_throw, ret, store, emit.
  destruct (ctor_throws k); [destruct (fuse w (tick w))|]; cbn; by rewrite ?Hy.
Qed.

Lemma destroy_at_returns p w :
  is_live (heap w) p →
  destroy_at p w = Ok tt (record EvDestroy (set_heap (poke (heap w) p None) w)).
Proof.
  intros [x Hp]. unfold destroy_at, bind, read, store, emit. rewrite Hp. cbn. by rewrite Hp.
Qed.

Lemma destroy_at_safe p w : is_live (heap w) p → safe (destroy_at p) w.
Proof. intros Hp. unfold safe. by rewrite destroy_at_returns. Qed.

Lemma copy_construct_safe dst src w :
  is_live (heap w) src → is_Some (peek (heap w) dst) →
  safe (copy_construct dst src) w.
Proof.
  intros [x Hx] Hd. unfold copy_construct, safe, bind, read. rewrite Hx.
  by apply construct_at_safe.
Qed.

Lemma move_construct_safe dst src w :
  is_live (heap w) src → is_Some (peek (heap w) dst) →
  safe (move_construct dst src) w.
Proof.
  intros [x Hx] Hd. unfold move_construct, bind at 1, read. unfold safe. rewrite Hx.
  eapply safe_bind; [apply construct_at_post|by apply construct_at_safe|].
  intros [] w1 (_ & Hh & _). unfold safe, store. rewrite Hh.
  assert (is_Some (peek (poke (heap w) dst (Some x)) src)) as [y ->]; [|done].
  apply peek_poke_is_Some. by eexists.
Qed.

Lemma assign_at_safe k dst x w : is_live (heap w) dst → safe (assign_at k dst x) w.
Proof.
  intros [y Hy]. unfold safe, assign_at, bind, read, may_throw, store, emit.
  rewrite Hy. destruct (fuse w (tick w)); cbn; by rewrite ?Hy.
Qed.

Lemma copy_assign_safe dst src w :
  is_live (heap w) src → is_live (heap w) dst → safe (copy_assign dst src) w.
Proof.
  intros [x Hx] Hd. unfold copy_assign, safe, bind, read. rewrite Hx.
  by apply assign_at_safe.
Qed.

Lemma move_assign_safe dst src w :
  is_live (heap w) src → is_live (heap w) dst → safe (move_assign dst src) w.
Proof.
  intros [x Hx] Hd. unfold move_assign, bind at 1, read. unfold safe. rewrite Hx.
  eapply safe_bind; [apply assign_at_post|by apply assign_at_safe|].
  intros [] w1 (_ & Hh & _). unfold safe, store. rewrite Hh.
  assert (is_Some (peek (poke (heap w) dst (Some x)) src)) as [y ->]; [|done].
  apply peek_poke_is_Some. by eexists.
Qed.

(** ** Loops *)

Lemma destroy_loop_safe p n w :
  (∀ q, in_range p n q → is_live (heap w) q) → safe (destroy_loop p n) w.
Proof.
  revert p w. induction n as [|n IH]; intros p w Hlive; cbn [destroy_loop]; [done|].
  eapply safe_bind; [apply destroy_at_post|apply destroy_at_safe, Hlive, in_range_first|].
  intros [] w1 (_ & Hh & _). apply IH. intros q Hq. unfold is_live. rewrite Hh.
  rewrite peek_poke_ne; [by apply Hlive, in_range_next|].
  intros ->. by eapply not_in_range_self.
Qed.

Lemma destroy_n_safe p n w :
  (∀ q, in_range p (N.to_nat n) q → is_live (heap w) q) → safe (destroy_n p n) w.
Proof.
  intros Hlive. unfold destroy_n.
  eapply safe_bind; [apply destroy_loop_post|by apply destroy_loop_safe|done].
Qed.

(** The handler of the construction loops: destroying the object that was
    constructed before the loop went on. *)
Lemma destroy_handler P p w1 w2 :
  touch P w1 w2 → ¬ P p → is_live (heap w1) p →
  ∃ w3, destroy_at p w2 = Ok tt w3.
Proof.
  intros [_ Hf] Hp Hl. eexists. apply destroy_at_returns.
  unfold is_live. by rewrite Hf.
Qed.

Lemma value_construct_loop_safe p n w :
  (∀ q, in_range p n q → is_Some (peek (heap w) q)) →
  safe (value_construct_loop p n) w.
Proof.
  revert p w. induction n as [|n IH]; intros p w Hex; cbn [value_construct_loop]; [done|].
  eapply safe_bind;
    [apply construct_at_post|apply construct_at_safe, Hex, in_range_first|].
  intros [] w1 (Hp & Hh & _).
  eapply safe_on_exception; [apply value_construct_loop_post| |].
  - apply IH. intros q Hq. rewrite Hh. by apply peek_poke_is_Some, Hex, in_range_next.
  - intros e w2 Ht. cbv beta in Ht.
    eapply destroy_handler; [exact Ht|apply not_in_range_self|].
    unfold is_live. rewrite Hh, peek_poke_eq by done. by eexists.
Qed.

Lemma uninitialized_value_construct_n_safe p n w :
  (∀ q, in_range p (N.to_nat n) q → is_Some (peek (heap w) q)) →
  safe (uninitialized_value_construct_n p n) w.
Proof.
  intros Hex. unfold uninitialized_value_construct_n.
  eapply safe_bind;
    [apply value_construct_loop_post|by apply value_construct_loop_safe|done].
Qed.

Lemma in_range_base_ne src dst n q : base src ≠ base dst → in_range src n q → q ≠ dst.
Proof. intros Hne Hq%in_range_base ->. done. Qed.

Lemma uninit_copy_loop_safe src n dst w :
  base src ≠ base dst →
  (∀ q, in_range src n q → is_live (heap w) q) →
  (∀ q, in_range dst n q → is_Some (peek (heap w) q)) →
  safe (uninit_copy_loop src n dst) w.
Proof.
  revert src dst w. induction n as [|n IH]; intros src dst w Hne Hlive Hex;
    cbn [uninit_copy_loop]; [done|].
  eapply safe_bind; [apply copy_construct_post| |].
  { apply copy_construct_safe; [apply Hlive|apply Hex]; apply in_range_first. }
  intros [] w1 (x & Hsrc & Hd & Hh & _).
  eapply safe_on_exception; [apply uninit_copy_loop_post| |].
  - apply IH; [done| |].
    + intros q Hq. unfold is_live. rewrite Hh, peek_poke_ne.
      * by apply Hlive, in_range_next.
      * intros ->. apply in_range_base in Hq. cbn in Hq. congruence.
    + intros q Hq. rewrite Hh. by apply peek_poke_is_Some, Hex, in_range_next.
  - intros e w2 [Ht _].
    eapply destroy_handler; [exact Ht|apply not_in_range_self|].
    unfold is_live. rewrite Hh, peek_poke_eq by done. by eexists.
Qed.

Lemma uninit_move_loop_safe src n dst w :
  base src ≠ base dst →
  (∀ q, in_range src n q → is_live (heap w) q) →
  (∀ q, in_range dst n q → is_Some (peek (heap w) q)) →
  safe (uninit_move_loop src n dst) w.
Proof.
  revert src dst w. induction n as [|n IH]; intros src dst w Hne Hlive Hex;
    cbn [uninit_move_loop]; [done|].
  eapply safe_bind; [apply move_construct_post| |].
  { apply move_construct_safe; [apply Hlive|apply Hex]; apply in_range_first. }
  intros [] w1 (x & Hsrc & Hd & Hh & _).
  eapply safe_on_exception; [apply uninit_move_loop_post| |].
  - apply IH; [done| |].
    + intros q Hq. rewrite Hh. apply is_live_poke. unfold is_live. rewrite peek_poke_ne.
      * by apply Hlive, in_range_next.
      * intros ->. apply in_range_base in Hq. cbn in Hq. congruence.
    + intros q Hq. rewrite Hh. by apply peek_poke_is_Some, peek_poke_is_Some, Hex, in_range_next.
  - intros e w2 (_ & Ht & _).
    eapply destroy_handler; [exact Ht| |].
    + intros [Hq|Hq]; [by eapply not_in_range_self|].
      apply in_range_base in Hq. cbn in Hq. congruence.
    + rewrite Hh. apply is_live_poke. unfold is_live. rewrite peek_poke_eq by done.
      by eexists.
Qed.

Lemma uninitialized_copy_n_safe src n dst w :
  base src ≠ base dst →
  (∀ q, in_range src (N.to_nat n) q → is_live (heap w) q) →
  (∀ q, in_range dst (N.to_nat n) q → is_Some (peek (heap w) q)) →
  safe (uninitialized_copy_n src n dst) w.
Proof.
  intros Hne Hlive Hex. unfold uninitialized_copy_n.
  eapply safe_bind; [apply uninit_copy_loop_post|by apply uninit_copy_loop_safe|done].
Qed.

Lemma uninitialized_move_n_safe src n dst w :
  base src ≠ base dst →
  (∀ q, in_range src (N.to_nat n) q → is_live (heap w) q) →
  (∀ q, in_range dst (N.to_nat n) q → is_Some (peek (heap w) q)) →
  safe (uninitialized_move_n src n dst) w.
Proof.
  intros Hne Hlive Hex. unfold uninitialized_move_n.
  eapply safe_bind; [apply uninit_move_loop_post|by apply uninit_move_loop_safe|done].
Qed.

Lemma InitializeDataUsingOtherData_safe src dst n w :
  base src ≠ base dst →
  (∀ q, in_range src (N.to_nat n) q → is_live (heap w) q) →
  (∀ q, in_range dst (N.to_nat n) q → is_Some (peek (heap w) q)) →
  safe (InitializeDataUsingOtherData src dst n) w.
Proof.
  intros Hne Hlive Hex. unfold InitializeDataUsingOtherData.
  destruct (is_nothrow_move_constructible || negb is_copy_constructible).
  - eapply safe_bind;
      [apply uninitialized_move_n_post|by apply uninitialized_move_n_safe|done].
  - eapply safe_bind;
      [apply uninitialized_copy_n_post|by apply uninitialized_copy_n_safe|done].
Qed.

Lemma copy_loop_safe src n dst w :
  (∀ q, in_range src n q → is_live (heap w) q) →
  (∀ q, in_range dst n q → is_live (heap w) q) →
  safe (copy_loop src n dst) w.
Proof.
  revert src dst w. induction n as [|n IH]; intros src dst w Hsrc Hdst;
    cbn [copy_loop]; [done|].
  eapply safe_bind; [apply copy_assign_post| |].
  { apply copy_assign_safe; [apply Hsrc|apply Hdst]; apply in_range_first. }
  intros [] w1 (x & _ & _ & Hh & _).
  apply IH; intros q Hq; rewrite Hh; apply is_live_poke.
  - by apply Hsrc, in_range_next.
  - by apply Hdst, in_range_next.
Qed.

Lemma std_copy_safe first last d_first w :
  base last = base first → offset first <= offset last →
  (∀ q, in_range first (N.to_nat (offset last - offset first)) q → is_live (heap w) q) →
  (∀ q, in_range d_first (N.to_nat (offset last - offset first)) q → is_live (heap w) q) →
  safe (std_copy first last d_first) w.
Proof.
  intros Hb Hle Hsrc Hdst. unfold std_copy.
  apply safe_ptr_diff_bind; [done|done|].
  eapply safe_bind; [apply copy_loop_post|by apply copy_loop_safe|done].
Qed.

Lemma move_loop_safe d n w :
  (∀ q, in_range d (S n) q → is_live (heap w) q) →
  safe (move_loop (d +ₚ 1) n d) w.
Proof.
  revert d w. induction n as [|n IH]; intros d w Hlive; cbn [move_loop]; [done|].
  eapply safe_bind; [apply move_assign_post| |].
  { apply move_assign_safe; apply Hlive; [apply in_range_next|]; apply in_range_first. }
  intros [] w1 (x & _ & _ & Hh & _).
  apply IH. intros q Hq. rewrite Hh. by apply is_live_poke, is_live_poke, Hlive, in_range_next.
Qed.

Lemma std_move_safe d last w :
  base last = base d → offset d + 1 <= offset last →
  (∀ q, in_range d (S (N.to_nat (offset last - (offset d + 1)))) q →
        is_live (heap w) q) →
  safe (std_move (d +ₚ 1) last d) w.
Proof.
  intros Hb Hle Hlive. unfold std_move.
  apply safe_ptr_diff_bind; [done|unfold ptr_add; cbn [offset]; lia|].
  unfold ptr_add at 1. cbn [offset].
  eapply safe_bind; [apply move_loop_post|by apply move_loop_safe|done].
Qed.

Lemma move_backward_loop_safe first n w :
  (∀ q, in_range first (S n) q → is_live (heap w) q) →
  safe (move_backward_loop n (first +ₚ N.of_nat n) (first +ₚ N.of_nat n +ₚ 1)) w.
Proof.
  revert w. induction n as [|n IH]; intros w Hlive; cbn [move_backward_loop]; [done|].
  rewrite ptr_pred_add, ptr_pred_add_1.
  eapply safe_bind; [apply move_assign_post| |].
  { apply move_assign_safe; apply Hlive; apply in_range_add.
    - exists n. split; [lia|done].
    - exists (S n). split; [lia|]. rewrite ptr_add_add. f_equal. lia. }
  intros [] w1 (x & _ & _ & Hh & _).
  apply IH. intros q Hq. rewrite Hh. apply is_live_poke, is_live_poke, Hlive.
  revert Hq. apply in_range_mono. lia.
Qed.

Lemma std_move_backward_safe first n w :
  (∀ q, in_range first (S n) q → is_live (heap w) q) →
  safe (std_move_backward first (first +ₚ N.of_nat n) (first +ₚ N.of_nat n +ₚ 1)) w.
Proof.
  intros Hlive. unfold std_move_backward.
  apply safe_ptr_diff_bind; [done|unfold ptr_add; cbn [offset]; lia|].
  unfold ptr_add at 1 3. cbn [offset].
  replace (N.to_nat (offset first + N.of_nat n - offset first)) with n by lia.
  eapply safe_bind; [apply move_backward_loop_post|by apply move_backward_loop_safe|done].
Qed.

(** ** Storage *)

Lemma operator_new_safe bytes w : safe (operator_new bytes) w.
Proof. unfold safe, operator_new. by destruct (_ || _). Qed.

Lemma RawMemory_ctor_safe n w : safe (RawMemory_ctor n) w.
Proof.
  unfold RawMemory_ctor, Allocate.
  eapply safe_bind; [apply Allocate_post| |done].
  unfold Allocate. destruct (n =? 0); [done|apply operator_new_safe].
Qed.

Lemma RawMemory_dtor_returns rm w :
  raw_view rm w → ∃ w', RawMemory_dtor rm w = Ok tt w'.
Proof.
  intros [Hb Hc|a blk Hb Hc Hh _ _]; unfold RawMemory_dtor, Deallocate, operator_delete;
    rewrite Hb; cbn [base offset nullptr]; [by eexists|].
  rewrite Hh. by eexists.
Qed.

End SafeSteps.

Section GuardRules.
Context {S : Type}.
Implicit Types s : S.

Lemma guard_safe {A} (m : M S A) s Q E : guard m s Q E → safe m s.
Proof. unfold guard, safe. by destruct (m s). Qed.

Lemma guard_post {A} (m : M S A) s Q E : guard m s Q E → post m s Q (fun _ => E).
Proof. unfold guard, post. by destruct (m s). Qed.

Lemma guard_intro {A} (m : M S A) s Q (E : S → Prop) :
  safe m s → post m s Q (fun _ s' => E s') → guard m s Q E.
Proof. unfold guard, safe, post. by destruct (m s). Qed.

Lemma guard_mono {A} (m : M S A) s (Q Q' : A → S → Prop) (E E' : S → Prop) :
  guard m s Q E → (∀ a s', Q a s' → Q' a s') → (∀ s', E s' → E' s') → guard m s Q' E'.
Proof. unfold guard. destruct (m s); eauto. Qed.

Lemma guard_ret {A} (a : A) s (Q : A → S → Prop) E : Q a s → guard (ret a) s Q E.
Proof. done. Qed.

Lemma guard_bind {A B} (m : M S A) (k : A → M S B) s Qm Em Q (E : S → Prop) :
  post m s Qm Em → safe m s →
  (∀ e s1, Em e s1 → E s1) →
  (∀ a s1, Qm a s1 → guard (k a) s1 Q E) →
  guard (bind m k) s Q E.
Proof.
  unfold post, safe, guard, bind. intros Hp Hs HE Hk.
  destruct (m s) as [a s1|e s1|]; [by apply Hk|by eapply HE|done].
Qed.

Lemma guard_guard_bind {A B} (m : M S A) (k : A → M S B) s Qm Q (E : S → Prop) :
  guard m s Qm E →
  (∀ a s1, Qm a s1 → guard (k a) s1 Q E) →
  guard (bind m k) s Q E.
Proof.
  unfold guard, bind. intros Hg Hk.
  destruct (m s) as [a s1|e s1|]; [by apply Hk|done|done].
Qed.

Lemma guard_bind_assoc {A B C} (m : M S A) (k1 : A → M S B) (k2 : B → M S C) s Q E :
  guard (bind m (fun a => bind (k1 a) k2)) s Q E → guard (bind (bind m k1) k2) s Q E.
Proof. unfold guard, bind. by destruct (m s). Qed.

Lemma guard_ret_bind {A B} (a : A) (k : A → M S B) s Q E :
  guard (k a) s Q E → guard (bind (ret a) k) s Q E.
Proof. done. Qed.

Lemma guard_assert_bind {A} (b : bool) (k : unit → M S A) s Q E :
  b = true → guard (k tt) s Q E → guard (bind (assert b) k) s Q E.
Proof. by intros ->. Qed.

Lemma guard_on_exception {A} (m : M S A) (h : M S unit) s Q (E : S → Prop) :
  guard m s Q (fun s1 => ∃ s2, h s1 = Ok tt s2 ∧ E s2) →
  guard (on_exception m h) s Q E.
Proof.
  unfold guard, on_exception. destruct (m s) as [a s1|e s1|]; [done| |done].
  by intros (s2 & -> & HE).
Qed.

Lemma guard_plus_bind {A} rm off (k : ptr → M S A) s Q E :
  off <= capacity_ rm → guard (k (buffer_ rm +ₚ off)) s Q E →
  guard (bind (RawMemory_plus rm off) k) s Q E.
Proof.
  intros Hle%N.leb_le Hk. unfold RawMemory_plus. apply guard_bind_assoc.
  by apply guard_assert_bind.
Qed.

Lemma guard_plus rm off s (Q : ptr → S → Prop) E :
  off <= capacity_ rm → Q (buffer_ rm +ₚ off) s → guard (RawMemory_plus rm off) s Q E.
Proof.
  intros Hle%N.leb_le HQ. unfold RawMemory_plus. by apply guard_assert_bind.
Qed.

Lemma guard_at_bind {A} rm index (k : ptr → M S A) s Q E :
  index < capacity_ rm → guard (k (buffer_ rm +ₚ index)) s Q E →
  guard (bind (RawMemory_at rm index) k) s Q E.
Proof.
  intros Hlt%N.ltb_lt Hk. unfold RawMemory_at. apply guard_bind_assoc.
  by apply guard_assert_bind.
Qed.

Lemma guard_ptr_le_bind {A} p q (k : bool → M S A) s Q E :
  base p = base q → guard (k (offset p <=? offset q)) s Q E →
  guard (bind (ptr_le p q) k) s Q E.
Proof.
  intros Hb Hk. unfold ptr_le. apply guard_bind_assoc, guard_assert_bind; [|done].
  by apply bool_decide_eq_true.
Qed.

Lemma guard_ptr_lt_bind {A} p q (k : bool → M S A) s Q E :
  base p = base q → guard (k (offset p <? offset q)) s Q E →
  guard (bind (ptr_lt p q) k) s Q E.
Proof.
  intros Hb Hk. unfold ptr_lt. apply guard_bind_assoc, guard_assert_bind; [|done].
  by apply bool_decide_eq_true.
Qed.

Lemma guard_ptr_diff_bind {A} p q (k : N → M S A) s Q E :
  base p = base q → offset q <= offset p → guard (k (offset p - offset q)) s Q E →
  guard (bind (ptr_diff p q) k) s Q E.
Proof.
  intros Hb Hle%N.leb_le Hk. unfold ptr_diff.
  apply guard_bind_assoc, guard_assert_bind; [|done].
  apply andb_true_iff. split; [by apply bool_decide_eq_true|done].
Qed.

End GuardRules.

Section GuardSteps.
Context {T : Type} `{Element T}.
Implicit Types h : gmap addr (list (option T)).
Implicit Types p q : ptr.
Implicit Types v : Vector.
Implicit Types w : World T.
Implicit Types rm : RawMemory.

Lemma on_world_returns {A} (m : M (World T) A) v w a w' :
  m w = Ok a w' → on_world m (v, w) = Ok a (v, w').
Proof. unfold on_world. cbn. by intros ->. Qed.

Lemma guard_world_bind {A B} (m : M (World T) A) (k : A → M (Obj T) B) v w Qm Em Q
    (E : Obj T → Prop) :
  post m w Qm Em → safe m w →
  (∀ e w1, Em e w1 → E (v, w1)) →
  (∀ a w1, Qm a w1 → guard (k a) (v, w1) Q E) →
  guard (bind (on_world m) k) (v, w) Q E.
Proof.
  unfold post, safe, guard, bind, on_world. cbn. intros Hp Hs HE Hk.
  destruct (m w) as [a w1|e w1|]; [by apply Hk|by eapply HE|done].
Qed.

Lemma guard_world {A} (m : M (World T) A) v w Qm Em (Q : A → Obj T → Prop)
    (E : Obj T → Prop) :
  post m w Qm Em → safe m w →
  (∀ a w1, Qm a w1 → Q a (v, w1)) →
  (∀ e w1, Em e w1 → E (v, w1)) →
  guard (on_world m) (v, w) Q E.
Proof.
  unfold post, safe, guard, on_world. cbn. intros Hp Hs HQ HE.
  destruct (m w) as [a w1|e w1|]; [by apply HQ|by eapply HE|done].
Qed.

Lemma guard_world_on_exception_bind {A B} (m : M (World T) A) (h : M (Obj T) unit)
    (k : A → M (Obj T) B) v w Qm Em Q (E : Obj T → Prop) :
  post m w Qm Em → safe m w →
  (∀ e w1, Em e w1 → ∃ s2, h (v, w1) = Ok tt s2 ∧ E s2) →
  (∀ a w1, Qm a w1 → guard (k a) (v, w1) Q E) →
  guard (bind (on_exception (on_world m) h) k) (v, w) Q E.
Proof.
  unfold post, safe, guard, bind, on_exception, on_world. cbn. intros Hp Hs HE Hk.
  destruct (m w) as [a w1|e w1|]; [by apply Hk| |done].
  by destruct (HE e w1 Hp) as (s2 & -> & HE2).
Qed.

Lemma guard_this {A} (k : Vector → M (Obj T) A) v w Q E :
  guard (k v) (v, w) Q E → guard (bind this k) (v, w) Q E.
Proof. done. Qed.

Lemma guard_set_data {A} (k : unit → M (Obj T) A) d v w Q E :
  guard (k tt) ({| data_ := d; size_ := size_ v |}, w) Q E →
  guard (bind (set_data d) k) (v, w) Q E.
Proof. done. Qed.

Lemma guard_set_size {A} (k : unit → M (Obj T) A) n v w Q E :
  guard (k tt) ({| data_ := data_ v; size_ := n |}, w) Q E →
  guard (bind (set_size n) k) (v, w) Q E.
Proof. done. Qed.

Lemma guard_cbegin_bind {A} (k : ptr → M (Obj T) A) v w Q E :
  guard (k (buffer_ (data_ v))) (v, w) Q E → guard (bind cbegin k) (v, w) Q E.
Proof. done. Qed.

Lemma guard_begin_bind {A} (k : ptr → M (Obj T) A) v w Q E :
  guard (k (buffer_ (data_ v))) (v, w) Q E → guard (bind begin k) (v, w) Q E.
Proof. done. Qed.

Lemma guard_cend_bind {A} (k : ptr → M (Obj T) A) v w Q E :
  size_ v <= capacity_ (data_ v) →
  guard (k (buffer_ (data_ v) +ₚ size_ v)) (v, w) Q E →
  guard (bind cend k) (v, w) Q E.
Proof.
  intros Hle Hk. unfold cend. apply guard_bind_assoc, guard_this.
  by apply guard_plus_bind.
Qed.

Lemma guard_end_bind {A} (k : ptr → M (Obj T) A) v w Q E :
  size_ v <= capacity_ (data_ v) →
  guard (k (buffer_ (data_ v) +ₚ size_ v)) (v, w) Q E →
  guard (bind end_ k) (v, w) Q E.
Proof.
  intros Hle Hk. unfold end_. apply guard_bind_assoc, guard_this.
  by apply guard_plus_bind.
Qed.

(** ** Facts about well-formed storage *)

Lemma fits_wrap n : fits n = true → wrap (n * sizeof) / sizeof = n.
Proof.
  intros Hf%N.ltb_lt. rewrite wrap_small by done.
  apply N.div_mul. pose proof sizeof_pos. lia.
Qed.

Lemma fits_slots rm w : raw_view rm w → fits (capacity_ rm) = true → slots rm w = capacity_ rm.
Proof.
  intros [Hb Hc|a blk Hb Hc Hh Hlen _] Hf.
  - by rewrite slots_null, Hc.
  - rewrite (slots_block _ _ _ _ Hb Hh), Hlen. by apply fits_wrap.
Qed.

Lemma slots_fits rm w : raw_view rm w → capacity_ rm <= slots rm w → fits (capacity_ rm) = true.
Proof.
  intros Hraw Hle. apply N.ltb_lt.
  pose proof (full_bytes _ _ Hraw Hle). rewrite SIZE_MOD_val, PTRDIFF_MAX_val in *. lia.
Qed.

Lemma raw_view_slot rm w i :
  raw_view rm w → i < slots rm w → is_Some (peek (heap w) (buffer_ rm +ₚ i)).
Proof.
  intros [Hb Hc|a blk Hb Hc Hh Hlen _] Hi.
  - rewrite slots_null in Hi by done. lia.
  - rewrite (slots_block _ _ _ _ Hb Hh) in Hi. rewrite Hb.
    unfold ptr_add, peek. cbn [base offset]. rewrite Hh.
    apply lookup_lt_is_Some. lia.
Qed.

Lemma vec_ok_live v w q :
  vec_ok v w = true → in_range (buffer_ (data_ v)) (N.to_nat (size_ v)) q →
  is_live (heap w) q.
Proof.
  intros (_ & _ & Hc)%vec_okP. revert q. by apply live_range_is_live.
Qed.

Lemma same_shape_insert_fresh h a blk : h !! a = None → ∀ b, b ≠ a →
  length <$> (<[a := blk]> h) !! b = length <$> h !! b.
Proof. intros _ b Hb. by rewrite lookup_insert_ne. Qed.

End GuardSteps.

Section SafeMembers.
Context {T : Type} `{Element T}.
Implicit Types h : gmap addr (list (option T)).
Implicit Types p q : ptr.
Implicit Types v : Vector.
Implicit Types w : World T.
Implicit Types rm : RawMemory.

Lemma returns_safe {S A} (m : M S A) s : (∃ a s', m s = Ok a s') → safe m s.
Proof. intros (a & s' & Heq). unfold safe. by rewrite Heq. Qed.

Lemma RawMemory_dtor_safe rm w : raw_view rm w → safe (RawMemory_dtor rm) w.
Proof.
  intros Hraw. apply returns_safe. exists tt.
  by apply RawMemory_dtor_returns.
Qed.

Lemma raw_view_same_shape rm w w' :
  raw_view rm w → same_shape (heap w) (heap w') → raw_view rm w'.
Proof.
  intros Hraw Hs. eapply raw_view_transfer; [done|]. intros a _. apply Hs.
Qed.

(** The destructor of the new block, run while an exception unwinds. *)
Lemma dtor_handler rm v w1 w2 :
  raw_view rm w1 → same_shape (heap w1) (heap w2) →
  ∃ s2, on_world (RawMemory_dtor rm) (v, w2) = Ok tt s2 ∧ True.
Proof.
  intros Hraw Hs. pose proof (raw_view_same_shape _ _ _ Hraw Hs) as Hraw2.
  destruct (RawMemory_dtor_returns _ _ Hraw2) as [w3 Heq].
  exists (v, w3). split; [|done]. by apply on_world_returns.
Qed.

Lemma raw_view_eta rm w :
  raw_view {| buffer_ := buffer_ rm; capacity_ := capacity_ rm |} w ↔ raw_view rm w.
Proof. by destruct rm. Qed.

(** What a fresh block looks like, and what it leaves alone. *)
Lemma fresh_block_slot (w w1 : World T) a n i :
  heap w1 = <[a := replicate (N.to_nat (wrap (n * sizeof) / sizeof)) None]> (heap w) →
  fits n = true → i < n →
  peek (heap w1) (Ptr (Some a) i) = Some None.
Proof.
  intros Hh Hfit Hi. rewrite Hh, peek_insert_eq. apply lookup_replicate_2.
  rewrite fits_wrap by done. lia.
Qed.

Lemma fresh_block_live (w w1 : World T) a blk rm q :
  heap w1 = <[a := blk]> (heap w) → heap w !! a = None → raw_view rm w →
  base q = base (buffer_ rm) → is_live (heap w) q → is_live (heap w1) q.
Proof.
  intros Hh Hfresh Hraw Hq Hl. unfold is_live. rewrite Hh, peek_insert_ne; [done|].
  rewrite Hq. by eapply raw_view_base_ne.
Qed.

Lemma fresh_block_raw_view (w w1 : World T) a blk rm :
  heap w1 = <[a := blk]> (heap w) → heap w !! a = None → raw_view rm w →
  raw_view rm w1.
Proof.
  intros Hh Hfresh Hraw.
  eapply (raw_view_outside (eq a)); [done|by eapply outside_insert|].
  intros b Hb <-. by eapply raw_view_base_ne.
Qed.

Lemma Reserve_safe n v w :
  vec_ok v w = true → fits n = true → safe (Reserve n) (v, w).
Proof.
  intros Hok Hfit. apply (guard_safe _ _ (fun _ _ => True) (fun _ => True)).
  unfold Reserve. apply guard_this.
  destruct (N.leb_spec n (RawMemory_Capacity (data_ v))) as [Hle|Hgt]; [done|].
  pose proof Hok as (Hraw & Hsz & Hcont)%vec_okP.
  pose proof (vec_ok_size_le_capacity _ _ Hok) as Hsc. unfold Capacity in Hsc.
  unfold RawMemory_Capacity in *.
  eapply guard_world_bind; [apply RawMemory_ctor_post|apply RawMemory_ctor_safe|done|].
  intros new_data w1 Halloc.
  pose proof (allocated_raw_view _ _ _ _ Halloc) as Hraw1.
  destruct Halloc as [Hcap [(Hn0 & _)|(Hn & a & Hb & Hfresh & Hh1 & Hbytes & Hl1)]]; [lia|].
  pose proof (raw_view_base_ne _ _ _ Hraw Hfresh) as Hne.
  pose proof (fresh_block_raw_view _ _ _ _ _ Hh1 Hfresh Hraw) as Hrawv1.
  unfold GetAddress. rewrite Hb.
  eapply guard_guard_bind with (Qm := fun _ s => s.1 = v ∧ same_shape (heap w1) (heap s.2)).
  - apply guard_on_exception.
    eapply guard_world_bind; [apply InitializeDataUsingOtherData_post| | |].
    + apply InitializeDataUsingOtherData_safe; [done| |].
      * intros q Hq. eapply fresh_block_live; [done|done|done|by eapply in_range_base|].
        by eapply vec_ok_live.
      * intros q [Hqb Hqo]. cbn [base offset] in Hqb, Hqo. destruct q as [qb qo].
        cbn [base offset] in *. subst qb.
        rewrite (fresh_block_slot w w1 a n qo) by (done || lia). done.
    + intros e w2 (_ & _ & _ & Ht & _). eapply dtor_handler; [done|apply Ht].
    + intros [] w2 (Ht2 & _ & Hc2 & _). specialize (Hc2 a eq_refl).
      eapply guard_world; [apply destroy_n_post| | |done].
      * apply destroy_n_safe. intros q Hq. apply Hc2.
        -- apply in_range_base in Hq. cbn. congruence.
        -- eapply fresh_block_live; [done|done|done|by eapply in_range_base|].
           by eapply vec_ok_live.
      * intros p w3 (Ht3 & _). split; [done|].
        eapply same_shape_trans; [apply Ht2|apply Ht3].
  - intros [] [v3 w3] [Hv Hs3]. cbn [fst snd] in *. subst v3.
    cbn [RawMemory_Swap]. apply guard_set_data.
    eapply guard_world; [apply RawMemory_dtor_post| |done|done].
    apply RawMemory_dtor_safe, raw_view_eta. by eapply raw_view_same_shape.
Qed.

Lemma same_shape_slot h h' q : same_shape h h' → is_Some (peek h q) → is_Some (peek h' q).
Proof.
  intros Hs [y Hy]. unfold peek in *. destruct (base q) as [a|]; [|done].
  specialize (Hs a). destruct (h !! a) as [blk|] eqn:Hb; [|done].
  destruct (h' !! a) as [blk'|]; [|done]. cbn in Hs. injection Hs as Hlen.
  apply lookup_lt_is_Some. rewrite Hlen. apply lookup_lt_is_Some. by eexists.
Qed.

Lemma touch_is_live P w w' q : touch P w w' → ¬ P q → is_live (heap w) q → is_live (heap w') q.
Proof. intros [_ Hf] Hq Hl. unfold is_live. by rewrite Hf. Qed.

(** The handlers of [EmplaceWithRealloc]. *)
Lemma at_destroy_handler rm i v w (E : Obj T → Prop) :
  i < capacity_ rm → is_live (heap w) (buffer_ rm +ₚ i) →
  (∀ w', same_shape (heap w) (heap w') → E (v, w')) →
  ∃ s2, (r <- RawMemory_at rm i ;; on_world (destroy_at r)) (v, w) = Ok tt s2 ∧ E s2.
Proof.
  intros Hi%N.ltb_lt Hl HE. unfold RawMemory_at, bind, assert, ret. rewrite Hi.
  eexists. split; [by apply on_world_returns, destroy_at_returns|].
  apply HE. cbn. apply same_shape_poke.
Qed.

Lemma destroy_n_handler p n v w (E : Obj T → Prop) :
  (∀ q, in_range p (N.to_nat n) q → is_live (heap w) q) →
  (∀ w', same_shape (heap w) (heap w') → E (v, w')) →
  ∃ s2, (on_world (destroy_n p n) ;;; ret tt) (v, w) = Ok tt s2 ∧ E s2.
Proof.
  intros Hl HE. pose proof (destroy_n_safe p n w Hl) as Hs.
  pose proof (destroy_n_post p n w) as Hp. unfold safe, post in *.
  unfold bind, on_world, ret. cbn [fst snd].
  destruct (destroy_n p n w) as [r w'|e w'|]; [|done|done].
  eexists. split; [done|]. apply HE, Hp.
Qed.

Lemma EmplaceWithRealloc_safe pos k x v w :
  vec_ok v w = true → sizeof < SIZE_MOD → size_ v = Capacity v →
  base pos = base (buffer_ (data_ v)) → offset pos <= size_ v →
  safe (EmplaceWithRealloc pos k x) (v, w).
Proof.
  intros Hok Hsz_t Hfull Hbase Hpos.
  apply (guard_safe _ _ (fun _ _ => True) (fun _ => True)).
  pose proof Hok as (Hraw & Hsz & [l Hl])%vec_okP.
  pose proof (vec_ok_offset _ _ Hok) as Hbuf0.
  unfold Capacity, RawMemory_Capacity in Hfull.
  assert (capacity_ (data_ v) * sizeof <= PTRDIFF_MAX) as Hbytes0.
  { eapply full_bytes; [done|]. lia. }
  pose proof (bytes_bound _ Hbytes0) as Hcapm.
  set (i := offset pos) in *. set (old := buffer_ (data_ v)) in *.
  unfold EmplaceWithRealloc. apply guard_this, guard_cbegin_bind.
  apply guard_ptr_diff_bind; [done|fold old; lia|]. fold old. rewrite Hbuf0, N.sub_0_r.
  fold i.
  set (ncap := if size_ v =? 0 then 1 else wrap (size_ v * 2)).
  assert (ncap = if size_ v =? 0 then 1 else 2 * size_ v) as Hncap.
  { unfold ncap. destruct (N.eqb_spec (size_ v) 0); [done|].
    rewrite wrap_small; [lia|]. rewrite SIZE_MOD_val, PTRDIFF_MAX_val in *. lia. }
  assert (size_ v + 1 <= ncap) as Hroom
    by (rewrite Hncap; destruct (N.eqb_spec (size_ v) 0); lia).
  assert (fits ncap = true) as Hfit.
  { apply N.ltb_lt. rewrite Hncap. destruct (N.eqb_spec (size_ v) 0); [lia|].
    rewrite SIZE_MOD_val, PTRDIFF_MAX_val in *. lia. }
  clearbody ncap.
  eapply guard_world_bind; [apply RawMemory_ctor_post|apply RawMemory_ctor_safe|done|].
  intros new_data w1 Halloc.
  pose proof (allocated_raw_view _ _ _ _ Halloc) as Hraw1.
  destruct Halloc as [Hcap [(Hn0 & _)|(_ & a & Hb & Hfresh & Hh1 & Hbytes & Hl1)]]; [lia|].
  pose proof (raw_view_base_ne _ _ _ Hraw Hfresh) as Hne. fold old in Hne.
  pose proof (fresh_block_raw_view _ _ _ _ _ Hh1 Hfresh Hraw) as Hrawv1.
  assert (∀ q, in_range old (N.to_nat (size_ v)) q → is_live (heap w1) q) as Hlive1.
  { intros q Hq. eapply fresh_block_live; [done|done|done|by eapply in_range_base|].
    by eapply vec_ok_live. }
  assert (∀ j, j < ncap → is_Some (peek (heap w1) (Ptr (Some a) j))) as Hslot1.
  { intros j Hj. by rewrite (fresh_block_slot w w1 a ncap j). }
  assert (∀ w', same_shape (heap w1) (heap w') →
                ∃ s2, on_world (RawMemory_dtor new_data) (v, w') = Ok tt s2 ∧ True) as Hdtor.
  { intros w' Hs'. by eapply dtor_handler. }
  unfold GetAddress. fold old. rewrite Hb.
  eapply guard_guard_bind with (Qm := fun _ s => s.1 = v ∧ same_shape (heap w1) (heap s.2)).
  - apply guard_on_exception.
    apply guard_plus_bind; [lia|]. rewrite Hb.
    change ({| base := Some a; offset := 0 |} +ₚ i) with (Ptr (Some a) i).
    eapply guard_world_bind; [apply construct_at_post| | |].
    { apply construct_at_safe, Hslot1. lia. }
    { intros e w2 (Hh2 & _). apply Hdtor. rewrite Hh2. apply same_shape_refl. }
    intros [] w2 (Hs2 & Hh2 & Hl2).
    assert (same_shape (heap w1) (heap w2)) as Hsh2 by (rewrite Hh2; apply same_shape_poke).
    assert (∀ q, in_range old (N.to_nat (size_ v)) q → is_live (heap w2) q) as Hlive2.
    { intros q Hq. rewrite Hh2. by apply is_live_poke, Hlive1. }
    assert (is_live (heap w2) (Ptr (Some a) i)) as Hx2.
    { unfold is_live. rewrite Hh2, peek_poke_eq by done. by eexists. }
    (* the prefix *)
    eapply guard_world_on_exception_bind; [apply InitializeDataUsingOtherData_post| | |].
    { apply InitializeDataUsingOtherData_safe; [done| |].
      - intros q Hq. apply Hlive2. revert Hq. apply in_range_mono. lia.
      - intros q [Hqb Hqo]. destruct q as [qb qo]. cbn [base offset] in *. subst qb.
        eapply same_shape_slot; [exact Hsh2|]. apply Hslot1. lia. }
    { intros e w3 (_ & _ & _ & Ht3 & _).
      apply at_destroy_handler; [lia| |].
      - rewrite Hb. change ({| base := Some a; offset := 0 |} +ₚ i) with (Ptr (Some a) i).
        eapply touch_is_live; [exact Ht3| |done].
        unfold in_range. cbn [base offset]. intros [[_ ?]|[? _]]; [lia|congruence].
      - intros w' Hs'. apply Hdtor.
        eapply same_shape_trans; [exact Hsh2|]. eapply same_shape_trans; [apply Ht3|done]. }
    intros [] w3 (Ht3 & _ & Hc3 & Hv3). specialize (Hc3 a eq_refl).
    destruct Hv3 as (l1 & _ & Hl1b); [done|].
    assert (same_shape (heap w1) (heap w3)) as Hsh3
      by (eapply same_shape_trans; [exact Hsh2|apply Ht3]).
    assert (∀ q, in_range old (N.to_nat (size_ v)) q → is_live (heap w3) q) as Hlive3.
    { intros q Hq. apply Hc3; [|by apply Hlive2].
      apply in_range_base in Hq. cbn. congruence. }
    assert (∀ q, in_range (Ptr (Some a) 0) (N.to_nat (i + 1)) q → is_live (heap w3) q)
      as Hnew3.
    { intros q Hq. destruct (decide (offset q < i)) as [Hlo|Hhi].
      - assert (in_range (Ptr (Some a) 0) (N.to_nat i) q) as Hq'
          by (revert Hq; range_disjoint).
        clear Hq Hlo. revert q Hq'. apply live_range_is_live. by eexists.
      - assert (q = Ptr (Some a) i) as ->.
        { apply ptr_eq; [apply Hq|]. revert Hq. unfold in_range. cbn [base offset]. lia. }
        eapply touch_is_live; [exact Ht3| |done].
        unfold in_range. cbn [base offset]. intros [[_ ?]|[? _]]; [lia|congruence]. }
    apply guard_plus_bind; [lia|]. apply guard_plus_bind; [lia|]. rewrite Hb.
    change ({| base := Some a; offset := 0 |} +ₚ i +ₚ 1) with (Ptr (Some a) (i + 1)).
    (* the suffix *)
    eapply guard_world_on_exception_bind; [apply InitializeDataUsingOtherData_post| | |].
    { apply InitializeDataUsingOtherData_safe; [done| |].
      - intros q Hq. apply Hlive3. revert Hq. fold old. range_disjoint.
      - intros q [Hqb Hqo]. destruct q as [qb qo]. cbn [base offset] in *. subst qb.
        eapply same_shape_slot; [exact Hsh3|]. apply Hslot1. lia. }
    { intros e w4 (_ & _ & _ & Ht4 & _).
      apply destroy_n_handler.
      - intros q Hq. eapply touch_is_live; [exact Ht4| |by apply Hnew3].
        revert Hq. fold old. unfold in_range, ptr_add. cbn [base offset].
        intros [Hqb Hqo] [[_ ?]|[? _]]; [lia|congruence].
      - intros w' Hs'. apply Hdtor.
        eapply same_shape_trans; [exact Hsh3|]. eapply same_shape_trans; [apply Ht4|done]. }
    intros [] w4 (Ht4 & _ & Hc4 & _). specialize (Hc4 a eq_refl).
    eapply guard_world_bind; [apply destroy_n_post| |done|].
    { apply destroy_n_safe. intros q Hq. apply Hc4; [|by apply Hlive3].
      apply in_range_base in Hq. cbn. congruence. }
    intros p w5 (Ht5 & _). apply guard_ret. split; [done|]. cbn [snd].
    eapply same_shape_trans; [exact Hsh3|]. eapply same_shape_trans; [apply Ht4|apply Ht5].
  - intros [] [v5 w5] [Hv Hs5]. cbn [fst snd] in *. subst v5.
    cbn [RawMemory_Swap]. apply guard_set_data, guard_set_size.
    apply guard_plus_bind; [cbn [capacity_]; lia|].
    eapply guard_world_bind; [apply RawMemory_dtor_post| |done|done].
    apply RawMemory_dtor_safe, raw_view_eta. by eapply raw_view_same_shape.
Qed.

Lemma construct_local_safe k w : safe (construct_local k) w.
Proof.
  unfold safe, construct_local, bind, may_throw, ret, emit.
  destruct (ctor_throws k); [destruct (fuse w (tick w))|]; done.
Qed.

Lemma destroy_local_handler v w (E : Obj T → Prop) :
  E (v, record EvDestroy w) →
  ∃ s2, on_world destroy_local (v, w) = Ok tt s2 ∧ E s2.
Proof. intros HE. by eexists. Qed.

(** The insertion into spare capacity does not fault; when it throws, either
    the heap is as before or the slot after the last element holds a live
    object. *)
Lemma EmplaceWithoutRealloc_guard pos k x v w :
  vec_ok v w = true → size_ v < slots (data_ v) w →
  base pos = base (buffer_ (data_ v)) → offset pos <= size_ v →
  guard (EmplaceWithoutRealloc pos k x) (v, w)
    (fun _ _ => True)
    (fun s => s.1 = v ∧
              (heap s.2 = heap w ∨
               offset pos < size_ v ∧
               is_live (heap s.2) (buffer_ (data_ v) +ₚ size_ v))).
Proof.
  intros Hok Hroom Hbase Hpos.
  pose proof Hok as (Hraw & Hsz & [l Hl])%vec_okP.
  pose proof (vec_ok_offset _ _ Hok) as Hbuf0.
  pose proof (slots_le_capacity _ _ Hraw) as Hsc.
  set (i := offset pos) in *. set (buf := buffer_ (data_ v)) in *.
  pose proof (raw_view_slot _ _ _ Hraw Hroom) as Hslot. fold buf in Hslot.
  assert (∀ q, in_range buf (N.to_nat (size_ v)) q → is_live (heap w) q) as Hlive
    by (intros q; by apply vec_ok_live).
  unfold EmplaceWithoutRealloc. apply guard_this, guard_cbegin_bind.
  apply guard_ptr_diff_bind; [done|fold buf; lia|]. fold buf. rewrite Hbuf0, N.sub_0_r.
  fold i. apply guard_cend_bind; [lia|]. fold buf.
  destruct (bool_decide (pos = buf +ₚ size_ v)) eqn:Hend; cbv iota.
  - (* at the end *)
    apply guard_bind_assoc, guard_plus_bind; [lia|]. fold buf.
    eapply guard_world_bind; [apply construct_at_post|by apply construct_at_safe| |].
    { intros e w1 (Hh1 & _). cbn. split; [done|by left]. }
    intros [] w1 _. apply guard_set_size, guard_plus; [cbn; lia|done].
  - (* in the middle *)
    apply bool_decide_eq_false in Hend.
    assert (i < size_ v) as Hi.
    { destruct (decide (i = size_ v)) as [Heq|]; [|lia]. destruct Hend.
      apply ptr_eq; [done|]. unfold ptr_add. cbn [offset]. fold i. lia. }
    set (n' := (N.to_nat (size_ v) - 1 - N.to_nat i)%nat).
    apply guard_bind_assoc.
    eapply guard_world_bind; [apply construct_local_post|apply construct_local_safe| |].
    { intros e w1 (Hh1 & _). cbn. split; [done|by left]. }
    intros [] w1 (Hh1 & _). apply guard_bind_assoc.
    eapply guard_guard_bind with (Qm := fun _ _ => True).
    2:{ intros [] [v4 w4] _.
        eapply guard_world_bind; [apply destroy_local_post|done|done|].
        intros [] w5 _. apply guard_set_size, guard_plus; [cbn; lia|done]. }
    apply guard_on_exception.
    apply guard_plus_bind; [lia|]. apply guard_at_bind; [lia|]. fold buf.
    assert (is_live (heap w1) (buf +ₚ (size_ v - 1))) as Hback.
    { rewrite Hh1. apply Hlive. range_disjoint. }
    eapply guard_world_bind; [apply move_construct_post| | |].
    { apply move_construct_safe; [done|by rewrite Hh1]. }
    { intros e w2 (Hh2 & _). apply destroy_local_handler. cbn. split; [done|].
      left. congruence. }
    intros [] w2 (y & Hy & Hs2 & Hh2 & Hl2).
    assert (∀ q, in_range (buf +ₚ i) (S (S n')) q → is_live (heap w2) q) as Hlive2.
    { intros q Hq. rewrite Hh2.
      destruct (decide (q = buf +ₚ size_ v)) as [->|Hne].
      - apply is_live_poke. unfold is_live. rewrite peek_poke_eq by done. by eexists.
      - apply is_live_poke, is_live_poke. rewrite Hh1. apply Hlive.
        assert (offset q ≠ size_ v).
        { intros Ho. apply Hne. apply ptr_eq; [apply Hq|].
          unfold ptr_add. cbn [offset]. lia. }
        revert Hq. range_disjoint. }
    assert (is_live (heap w2) (buf +ₚ size_ v)) as Hleft2.
    { apply Hlive2. range_disjoint. }
    apply guard_plus_bind; [lia|]. apply guard_plus_bind; [lia|].
    apply guard_plus_bind; [lia|]. fold buf.
    replace (buf +ₚ (size_ v - 1)) with (buf +ₚ i +ₚ N.of_nat n')
      by (rewrite ptr_add_add; f_equal; lia).
    replace (buf +ₚ size_ v) with (buf +ₚ i +ₚ N.of_nat n' +ₚ 1) in *
      by (rewrite !ptr_add_add; f_equal; lia).
    eapply guard_world_bind; [apply std_move_backward_post| | |].
    { apply std_move_backward_safe. intros q Hq. apply Hlive2.
      revert Hq. apply in_range_mono. lia. }
    { intros e w3 (_ & Hk3). apply destroy_local_handler. cbn. split; [done|].
      right. split; [done|]. by apply Hk3. }
    intros p3 w3 (_ & Hk3 & _).
    apply guard_at_bind; [lia|]. fold buf.
    eapply guard_world; [apply assign_at_post| |done|].
    { apply assign_at_safe, Hk3, Hlive2. apply in_range_first. }
    intros e w4 (Hh4 & _). apply destroy_local_handler. cbn. split; [done|].
    right. split; [done|]. rewrite Hh4. by apply Hk3.
Qed.

Lemma Emplace_safe pos k x v w :
  vec_ok v w = true → sizeof < SIZE_MOD → fits (Capacity v) = true →
  base pos = base (buffer_ (data_ v)) → offset pos <= size_ v →
  safe (Emplace pos k x) (v, w).
Proof.
  intros Hok Hsz_t Hfit Hbase Hpos.
  apply (guard_safe _ _ (fun _ _ => True) (fun _ => True)).
  pose proof Hok as (Hraw & Hsz & _)%vec_okP.
  pose proof (vec_ok_offset _ _ Hok) as Hbuf0.
  pose proof (vec_ok_size_le_capacity _ _ Hok) as Hsc.
  unfold Capacity, RawMemory_Capacity in Hsc.
  unfold Emplace. apply guard_begin_bind, guard_end_bind; [done|].
  apply guard_ptr_le_bind; [done|]. apply guard_ptr_le_bind; [done|].
  apply guard_assert_bind.
  { apply andb_true_iff. split; apply N.leb_le; unfold ptr_add; cbn [offset]; lia. }
  apply guard_this. destruct (N.eqb_spec (size_ v) (Capacity v)) as [Hfull|Hspare].
  - eapply guard_intro; [by apply EmplaceWithRealloc_safe|].
    eapply post_conseq; [by apply EmplaceWithRealloc_post|done|done].
  - eapply guard_mono; [apply EmplaceWithoutRealloc_guard; try done|done|done].
    rewrite (fits_slots _ _ Hraw Hfit). unfold Capacity, RawMemory_Capacity in Hspare. lia.
Qed.

Lemma Emplace_invalid pos k x v w :
  vec_ok v w = true →
  ¬ (base pos = base (buffer_ (data_ v)) ∧ offset pos <= size_ v) →
  Emplace pos k x (v, w) = Fault.
Proof.
  intros Hok Hinv. pose proof (vec_ok_offset _ _ Hok) as Hbuf0.
  pose proof (vec_ok_size_le_capacity _ _ Hok) as Hsc.
  unfold Capacity, RawMemory_Capacity in Hsc.
  unfold Emplace, begin, end_, bind, this, ret, GetAddress, RawMemory_plus, assert.
  cbn [fst snd]. rewrite (proj2 (N.leb_le _ _) Hsc).
  unfold ptr_le, bind, assert, ret, same_array.
  destruct (decide (base (buffer_ (data_ v)) = base pos)) as [Hb|Hb].
  - rewrite bool_decide_eq_true_2 by done.
    rewrite bool_decide_eq_true_2 by (unfold ptr_add; cbn [base]; done).
    assert ((offset pos <=? offset (buffer_ (data_ v) +ₚ size_ v)) = false) as ->.
    { apply N.leb_gt. unfold ptr_add. cbn [offset].
      destruct (N.le_gt_cases (offset pos) (size_ v)); [|lia]. destruct Hinv. done. }
    by rewrite andb_false_r.
  - by rewrite bool_decide_eq_false_2.
Qed.

Lemma PopBack_safe v w :
  size_ v ≠ 0 → size_ v <= capacity_ (data_ v) →
  is_live (heap w) (buffer_ (data_ v) +ₚ (size_ v - 1)) →
  safe PopBack (v, w).
Proof.
  intros Hne Hsc Hlive. apply (guard_safe _ _ (fun _ _ => True) (fun _ => True)).
  unfold PopBack. apply guard_this, guard_assert_bind.
  { by apply negb_true_iff, N.eqb_neq. }
  apply guard_at_bind; [lia|].
  eapply guard_world_bind; [apply destroy_at_post|by apply destroy_at_safe|done|].
  intros [] w1 _. by apply guard_set_size.
Qed.

Lemma Erase_safe pos v w :
  vec_ok v w = true →
  base pos = base (buffer_ (data_ v)) → offset pos < size_ v →
  safe (Erase pos) (v, w).
Proof.
  intros Hok Hbase Hpos.
  apply (guard_safe _ _ (fun _ _ => True) (fun _ => True)).
  pose proof (vec_ok_offset _ _ Hok) as Hbuf0.
  pose proof (vec_ok_size_le_capacity _ _ Hok) as Hsc.
  unfold Capacity, RawMemory_Capacity in Hsc.
  set (i := offset pos) in *. set (buf := buffer_ (data_ v)) in *.
  assert (∀ q, in_range buf (N.to_nat (size_ v)) q → is_live (heap w) q) as Hlive
    by (intros q; by apply vec_ok_live).
  unfold Erase. apply guard_begin_bind, guard_end_bind; [done|]. fold buf.
  apply guard_ptr_le_bind; [done|]. apply guard_ptr_lt_bind; [done|].
  apply guard_assert_bind.
  { apply andb_true_iff. split; [apply N.leb_le|apply N.ltb_lt];
      unfold ptr_add; cbn [offset]; lia. }
  apply guard_this, guard_cbegin_bind. fold buf.
  apply guard_ptr_diff_bind; [done|lia|]. rewrite Hbuf0, N.sub_0_r. fold i.
  apply guard_plus_bind; [lia|]. apply guard_end_bind; [done|].
  apply guard_plus_bind; [lia|]. fold buf.
  eapply guard_world_bind; [apply std_move_post| |done|].
  { apply std_move_safe; [done|unfold ptr_add; cbn [offset]; lia|].
    intros q Hq. apply Hlive. revert Hq. range_disjoint. }
  intros p1 w1 (_ & _ & _ & Hk1 & _).
  eapply guard_bind; [apply PopBack_post| |done|].
  { apply PopBack_safe; [lia|done|]. apply Hk1, Hlive. fold buf. range_disjoint. }
  intros [] [v2 w2] _. apply guard_plus; [lia|done].
Qed.

Lemma Erase_invalid pos v w :
  vec_ok v w = true →
  ¬ (base pos = base (buffer_ (data_ v)) ∧ offset pos < size_ v) →
  Erase pos (v, w) = Fault.
Proof.
  intros Hok Hinv. pose proof (vec_ok_offset _ _ Hok) as Hbuf0.
  pose proof (vec_ok_size_le_capacity _ _ Hok) as Hsc.
  unfold Capacity, RawMemory_Capacity in Hsc.
  unfold Erase, begin, end_, bind, this, ret, GetAddress, RawMemory_plus, assert.
  cbn [fst snd]. rewrite (proj2 (N.leb_le _ _) Hsc).
  unfold ptr_le, ptr_lt, bind, assert, ret, same_array.
  destruct (decide (base (buffer_ (data_ v)) = base pos)) as [Hb|Hb].
  - rewrite bool_decide_eq_true_2 by done.
    rewrite bool_decide_eq_true_2 by (unfold ptr_add; cbn [base]; done).
    assert ((offset pos <? offset (buffer_ (data_ v) +ₚ size_ v)) = false) as ->.
    { apply N.ltb_ge. unfold ptr_add. cbn [offset].
      destruct (N.le_gt_cases (size_ v) (offset pos)); [lia|]. destruct Hinv. done. }
    by rewrite andb_false_r.
  - by rewrite bool_decide_eq_false_2.
Qed.

Lemma fits_max n m : fits n = true → fits m = true → fits (N.max n m) = true.
Proof. intros Hn Hm. by destruct (N.max_spec n m) as [[_ ->]|[_ ->]]. Qed.

Lemma Resize_safe n v w :
  vec_ok v w = true → fits (Capacity v) = true → fits n = true →
  safe (Resize n) (v, w).
Proof.
  intros Hok Hfitv Hfit.
  apply (guard_safe _ _ (fun _ _ => True) (fun _ => True)).
  pose proof (vec_ok_size_le_capacity _ _ Hok) as Hsc.
  unfold Capacity, RawMemory_Capacity in Hsc.
  unfold Resize. apply guard_this. destruct (N.ltb_spec n (size_ v)) as [Hlt|Hge].
  - apply guard_bind_assoc, guard_plus_bind; [lia|]. apply guard_bind_assoc.
    eapply guard_world_bind; [apply destroy_n_post| |done|].
    { apply destroy_n_safe. intros q Hq. eapply vec_ok_live; [done|].
      pose proof (vec_ok_offset _ _ Hok). revert Hq. range_disjoint. }
    intros p w1 _. by apply guard_ret_bind, guard_set_size.
  - apply guard_bind_assoc.
    eapply guard_bind; [by apply Reserve_post|by apply Reserve_safe|done|].
    intros [] [v1 w1] (Hok1 & Hs1 & Hc1 & _). cbn [fst snd] in *.
    pose proof Hok1 as (Hraw1 & _)%vec_okP.
    pose proof (vec_ok_offset _ _ Hok1) as Hbuf1.
    assert (fits (capacity_ (data_ v1)) = true) as Hfit1.
    { unfold Capacity, RawMemory_Capacity in Hc1. rewrite Hc1. by apply fits_max. }
    pose proof (fits_slots _ _ Hraw1 Hfit1) as Hslots1.
    unfold Capacity, RawMemory_Capacity in Hc1.
    apply guard_bind_assoc, guard_this, guard_bind_assoc, guard_plus_bind; [lia|].
    apply guard_bind_assoc.
    eapply guard_world_bind; [apply uninitialized_value_construct_n_post| |done|].
    { apply uninitialized_value_construct_n_safe. intros q [Hqb Hqo].
      unfold ptr_add in Hqb, Hqo. cbn [base offset] in Hqb, Hqo.
      replace q with (buffer_ (data_ v1) +ₚ offset q)
        by (apply ptr_eq; unfold ptr_add; cbn [base offset]; [done|lia]).
      apply raw_view_slot; [done|]. lia. }
    intros p w2 _. by apply guard_ret_bind, guard_set_size.
Qed.

Lemma Vector_ctor_safe n w : fits n = true → safe (Vector_ctor n) w.
Proof.
  intros Hfit. apply (guard_safe _ _ (fun _ _ => True) (fun _ => True)).
  unfold Vector_ctor.
  eapply guard_bind; [apply RawMemory_ctor_post|apply RawMemory_ctor_safe|done|].
  intros data w1 Halloc.
  pose proof (allocated_raw_view _ _ _ _ Halloc) as Hraw1.
  eapply guard_guard_bind with (Qm := fun _ _ => True); [|done].
  apply guard_on_exception.
  eapply guard_intro with (Q := fun _ _ => True).
  - apply uninitialized_value_construct_n_safe. intros q [Hqb Hqo].
    destruct Halloc as [Hcap [(-> & Hb & ->)|(Hn & a & Hb & Hfresh & Hh1 & _)]].
    + cbn in Hqo. unfold GetAddress in Hqo. rewrite Hb in Hqo. cbn in Hqo. lia.
    + unfold GetAddress in *. rewrite Hb in Hqb, Hqo. cbn [base offset] in *.
      destruct q as [qb qo]. cbn [base offset] in *. subst qb.
      rewrite (fresh_block_slot w w1 a n qo) by (done || lia). done.
  - eapply post_conseq; [apply uninitialized_value_construct_n_post|done|].
    intros e w2 Ht. cbv beta in Ht.
    destruct (RawMemory_dtor_returns data w2) as [w3 Heq]; [|by exists w3].
    eapply raw_view_same_shape; [done|apply Ht].
Qed.

Lemma vec_ok_fits_size v w : vec_ok v w = true → fits (size_ v) = true.
Proof.
  intros (Hraw & Hsz & _)%vec_okP. apply N.ltb_lt.
  pose proof (slots_bytes _ _ Hraw). pose proof sizeof_pos.
  rewrite SIZE_MOD_val, PTRDIFF_MAX_val in *. nia.
Qed.

Lemma Vector_copy_ctor_safe other w :
  vec_ok other w = true → safe (Vector_copy_ctor other) w.
Proof.
  intros Hok. apply (guard_safe _ _ (fun _ _ => True) (fun _ => True)).
  pose proof Hok as (Hraw & _)%vec_okP.
  pose proof (vec_ok_fits_size _ _ Hok) as Hfit.
  unfold Vector_copy_ctor.
  eapply guard_bind; [apply RawMemory_ctor_post|apply RawMemory_ctor_safe|done|].
  intros data w1 Halloc.
  pose proof (allocated_raw_view _ _ _ _ Halloc) as Hraw1.
  eapply guard_guard_bind with (Qm := fun _ _ => True); [|done].
  apply guard_on_exception.
  eapply guard_intro with (Q := fun _ _ => True).
  - destruct Halloc as [Hcap [(Hz & Hb & ->)|(Hn & a & Hb & Hfresh & Hh1 & _)]].
    { unfold uninitialized_copy_n. rewrite Hz. done. }
    unfold GetAddress. apply uninitialized_copy_n_safe.
    + rewrite Hb. cbn. by eapply raw_view_base_ne.
    + intros q Hq. eapply fresh_block_live; [done|done|done|by eapply in_range_base|].
      by eapply vec_ok_live.
    + intros q [Hqb Hqo]. rewrite Hb in Hqb, Hqo. cbn [base offset] in *.
      destruct q as [qb qo]. cbn [base offset] in *. subst qb.
      rewrite (fresh_block_slot w w1 a (size_ other) qo) by (done || lia). done.
  - eapply post_conseq; [apply uninitialized_copy_n_post|done|].
    intros e w2 [Ht _].
    destruct (RawMemory_dtor_returns data w2) as [w3 Heq]; [|by exists w3].
    eapply raw_view_same_shape; [done|apply Ht].
Qed.

(** [~Vector()] returns, and what it leaves. *)
Lemma Vector_dtor_returns v w :
  vec_ok v w = true →
  ∃ w', Vector_dtor v w = Ok tt w' ∧
        heap w' = match base (buffer_ (data_ v)) with
                  | Some a => delete a (heap w)
                  | None => heap w
                  end ∧
        log w' = log w ++ replicate (N.to_nat (size_ v)) EvDestroy ++
                 match base (buffer_ (data_ v)) with
                 | Some _ => [EvFree]
                 | None => []
                 end.
Proof.
  intros Hok. pose proof Hok as (Hraw & _ & [l Hl])%vec_okP.
  assert (guard (Vector_dtor v) w
            (fun _ w' =>
               ∃ w1, touch (in_range (buffer_ (data_ v)) (N.to_nat (size_ v))) w w1 ∧
                     log w1 = log w ++ replicate (N.to_nat (size_ v)) EvDestroy ∧
                     released (data_ v) w1 w')
            (fun _ => False)) as Hg.
  { unfold Vector_dtor.
    eapply guard_bind; [apply destroy_n_post| |done|].
    { apply destroy_n_safe. intros q. by apply vec_ok_live. }
    intros p w1 (Ht1 & _ & _ & Hl1).
    eapply guard_intro.
    - apply RawMemory_dtor_safe. eapply raw_view_same_shape; [done|apply Ht1].
    - eapply post_conseq; [apply RawMemory_dtor_post| |done].
      intros [] w2 Hrel. by exists w1. }
  unfold guard in Hg. destruct (Vector_dtor v w) as [[] w'|e w'|]; [|done|done].
  destruct Hg as (w1 & Ht1 & Hl1 & Hrel). exists w'. split; [done|].
  destruct Hrel as [[Hb ->]|(a & Hb & _ & Hh & Hlog)]; rewrite Hb; cbn [base nullptr].
  - split; [|by rewrite Hl1, app_nil_r].
    apply map_eq. intros b. eapply touch_block; [exact Ht1|].
    intros q Hq%in_range_base. rewrite Hb in Hq. cbn in Hq. congruence.
  - split; [|by rewrite Hlog, Hl1, <- app_assoc].
    rewrite Hh. apply map_eq. intros b.
    destruct (decide (b = a)) as [->|Hne]; [by rewrite !lookup_delete_eq|].
    rewrite !lookup_delete_ne by done. eapply touch_block; [exact Ht1|].
    intros q Hq%in_range_base. rewrite Hb in Hq. cbn in Hq. congruence.
Qed.

(** ** Copy assignment *)

Lemma copy_loop_contents src n dst w l :
  (n ≠ 0%nat → base src ≠ base dst) → live_range (heap w) src n = Some l →
  post (copy_loop src n dst) w
    (fun _ w' => live_range (heap w') dst n = Some l ∧ quiet w w')
    (fun _ w' => quiet w w').
Proof.
  revert src dst w l. induction n as [|n IH]; intros src dst w l Hne Hl; cbn [copy_loop].
  - apply post_ret. cbn in Hl. injection Hl as <-. split; [done|apply quiet_refl].
  - apply live_range_S_inv in Hl as (x & l' & -> & Hx & Hl').
    assert (base src ≠ base dst) as Hb by (by apply Hne).
    eapply post_bind; [apply copy_assign_post| |].
    2:{ intros e w1 [_ Hlog]. by apply quiet_log_eq. }
    intros [] w1 (x' & Hx' & Hd & Hh & Hlog).
    assert (x' = x) as -> by congruence.
    assert (quiet w w1) as Hq1 by (by eapply quiet_log).
    eapply post_conseq;
      [eapply post_and; [apply (IH (src +ₚ 1) (dst +ₚ 1) w1 l')|apply copy_loop_post]| |].
    + intros _. done.
    + rewrite <- Hl'. apply live_range_ext. intros q Hq. rewrite Hh.
      apply peek_poke_ne. intros ->. apply in_range_base in Hq. cbn in Hq. congruence.
    + intros [] w' [[Hl2 Hq2] [Ht _]]. split; [|by eapply quiet_trans].
      apply live_range_S; [|done].
      destruct Ht as [_ ->]; [|apply not_in_range_self].
      rewrite Hh. apply peek_poke_eq. by apply is_live_is_Some.
    + intros e w' [Hq2 _]. by eapply quiet_trans.
Qed.

Lemma std_copy_contents first last d_first w l :
  (offset last ≠ offset first → base first ≠ base d_first) →
  live_range (heap w) first (N.to_nat (offset last - offset first)) = Some l →
  post (std_copy first last d_first) w
    (fun _ w' => live_range (heap w') d_first (N.to_nat (offset last - offset first))
                   = Some l ∧ quiet w w')
    (fun _ w' => quiet w w').
Proof.
  intros Hne Hl. unfold std_copy. apply post_ptr_diff_bind. intros _ Hle.
  eapply post_bind; [apply copy_loop_contents; [|done]| |done].
  - intros Hn. apply Hne. lia.
  - intros [] w' Hq. by apply post_ret.
Qed.

Lemma apart_base_ne (r v : Vector) w :
  vec_ok r w = true → size_ r ≠ 0 → apart r v →
  base (buffer_ (data_ r)) ≠ base (buffer_ (data_ v)).
Proof.
  intros (Hraw & _ & [l Hl])%vec_okP Hne Hap.
  destruct Hraw as [Hb _|a blk Hb _ _ _ _].
  - unfold contents in Hl. rewrite Hb in Hl. apply live_range_null in Hl. lia.
  - rewrite Hb. cbn. intros Heq. eapply Hap; [by rewrite Hb|done].
Qed.

(** Writes into the block of [v] leave a sequence with another block as it
    was. *)
Lemma touch_apart P (r v : Vector) w w' :
  vec_ok r w = true → apart r v →
  (∀ q, P q → base q = base (buffer_ (data_ v))) →
  touch P w w' →
  vec_ok r w' = true ∧ contents r w' = contents r w.
Proof.
  intros Hok Hap HP Ht.
  eapply (vec_ok_outside (fun b => base (buffer_ (data_ v)) = Some b)); [done| |].
  - eapply outside_touch; [|exact Ht]. intros q b Hq%HP Hb. congruence.
  - intros a Ha Hb. by eapply Hap.
Qed.

Lemma Vector_copy_assign_contents r v w :
  vec_ok v w = true → vec_ok r w = true → apart r v →
  post (Vector_copy_assign (Other r)) (v, w)
    (fun _ s' =>
       contents s'.1 s'.2 = contents r w ∧
       contents r s'.2 = contents r w ∧
       Capacity s'.1 = (if Capacity v <? size_ r then size_ r else Capacity v) ∧
       (size_ r <= Capacity v → data_ s'.1 = data_ v ∧ quiet w s'.2))
    (fun _ s' =>
       contents r s'.2 = contents r w ∧
       (Capacity v < size_ r → s'.1 = v ∧ heap s'.2 = heap w) ∧
       (size_ r <= Capacity v → s'.1 = v ∧ quiet w s'.2)).
Proof.
  intros Hok Hokr Hap.
  pose proof (vec_ok_offset _ _ Hok) as Hbuf0.
  pose proof (vec_ok_offset _ _ Hokr) as Hbufr0.
  pose proof Hokr as (_ & _ & [lr Hlr])%vec_okP.
  pose proof (live_range_length _ _ _ _ Hlr) as Hlenr.
  pose proof (vec_ok_size_le_capacity _ _ Hok) as Hsc.
  unfold Vector_copy_assign. apply post_this.
  unfold Capacity, RawMemory_Capacity in *.
  destruct (N.ltb_spec (capacity_ (data_ v)) (size_ r)) as [Hlt|Hge].
  - (* copy and swap *)
    apply post_bind_assoc.
    eapply post_world_bind; [by apply Vector_copy_ctor_post| |].
    2:{ intros e w1 Hh1. cbn. split; [unfold contents; by rewrite Hh1|].
        split; [done|]. intros ?. lia. }
    intros c w1 (Hokc & Hsc1 & Hcc & Hcontc & Hoc & Hfrc).
    assert (apart r c) as Hapc.
    { intros a Ha Hc. specialize (Hfrc _ Hc).
      apply vec_okP in Hokr as (Hrawr & _).
      eapply raw_view_base_ne in Hfrc; [|exact Hrawr]. done. }
    assert (apart v c) as Hapv.
    { intros a Ha Hc. specialize (Hfrc _ Hc).
      apply vec_okP in Hok as (Hrawv & _).
      eapply raw_view_base_ne in Hfrc; [|exact Hrawv]. done. }
    destruct (vec_ok_outside _ r w w1 Hokr Hoc) as [Hokr1 Hcr1].
    { intros a Ha Hc. by eapply Hapc. }
    apply post_bind_assoc.
    eapply post_bind with (Qm := fun o s => o = Other v ∧ s = (c, w1))
                          (Em := fun _ _ => False); [| |done].
    { unfold post. rewrite Vector_Swap_Other, !Vector_eta. done. }
    intros o s [-> ->].
    eapply post_world_bind; [apply Vector_dtor_post| |done].
    intros [] w2 Ho2. apply post_set_size_last. cbn [fst snd data_ size_].
    rewrite <- Hsc1.
    replace {| data_ := data_ c; size_ := size_ c |} with c by (by destruct c).
    destruct (vec_ok_outside _ c w1 w2 Hokc Ho2) as [_ Hcc2].
    { intros a Ha Hc. by eapply Hapv. }
    destruct (vec_ok_outside _ r w1 w2 Hokr1 Ho2) as [_ Hcr2].
    { intros a Ha Hc. by eapply Hap. }
    unfold Capacity, RawMemory_Capacity in Hcc.
    split; [congruence|]. split; [congruence|]. split; [lia|]. intros ?. lia.
  - (* element-wise *)
    set (buf := buffer_ (data_ v)) in *. set (rbuf := buffer_ (data_ r)) in *.
    pose proof Hok as (_ & _ & [l Hl])%vec_okP.
    set (m := N.min (size_ r) (size_ v)).
    apply post_bind_assoc, post_plus_bind. intros _. apply post_bind_assoc.
    unfold GetAddress. fold buf rbuf m.
    assert (offset (rbuf +ₚ m) - offset rbuf = m) as Hm
      by (unfold ptr_add; cbn [offset]; lia).
    assert (∀ P w1 w2, (∀ q, P q → base q = base buf) → touch P w1 w2 →
              vec_ok r w1 = true → vec_ok r w2 = true ∧ contents r w2 = contents r w1)
      as Hrhs.
    { intros P w1 w2 HP Ht Hok1. by eapply touch_apart. }
    assert (live_range (heap w) rbuf (N.to_nat m) = Some (take (N.to_nat m) lr)) as Hsrc.
    { apply (live_range_take _ _ (N.to_nat (size_ r))); [lia|done]. }
    eapply post_world_bind with
      (Qm := fun _ w1 =>
               vec_ok v w1 = true ∧ vec_ok r w1 = true ∧ contents r w1 = Some lr ∧
               quiet w w1 ∧ same_shape (heap w) (heap w1) ∧
               live_range (heap w1) buf (N.to_nat m) = Some (take (N.to_nat m) lr))
      (Em := fun _ w1 => contents r w1 = Some lr ∧ quiet w w1).
    { eapply post_conseq;
        [eapply post_and; [apply (std_copy_contents _ _ _ _ (take (N.to_nat m) lr))
                          |apply std_copy_post]| |].
      - intros Hne. apply (apart_base_ne r v w); [done| |done].
        intros Hz. apply Hne. unfold ptr_add, m. cbn [offset]. lia.
      - by rewrite Hm.
      - intros p1 w1 [[Hl1 Hq1] [[Hs1 Hk1] Ht1]]. cbv beta in *. rewrite Hm in Hl1, Ht1.
        destruct (Hrhs _ w w1 (fun q Hq => in_range_base _ _ _ Hq) Ht1 Hokr) as [Hokr1 Hcr1].
        split; [|split; [done|split; [congruence|done]]].
        eapply vec_ok_transfer; [done| |by intros q _; apply Hk1].
        intros a _. apply Hs1.
      - intros e w1 [Hq1 [_ Ht1]]. cbv beta in *. rewrite Hm in Ht1.
        destruct (Hrhs _ w w1 (fun q Hq => in_range_base _ _ _ Hq) Ht1 Hokr) as [_ Hcr1].
        split; [congruence|done]. }
    2:{ intros e w1 [Hcr1 Hq1]. cbn. split; [congruence|]. split; [intros ?; lia|done]. }
    intros p1 w1 (Hok1 & Hokr1 & Hcr1 & Hq1 & Hs1 & Hl1).
    destruct (N.ltb_spec (size_ r) (size_ v)) as [Hshrink|Hgrow].
    + assert (m = size_ r) as Hmr by (unfold m; lia). rewrite Hmr in Hl1.
      rewrite take_ge in Hl1 by lia.
      apply post_bind_assoc, post_plus_bind. intros _. fold buf.
      apply post_bind_assoc.
      eapply post_world_bind; [apply destroy_n_post| |done].
      intros p2 w2 (Ht2 & _ & _ & Hlog2). apply post_ret_bind, post_set_size_last.
      cbn [fst snd data_ size_].
      destruct (Hrhs (in_range (buf +ₚ size_ r) _) w1 w2
                  (fun q Hq => in_range_base _ _ _ Hq) Ht2 Hokr1) as [_ Hcr2].
      split; [|split; [congruence|split; [done|]]].
      * rewrite Hlr. unfold contents. cbn [data_ size_]. fold buf.
        rewrite (live_range_touch _ _ _ _ _ Ht2) by range_disjoint. done.
      * intros _. split; [done|]. eapply quiet_trans; [exact Hq1|].
        by eapply quiet_replicate.
    + assert (m = size_ v) as Hmv by (unfold m; lia). rewrite Hmv in Hl1.
      apply post_bind_assoc, post_plus_bind. intros _.
      apply post_bind_assoc, post_plus_bind. intros _. fold buf rbuf.
      apply post_bind_assoc.
      eapply post_world_bind; [apply uninitialized_copy_n_post| |].
      2:{ intros e w2 [Ht2 (j & _ & Hlog2)]. cbn.
          destruct (Hrhs (in_range (buf +ₚ size_ v) _) w1 w2
                  (fun q Hq => in_range_base _ _ _ Hq) Ht2 Hokr1) as [_ Hcr2].
          split; [congruence|]. split; [intros ?; lia|]. intros _. split; [done|].
          eapply quiet_trans; [exact Hq1|]. eapply quiet_log; [exact Hlog2|].
          rewrite allocs_app, !allocs_replicate by done. done. }
      intros p2 w2 (Ht2 & Hlog2 & _ & Hv2). apply post_ret_bind, post_set_size_last.
      cbn [fst snd data_ size_].
      destruct (Hrhs (in_range (buf +ₚ size_ v) _) w1 w2
                  (fun q Hq => in_range_base _ _ _ Hq) Ht2 Hokr1) as [_ Hcr2].
      split; [|split; [congruence|split; [done|]]].
      * rewrite Hlr. unfold contents. cbn [data_ size_]. fold buf.
        rewrite <- (take_drop (N.to_nat (size_ v)) lr).
        replace (N.to_nat (size_ r))
          with (N.to_nat (size_ v) + N.to_nat (size_ r - size_ v))%nat by lia.
        apply live_range_app.
        -- rewrite (live_range_touch _ _ _ _ _ Ht2) by range_disjoint. done.
        -- replace (N.of_nat (N.to_nat (size_ v))) with (size_ v) by lia.
           destruct (decide (size_ r = size_ v)) as [Heq|Hne].
           { rewrite Heq, N.sub_diag. cbn. rewrite drop_ge by lia. done. }
           destruct Hv2 as (l2 & Hl2a & Hl2b).
           { unfold ptr_add. cbn [base]. apply (apart_base_ne r v w); [done|lia|done]. }
           rewrite Hl2b, <- Hl2a.
           assert (N.to_nat (size_ v) ≤ N.to_nat (size_ r))%nat as Hle by lia.
           pose proof (live_range_drop _ _ _ _ _ Hle Hcr1) as Hd. fold rbuf in Hd.
           replace (N.of_nat (N.to_nat (size_ v))) with (size_ v) in Hd by lia.
           replace (N.to_nat (size_ r - size_ v))
             with (N.to_nat (size_ r) - N.to_nat (size_ v))%nat by lia.
           by rewrite Hd.
      * intros _. split; [done|]. eapply quiet_trans; [exact Hq1|].
        by eapply quiet_replicate.
Qed.

Lemma uninitialized_copy_n_safe_from src n dst w :
  (n ≠ 0 → base src ≠ base dst) →
  (∀ q, in_range src (N.to_nat n) q → is_live (heap w) q) →
  (∀ q, in_range dst (N.to_nat n) q → is_Some (peek (heap w) q)) →
  safe (uninitialized_copy_n src n dst) w.
Proof.
  intros Hne Hlive Hex. destruct (decide (n = 0)) as [->|Hn]; [done|].
  apply uninitialized_copy_n_safe; auto.
Qed.

Lemma Vector_copy_assign_safe r v w :
  vec_ok v w = true → vec_ok r w = true → apart r v → fits (Capacity v) = true →
  safe (Vector_copy_assign (Other r)) (v, w).
Proof.
  intros Hok Hokr Hap Hfit.
  apply (guard_safe _ _ (fun _ _ => True) (fun _ => True)).
  pose proof (vec_ok_offset _ _ Hok) as Hbuf0.
  pose proof (vec_ok_offset _ _ Hokr) as Hbufr0.
  pose proof Hok as (Hraw & _)%vec_okP.
  pose proof (vec_ok_size_le_capacity _ _ Hok) as Hsc.
  pose proof (vec_ok_size_le_capacity _ _ Hokr) as Hscr.
  unfold Vector_copy_assign. apply guard_this.
  unfold Capacity, RawMemory_Capacity in *.
  destruct (N.ltb_spec (capacity_ (data_ v)) (size_ r)) as [Hlt|Hge].
  - (* copy and swap *)
    apply guard_bind_assoc.
    eapply guard_world_bind;
      [by apply Vector_copy_ctor_post|by apply Vector_copy_ctor_safe|done|].
    intros c w1 (Hokc & _ & _ & _ & Hoc & Hfrc).
    assert (apart v c) as Hapv.
    { intros a Ha Hc. specialize (Hfrc _ Hc).
      eapply raw_view_base_ne in Hfrc; [|exact Hraw]. done. }
    destruct (vec_ok_outside _ v w w1 Hok Hoc) as [Hokv1 _].
    { intros a Ha Hc. by eapply Hapv. }
    apply guard_bind_assoc.
    eapply guard_guard_bind with (Qm := fun o s => o = Other v ∧ s = (c, w1)).
    { unfold guard. rewrite Vector_Swap_Other, !Vector_eta. done. }
    intros o s [-> ->].
    destruct (Vector_dtor_returns v w1 Hokv1) as (w2 & Heq & _).
    eapply guard_world_bind; [apply Vector_dtor_post| |done|].
    { unfold safe. by rewrite Heq. }
    intros [] w3 _. by apply guard_set_size.
  - (* element-wise *)
    set (buf := buffer_ (data_ v)) in *. set (rbuf := buffer_ (data_ r)) in *.
    set (m := N.min (size_ r) (size_ v)).
    assert (∀ q, in_range buf (N.to_nat (size_ v)) q → is_live (heap w) q) as Hlive
      by (intros q; by apply vec_ok_live).
    assert (∀ q, in_range rbuf (N.to_nat (size_ r)) q → is_live (heap w) q) as Hliver
      by (intros q; by apply vec_ok_live).
    apply guard_bind_assoc, guard_plus_bind; [lia|]. apply guard_bind_assoc.
    unfold GetAddress. fold buf rbuf m.
    assert (offset (rbuf +ₚ m) - offset rbuf = m) as Hm
      by (unfold ptr_add; cbn [offset]; lia).
    eapply guard_world_bind; [apply std_copy_post| |done|].
    { apply std_copy_safe; [done|unfold ptr_add; cbn [offset]; lia| |]; rewrite Hm.
      - intros q Hq. apply Hliver. revert Hq. apply in_range_mono. lia.
      - intros q Hq. apply Hlive. revert Hq. apply in_range_mono. lia. }
    intros p1 w1 [Hk1 _].
    destruct (N.ltb_spec (size_ r) (size_ v)) as [Hshrink|Hgrow].
    + apply guard_bind_assoc, guard_plus_bind; [lia|]. fold buf.
      apply guard_bind_assoc.
      eapply guard_world_bind; [apply destroy_n_post| |done|].
      { apply destroy_n_safe. intros q Hq. apply Hk1, Hlive. revert Hq. range_disjoint. }
      intros p2 w2 _. by apply guard_ret_bind, guard_set_size.
    + apply guard_bind_assoc, guard_plus_bind; [lia|].
      apply guard_bind_assoc, guard_plus_bind; [lia|]. fold buf rbuf.
      apply guard_bind_assoc.
      eapply guard_world_bind; [apply uninitialized_copy_n_post| |done|].
      { apply uninitialized_copy_n_safe_from.
        - intros Hn. unfold ptr_add. cbn [base].
          apply (apart_base_ne r v w); [done|lia|done].
        - intros q Hq. apply Hk1, Hliver. revert Hq. range_disjoint.
        - intros q [Hqb Hqo]. unfold ptr_add in Hqb, Hqo. cbn [base offset] in Hqb, Hqo.
          eapply same_shape_slot; [apply Hk1|].
          replace q with (buf +ₚ offset q)
            by (apply ptr_eq; unfold ptr_add; cbn [base offset]; [done|lia]).
          apply raw_view_slot; [done|]. rewrite (fits_slots _ _ Hraw Hfit). lia. }
      intros p2 w2 _. by apply guard_ret_bind, guard_set_size.
Qed.

End SafeMembers.

(** * Guarantees built on the absence of faults *)

Section Guarantees.
Context {T : Type} `{Element T}.
Implicit Types h : gmap addr (list (option T)).
Implicit Types p q : ptr.
Implicit Types v : Vector.
Implicit Types w : World T.
Implicit Types rm : RawMemory.

Lemma sound_iff v w : sound v w = true ↔ vec_ok v w = true ∧ fits (Capacity v) = true.
Proof. unfold sound. apply andb_true_iff. Qed.

Lemma within_iff pos v n :
  within pos v n = true ↔ base pos = base (buffer_ (data_ v)) ∧ offset pos <= n.
Proof.
  unfold within. rewrite andb_true_iff, bool_decide_eq_true, N.leb_le. done.
Qed.

Lemma fits_grow v w :
  sizeof < SIZE_MOD → vec_ok v w = true → size_ v = Capacity v →
  fits (if Capacity v =? 0 then 1 else 2 * Capacity v) = true.
Proof.
  intros Hsz_t (Hraw & Hsz & _)%vec_okP Hfull.
  unfold Capacity, RawMemory_Capacity in *.
  assert (capacity_ (data_ v) * sizeof <= PTRDIFF_MAX) as Hb
    by (eapply full_bytes; [done|lia]).
  apply N.ltb_lt. destruct (N.eqb_spec (capacity_ (data_ v)) 0); [lia|].
  rewrite SIZE_MOD_val, PTRDIFF_MAX_val in *. lia.
Qed.

Lemma fits_mono n m : n <= m → fits m = true → fits n = true.
Proof.
  intros Hle Hm%N.ltb_lt. apply N.ltb_lt. pose proof sizeof_pos. nia.
Qed.

(** ** What an insertion leaves when it throws *)

Lemma Emplace_unwind_post pos k x v w :
  vec_ok v w = true → fits (Capacity v) = true →
  post (Emplace pos k x) (v, w)
    (fun _ _ => True)
    (fun _ s' =>
       s'.1 = v ∧
       (size_ v ≠ Capacity v →
        heap s'.2 = heap w ∨
        offset pos < size_ v ∧ is_live (heap s'.2) (buffer_ (data_ v) +ₚ size_ v))).
Proof.
  intros Hok Hfit. pose proof (vec_ok_offset _ _ Hok) as Hbuf0.
  pose proof Hok as (Hraw & _)%vec_okP.
  unfold Emplace. apply post_begin_bind, post_end_bind. intros Hsc.
  apply post_ptr_le_bind. intros Hb1. apply post_ptr_le_bind. intros Hb2.
  apply post_assert_bind. intros [_ Hle%N.leb_le]%andb_true_iff.
  unfold ptr_add in Hle. cbn [offset] in Hle. rewrite Hbuf0 in Hle.
  apply post_this. destruct (N.eqb_spec (size_ v) (Capacity v)) as [Hfull|Hspare].
  - eapply post_conseq; [apply EmplaceWithRealloc_post; [done|done|lia]|done|].
    intros e [v' w'] (Hv' & _). cbn in *. done.
  - eapply post_conseq; [apply guard_post, EmplaceWithoutRealloc_guard|done|].
    + done.
    + rewrite (fits_slots _ _ Hraw Hfit). unfold Capacity, RawMemory_Capacity in Hspare. lia.
    + done.
    + lia.
    + intros e [v' w'] [Hv' Hh']. cbn in *. done.
Qed.

Lemma EmplaceBack_unwind_post k x v w :
  vec_ok v w = true → fits (Capacity v) = true →
  post (EmplaceBack k x) (v, w)
    (fun _ _ => True)
    (fun _ s' =>
       s'.1 = v ∧
       (size_ v < Capacity v ∨
        is_copy_constructible = true ∨ is_nothrow_move_constructible = true →
        heap s'.2 = heap w)).
Proof.
  intros Hok Hfit. pose proof (vec_ok_offset _ _ Hok) as Hbuf0.
  pose proof (vec_ok_size_le_capacity _ _ Hok) as Hsc.
  unfold EmplaceBack. apply post_cend_bind. intros _.
  eapply post_conseq;
    [exact (post_and _ _ _ _ _ _ (Emplace_post _ k x v w Hok)
                                 (Emplace_unwind_post _ k x v w Hok Hfit))|done|].
  intros e [v' w'] [(Hv' & _ & Hfull) (_ & Hspare)]. cbn [fst snd] in *.
  split; [done|]. intros Hcond.
  destruct (decide (size_ v = Capacity v)) as [Heq|Hne].
  - apply Hfull; [done|]. destruct Hcond as [?|?]; [lia|done].
  - destruct (Hspare Hne) as [?|[Hlt _]]; [done|].
    unfold ptr_add in Hlt. cbn [offset] in Hlt. lia.
Qed.

Lemma bind_ret_Raise {S A} (m : M S A) e s s' :
  (m ;;; ret tt) s = Raise e s' → m s = Raise e s'.
Proof.
  unfold bind, ret. destruct (m s) as [a s1|e1 s1|]; [done| |done].
  by intros [= -> ->].
Qed.

(** X12. Appending has the strong guarantee whenever there is spare
    capacity, and also on reallocation when the element type can be copied or
    moves without throwing: if [EmplaceBack] or [PushBack] throws, the
    sequence and the whole heap are as they were. *)
Theorem append_strong_guarantee v w :
  vec_ok v w = true → fits (Capacity v) = true →
  size_ v < Capacity v ∨
  is_copy_constructible = true ∨ is_nothrow_move_constructible = true →
  (∀ k x e v' w',
     EmplaceBack k x (v, w) = Raise e (v', w') → v' = v ∧ heap w' = heap w) ∧
  (∀ x e v' w',
     PushBack_copy x (v, w) = Raise e (v', w') → v' = v ∧ heap w' = heap w) ∧
  (∀ x e v' w',
     PushBack_move x (v, w) = Raise e (v', w') → v' = v ∧ heap w' = heap w).
Proof.
  intros Hok Hfit Hcond.
  assert (∀ k x e v' w',
    EmplaceBack k x (v, w) = Raise e (v', w') → v' = v ∧ heap w' = heap w) as Hmain.
  { intros k x e v' w' Heq.
    pose proof (post_Raise _ _ _ _ _ _ (EmplaceBack_unwind_post k x v w Hok Hfit) Heq)
      as [Hv Hh].
    cbn [fst snd] in *. split; [done|]. by apply Hh. }
  split; [done|]. split; intros x e v' w' Heq%bind_ret_Raise; by eapply Hmain.
Qed.

(** X13. An insertion before [end()] into spare capacity has only the basic
    guarantee, and it can lose an object: if it throws, the sequence keeps its
    size and storage, and either the heap is as it was, or the slot just past
    the last element holds a live object, outside the sequence, which no
    destructor call of the sequence will reach. *)
Theorem failed_insertion_leaves_object pos k x v w e v' w' :
  vec_ok v w = true → fits (Capacity v) = true → size_ v < Capacity v →
  Emplace pos k x (v, w) = Raise e (v', w') →
  v' = v ∧ vec_ok v w' = true ∧
  (heap w' = heap w ∨
   offset pos < size_ v ∧ is_live (heap w') (buffer_ (data_ v) +ₚ size_ v)).
Proof.
  intros Hok Hfit Hlt Heq.
  pose proof (post_Raise _ _ _ _ _ _ (Emplace_unwind_post pos k x v w Hok Hfit) Heq)
    as [Hv Hh].
  pose proof (post_Raise _ _ _ _ _ _ (Emplace_post pos k x v w Hok) Heq)
    as (_ & Hok' & _).
  cbn [fst snd] in *. split; [done|]. split; [done|]. apply Hh. lia.
Qed.

(** ** Copy assignment *)

(** X14. Copy assignment from another sequence makes the elements and the
    size those of the source and leaves the source as it was.  When the source
    fits into the capacity, storage and capacity are kept and nothing is
    allocated; otherwise the new capacity is exactly the size of the source.
    Assigning a sequence to itself does nothing. *)
Theorem copy_assignment_copies r v w :
  vec_ok v w = true → vec_ok r w = true → apart r v →
  (∀ v' w',
     Vector_copy_assign (Other r) (v, w) = Ok tt (v', w') →
     size_ v' = size_ r ∧
     contents v' w' = contents r w ∧
     contents r w' = contents r w ∧
     Capacity v' = (if Capacity v <? size_ r then size_ r else Capacity v) ∧
     (size_ r <= Capacity v →
      data_ v' = data_ v ∧ allocs (log w') = allocs (log w))) ∧
  Vector_copy_assign Self (v, w) = Ok tt (v, w).
Proof.
  intros Hok Hokr Hap. split; [|done]. intros v' w' Heq.
  pose proof (post_Ok _ _ _ _ _ _ (Vector_copy_assign_post r v w Hok Hokr Hap) Heq)
    as (_ & Hs & _).
  pose proof (post_Ok _ _ _ _ _ _ (Vector_copy_assign_contents r v w Hok Hokr Hap) Heq)
    as (Hc & Hcr & Hcap & Hkeep).
  cbn [fst snd] in *. done.
Qed.

(** X15. When copy assignment throws, the source is unchanged and the
    destination keeps its storage, size and capacity and is still
    well-formed.  If the source did not fit into the capacity (the
    copy-and-swap path), the heap is exactly as before: the strong
    guarantee. *)
Theorem copy_assignment_exceptions r v w e v' w' :
  vec_ok v w = true → vec_ok r w = true → apart r v →
  Vector_copy_assign (Other r) (v, w) = Raise e (v', w') →
  v' = v ∧ vec_ok v w' = true ∧
  contents r w' = contents r w ∧
  (Capacity v < size_ r → heap w' = heap w) ∧
  (size_ r <= Capacity v → allocs (log w') = allocs (log w)).
Proof.
  intros Hok Hokr Hap Heq.
  pose proof (post_Raise _ _ _ _ _ _ (Vector_copy_assign_post r v w Hok Hokr Hap) Heq)
    as (Hok' & _).
  pose proof (post_Raise _ _ _ _ _ _ (Vector_copy_assign_contents r v w Hok Hokr Hap) Heq)
    as (Hcr & Hbig & Hsmall).
  cbn [fst snd] in *.
  assert (v' = v) as ->.
  { destruct (N.lt_ge_cases (Capacity v) (size_ r)) as [Hlt|Hge];
      [by apply Hbig|by apply Hsmall]. }
  split; [done|]. split; [done|]. split; [done|]. split.
  - intros Hlt. by apply Hbig.
  - intros Hge. by apply Hsmall.
Qed.

(** ** Destruction *)

(** X16. The destructor of a well-formed sequence always returns: it
    destroys each of the elements once, frees the block if there is one, and
    leaves every other block untouched. *)
Theorem destructor_releases v w :
  vec_ok v w = true →
  ∃ w', Vector_dtor v w = Ok tt w' ∧
        heap w' = match base (buffer_ (data_ v)) with
                  | Some a => delete a (heap w)
                  | None => heap w
                  end ∧
        log w' = log w ++ replicate (N.to_nat (size_ v)) EvDestroy ++
                 match base (buffer_ (data_ v)) with
                 | Some _ => [EvFree]
                 | None => []
                 end.
Proof. apply Vector_dtor_returns. Qed.

Lemma fresh_then_deleted (w w1 w2 : World T) (b : option addr) :
  outside (fun a => b = Some a) w w1 →
  (∀ a, b = Some a → heap w !! a = None) →
  heap w2 = match b with Some a => delete a (heap w1) | None => heap w1 end →
  heap w2 = heap w.
Proof.
  intros Hout Hfr Hh. rewrite Hh. apply map_eq. intros c. destruct b as [a|].
  - destruct (decide (c = a)) as [->|Hne].
    + rewrite lookup_delete_eq. symmetry. by apply Hfr.
    + rewrite lookup_delete_ne by done. apply Hout. by intros [= ->].
  - by apply Hout.
Qed.

(** X17. Construction followed by destruction leaves no trace in the heap:
    a sequence made by [Vector(n)] or by the copy constructor and then
    destroyed leaves the heap as it was before the construction. *)
Theorem construct_destroy_roundtrip :
  (∀ n w v w1,
     Vector_ctor n w = Ok v w1 →
     ∃ w2, Vector_dtor v w1 = Ok tt w2 ∧ heap w2 = heap w) ∧
  (∀ other w v w1,
     vec_ok other w = true →
     Vector_copy_ctor other w = Ok v w1 →
     ∃ w2, Vector_dtor v w1 = Ok tt w2 ∧ heap w2 = heap w).
Proof.
  split.
  - intros n w v w1 Heq.
    pose proof (post_Ok _ _ _ _ _ _ (Vector_ctor_post n w) Heq)
      as (Hok & _ & _ & _ & Hout & Hfr).
    destruct (Vector_dtor_returns v w1 Hok) as (w2 & Hd & Hh & _).
    exists w2. split; [done|]. by eapply fresh_then_deleted.
  - intros other w v w1 Hoko Heq.
    pose proof (post_Ok _ _ _ _ _ _ (Vector_copy_ctor_post other w Hoko) Heq)
      as (Hok & _ & _ & _ & Hout & Hfr).
    destruct (Vector_dtor_returns v w1 Hok) as (w2 & Hd & Hh & _).
    exists w2. split; [done|]. by eapply fresh_then_deleted.
Qed.

(** ** Element access *)

(** X18. [operator[]] with an index below the size returns the address of
    the element at that index, which holds a live object, and changes
    nothing; with any other index its assertion fails.  [end()] is
    [begin() + size]. *)
Theorem element_access i v w l :
  vec_ok v w = true → contents v w = Some l →
  (i < size_ v →
   ∃ x, l !! N.to_nat i = Some x ∧
        Vector_at i (v, w) = Ok (buffer_ (data_ v) +ₚ i) (v, w) ∧
        peek (heap w) (buffer_ (data_ v) +ₚ i) = Some (Some x)) ∧
  (size_ v <= i → Vector_at i (v, w) = Fault) ∧
  begin (v, w) = Ok (buffer_ (data_ v)) (v, w) ∧
  end_ (v, w) = Ok (buffer_ (data_ v) +ₚ size_ v) (v, w).
Proof.
  intros Hok Hl. pose proof (vec_ok_size_le_capacity _ _ Hok) as Hsc.
  unfold Capacity, RawMemory_Capacity in Hsc.
  pose proof (live_range_length _ _ _ _ Hl) as Hlen.
  split; [|split; [|split]].
  - intros Hi. destruct (lookup_lt_is_Some_2 l (N.to_nat i)) as [x Hx]; [lia|].
    exists x. split; [done|]. split.
    + unfold Vector_at, bind, this, assert, RawMemory_at, ret. cbn [fst].
      rewrite (proj2 (N.ltb_lt _ _) Hi). cbv beta iota.
      by rewrite (proj2 (N.ltb_lt i (capacity_ (data_ v)))) by lia.
    + replace i with (N.of_nat (N.to_nat i)) at 1 by lia.
      by eapply live_range_lookup.
  - intros Hi. unfold Vector_at, bind, this, assert. cbn [fst].
    by rewrite (proj2 (N.ltb_ge _ _) Hi).
  - done.
  - unfold end_, bind, this, RawMemory_plus, assert, ret. cbn [fst].
    by rewrite (proj2 (N.leb_le _ _) Hsc).
Qed.

(** ** Raw storage *)

(** X19. [RawMemory(n)] asks the allocator for [n * sizeof(T)] bytes
    computed in [size_t].  For [n = 0] it calls no allocator and holds the
    null address.  Otherwise a success yields a fresh block of raw slots:
    exactly [n] of them when the byte count is representable, strictly fewer
    than [n] when the multiplication wrapped around, while the recorded
    capacity is [n] in both cases.  The only exception is [bad_alloc], and it
    leaves heap and log as they were. *)
Theorem raw_memory_allocation n w :
  RawMemory_ctor 0 w = Ok RawMemory_default w ∧
  (∀ rm w',
     RawMemory_ctor n w = Ok rm w' → n ≠ 0 →
     capacity_ rm = n ∧
     (∃ a, buffer_ rm = Ptr (Some a) 0 ∧ heap w !! a = None ∧
           heap w' = <[a := replicate (N.to_nat (slots rm w')) None]> (heap w)) ∧
     (fits n = true → slots rm w' = n) ∧
     (fits n = false → slots rm w' < n)) ∧
  (∀ e w',
     RawMemory_ctor n w = Raise e w' →
     e = bad_alloc ∧ heap w' = heap w ∧ log w' = log w).
Proof.
  split; [done|]. split.
  - intros rm w' Heq Hn.
    pose proof (post_Ok _ _ _ _ _ _ (RawMemory_ctor_post n w) Heq) as Halloc.
    pose proof (allocated_raw_view _ _ _ _ Halloc) as Hraw.
    destruct Halloc as [Hcap [(Hn0 & _)|(_ & a & Hb & Hfresh & Hh & _)]]; [done|].
    assert (slots rm w' = wrap (n * sizeof) / sizeof) as Hslots.
    { erewrite (slots_block rm w' a); [|done|rewrite Hh; apply lookup_insert_eq].
      rewrite length_replicate. lia. }
    split; [done|]. split; [|split].
    + exists a. by rewrite Hslots.
    + intros Hfit. by rewrite Hslots, fits_wrap.
    + intros Hfit%N.ltb_ge. rewrite Hslots.
      apply N.Div0.div_lt_upper_bound. rewrite (N.mul_comm sizeof n).
      eapply N.lt_le_trans; [|exact Hfit].
      apply N.mod_lt. by rewrite SIZE_MOD_val.
  - intros e w' Heq.
    pose proof (post_Raise _ _ _ _ _ _ (RawMemory_ctor_post n w) Heq) as [Hh Hl].
    split; [|done].
    unfold RawMemory_ctor, Allocate, bind, ret, operator_new in Heq.
    destruct (n =? 0); [done|]. destruct (_ || _); [|done]. by injection Heq as <- _.
Qed.

(** ** Calls with valid arguments *)

Lemma safe_then_ret {S A B} (m : M S A) (b : B) s : safe m s → safe (m ;;; ret b) s.
Proof. unfold safe, bind, ret. by destruct (m s). Qed.

Lemma EmplaceBack_safe k x v w :
  vec_ok v w = true → sizeof < SIZE_MOD → fits (Capacity v) = true →
  safe (EmplaceBack k x) (v, w).
Proof.
  intros Hok Hsz_t Hfit. pose proof (vec_ok_offset _ _ Hok) as Hbuf0.
  pose proof (vec_ok_size_le_capacity _ _ Hok) as Hsc.
  apply (guard_safe _ _ (fun _ _ => True) (fun _ => True)).
  unfold EmplaceBack. apply guard_cend_bind; [done|].
  eapply guard_intro.
  - apply Emplace_safe; try done. unfold ptr_add. cbn [offset]. lia.
  - eapply post_conseq; [by apply Emplace_post|done|done].
Qed.

Lemma Resize_capacity_post n v w :
  vec_ok v w = true →
  post (Resize n) (v, w)
    (fun _ _ => True)
    (fun _ s' => Capacity s'.1 = Capacity v ∨ Capacity s'.1 = N.max n (Capacity v)).
Proof.
  intros Hok. unfold Resize. apply post_this.
  destruct (N.ltb_spec n (size_ v)) as [Hlt|Hge].
  - apply post_bind_assoc, post_plus_bind. intros _. apply post_bind_assoc.
    eapply post_world_bind; [apply destroy_n_post| |done].
    intros p w1 _. by apply post_ret_bind, post_set_size_last.
  - apply post_bind_assoc.
    eapply post_bind; [by apply Reserve_post| |].
    2:{ intros e [v1 w1] (Hv1 & _). cbn in *. subst v1. by left. }
    intros [] [v1 w1] (_ & _ & Hc1 & _). cbn in Hc1.
    apply post_bind_assoc, post_this, post_bind_assoc, post_plus_bind. intros _.
    apply post_bind_assoc.
    eapply post_world_bind; [apply uninitialized_value_construct_n_post| |].
    2:{ intros e w2 _. cbn. by right. }
    intros p w2 _. by apply post_ret_bind, post_set_size_last.
Qed.

Lemma operand_valid_ok o v w : operand_valid o v w = true → operand_ok o v w = true.
Proof.
  destruct o as [|r]; [done|]. cbn.
  intros [[Hok _]%sound_iff Hap]%andb_true_iff. by rewrite Hok, Hap.
Qed.

Lemma method_valid_ok (m : method T) v w : method_valid m v w = true → method_ok m v w = true.
Proof. destruct m; cbn; try done; apply operand_valid_ok. Qed.

Lemma invoke_safe (m : method T) v w :
  sizeof < SIZE_MOD → sound v w = true → method_valid m v w = true →
  safe (invoke m) (v, w).
Proof.
  intros Hsz_t [Hok Hfit]%sound_iff Hm.
  pose proof (vec_ok_offset _ _ Hok) as Hbuf0.
  pose proof (vec_ok_size_le_capacity _ _ Hok) as Hsc.
  destruct m as [rhs|rhs|other|x|x|k x| |n|n|pos k x|pos x|pos x|pos];
    cbn [invoke method_valid] in *.
  - destruct rhs as [|r]; [done|]. cbn [operand_valid] in Hm.
    apply andb_true_iff in Hm as [[Hokr _]%sound_iff Hap%apartb_apart].
    by apply safe_then_ret, Vector_copy_assign_safe.
  - by destruct rhs.
  - by destruct other.
  - by apply safe_then_ret, safe_then_ret, EmplaceBack_safe.
  - by apply safe_then_ret, safe_then_ret, EmplaceBack_safe.
  - by apply safe_then_ret, EmplaceBack_safe.
  - apply negb_true_iff, N.eqb_neq in Hm. apply safe_then_ret, PopBack_safe; [done|done|].
    eapply vec_ok_live; [done|]. range_disjoint.
  - by apply safe_then_ret, Resize_safe.
  - by apply safe_then_ret, Reserve_safe.
  - apply within_iff in Hm as [Hb Ho]. by apply safe_then_ret, Emplace_safe.
  - apply within_iff in Hm as [Hb Ho]. by apply safe_then_ret, Emplace_safe.
  - apply within_iff in Hm as [Hb Ho]. by apply safe_then_ret, Emplace_safe.
  - apply andb_true_iff in Hm as [[Hb Ho]%within_iff Hne%negb_true_iff%N.eqb_neq].
    apply safe_then_ret, Erase_safe; [done|done|lia].
Qed.

Lemma invoke_capacity_post (m : method T) v w :
  sizeof < SIZE_MOD → sound v w = true → method_valid m v w = true →
  post (invoke m) (v, w)
    (fun o s' => fits (Capacity s'.1) = true ∧
                 match o with Other r => fits (Capacity r) = true | Self => True end)
    (fun _ s' => fits (Capacity s'.1) = true).
Proof.
  intros Hsz_t [Hok Hfit]%sound_iff Hm.
  assert (∀ pos k x,
    post (Emplace pos k x) (v, w)
      (fun _ s' => fits (Capacity s'.1) = true)
      (fun _ s' => fits (Capacity s'.1) = true)) as Hemplace.
  { intros pos k x. eapply post_conseq; [by apply Emplace_post| |].
    - intros r [v' w'] (_ & _ & _ & _ & Hc & _). cbn [fst] in *. rewrite Hc.
      destruct (N.eqb_spec (size_ v) (Capacity v)); [by eapply fits_grow|done].
    - intros e [v' w'] (-> & _). done. }
  assert (∀ k x,
    post (EmplaceBack k x) (v, w)
      (fun _ s' => fits (Capacity s'.1) = true)
      (fun _ s' => fits (Capacity s'.1) = true)) as Hback.
  { intros k x. unfold EmplaceBack. apply post_cend_bind. intros _. apply Hemplace. }
  assert (∀ A (m : M (Obj T) A),
    post m (v, w) (fun _ s' => fits (Capacity s'.1) = true)
                  (fun _ s' => fits (Capacity s'.1) = true) →
    post (m ;;; ret Self) (v, w)
      (fun (o : operand Vector) s' =>
         fits (Capacity s'.1) = true ∧
         match o with Other r => fits (Capacity r) = true | Self => True end)
      (fun _ s' => fits (Capacity s'.1) = true)) as Hself.
  { intros A m0 Hm0. eapply post_bind; [exact Hm0| |done].
    intros a s' Hs'. by apply post_ret. }
  destruct m as [rhs|rhs|other|x|x|k x| |n|n|pos k x|pos x|pos x|pos];
    cbn [invoke method_valid] in *.
  - destruct rhs as [|r]; [by apply post_ret|]. cbn [operand_valid] in Hm.
    apply andb_true_iff in Hm as [[Hokr Hfitr]%sound_iff Hap%apartb_apart].
    eapply post_bind; [by apply Vector_copy_assign_contents| |].
    + intros [] [v' w'] (_ & _ & Hc & _). apply post_ret. cbn [fst] in *.
      split; [|done]. rewrite Hc. destruct (Capacity v <? size_ r); [|done].
      by eapply vec_ok_fits_size.
    + intros e [v' w'] (_ & Hbig & Hsmall). cbn [fst snd] in *.
      destruct (N.lt_ge_cases (Capacity v) (size_ r)) as [Hlt|Hge].
      * by destruct (Hbig Hlt) as [-> _].
      * by destruct (Hsmall Hge) as [-> _].
  - destruct rhs as [|r]; [by apply post_ret|]. cbn [operand_valid Vector_move_assign] in *.
    apply andb_true_iff in Hm as [[Hokr Hfitr]%sound_iff _].
    unfold post. rewrite Vector_Swap_Other. cbn [fst snd]. done.
  - destruct other as [|r]; [by apply post_ret|]. cbn [operand_valid] in *.
    apply andb_true_iff in Hm as [[Hokr Hfitr]%sound_iff _].
    unfold post. rewrite Vector_Swap_Other. cbn [fst snd]. done.
  - apply Hself. unfold PushBack_copy.
    eapply post_bind; [apply Hback| |done]. intros r s' Hs. by apply post_ret.
  - apply Hself. unfold PushBack_move.
    eapply post_bind; [apply Hback| |done]. intros r s' Hs. by apply post_ret.
  - apply Hself, Hback.
  - apply Hself. eapply post_conseq; [apply PopBack_post| |done].
    intros [] [v' w'] (_ & -> & _). done.
  - apply Hself.
    eapply post_conseq;
      [exact (post_and _ _ _ _ _ _ (Resize_post n v w Hok) (Resize_capacity_post n v w Hok))| |].
    + intros [] [v' w'] [(_ & _ & Hc & _) _]. cbn [fst] in *. rewrite Hc.
      by apply fits_max.
    + intros e [v' w'] [_ [Hc|Hc]]; cbn [fst] in *; rewrite Hc; [done|by apply fits_max].
  - apply Hself. eapply post_conseq; [by apply Reserve_post| |].
    + intros [] [v' w'] (_ & _ & Hc & _). cbn [fst] in *. rewrite Hc. by apply fits_max.
    + intros e [v' w'] (-> & _). done.
  - apply Hself, Hemplace.
  - apply Hself, Hemplace.
  - apply Hself, Hemplace.
  - apply Hself. eapply post_conseq; [by apply Erase_post| |].
    + intros r [v' w'] (_ & _ & _ & _ & Hd & _). cbn [fst] in *.
      unfold Capacity. by rewrite Hd.
    + intros e [v' w'] (-> & _). done.
Qed.

(** X20. Memory safety of the member functions.  On a sequence that is
    well-formed and whose capacity has a representable byte count, a call with
    valid arguments never faults: no assertion fails, no raw slot is read,
    nothing outside a block is touched, nothing is freed twice.  The call
    returns or throws, and in both cases the sequence (and a sequence passed
    by reference) is again well-formed with a representable capacity, so that
    the next valid call is safe as well. *)
Theorem valid_calls_never_fault (m : method T) v w :
  sizeof < SIZE_MOD → sound v w = true → method_valid m v w = true →
  match invoke m (v, w) with
  | Ok o (v', w') =>
      sound v' w' = true ∧
      match o with Other r => sound r w' = true | Self => True end
  | Raise _ (v', w') => sound v' w' = true
  | Fault => False
  end.
Proof.
  intros Hsz_t Hs Hm.
  pose proof (invoke_safe m v w Hsz_t Hs Hm) as Hsafe.
  pose proof (invoke_capacity_post m v w Hsz_t Hs Hm) as Hcap.
  pose proof Hs as [Hok _]%sound_iff.
  pose proof (invoke_post m v w Hok (method_valid_ok _ _ _ Hm)) as Hinv.
  unfold safe, post in *.
  destruct (invoke m (v, w)) as [o [v' w']|e [v' w']|]; [| |done]; cbn [fst snd] in *.
  - destruct Hcap as [Hf Hfo], Hinv as [[Hok' _] Hio]. split.
    + apply sound_iff. done.
    + destruct o as [|r]; [done|]. apply sound_iff. split; [apply Hio|done].
  - apply sound_iff. split; [apply Hinv|done].
Qed.

(** X21. The constructors with valid arguments never fault, and what they
    return is well-formed with a representable capacity: [Vector()],
    [Vector(n)] when the byte count of [n] elements is representable, the copy
    constructor and the move constructor. *)
Theorem constructors_never_fault :
  (∀ w, sound Vector_default w = true) ∧
  (∀ n w, fits n = true →
     match Vector_ctor n w with
     | Ok v w' => sound v w' = true
     | Raise _ _ => True
     | Fault => False
     end) ∧
  (∀ other w, sound other w = true →
     match Vector_copy_ctor other w with
     | Ok v w' => sound v w' = true ∧ sound other w' = true
     | Raise _ w' => sound other w' = true
     | Fault => False
     end) ∧
  (∀ other w, sound other w = true →
     match Vector_move_ctor other w with
     | Ok (v, o) w' => sound v w' = true ∧ sound o w' = true
     | _ => False
     end).
Proof.
  split; [|split; [|split]].
  - intros w. apply sound_iff. split; [done|]. apply N.ltb_lt. by rewrite SIZE_MOD_val.
  - intros n w Hfit. pose proof (Vector_ctor_safe n w Hfit) as Hsafe.
    pose proof (Vector_ctor_post n w) as Hp. unfold safe, post in *.
    destruct (Vector_ctor n w) as [v w'|e w'|]; [|done|done].
    destruct Hp as (Hok & _ & Hc & _). apply sound_iff. by rewrite Hc.
  - intros other w [Hok Hfit]%sound_iff.
    pose proof (Vector_copy_ctor_safe other w Hok) as Hsafe.
    pose proof (Vector_copy_ctor_post other w Hok) as Hp. unfold safe, post in *.
    destruct (Vector_copy_ctor other w) as [v w'|e w'|]; [| |done].
    + destruct Hp as (Hokv & _ & Hc & _ & Hout & Hfr). split.
      * apply sound_iff. split; [done|]. rewrite Hc. by eapply vec_ok_fits_size.
      * apply sound_iff. split; [|done].
        eapply vec_ok_outside; [done|exact Hout|].
        intros a Ha Hb. specialize (Hfr _ Hb).
        apply vec_okP in Hok as (Hraw & _).
        eapply raw_view_base_ne in Hfr; [|exact Hraw]. done.
    + apply sound_iff. split; [|done]. by rewrite (vec_ok_heap_eq _ _ _ Hp).
  - intros other w Hs. unfold Vector_move_ctor. rewrite Vector_Swap_Other.
    cbn [fst snd]. rewrite Vector_eta. split; [done|].
    apply sound_iff. split; [done|]. apply N.ltb_lt. by rewrite SIZE_MOD_val.
Qed.

(** X22. The positions [Emplace] and [Erase] accept are exactly those their
    assertions describe: [Emplace] faults if and only if the position is
    outside [begin(), end()], and [Erase] if and only if it is outside
    [begin(), end()). *)
Theorem position_checks pos v w :
  sizeof < SIZE_MOD → sound v w = true →
  (∀ k x, Emplace pos k x (v, w) = Fault ↔ within pos v (size_ v) = false) ∧
  (Erase pos (v, w) = Fault ↔
   within pos v (size_ v) && negb (offset pos =? size_ v) = false).
Proof.
  intros Hsz_t [Hok Hfit]%sound_iff. split.
  - intros k x. split.
    + intros Hf. destruct (within pos v (size_ v)) eqn:Hw; [|done].
      apply within_iff in Hw as [Hb Ho].
      by pose proof (Emplace_safe pos k x v w Hok Hsz_t Hfit Hb Ho).
    + intros Hw. apply Emplace_invalid; [done|].
      intros Hv%within_iff. congruence.
  - split.
    + intros Hf.
      destruct (within pos v (size_ v) && negb (offset pos =? size_ v)) eqn:Hw; [|done].
      apply andb_true_iff in Hw as [[Hb Ho]%within_iff Hne%negb_true_iff%N.eqb_neq].
      assert (offset pos < size_ v) as Hlt by lia.
      by pose proof (Erase_safe pos v w Hok Hb Hlt).
    + intros Hw. apply Erase_invalid; [done|]. intros [Hb Hlt].
      assert (within pos v (size_ v) = true) as Hw1 by (apply within_iff; split; [done|lia]).
      assert (negb (offset pos =? size_ v) = true) as Hw2
        by (apply negb_true_iff, N.eqb_neq; lia).
      rewrite Hw1, Hw2 in Hw. done.
Qed.

End Guarantees.

(** * What a call does to the heap *)

Section Footprint.
Context {T : Type} `{Element T}.
Implicit Types h : gmap addr (list (option T)).
Implicit Types p q : ptr.
Implicit Types v : Vector.
Implicit Types w : World T.
Implicit Types rm : RawMemory.

Lemma inside_refl A w : inside A w w.
Proof. split; [apply outside_refl|apply same_shape_refl]. Qed.

Lemma inside_trans A w1 w2 w3 : inside A w1 w2 → inside A w2 w3 → inside A w1 w3.
Proof.
  intros [O1 S1] [O2 S2]. split; [by eapply outside_trans|by eapply same_shape_trans].
Qed.

Lemma inside_mono (A A' : addr → Prop) w w' :
  (∀ a, A a → A' a) → inside A w w' → inside A' w w'.
Proof. intros HA [O1 S1]. split; [by eapply outside_mono|done]. Qed.

Lemma inside_heap_eq A w w' : heap w' = heap w → inside A w w'.
Proof.
  intros Hh. split; [by apply outside_heap_eq|]. rewrite Hh. apply same_shape_refl.
Qed.

Lemma inside_touch (A : addr → Prop) P w w' :
  (∀ q b, P q → base q = Some b → A b) → touch P w w' → inside A w w'.
Proof. intros HP Ht. split; [by eapply outside_touch|apply Ht]. Qed.

Lemma inside_poke (A : addr → Prop) w w' p x :
  (∀ b, base p = Some b → A b) → heap w' = poke (heap w) p x → inside A w w'.
Proof.
  intros Hp Hh. eapply (inside_touch A (eq p)).
  - intros q b <-. apply Hp.
  - by eapply touch_poke.
Qed.

Lemma inside_poke2 (A : addr → Prop) w w' p x q y :
  (∀ b, base p = Some b → A b) → (∀ b, base q = Some b → A b) →
  heap w' = poke (poke (heap w) p x) q y → inside A w w'.
Proof.
  intros Hp Hq Hh.
  eapply inside_trans with (w2 := set_heap (poke (heap w) p x) w).
  - eapply inside_poke; [exact Hp|done].
  - eapply inside_poke; [exact Hq|done].
Qed.

Lemma inside_None A w w' b : inside A w w' → heap w !! b = None → heap w' !! b = None.
Proof.
  intros [_ Hs] Hb. specialize (Hs b). rewrite Hb in Hs.
  by destruct (heap w' !! b).
Qed.

Lemma blocks_ok_refl v w w' : heap w' = heap w → blocks_ok v v w w'.
Proof. intros Hh. split; intros b Hv Hv'; [by rewrite Hh|done]. Qed.

Lemma inside_blocks_ok v v' w w' :
  base (buffer_ (data_ v')) = base (buffer_ (data_ v)) →
  inside (own v) w w' → blocks_ok v v' w w'.
Proof.
  intros Hb [Ho _]. split.
  - intros b Hn _. by apply Ho.
  - intros b Hv Hv'. unfold own in *. congruence.
Qed.

Lemma own_base v q b : base q = base (buffer_ (data_ v)) → base q = Some b → own v b.
Proof. unfold own. congruence. Qed.

(** ** Loops that move within one array *)

Lemma move_loop_inside (A : addr → Prop) src n dst w :
  (∀ b, base src = Some b → A b) → (∀ b, base dst = Some b → A b) →
  post (move_loop src n dst) w (fun _ w' => inside A w w') (fun _ w' => inside A w w').
Proof.
  revert src dst w. induction n as [|n IH]; intros src dst w Hsrc Hdst; cbn [move_loop].
  - apply post_ret, inside_refl.
  - eapply post_bind; [apply move_assign_post| |].
    + intros [] w1 (x & _ & _ & Hh & _).
      assert (inside A w w1) as Hi1 by exact (inside_poke2 A w w1 _ _ _ _ Hdst Hsrc Hh).
      eapply post_conseq; [by apply IH| |]; intros ? w' Hi; by eapply inside_trans.
    + intros e w1 [Hh _]. by apply inside_heap_eq.
Qed.

Lemma std_move_inside (A : addr → Prop) first last d_first w :
  (∀ b, base first = Some b → A b) → (∀ b, base d_first = Some b → A b) →
  post (std_move first last d_first) w
    (fun _ w' => inside A w w') (fun _ w' => inside A w w').
Proof.
  intros Hsrc Hdst. unfold std_move. apply post_ptr_diff_bind. intros _ _.
  eapply post_bind; [by apply move_loop_inside| |done].
  intros [] w' Hi. by apply post_ret.
Qed.

Lemma move_backward_loop_inside (A : addr → Prop) n last d_last w :
  (∀ b, base last = Some b → A b) → (∀ b, base d_last = Some b → A b) →
  post (move_backward_loop n last d_last) w
    (fun _ w' => inside A w w') (fun _ w' => inside A w w').
Proof.
  revert last d_last w. induction n as [|n IH]; intros last d_last w Hsrc Hdst;
    cbn [move_backward_loop].
  - apply post_ret, inside_refl.
  - eapply post_bind; [apply move_assign_post| |].
    + intros [] w1 (x & _ & _ & Hh & _).
      assert (inside A w w1) as Hi1
        by exact (inside_poke2 A w w1 (ptr_pred d_last) _ (ptr_pred last) _ Hdst Hsrc Hh).
      eapply post_conseq; [by apply IH| |]; intros ? w' Hi; by eapply inside_trans.
    + intros e w1 [Hh _]. by apply inside_heap_eq.
Qed.

Lemma std_move_backward_inside (A : addr → Prop) first last d_last w :
  (∀ b, base last = Some b → A b) → (∀ b, base d_last = Some b → A b) →
  post (std_move_backward first last d_last) w
    (fun _ w' => inside A w w') (fun _ w' => inside A w w').
Proof.
  intros Hsrc Hdst. unfold std_move_backward. apply post_ptr_diff_bind. intros _ _.
  eapply post_bind; [by apply move_backward_loop_inside| |done].
  intros [] w' Hi. by apply post_ret.
Qed.

(** ** Members that stay in their block *)

Lemma PopBack_inside_post v w :
  post PopBack (v, w)
    (fun _ s' => data_ s'.1 = data_ v ∧ inside (own v) w s'.2)
    (fun _ _ => False).
Proof.
  eapply post_conseq; [apply PopBack_post| |done].
  intros [] [v' w'] (_ & -> & Ht). cbn [fst snd data_]. split; [done|].
  eapply inside_touch; [|exact Ht]. intros q b Hq%in_range_base. by apply own_base.
Qed.

Lemma EmplaceWithoutRealloc_inside_post pos k x v w :
  post (EmplaceWithoutRealloc pos k x) (v, w)
    (fun _ s' =>
       data_ s'.1 = data_ v ∧ inside (own v) w s'.2 ∧
       (pos = buffer_ (data_ v) +ₚ size_ v → log s'.2 = log w ++ [EvConstruct k]))
    (fun _ s' => s'.1 = v ∧ inside (own v) w s'.2).
Proof.
  set (buf := buffer_ (data_ v)).
  assert (∀ j b, base (buf +ₚ j) = Some b → own v b) as Hown by (intros j b Hb; exact Hb).
  unfold EmplaceWithoutRealloc. apply post_this, post_cbegin_bind, post_ptr_diff_bind.
  intros _ _. apply post_cend_bind. intros _. fold buf.
  destruct (bool_decide (pos = buf +ₚ size_ v)) eqn:Hend; cbv iota.
  - apply post_bind_assoc, post_plus_bind. intros _. fold buf.
    eapply post_world_bind; [apply construct_at_post| |].
    2:{ intros e w1 (Hh1 & _). cbn. split; [done|]. by apply inside_heap_eq. }
    intros [] w1 (_ & Hh1 & Hl1). apply post_set_size, post_plus. intros _.
    cbn [fst snd data_]. split; [done|]. split; [|done].
    eapply inside_poke; [|exact Hh1]. apply Hown.
  - apply bool_decide_eq_false in Hend. apply post_bind_assoc.
    eapply post_world_bind; [apply construct_local_post| |].
    2:{ intros e w1 (Hh1 & _). cbn. split; [done|]. by apply inside_heap_eq. }
    intros [] w1 (Hh1 & _). apply post_bind_assoc.
    assert (inside (own v) w w1) as Hi1 by (by apply inside_heap_eq).
    eapply post_bind with
      (Qm := fun _ s => s.1 = v ∧ inside (own v) w s.2)
      (Em := fun _ s => s.1 = v ∧ inside (own v) w s.2); [| |done].
    + eapply post_on_exception with
        (Qm := fun _ s => s.1 = v ∧ inside (own v) w s.2)
        (Em := fun _ s => s.1 = v ∧ inside (own v) w s.2); [|done|].
      2:{ intros e [v2 w2] [Hv Hi]. cbn in Hv, Hi. subst v2.
          eapply post_on_world, post_conseq; [apply destroy_local_post| |done].
          intros [] w3 (Hh3 & _). cbn. split; [done|].
          eapply inside_trans; [exact Hi|]. by apply inside_heap_eq. }
      apply post_plus_bind. intros _. apply post_at_bind. intros _. fold buf.
      eapply post_world_bind; [apply move_construct_post| |].
      2:{ intros e w2 (Hh2 & _). cbn. split; [done|].
          eapply inside_trans; [exact Hi1|]. by apply inside_heap_eq. }
      intros [] w2 (y & _ & _ & Hh2 & _).
      assert (inside (own v) w w2) as Hi2.
      { eapply inside_trans; [exact Hi1|]. eapply inside_poke2; [| |exact Hh2]; apply Hown. }
      do 3 (apply post_plus_bind; intros _). fold buf.
      eapply post_world_bind; [apply (std_move_backward_inside (own v))| |].
      { apply Hown. } { apply Hown. }
      2:{ intros e w3 Hi3. cbn. split; [done|]. by eapply inside_trans. }
      intros p3 w3 Hi3. apply post_at_bind. intros _. fold buf.
      eapply post_on_world, post_conseq; [apply assign_at_post| |].
      * intros [] w4 (_ & Hh4 & _). cbn. split; [done|].
        eapply inside_trans; [exact Hi2|]. eapply inside_trans; [exact Hi3|].
        eapply inside_poke; [|exact Hh4]. apply Hown.
      * intros e w4 (Hh4 & _). cbn. split; [done|].
        eapply inside_trans; [exact Hi2|]. eapply inside_trans; [exact Hi3|].
        by apply inside_heap_eq.
    + intros [] [v4 w4] [Hv Hi4]. cbn in Hv, Hi4. subst v4.
      eapply post_world_bind; [apply destroy_local_post| |done].
      intros [] w5 (Hh5 & _). apply post_set_size, post_plus. intros _.
      cbn [fst snd data_]. split; [done|]. split; [|done].
      eapply inside_trans; [exact Hi4|]. by apply inside_heap_eq.
Qed.

Lemma Erase_inside_post pos v w :
  post (Erase pos) (v, w)
    (fun _ s' => data_ s'.1 = data_ v ∧ inside (own v) w s'.2)
    (fun _ s' => s'.1 = v ∧ inside (own v) w s'.2).
Proof.
  set (buf := buffer_ (data_ v)).
  assert (∀ j b, base (buf +ₚ j) = Some b → own v b) as Hown by (intros j b Hb; exact Hb).
  unfold Erase. apply post_begin_bind, post_end_bind. intros _.
  apply post_ptr_le_bind. intros _. apply post_ptr_lt_bind. intros _.
  apply post_assert_bind. intros _.
  apply post_this, post_cbegin_bind, post_ptr_diff_bind. intros _ _.
  apply post_plus_bind. intros _. apply post_end_bind. intros _.
  apply post_plus_bind. intros _. fold buf.
  eapply post_world_bind; [apply (std_move_inside (own v))| |].
  { apply (Hown (offset pos - offset buf + 1)). } { apply Hown. }
  2:{ intros e w1 Hi1. cbn. done. }
  intros p1 w1 Hi1.
  eapply post_bind; [apply PopBack_inside_post| |done].
  intros [] [v2 w2] [Hd2 Hi2]. cbn [fst snd] in *. apply post_plus. intros _.
  cbn [fst snd]. split; [done|]. by eapply inside_trans.
Qed.

(** ** Members that reallocate *)

Lemma realloc_done v w w1 s w4 a blk new_data n' :
  heap w !! a = None → heap w1 = <[a := blk]> (heap w) →
  buffer_ new_data = Ptr (Some a) 0 →
  inside (fun b => b = a ∨ own v b) w1 s →
  released {| buffer_ := buffer_ (data_ v); capacity_ := capacity_ (data_ v) |} s w4 →
  blocks_ok v {| data_ := {| buffer_ := buffer_ new_data;
                             capacity_ := capacity_ new_data |};
                 size_ := n' |} w w4.
Proof.
  intros Hfresh Hh1 Hb [Ho _] Hrel. unfold blocks_ok, own. cbn [data_ buffer_].
  rewrite Hb. cbn [base]. split.
  - intros b Hnv Hnv'. assert (b ≠ a) as Hba by congruence.
    assert (heap s !! b = heap w !! b) as Hsb.
    { rewrite Ho by (intros [?|?]; done). rewrite Hh1. by apply lookup_insert_ne. }
    destruct Hrel as [[_ ->]|(o & Hbo & _ & -> & _)]; [done|].
    cbn [buffer_] in Hbo. rewrite lookup_delete_ne; [done|].
    intros ->. apply Hnv. by rewrite Hbo.
  - intros b Hv _.
    destruct Hrel as [[Hnull _]|(o & Hbo & _ & -> & _)]; cbn [buffer_] in *.
    + by rewrite Hnull in Hv.
    + rewrite Hbo in Hv. injection Hv as ->. apply lookup_delete_eq.
Qed.

Lemma realloc_undone v w w1 s w3 a blk new_data :
  heap w !! a = None → heap w1 = <[a := blk]> (heap w) →
  buffer_ new_data = Ptr (Some a) 0 →
  inside (fun b => b = a ∨ own v b) w1 s →
  released new_data s w3 →
  blocks_ok v v w w3.
Proof.
  intros Hfresh Hh1 Hb [Ho _] Hrel. split; [|done]. intros b Hnv _.
  destruct Hrel as [[Hnull _]|(o & Hbo & _ & -> & _)]; [by rewrite Hb in Hnull|].
  rewrite Hb in Hbo. injection Hbo as <-.
  destruct (decide (b = a)) as [->|Hba]; [by rewrite lookup_delete_eq|].
  rewrite lookup_delete_ne by done.
  rewrite Ho by (intros [?|?]; done). rewrite Hh1. by apply lookup_insert_ne.
Qed.

Lemma released_log rm (w w' : World T) :
  released rm w w' →
  log w' = log w ++ match base (buffer_ rm) with Some _ => [EvFree] | None => [] end.
Proof.
  intros [[-> ->]|(a & -> & _ & _ & ->)]; cbn; [by rewrite app_nil_r|done].
Qed.

Lemma relocation_inside (A : addr → Prop) src dst n w :
  (∀ b, base src = Some b → A b) → (∀ b, base dst = Some b → A b) →
  post (InitializeDataUsingOtherData src dst n) w
    (fun _ w' => inside A w w' ∧
                 log w' = log w ++ replicate (N.to_nat n) (EvConstruct relocation_kind))
    (fun _ w' => inside A w w').
Proof.
  intros Hsrc Hdst.
  assert (∀ w', touch (fun q => in_range dst (N.to_nat n) q ∨ in_range src (N.to_nat n) q)
                  w w' → inside A w w') as Hin.
  { intros w' Ht. eapply inside_touch; [|exact Ht].
    intros q b [Hq%in_range_base|Hq%in_range_base] Hb; [apply Hdst|apply Hsrc]; congruence. }
  eapply post_conseq; [apply InitializeDataUsingOtherData_post| |].
  - intros [] w' (Ht & Hl & _). split; [by apply Hin|done].
  - intros e w' (_ & _ & _ & Ht & _). by apply Hin.
Qed.

Lemma destroy_n_inside (A : addr → Prop) p n w :
  (∀ b, base p = Some b → A b) →
  post (destroy_n p n) w
    (fun _ w' => inside A w w' ∧ log w' = log w ++ replicate (N.to_nat n) EvDestroy)
    (fun _ _ => False).
Proof.
  intros Hp. eapply post_conseq; [apply destroy_n_post| |done].
  intros r w' (Ht & _ & _ & Hl). split; [|done].
  eapply inside_touch; [|exact Ht]. intros q b Hq%in_range_base Hb. apply Hp. congruence.
Qed.

Lemma Reserve_footprint_post n v w :
  vec_ok v w = true →
  post (Reserve n) (v, w)
    (fun _ s' =>
       blocks_ok v s'.1 w s'.2 ∧
       (Capacity v < n →
        log s'.2 = log w ++ EvAlloc (wrap (n * sizeof)) ::
                   replicate (N.to_nat (size_ v)) (EvConstruct relocation_kind) ++
                   replicate (N.to_nat (size_ v)) EvDestroy ++
                   match base (buffer_ (data_ v)) with Some _ => [EvFree] | None => [] end))
    (fun _ s' => blocks_ok v s'.1 w s'.2).
Proof.
  intros Hok. unfold Reserve. apply post_this. unfold Capacity.
  destruct (N.leb_spec n (RawMemory_Capacity (data_ v))) as [Hle|Hgt].
  { apply post_ret. cbn. split; [by apply blocks_ok_refl|]. intros ?. lia. }
  pose proof Hok as (Hraw & _)%vec_okP.
  eapply post_world_bind; [apply RawMemory_ctor_post| |].
  2:{ intros e w1 [Hh _]. cbn. by apply blocks_ok_refl. }
  intros new_data w1 Halloc.
  destruct Halloc as [Hcap [(Hn0 & _)|(Hn & a & Hb & Hfresh & Hh1 & Hbytes & Hl1)]].
  { unfold RawMemory_Capacity in Hgt. lia. }
  set (A := fun b => b = a ∨ own v b).
  assert (∀ b, base (buffer_ (data_ v)) = Some b → A b) as Hold by (intros b Hb'; by right).
  assert (∀ b, Some a = Some b → A b) as Hnew by (intros b [= <-]; by left).
  unfold GetAddress. rewrite Hb.
  eapply post_bind with
    (Qm := fun _ s => s.1 = v ∧ inside A w1 s.2 ∧
                      log s.2 = log w1 ++
                        replicate (N.to_nat (size_ v)) (EvConstruct relocation_kind) ++
                        replicate (N.to_nat (size_ v)) EvDestroy)
    (Em := fun _ s => blocks_ok v s.1 w s.2); [| |done].
  - eapply post_on_exception with
      (Qm := fun _ s => s.1 = v ∧ inside A w1 s.2 ∧
                        log s.2 = log w1 ++
                          replicate (N.to_nat (size_ v)) (EvConstruct relocation_kind) ++
                          replicate (N.to_nat (size_ v)) EvDestroy)
      (Em := fun _ s => s.1 = v ∧ inside A w1 s.2); [|done|].
    + eapply post_world_bind; [by apply (relocation_inside A)| |done].
      intros [] w2 [Hi2 Hl2].
      eapply post_on_world, post_conseq; [by apply (destroy_n_inside A)| |done].
      intros r w3 [Hi3 Hl3]. cbn. split; [done|].
      split; [by eapply inside_trans|]. by rewrite Hl3, Hl2, <- app_assoc.
    + intros e [v2 w2] [Hv Hi2]. cbn in Hv, Hi2. subst v2.
      eapply post_on_world, post_conseq; [apply RawMemory_dtor_post| |done].
      intros [] w3 Hrel. cbn. by eapply realloc_undone.
  - intros [] [v3 w3] (Hv & Hi3 & Hl3). cbn in Hv, Hi3, Hl3. subst v3.
    cbn [RawMemory_Swap]. apply post_set_data.
    eapply post_on_world, post_conseq; [apply RawMemory_dtor_post| |done].
    intros [] w4 Hrel. cbn [fst snd].
    split; [by eapply realloc_done|]. intros _.
    rewrite (released_log _ _ _ Hrel), Hl3, Hl1. cbn [buffer_].
    by rewrite <- !app_assoc.
Qed.

Lemma EmplaceWithRealloc_footprint_post pos k x v w :
  vec_ok v w = true → offset pos <= size_ v →
  post (EmplaceWithRealloc pos k x) (v, w)
    (fun _ s' =>
       blocks_ok v s'.1 w s'.2 ∧
       log s'.2 = log w ++
         EvAlloc (wrap ((if size_ v =? 0 then 1 else wrap (size_ v * 2)) * sizeof)) ::
         EvConstruct k ::
         replicate (N.to_nat (size_ v)) (EvConstruct relocation_kind) ++
         replicate (N.to_nat (size_ v)) EvDestroy ++
         match base (buffer_ (data_ v)) with Some _ => [EvFree] | None => [] end)
    (fun _ s' => blocks_ok v s'.1 w s'.2).
Proof.
  intros Hok Hpos.
  pose proof Hok as (Hraw & _)%vec_okP.
  assert (offset (buffer_ (data_ v)) = 0) as Hbuf0
    by (by destruct Hraw as [-> ?|? ? -> ? ? ? ?]).
  set (i := offset pos) in *.
  unfold EmplaceWithRealloc. apply post_this, post_cbegin_bind, post_ptr_diff_bind.
  intros Hbase _. rewrite Hbuf0, N.sub_0_r. fold i.
  set (ncap := if size_ v =? 0 then 1 else wrap (size_ v * 2)).
  eapply post_world_bind; [apply RawMemory_ctor_post| |].
  2:{ intros e w1 [Hh _]. cbn. by apply blocks_ok_refl. }
  intros new_data w1 Halloc.
  destruct Halloc as [Hcap [(Hn0 & Hnull & ->)|(Hn & a & Hb & Hfresh & Hh1 & Hbytes & Hl1)]].
  { exfalso. pose proof (vec_ok_size_bound _ _ Hok) as Hsz. subst ncap.
    destruct (N.eqb_spec (size_ v) 0); [done|].
    rewrite wrap_small in Hn0; [lia|]. rewrite SIZE_MOD_val, PTRDIFF_MAX_val in *. lia. }
  set (A := fun b => b = a ∨ own v b).
  assert (∀ b, base (buffer_ (data_ v)) = Some b → A b) as Hold by (intros b Hb'; by right).
  assert (∀ b, Some a = Some b → A b) as Hnew by (intros b [= <-]; by left).
  unfold GetAddress. rewrite Hb.
  set (tr := EvConstruct k ::
             replicate (N.to_nat (size_ v)) (EvConstruct relocation_kind) ++
             replicate (N.to_nat (size_ v)) EvDestroy).
  eapply post_bind with
    (Qm := fun _ s => s.1 = v ∧ inside A w1 s.2 ∧ log s.2 = log w1 ++ tr)
    (Em := fun _ s => blocks_ok v s.1 w s.2); [| |done].
  - eapply post_on_exception with
      (Qm := fun _ s => s.1 = v ∧ inside A w1 s.2 ∧ log s.2 = log w1 ++ tr)
      (Em := fun _ s => s.1 = v ∧ inside A w1 s.2); [|done|].
    2:{ intros e [v2 w2] [Hv Hi2]. cbn in Hv, Hi2. subst v2.
        eapply post_on_world, post_conseq; [apply RawMemory_dtor_post| |done].
        intros [] w3 Hrel. cbn. by eapply realloc_undone. }
    apply post_plus_bind. intros Hile. rewrite Hb.
    change ({| base := Some a; offset := 0 |} +ₚ i) with (Ptr (Some a) i).
    eapply post_world_bind; [apply construct_at_post| |].
    2:{ intros e w2 (Hh2 & _). cbn. split; [done|]. by apply inside_heap_eq. }
    intros [] w2 (Hs2 & Hh2 & Hl2).
    assert (inside A w1 w2) as Hi2 by (eapply inside_poke; [|exact Hh2]; exact Hnew).
    eapply post_world_on_exception_bind; [by apply (relocation_inside A)| |].
    2:{ intros e w3 Hi3.
        apply post_at_bind. intros _. rewrite Hb.
        change ({| base := Some a; offset := 0 |} +ₚ i) with (Ptr (Some a) i).
        eapply post_on_world, post_conseq; [apply destroy_at_post| |done].
        intros [] w3' (_ & Hh3' & _). cbn. split; [done|].
        eapply inside_trans; [exact Hi2|]. eapply inside_trans; [exact Hi3|].
        eapply inside_poke; [|exact Hh3']. exact Hnew. }
    intros [] w3 [Hi3 Hl3].
    apply post_plus_bind. intros _. apply post_plus_bind. intros _. rewrite Hb.
    change ({| base := Some a; offset := 0 |} +ₚ i +ₚ 1) with (Ptr (Some a) (i + 1)).
    eapply post_world_on_exception_bind; [by apply (relocation_inside A)| |].
    2:{ intros e w4 Hi4.
        eapply post_world_bind; [by apply (destroy_n_inside A)| |done].
        intros p w4' [Hi4' _]. apply post_ret. cbn. split; [done|].
        eapply inside_trans; [exact Hi2|]. eapply inside_trans; [exact Hi3|].
        exact (inside_trans _ _ _ _ Hi4 Hi4'). }
    intros [] w4 [Hi4 Hl4].
    eapply post_world_bind; [by apply (destroy_n_inside A)| |done].
    intros p w5 [Hi5 Hl5]. apply post_ret. cbn. split; [done|]. split.
    { eapply inside_trans; [exact Hi2|]. eapply inside_trans; [exact Hi3|].
      exact (inside_trans _ _ _ _ Hi4 Hi5). }
    rewrite Hl5, Hl4, Hl3, Hl2. unfold tr. rewrite <- !app_assoc. cbn.
    do 2 f_equal. rewrite !app_assoc. f_equal. rewrite <- replicate_add.
    f_equal. lia.
  - intros [] [v5 w5] (Hv & Hi5 & Hl5). cbn in Hv, Hi5, Hl5. subst v5.
    cbn [RawMemory_Swap]. apply post_set_data, post_set_size, post_plus_bind.
    cbn [buffer_ capacity_]. intros _.
    eapply post_world_bind; [apply RawMemory_dtor_post| |done].
    intros [] w6 Hrel. apply post_ret. cbn [fst snd].
    split; [by eapply realloc_done|].
    rewrite (released_log _ _ _ Hrel), Hl5, Hl1. cbn [buffer_]. unfold tr.
    rewrite <- !app_assoc. cbn. by rewrite <- !app_assoc.
Qed.

(** ** The remaining members *)

Lemma blocks_ok_data v v1 v2 w w' :
  data_ v2 = data_ v1 → blocks_ok v v1 w w' → blocks_ok v v2 w w'.
Proof. unfold blocks_ok, own. by intros ->. Qed.

Lemma blocks_ok_then_inside v v' w w1 w2 :
  blocks_ok v v' w w1 → inside (own v') w1 w2 → blocks_ok v v' w w2.
Proof.
  intros [B1 B2] [O _]. split; intros b Hv Hv'.
  - rewrite O by done. by apply B1.
  - rewrite O by done. by apply B2.
Qed.

Lemma Emplace_footprint_post pos k x v w :
  vec_ok v w = true →
  post (Emplace pos k x) (v, w)
    (fun _ s' =>
       blocks_ok v s'.1 w s'.2 ∧
       (size_ v = Capacity v →
        log s'.2 = log w ++
          EvAlloc (wrap ((if size_ v =? 0 then 1 else wrap (size_ v * 2)) * sizeof)) ::
          EvConstruct k ::
          replicate (N.to_nat (size_ v)) (EvConstruct relocation_kind) ++
          replicate (N.to_nat (size_ v)) EvDestroy ++
          match base (buffer_ (data_ v)) with Some _ => [EvFree] | None => [] end) ∧
       (size_ v ≠ Capacity v → pos = buffer_ (data_ v) +ₚ size_ v →
        log s'.2 = log w ++ [EvConstruct k]))
    (fun _ s' => blocks_ok v s'.1 w s'.2).
Proof.
  intros Hok. pose proof (vec_ok_offset _ _ Hok) as Hbuf0.
  unfold Emplace. apply post_begin_bind, post_end_bind. intros Hsc.
  apply post_ptr_le_bind. intros Hb1. apply post_ptr_le_bind. intros Hb2.
  apply post_assert_bind. intros [_ Hle%N.leb_le]%andb_true_iff.
  unfold ptr_add in Hle. cbn [offset] in Hle. rewrite Hbuf0 in Hle.
  apply post_this. destruct (N.eqb_spec (size_ v) (Capacity v)) as [Hfull|Hspare].
  - eapply post_conseq; [apply EmplaceWithRealloc_footprint_post; [done|lia]| |].
    + intros r [v' w'] [Hb Hl]. cbn [fst snd] in *. done.
    + done.
  - eapply post_conseq; [apply EmplaceWithoutRealloc_inside_post| |].
    + intros r [v' w'] (Hd & Hi & Hl). cbn [fst snd] in *.
      split; [apply inside_blocks_ok; [by rewrite Hd|done]|]. done.
    + intros e [v' w'] [Hv Hi]. cbn [fst snd] in *. subst v'. by apply inside_blocks_ok.
Qed.

Lemma Resize_footprint_post n v w :
  vec_ok v w = true →
  post (Resize n) (v, w)
    (fun _ s' => blocks_ok v s'.1 w s'.2) (fun _ s' => blocks_ok v s'.1 w s'.2).
Proof.
  intros Hok. unfold Resize. apply post_this.
  destruct (N.ltb_spec n (size_ v)) as [Hlt|Hge].
  - apply post_bind_assoc, post_plus_bind. intros _. apply post_bind_assoc.
    eapply post_world_bind; [apply (destroy_n_inside (own v))| |done].
    { intros b Hb. exact Hb. }
    intros p w1 [Hi1 _]. apply post_ret_bind, post_set_size_last.
    cbn [fst snd]. by apply inside_blocks_ok.
  - apply post_bind_assoc.
    eapply post_bind; [by apply Reserve_footprint_post| |].
    2:{ by intros e [v1 w1] Hb. }
    intros [] [v1 w1] [Hb1 _]. cbn [fst snd] in Hb1.
    apply post_bind_assoc, post_this, post_bind_assoc, post_plus_bind. intros _.
    apply post_bind_assoc.
    assert (∀ w2, touch (in_range (buffer_ (data_ v1) +ₚ size_ v1)
                           (N.to_nat (n - size_ v1))) w1 w2 →
                  blocks_ok v v1 w w2) as Hafter.
    { intros w2 Ht2. eapply blocks_ok_then_inside; [exact Hb1|].
      eapply inside_touch; [|exact Ht2]. intros q b Hq%in_range_base Hb.
      unfold own. rewrite <- Hb, Hq. done. }
    eapply post_world_bind; [apply uninitialized_value_construct_n_post| |].
    2:{ intros e w2 Ht2. cbn [fst snd]. by apply Hafter. }
    intros p w2 (Ht2 & _). apply post_ret_bind, post_set_size_last.
    cbn [fst snd]. apply (blocks_ok_data v v1); [done|]. by apply Hafter.
Qed.

Lemma Vector_dtor_footprint v w :
  post (Vector_dtor v) w
    (fun _ w' => (∀ b, own v b → heap w' !! b = None) ∧ outside (own v) w w')
    (fun _ _ => False).
Proof.
  unfold Vector_dtor.
  eapply post_bind; [apply (destroy_n_inside (own v))| |done].
  { intros b Hb. exact Hb. }
  intros p w1 [[O1 _] _].
  eapply post_conseq; [apply RawMemory_dtor_post| |done].
  intros [] w2 Hrel. unfold own. split.
  - intros b Hb. destruct Hrel as [[Hnull _]|(o & Hbo & _ & -> & _)].
    + by rewrite Hnull in Hb.
    + rewrite Hbo in Hb. injection Hb as ->. apply lookup_delete_eq.
  - intros b Hb. destruct Hrel as [[_ ->]|(o & Hbo & _ & -> & _)]; [by apply O1|].
    rewrite lookup_delete_ne; [by apply O1|]. intros ->. apply Hb. by rewrite Hbo.
Qed.

Lemma Vector_copy_assign_footprint_post r v w :
  vec_ok r w = true →
  post (Vector_copy_assign (Other r)) (v, w)
    (fun _ s' => blocks_ok v s'.1 w s'.2) (fun _ s' => blocks_ok v s'.1 w s'.2).
Proof.
  intros Hokr. unfold Vector_copy_assign. apply post_this.
  assert (∀ j b, base (buffer_ (data_ v) +ₚ j) = Some b → own v b) as Hown
    by (intros j b Hb; exact Hb).
  destruct (N.ltb_spec (RawMemory_Capacity (data_ v)) (size_ r)) as [Hlt|Hge].
  - apply post_bind_assoc.
    eapply post_world_bind; [by apply Vector_copy_ctor_post| |].
    2:{ intros e w1 Hh1. cbn. by apply blocks_ok_refl. }
    intros c w1 (_ & _ & _ & _ & Hoc & _).
    apply post_bind_assoc.
    eapply post_bind with (Qm := fun o s => o = Other v ∧ s = (c, w1))
                          (Em := fun _ _ => False); [| |done].
    { unfold post. rewrite Vector_Swap_Other, !Vector_eta. done. }
    intros o s [-> ->].
    eapply post_world_bind; [apply Vector_dtor_footprint| |done].
    intros [] w2 [Hnone Ho2]. apply post_set_size_last. cbn [fst snd].
    apply (blocks_ok_data v c); [done|]. split; intros b Hv Hc.
    + rewrite Ho2 by done. by apply Hoc.
    + by apply Hnone.
  - apply post_bind_assoc, post_plus_bind. intros _. apply post_bind_assoc.
    unfold GetAddress.
    eapply post_world_bind with
      (Qm := fun _ w1 => inside (own v) w w1)
      (Em := fun _ w1 => inside (own v) w w1);
      [| |intros e w1 Hi; by apply inside_blocks_ok].
    { eapply post_conseq; [apply std_copy_post| |]; intros ? w1 [_ Ht];
        (eapply inside_touch; [|exact Ht]);
        intros q b Hq%in_range_base Hb; unfold own; congruence. }
    intros p1 w1 Hi1.
    destruct (N.ltb_spec (size_ r) (size_ v)) as [Hshrink|Hgrow].
    + apply post_bind_assoc, post_plus_bind. intros _. apply post_bind_assoc.
      eapply post_world_bind; [apply (destroy_n_inside (own v))| |done].
      { apply Hown. }
      intros p2 w2 [Hi2 _]. apply post_ret_bind, post_set_size_last. cbn [fst snd].
      apply inside_blocks_ok; [done|]. by eapply inside_trans.
    + apply post_bind_assoc, post_plus_bind. intros _.
      apply post_bind_assoc, post_plus_bind. intros _.
      apply post_bind_assoc.
      assert (∀ w2, touch (in_range (buffer_ (data_ v) +ₚ size_ v)
                             (N.to_nat (size_ r - size_ v))) w1 w2 →
                    inside (own v) w w2) as Hafter.
      { intros w2 Ht2. eapply inside_trans; [exact Hi1|].
        eapply inside_touch; [|exact Ht2]. intros q b Hq%in_range_base Hb.
        unfold own. rewrite <- Hb, Hq. done. }
      eapply post_world_bind; [apply uninitialized_copy_n_post| |].
      2:{ intros e w2 [Ht2 _]. cbn [fst snd]. apply inside_blocks_ok; [done|].
          by apply Hafter. }
      intros p2 w2 (Ht2 & _). apply post_ret_bind, post_set_size_last. cbn [fst snd].
      apply inside_blocks_ok; [done|]. by apply Hafter.
Qed.

(** ** What a call does, event by event *)

Lemma move_loop_log src n dst w :
  post (move_loop src n dst) w
    (fun _ w' => log w' = log w ++ replicate n (EvAssign ByMove)) (fun _ _ => True).
Proof.
  revert src dst w. induction n as [|n IH]; intros src dst w; cbn [move_loop].
  - apply post_ret. by rewrite app_nil_r.
  - eapply post_bind; [apply move_assign_post| |done].
    intros [] w1 (x & _ & _ & _ & Hl).
    eapply post_conseq; [apply IH| |done]. intros ? w' Hl'. cbv beta in *.
    by rewrite Hl', Hl, <- app_assoc.
Qed.

Lemma move_backward_loop_log n last d_last w :
  post (move_backward_loop n last d_last) w
    (fun _ w' => log w' = log w ++ replicate n (EvAssign ByMove)) (fun _ _ => True).
Proof.
  revert last d_last w. induction n as [|n IH]; intros last d_last w;
    cbn [move_backward_loop].
  - apply post_ret. by rewrite app_nil_r.
  - eapply post_bind; [apply move_assign_post| |done].
    intros [] w1 (x & _ & _ & _ & Hl).
    eapply post_conseq; [apply IH| |done]. intros ? w' Hl'. cbv beta in *.
    by rewrite Hl', Hl, <- app_assoc.
Qed.

Lemma std_move_log first last d_first w :
  post (std_move first last d_first) w
    (fun _ w' => log w' = log w ++
                 replicate (N.to_nat (offset last - offset first)) (EvAssign ByMove))
    (fun _ _ => True).
Proof.
  unfold std_move. apply post_ptr_diff_bind. intros _ _.
  eapply post_bind; [apply move_loop_log| |done].
  intros [] w' Hl. by apply post_ret.
Qed.

Lemma std_move_backward_log first last d_last w :
  post (std_move_backward first last d_last) w
    (fun _ w' => log w' = log w ++
                 replicate (N.to_nat (offset last - offset first)) (EvAssign ByMove))
    (fun _ _ => True).
Proof.
  unfold std_move_backward. apply post_ptr_diff_bind. intros _ _.
  eapply post_bind; [apply move_backward_loop_log| |done].
  intros [] w' Hl. by apply post_ret.
Qed.

Lemma PopBack_log_post v w :
  post PopBack (v, w) (fun _ s' => log s'.2 = log w ++ [EvDestroy]) (fun _ _ => False).
Proof.
  unfold PopBack. apply post_this, post_assert_bind. intros _.
  apply post_at_bind. intros _.
  eapply post_world_bind; [apply destroy_at_post| |done].
  intros [] w1 (_ & _ & Hl). by apply post_set_size, post_ret.
Qed.

Lemma EmplaceWithoutRealloc_log_post pos k x v w :
  offset (buffer_ (data_ v)) = 0 →
  post (EmplaceWithoutRealloc pos k x) (v, w)
    (fun _ s' =>
       log s'.2 = log w ++
         if offset pos =? size_ v then [EvConstruct k]
         else EvConstruct k :: EvConstruct ByMove ::
              replicate (N.to_nat (size_ v - 1 - offset pos)) (EvAssign ByMove) ++
              [EvAssign ByMove; EvDestroy])
    (fun _ _ => True).
Proof.
  intros Hbuf0. set (buf := buffer_ (data_ v)) in *.
  unfold EmplaceWithoutRealloc. apply post_this, post_cbegin_bind, post_ptr_diff_bind.
  intros Hbase _. apply post_cend_bind. intros _. fold buf.
  rewrite Hbuf0, N.sub_0_r.
  assert (bool_decide (pos = buf +ₚ size_ v) = (offset pos =? size_ v)) as ->.
  { destruct pos as [pb po]. unfold ptr_add. cbn [base offset] in *. rewrite Hbuf0.
    destruct (N.eqb_spec po (size_ v)) as [->|Hne].
    - apply bool_decide_eq_true. by rewrite Hbase.
    - apply bool_decide_eq_false. intros [= _ ?]. lia. }
  destruct (offset pos =? size_ v) eqn:Hend; cbv iota.
  - apply post_bind_assoc, post_plus_bind. intros _.
    eapply post_world_bind; [apply construct_at_post| |done].
    intros [] w1 (_ & _ & Hl1). apply post_set_size, post_plus. intros _. done.
  - apply post_bind_assoc.
    eapply post_world_bind; [apply construct_local_post| |done].
    intros [] w1 (_ & Hl1). apply post_bind_assoc.
    eapply post_bind with
      (Qm := fun _ s => log s.2 = log w1 ++ EvConstruct ByMove ::
                          replicate (N.to_nat (size_ v - 1 - offset pos)) (EvAssign ByMove) ++
                          [EvAssign ByMove])
      (Em := fun _ _ => True); [| |done].
    + eapply post_on_exception with
        (Qm := fun _ s => log s.2 = log w1 ++ EvConstruct ByMove ::
                            replicate (N.to_nat (size_ v - 1 - offset pos)) (EvAssign ByMove) ++
                            [EvAssign ByMove])
        (Em := fun _ _ => True); [|done|].
      2:{ intros e s1 _. unfold post. by destruct (on_world destroy_local s1). }
      apply post_plus_bind. intros _. apply post_at_bind. intros _. fold buf.
      eapply post_world_bind; [apply move_construct_post| |done].
      intros [] w2 (y & _ & _ & _ & Hl2).
      do 3 (apply post_plus_bind; intros _). fold buf.
      eapply post_world_bind; [apply std_move_backward_log| |done].
      intros p3 w3 Hl3. apply post_at_bind. intros _.
      eapply post_on_world, post_conseq; [apply assign_at_post| |done].
      intros [] w4 (_ & _ & Hl4). cbn [fst snd]. rewrite Hl4, Hl3, Hl2, <- !app_assoc.
      unfold ptr_add. cbn [offset]. rewrite Hbuf0. cbn [app].
      by rewrite !N.add_0_l.
    + intros [] [v4 w4] Hl4. cbn [fst snd] in Hl4.
      eapply post_world_bind; [apply destroy_local_post| |done].
      intros [] w5 (_ & Hl5). apply post_set_size, post_plus. intros _.
      cbn [fst snd]. rewrite Hl5, Hl4, Hl1, <- !app_assoc. cbn.
      by rewrite <- !app_assoc.
Qed.

Lemma Erase_log_post pos v w :
  offset (buffer_ (data_ v)) = 0 →
  post (Erase pos) (v, w)
    (fun _ s' =>
       log s'.2 = log w ++
         replicate (N.to_nat (size_ v - 1 - offset pos)) (EvAssign ByMove) ++ [EvDestroy])
    (fun _ _ => True).
Proof.
  intros Hbuf0. set (buf := buffer_ (data_ v)) in *.
  unfold Erase. apply post_begin_bind, post_end_bind. intros _.
  apply post_ptr_le_bind. intros _. apply post_ptr_lt_bind. intros _.
  apply post_assert_bind. intros _.
  apply post_this, post_cbegin_bind, post_ptr_diff_bind. intros _ _.
  apply post_plus_bind. intros _. apply post_end_bind. intros _.
  apply post_plus_bind. intros _. fold buf.
  eapply post_world_bind; [apply std_move_log| |done].
  intros p1 w1 Hl1.
  eapply post_bind; [apply PopBack_log_post| |done].
  intros [] [v2 w2] Hl2. cbn [fst snd] in *. apply post_plus. intros _.
  cbn [fst snd]. rewrite Hl2, Hl1, <- app_assoc.
  unfold ptr_add. cbn [offset]. rewrite Hbuf0, N.sub_0_r, !N.add_0_l.
  do 3 f_equal. lia.
Qed.

Lemma self_footprint_post {A} (m : M (Obj T) A) v w :
  post m (v, w)
    (fun _ s' => blocks_ok v s'.1 w s'.2) (fun _ s' => blocks_ok v s'.1 w s'.2) →
  post (m ;;; ret Self) (v, w)
    (fun (_ : operand Vector) s' => blocks_ok v s'.1 w s'.2)
    (fun _ s' => blocks_ok v s'.1 w s'.2).
Proof.
  intros Hm. eapply post_bind; [exact Hm| |done]. intros a s' Hb. by apply post_ret.
Qed.

Lemma unchanged_footprint_post {A} (m : M (Obj T) A) v w :
  post m (v, w)
    (fun _ s' => data_ s'.1 = data_ v ∧ inside (own v) w s'.2)
    (fun _ s' => s'.1 = v ∧ inside (own v) w s'.2) →
  post m (v, w)
    (fun _ s' => blocks_ok v s'.1 w s'.2) (fun _ s' => blocks_ok v s'.1 w s'.2).
Proof.
  intros Hm. eapply post_conseq; [exact Hm| |].
  - intros a [v' w'] [Hd Hi]. cbn [fst snd] in *. apply inside_blocks_ok; [by rewrite Hd|done].
  - intros e [v' w'] [Hv Hi]. cbn [fst snd] in *. subst v'. by apply inside_blocks_ok.
Qed.

Lemma invoke_footprint_post (m : method T) v w :
  vec_ok v w = true → method_ok m v w = true →
  post (invoke m) (v, w)
    (fun _ s' =>
       match m with
       | MMoveAssign _ | MSwap _ => heap s'.2 = heap w
       | _ => blocks_ok v s'.1 w s'.2
       end)
    (fun _ s' => blocks_ok v s'.1 w s'.2).
Proof.
  intros Hok Hm.
  assert (∀ pos k x,
    post (Emplace pos k x) (v, w)
      (fun _ s' => blocks_ok v s'.1 w s'.2) (fun _ s' => blocks_ok v s'.1 w s'.2))
    as Hemplace.
  { intros pos k x. eapply post_conseq; [by apply Emplace_footprint_post| |done].
    by intros r s' [Hb _]. }
  assert (∀ k x,
    post (EmplaceBack k x) (v, w)
      (fun _ s' => blocks_ok v s'.1 w s'.2) (fun _ s' => blocks_ok v s'.1 w s'.2))
    as Hback.
  { intros k x. unfold EmplaceBack. apply post_cend_bind. intros _. apply Hemplace. }
  destruct m as [rhs|rhs|other|x|x|k x| |n|n|pos k x|pos x|pos x|pos];
    cbn [invoke method_ok] in *.
  - destruct rhs as [|r]; cbn [operand_ok] in Hm.
    { apply post_ret. by apply blocks_ok_refl. }
    apply andb_true_iff in Hm as [Hokr _].
    eapply post_bind; [by apply Vector_copy_assign_footprint_post| |done].
    intros a s' Hb. by apply post_ret.
  - destruct rhs as [|r]; cbn [Vector_move_assign]; [by apply post_ret|].
    unfold post. by rewrite Vector_Swap_Other.
  - destruct other as [|r]; [by apply post_ret|].
    unfold post. by rewrite Vector_Swap_Other.
  - apply self_footprint_post. unfold PushBack_copy.
    eapply post_bind; [apply Hback| |done]. intros r s' Hs. by apply post_ret.
  - apply self_footprint_post. unfold PushBack_move.
    eapply post_bind; [apply Hback| |done]. intros r s' Hs. by apply post_ret.
  - apply self_footprint_post, Hback.
  - apply self_footprint_post, unchanged_footprint_post.
    eapply post_conseq; [apply PopBack_inside_post| |done]. done.
  - apply self_footprint_post. by apply Resize_footprint_post.
  - apply self_footprint_post.
    eapply post_conseq; [by apply Reserve_footprint_post| |done]. by intros r s' [Hb _].
  - apply self_footprint_post, Hemplace.
  - apply self_footprint_post, Hemplace.
  - apply self_footprint_post, Hemplace.
  - apply self_footprint_post, unchanged_footprint_post, Erase_inside_post.
Qed.

(** X23. A call of a member function writes to no block other than the one
    the sequence owns before or after the call, and leaves no block behind:
    whether it returns or throws, every block owned by the sequence neither
    before nor after the call is as it was, and a block the sequence owned
    and no longer owns has been freed.  Swap and move-assignment, which hand
    the block to the other sequence instead, leave the whole heap as it
    was. *)
Theorem calls_keep_to_their_block (m : method T) v w :
  vec_ok v w = true → method_ok m v w = true →
  match invoke m (v, w) with
  | Ok _ (v', w') =>
      match m with
      | MMoveAssign _ | MSwap _ => heap w' = heap w
      | _ =>
          (∀ b, ¬ own v b → ¬ own v' b → heap w' !! b = heap w !! b) ∧
          (∀ b, own v b → ¬ own v' b → heap w' !! b = None)
      end
  | Raise _ (v', w') =>
      (∀ b, ¬ own v b → ¬ own v' b → heap w' !! b = heap w !! b) ∧
      (∀ b, own v b → ¬ own v' b → heap w' !! b = None)
  | Fault => True
  end.
Proof.
  intros Hok Hm. pose proof (invoke_footprint_post m v w Hok Hm) as Hp.
  unfold post in Hp.
  destruct (invoke m (v, w)) as [o [v' w']|e [v' w']|]; [| |done]; cbn [fst snd] in Hp.
  - by destruct m.
  - done.
Qed.

(** X24. What [Reserve(n)] does when it returns: nothing if [n] is at most
    the capacity; otherwise one allocation of [n * sizeof(T)] bytes, one
    relocating construction per element (a move or a copy, by the choice of
    [InitializeDataUsingOtherData]), one destruction per element, and the
    release of the old block if there was one, in this order. *)
Theorem reserve_trace n v w v' w' :
  vec_ok v w = true →
  Reserve n (v, w) = Ok tt (v', w') →
  log w' = log w ++
    if n <=? Capacity v then []
    else EvAlloc (wrap (n * sizeof)) ::
         replicate (N.to_nat (size_ v)) (EvConstruct relocation_kind) ++
         replicate (N.to_nat (size_ v)) EvDestroy ++
         match base (buffer_ (data_ v)) with Some _ => [EvFree] | None => [] end.
Proof.
  intros Hok Heq. destruct (N.leb_spec n (Capacity v)) as [Hle|Hgt].
  - rewrite Reserve_noop in Heq by done. injection Heq as _ <-. by rewrite app_nil_r.
  - pose proof (Reserve_footprint_post n v w Hok) as Hp. unfold post in Hp.
    rewrite Heq in Hp. cbn [fst snd] in Hp. by apply Hp.
Qed.

(** X25. What an insertion does when it returns.  On a full sequence: one
    allocation of twice the size (of one element if the sequence is empty),
    the construction of the new element, one relocating construction and one
    destruction per old element, and the release of the old block.  With
    spare capacity, at the end: the construction of the new element and
    nothing else.  With spare capacity, before the end: the construction of
    a temporary, the move-construction of the last element into the free
    slot, one move-assignment per element from the position up to the last
    but one, the move-assignment of the temporary, and its destruction. *)
Theorem insertion_trace pos k x v w r v' w' :
  vec_ok v w = true →
  Emplace pos k x (v, w) = Ok r (v', w') →
  log w' = log w ++
    if size_ v =? Capacity v then
      EvAlloc (wrap ((if size_ v =? 0 then 1 else wrap (size_ v * 2)) * sizeof)) ::
      EvConstruct k ::
      replicate (N.to_nat (size_ v)) (EvConstruct relocation_kind) ++
      replicate (N.to_nat (size_ v)) EvDestroy ++
      match base (buffer_ (data_ v)) with Some _ => [EvFree] | None => [] end
    else if offset pos =? size_ v then [EvConstruct k]
    else EvConstruct k :: EvConstruct ByMove ::
         replicate (N.to_nat (size_ v - 1 - offset pos)) (EvAssign ByMove) ++
         [EvAssign ByMove; EvDestroy].
Proof.
  intros Hok Heq. pose proof (vec_ok_offset _ _ Hok) as Hbuf0.
  destruct (N.eqb_spec (size_ v) (Capacity v)) as [Hfull|Hspare].
  - pose proof (Emplace_footprint_post pos k x v w Hok) as Hp. unfold post in Hp.
    rewrite Heq in Hp. cbn [fst snd] in Hp. by apply Hp.
  - assert (post (Emplace pos k x) (v, w)
              (fun _ s' => log s'.2 = log w ++
                 if offset pos =? size_ v then [EvConstruct k]
                 else EvConstruct k :: EvConstruct ByMove ::
                      replicate (N.to_nat (size_ v - 1 - offset pos)) (EvAssign ByMove) ++
                      [EvAssign ByMove; EvDestroy])
              (fun _ _ => True)) as Hp.
    { unfold Emplace. apply post_begin_bind, post_end_bind. intros _.
      apply post_ptr_le_bind. intros _. apply post_ptr_le_bind. intros _.
      apply post_assert_bind. intros _. apply post_this.
      destruct (N.eqb_spec (size_ v) (Capacity v)) as [?|_]; [done|].
      by apply EmplaceWithoutRealloc_log_post. }
    unfold post in Hp. by rewrite Heq in Hp.
Qed.

(** X26. What [Erase(pos)] does when it returns: one move-assignment per
    element after the position, each one slot towards the front, and the
    destruction of the last element; nothing is allocated, constructed or
    freed. *)
Theorem erase_trace pos v w r v' w' :
  vec_ok v w = true →
  Erase pos (v, w) = Ok r (v', w') →
  log w' = log w ++
    replicate (N.to_nat (size_ v - 1 - offset pos)) (EvAssign ByMove) ++ [EvDestroy].
Proof.
  intros Hok Heq. pose proof (vec_ok_offset _ _ Hok) as Hbuf0.
  pose proof (Erase_log_post pos v w Hbuf0) as Hp. unfold post in Hp.
  by rewrite Heq in Hp.
Qed.

End Footprint.

(** * Relocation, reallocation and unwinding *)

Section Reallocation.
Context {T : Type} `{Element T}.
Implicit Types h : gmap addr (list (option T)).
Implicit Types p q : ptr.
Implicit Types v : Vector.
Implicit Types w : World T.
Implicit Types rm : RawMemory.

(** ** What relocation leaves in the source *)

Lemma uninit_move_loop_source src n dst w l :
  base src ≠ base dst →
  live_range (heap w) src n = Some l →
  post (uninit_move_loop src n dst) w
    (fun _ w' => live_range (heap w') src n = Some (moved_from <$> l))
    (fun _ _ => True).
Proof.
  revert src dst w l. induction n as [|n IH]; intros src dst w l Hne Hl;
    cbn [uninit_move_loop].
  - apply post_ret. cbn in *. by injection Hl as <-.
  - apply live_range_S_inv in Hl as (x & l' & -> & Hx & Hl').
    eapply post_bind; [apply move_construct_post| |done].
    intros [] w1 (y & Hy & Hd & Hh & _).
    assert (y = x) as -> by congruence.
    assert (live_range (heap w1) (src +ₚ 1) n = Some l') as Hl1.
    { rewrite <- Hl', Hh. apply live_range_ext. intros q Hq.
      rewrite !peek_poke_ne; [done| |].
      - intros ->. apply in_range_base in Hq. cbn in Hq. congruence.
      - intros ->. by eapply not_in_range_self. }
    eapply post_on_exception with
      (Qm := fun _ w' =>
               live_range (heap w') (src +ₚ 1) n = Some (moved_from <$> l') ∧
               touch (fun q => in_range (dst +ₚ 1) n q ∨ in_range (src +ₚ 1) n q) w1 w')
      (Em := fun _ _ => True).
    + eapply post_conseq;
        [eapply post_and; [apply (IH (src +ₚ 1) (dst +ₚ 1) w1 l' Hne Hl1)|
                           apply uninit_move_loop_post]| |done].
      by intros [] w' [Hsrc (Ht & _)].
    + intros [] w' [Hsrc Ht]. cbv beta in *.
      change (moved_from <$> x :: l') with (moved_from x :: (moved_from <$> l')).
      apply live_range_S; [|done].
      destruct Ht as [_ Hf]. rewrite Hf.
      * rewrite Hh. apply peek_poke_eq. by apply peek_poke_is_Some; eexists.
      * intros [Hq|Hq]; [|by eapply not_in_range_self].
        apply in_range_base in Hq. cbn in Hq. congruence.
    + intros e s1 _. unfold post. by destruct (destroy_at dst s1).
Qed.

Lemma InitializeDataUsingOtherData_source src dst n w l :
  base src ≠ base dst →
  live_range (heap w) src (N.to_nat n) = Some l →
  post (InitializeDataUsingOtherData src dst n) w
    (fun _ w' =>
       live_range (heap w') src (N.to_nat n) =
         Some (if is_nothrow_move_constructible || negb is_copy_constructible
               then moved_from <$> l else l))
    (fun _ w' =>
       is_nothrow_move_constructible || negb is_copy_constructible = false →
       live_range (heap w') src (N.to_nat n) = Some l).
Proof.
  intros Hne Hl. unfold InitializeDataUsingOtherData.
  destruct (is_nothrow_move_constructible || negb is_copy_constructible) eqn:Hk.
  - eapply post_bind; [|intros a s1 Hq; apply post_ret; exact Hq|done].
    unfold uninitialized_move_n.
    eapply post_bind; [by apply uninit_move_loop_source| |done].
    intros [] w' Hq. by apply post_ret.
  - assert (∀ w', touch (in_range dst (N.to_nat n)) w w' →
                  live_range (heap w') src (N.to_nat n) = Some l) as Hkeep.
    { intros w' Ht. rewrite <- Hl. eapply live_range_touch; [exact Ht|].
      intros q Hq Hq'. apply in_range_base in Hq, Hq'. congruence. }
    eapply post_bind; [apply uninitialized_copy_n_post| |].
    + intros a w' (Ht & _). apply post_ret. by apply Hkeep.
    + intros e w' [Ht _] _. by apply Hkeep.
Qed.

(** C6. Relocation of [n] live objects into [n] slots of another block
    never goes wrong, and one choice holds for the whole call.  If moving
    cannot throw or copying is impossible, every object is moved: the
    destination holds the values, every source object is left moved-from, and
    [n] move constructions took place.  Otherwise every object is copied: the
    destination holds the values, the source is as it was, and [n] copy
    constructions took place.  If a construction throws, the objects
    constructed so far, all of the one kind, are destroyed again; and when the
    choice was to copy, the source is as it was. *)
Theorem relocation_choice (src dst : ptr) (n : N) w l :
  base src ≠ base dst →
  live_range (heap w) src (N.to_nat n) = Some l →
  (∀ q, in_range dst (N.to_nat n) q → is_Some (peek (heap w) q)) →
  match InitializeDataUsingOtherData src dst n w with
  | Ok _ w' =>
      live_range (heap w') dst (N.to_nat n) = Some l ∧
      if is_nothrow_move_constructible || negb is_copy_constructible then
        live_range (heap w') src (N.to_nat n) = Some (moved_from <$> l) ∧
        log w' = log w ++ replicate (N.to_nat n) (EvConstruct ByMove)
      else
        live_range (heap w') src (N.to_nat n) = Some l ∧
        log w' = log w ++ replicate (N.to_nat n) (EvConstruct ByCopy)
  | Raise _ w' =>
      is_nothrow_move_constructible = false ∧
      (∃ j, (j < N.to_nat n)%nat ∧
         log w' = log w ++
           replicate j
             (EvConstruct (if is_nothrow_move_constructible || negb is_copy_constructible
                           then ByMove else ByCopy))
           ++ replicate j EvDestroy) ∧
      (is_nothrow_move_constructible || negb is_copy_constructible = false →
       live_range (heap w') src (N.to_nat n) = Some l)
  | Fault => False
  end.
Proof.
  intros Hne Hl Hdst.
  assert (safe (InitializeDataUsingOtherData src dst n) w) as Hsafe.
  { apply InitializeDataUsingOtherData_safe; [done| |done].
    apply live_range_is_live. by eexists. }
  pose proof (InitializeDataUsingOtherData_post src dst n w) as Hp.
  pose proof (InitializeDataUsingOtherData_source src dst n w l Hne Hl) as Hs.
  unfold safe, post, relocation_kind in *.
  destruct (InitializeDataUsingOtherData src dst n w) as [[] w'|e w'|]; [| |done].
  - destruct Hp as (_ & Hlog & _ & Hv). destruct (Hv Hne) as (l0 & Hl0 & Hl0').
    assert (l0 = l) as -> by congruence. split; [done|].
    by destruct (is_nothrow_move_constructible || negb is_copy_constructible).
  - destruct Hp as (Hnt & Hr & _). done.
Qed.

(** ** A reallocation that throws *)

(** C1, as the code has it.  When a reallocating [Emplace] or a [Reserve]
    throws, the sequence object is as it was (same storage, size and
    capacity) and still well-formed, and every block other than its own is
    as before the call: the new block is gone.  When the element type can be
    copied, or moves without throwing, the whole heap is as it was, and with
    it the elements. *)
Theorem strong_guarantee_realloc v w :
  vec_ok v w = true →
  (∀ pos k x e v' w',
     size_ v = Capacity v →
     Emplace pos k x (v, w) = Raise e (v', w') →
     v' = v ∧ vec_ok v w' = true ∧
     (∀ b, ¬ own v b → heap w' !! b = heap w !! b) ∧
     (is_copy_constructible = true ∨ is_nothrow_move_constructible = true →
      heap w' = heap w ∧ contents v' w' = contents v w)) ∧
  (∀ n e v' w',
     Reserve n (v, w) = Raise e (v', w') →
     v' = v ∧ vec_ok v w' = true ∧
     (∀ b, ¬ own v b → heap w' !! b = heap w !! b) ∧
     (is_copy_constructible = true ∨ is_nothrow_move_constructible = true →
      heap w' = heap w ∧ contents v' w' = contents v w)).
Proof.
  intros Hok. split.
  - intros pos k x e v' w' Hfull Heq.
    pose proof (post_Raise _ _ _ _ _ _ (Emplace_post pos k x v w Hok) Heq)
      as (Hv & Hok' & Hh).
    pose proof (post_Raise _ _ _ _ _ _ (Emplace_footprint_post pos k x v w Hok) Heq)
      as [Hb _].
    cbn [fst snd] in *. subst v'. split; [done|]. split; [done|].
    split; [intros b Hn; by apply Hb|]. intros Hcond.
    specialize (Hh Hfull Hcond). split; [done|]. unfold contents. by rewrite Hh.
  - intros n e v' w' Heq.
    pose proof (post_Raise _ _ _ _ _ _ (Reserve_post n v w Hok) Heq)
      as (Hv & Hok' & Hh).
    pose proof (post_Raise _ _ _ _ _ _ (Reserve_footprint_post n v w Hok) Heq)
      as [Hb _].
    cbn [fst snd] in *. subst v'. split; [done|]. split; [done|].
    split; [intros b Hn; by apply Hb|]. intros Hcond.
    specialize (Hh Hcond). split; [done|]. unfold contents. by rewrite Hh.
Qed.

(** ** The capacity after [Reserve] and [Resize] *)


(** ** Constructors that throw *)

Lemma value_construct_loop_unwind p n w :
  post (value_construct_loop p n) w
    (fun _ _ => True) (fun _ w' => rolled_back ByValueInit n w w').
Proof.
  revert p w. induction n as [|n IH]; intros p w; cbn [value_construct_loop].
  - by apply post_ret.
  - eapply post_bind; [apply construct_at_post| |].
    + intros [] w1 (_ & _ & Hl).
      eapply post_on_exception; [apply IH|done|].
      intros e w2 Hr. eapply post_conseq; [apply destroy_at_post| |done].
      intros [] w3 (_ & _ & Hl3). cbv beta in *.
      exact (rolled_back_step _ _ _ _ _ _ Hl Hr Hl3).
    + intros e w1 (_ & Hl & _). by apply rolled_back_first.
Qed.

Lemma construction_unwind {A} (m : M (World T) A) k n w data w1 :
  allocated n data w w1 →
  post m w1 (fun _ _ => True) (fun _ w' => rolled_back k (N.to_nat n) w1 w') →
  post (on_exception m (RawMemory_dtor data)) w1
    (fun _ _ => True)
    (fun _ w' =>
       ∃ j, (j < N.to_nat n)%nat ∧
         log w' = log w ++ EvAlloc (wrap (n * sizeof)) ::
                  replicate j (EvConstruct k) ++ replicate j EvDestroy ++ [EvFree]).
Proof.
  intros Halloc Hm. eapply post_on_exception; [exact Hm|done|].
  intros e w2 (j & Hj & Hl2).
  eapply post_conseq; [apply RawMemory_dtor_post| |done].
  intros [] w3 Hrel. cbv beta. exists j. split; [done|].
  destruct Halloc as [_ [(-> & _)|(_ & a & Hb & _ & _ & _ & Hl1)]]; [cbn in Hj; lia|].
  rewrite (released_log _ _ _ Hrel), Hl2, Hl1, Hb. cbn [base].
  by rewrite <- !app_assoc.
Qed.

Lemma Vector_ctor_unwind n w :
  post (Vector_ctor n) w
    (fun _ _ => True)
    (fun _ w' =>
       log w' = log w ∨
       ∃ j, (j < N.to_nat n)%nat ∧
         log w' = log w ++ EvAlloc (wrap (n * sizeof)) ::
                  replicate j (EvConstruct ByValueInit) ++ replicate j EvDestroy ++
                  [EvFree]).
Proof.
  unfold Vector_ctor. eapply post_bind; [apply RawMemory_ctor_post| |].
  2:{ intros e w' [_ Hl]. by left. }
  intros data w1 Halloc.
  eapply post_bind; [|done|intros e w' Hr; right; exact Hr].
  eapply construction_unwind; [exact Halloc|].
  unfold uninitialized_value_construct_n.
  eapply post_bind; [apply value_construct_loop_unwind|done|done].
Qed.

Lemma Vector_copy_ctor_unwind other w :
  post (Vector_copy_ctor other) w
    (fun _ _ => True)
    (fun _ w' =>
       log w' = log w ∨
       ∃ j, (j < N.to_nat (size_ other))%nat ∧
         log w' = log w ++ EvAlloc (wrap (size_ other * sizeof)) ::
                  replicate j (EvConstruct ByCopy) ++ replicate j EvDestroy ++
                  [EvFree]).
Proof.
  unfold Vector_copy_ctor. eapply post_bind; [apply RawMemory_ctor_post| |].
  2:{ intros e w' [_ Hl]. by left. }
  intros data w1 Halloc.
  eapply post_bind; [|done|intros e w' Hr; right; exact Hr].
  eapply construction_unwind; [exact Halloc|].
  eapply post_conseq; [apply uninitialized_copy_n_post|done|].
  by intros e w' [_ Hr].
Qed.

(** X8. A constructor that throws leaves the heap exactly as it found it
    and cleans up after itself.  Either the allocation failed and nothing
    else happened, or the block was allocated, some elements were
    constructed, a construction threw, each of the elements constructed so far
    was destroyed, and the block was freed. *)
Theorem failed_construction_leaves_heap :
  (∀ n w e w',
     Vector_ctor n w = Raise e w' →
     heap w' = heap w ∧
     (log w' = log w ∨
      ∃ j, (j < N.to_nat n)%nat ∧
        log w' = log w ++ EvAlloc (wrap (n * sizeof)) ::
                 replicate j (EvConstruct ByValueInit) ++ replicate j EvDestroy ++
                 [EvFree])) ∧
  (∀ other w e w',
     vec_ok other w = true →
     Vector_copy_ctor other w = Raise e w' →
     heap w' = heap w ∧
     (log w' = log w ∨
      ∃ j, (j < N.to_nat (size_ other))%nat ∧
        log w' = log w ++ EvAlloc (wrap (size_ other * sizeof)) ::
                 replicate j (EvConstruct ByCopy) ++ replicate j EvDestroy ++
                 [EvFree])).
Proof.
  split.
  - intros n w e w' Heq. split.
    + exact (post_Raise _ _ _ _ _ _ (Vector_ctor_post n w) Heq).
    + exact (post_Raise _ _ _ _ _ _ (Vector_ctor_unwind n w) Heq).
  - intros other w e w' Hok Heq. split.
    + exact (post_Raise _ _ _ _ _ _ (Vector_copy_ctor_post other w Hok) Heq).
    + exact (post_Raise _ _ _ _ _ _ (Vector_copy_ctor_unwind other w) Heq).
Qed.

End Reallocation.

(** * The further properties at concrete sequences *)

Section FurtherExamples.

Lemma append_builds_list_witness :
  (∃ v' w',
     EmplaceBack_all [(ByCopy, 40); (ByMove, 50)] (spare_seq, spare_world)
       = Ok tt (v', w') ∧
     size_ v' = 5 ∧ contents v' w' = Some [10; 20; 30; 40; 50]) ∧
  (∃ v' w',
     PushBack_copy 40 (spare_seq, spare_world) = Ok tt (v', w') ∧
     contents v' w' = Some [10; 20; 30; 40]).
Proof.
  assert (vec_ok spare_seq spare_world = true) as Hok by reflexivity.
  assert (contents spare_seq spare_world = Some [10; 20; 30]) as Hl by reflexivity.
  destruct (append_builds_list spare_seq spare_world [10; 20; 30] Hok Hl)
    as (Hall & Hcopy & _).
  split.
  - eexists _, _. split; [vm_compute; reflexivity|].
    eapply (Hall [(ByCopy, 40); (ByMove, 50)]). vm_compute; reflexivity.
  - eexists _, _. split; [vm_compute; reflexivity|].
    eapply (Hcopy 40). vm_compute; reflexivity.
Defined.

Lemma insert_then_erase_witness :
  ∃ r v' w',
    (p <- Emplace (Ptr (Some 1%positive) 1) ByCopy 15 ;; Erase p)
      (full_seq, full_world 10 20 never) = Ok r (v', w') ∧
    size_ v' = 2 ∧
    contents v' w' = Some [10; 20] ∧
    r = buffer_ (data_ v') +ₚ 1.
Proof.
  assert (vec_ok full_seq (full_world 10 20 never) = true) as Hok by reflexivity.
  eexists _, _, _. split; [vm_compute; reflexivity|].
  eapply (insert_then_erase (Ptr (Some 1%positive) 1) ByCopy 15
            full_seq (full_world 10 20 never) _ _ _ Hok).
  vm_compute; reflexivity.
Defined.

Lemma pop_back_removes_last_witness :
  PopBack (Vector_default, empty_world never) = @Fault (Obj N) unit ∧
  ∃ w', PopBack (spare_seq, spare_world)
          = Ok tt ({| data_ := data_ spare_seq; size_ := 2 |}, w') ∧
        contents {| data_ := data_ spare_seq; size_ := 2 |} w' = Some [10; 20] ∧
        log w' = [EvDestroy] ∧
        same_shape (heap spare_world) (heap w').
Proof.
  assert (vec_ok Vector_default (@empty_world N never) = true) as Hok0 by reflexivity.
  assert (contents Vector_default (@empty_world N never) = Some []) as Hl0 by reflexivity.
  assert (vec_ok spare_seq spare_world = true) as Hok by reflexivity.
  assert (contents spare_seq spare_world = Some [10; 20; 30]) as Hl by reflexivity.
  split.
  - apply (proj1 (pop_back_removes_last Vector_default (empty_world never) [] Hok0 Hl0)).
    reflexivity.
  - apply (proj2 (pop_back_removes_last spare_seq spare_world [10; 20; 30] Hok Hl)).
    discriminate.
Defined.

Lemma push_then_pop_witness :
  ∃ v' w',
    (EmplaceBack ByCopy 15 ;;; PopBack) (full_seq, full_world 10 20 never)
      = Ok tt (v', w') ∧
    size_ v' = 2 ∧ contents v' w' = Some [10; 20].
Proof.
  assert (vec_ok full_seq (full_world 10 20 never) = true) as Hok by reflexivity.
  eexists _, _. split; [vm_compute; reflexivity|].
  eapply (push_then_pop ByCopy 15 full_seq (full_world 10 20 never) _ _ Hok).
  vm_compute; reflexivity.
Defined.

Lemma resize_contents_witness :
  (∃ v' w',
     Resize 5 (spare_seq, spare_world) = Ok tt (v', w') ∧
     size_ v' = 5 ∧ Capacity v' = 5 ∧ contents v' w' = Some [10; 20; 30; 0; 0]) ∧
  (∃ v' w',
     Resize 1 (spare_seq, spare_world) = Ok tt (v', w') ∧
     size_ v' = 1 ∧ Capacity v' = 4 ∧ contents v' w' = Some [10]).
Proof.
  assert (vec_ok spare_seq spare_world = true) as Hok by reflexivity.
  assert (contents spare_seq spare_world = Some [10; 20; 30]) as Hl by reflexivity.
  split.
  - eexists _, _. split; [vm_compute; reflexivity|].
    eapply (resize_contents 5 spare_seq spare_world [10; 20; 30] _ _ Hok Hl).
    vm_compute; reflexivity.
  - eexists _, _. split; [vm_compute; reflexivity|].
    eapply (resize_contents 1 spare_seq spare_world [10; 20; 30] _ _ Hok Hl).
    vm_compute; reflexivity.
Defined.

Lemma resize_exceptions_witness :
  match Resize 1 (spare_seq, spare_world) with
  | Ok _ (v', w') => data_ v' = data_ spare_seq ∧ log w' = [EvDestroy; EvDestroy]
  | Raise _ _ => False
  | Fault => True
  end ∧
  ∃ e v' w',
    Resize 6 (spare_seq, one_block [Some 10; Some 20; Some 30; None] (only 2))
      = Raise e (v', w') ∧
    3 < 6 ∧ size_ v' = 3 ∧
    (@is_copy_constructible N _ = true ∨ @is_nothrow_move_constructible N _ = true →
     contents v' w' = Some [10; 20; 30]).
Proof.
  assert (vec_ok spare_seq spare_world = true) as Hok by reflexivity.
  assert (vec_ok spare_seq (one_block [Some 10; Some 20; Some 30; None] (only 2)) = true)
    as Hok5 by reflexivity.
  split.
  - apply (proj1 (resize_exceptions 1 spare_seq spare_world Hok)). discriminate.
  - eexists _, _, _. split; [vm_compute; reflexivity|].
    eapply (proj2 (resize_exceptions 6 spare_seq
                     (one_block [Some 10; Some 20; Some 30; None] (only 2)) Hok5)).
    vm_compute; reflexivity.
Defined.

Lemma sized_constructor_witness :
  ∃ v w',
    Vector_ctor 3 (spare_world) = Ok v w' ∧
    size_ v = 3 ∧ Capacity v = 3 ∧
    contents v w' = Some [0; 0; 0] ∧
    (∀ b, is_Some (heap spare_world !! b) → heap w' !! b = heap spare_world !! b).
Proof.
  destruct (Vector_ctor 3 spare_world) as [v w'|e w'|] eqn:Heq;
    [|vm_compute in Heq; discriminate|vm_compute in Heq; discriminate].
  exists v, w'. split; [done|].
  exact (proj1 (sized_constructor 3 spare_world) v w' Heq).
Defined.

Lemma failed_construction_leaves_heap_witness :
  (∃ e w', Vector_ctor 3 (empty_world (only 2)) = Raise e w' ∧
           heap w' = heap (@empty_world N (only 2)) ∧
           log w' = [EvAlloc 12; EvConstruct ByValueInit; EvDestroy; EvFree]) ∧
  (∃ e w', Vector_copy_ctor spare_seq
             (one_block [Some 10; Some 20; Some 30; None] (only 2)) = Raise e w' ∧
           heap w' = heap (one_block [Some 10; Some 20; Some 30; None] (only 2)) ∧
           log w' = [EvAlloc 12; EvConstruct ByCopy; EvDestroy; EvFree]).
Proof.
  split.
  - destruct (Vector_ctor 3 (@empty_world N (only 2))) as [v w'|e w'|] eqn:Heq;
      [vm_compute in Heq; discriminate| |vm_compute in Heq; discriminate].
    exists e, w'. split; [reflexivity|].
    destruct (proj1 failed_construction_leaves_heap 3 (@empty_world N (only 2)) e w' Heq)
      as [Hh _].
    split; [exact Hh|]. vm_compute in Heq. by injection Heq as _ <-.
  - assert (vec_ok spare_seq (one_block [Some 10; Some 20; Some 30; None] (only 2)) = true)
      as Hok by reflexivity.
    destruct (Vector_copy_ctor spare_seq
                (one_block [Some 10; Some 20; Some 30; None] (only 2)))
      as [v w'|e w'|] eqn:Heq;
      [vm_compute in Heq; discriminate| |vm_compute in Heq; discriminate].
    exists e, w'. split; [reflexivity|].
    destruct (proj2 failed_construction_leaves_heap spare_seq
                (one_block [Some 10; Some 20; Some 30; None] (only 2)) e w' Hok Heq)
      as [Hh _].
    split; [exact Hh|]. vm_compute in Heq. by injection Heq as _ <-.
Defined.

Lemma erase_returns_next_witness :
  ∃ v' w',
    Erase (Ptr (Some 1%positive) 0) (spare_seq, spare_world)
      = Ok (Ptr (Some 1%positive) 0) (v', w') ∧
    Ptr (Some 1%positive) 0 = Ptr (Some 1%positive) 0 ∧
    data_ v' = data_ spare_seq ∧
    peek (heap w') (Ptr (Some 1%positive) 0) = Some (Some 20).
Proof.
  assert (vec_ok spare_seq spare_world = true) as Hok by reflexivity.
  assert (contents spare_seq spare_world = Some [10; 20; 30]) as Hl by reflexivity.
  eexists _, _. split; [vm_compute; reflexivity|].
  eapply (proj1 (erase_returns_next (Ptr (Some 1%positive) 0) spare_seq spare_world
                   [10; 20; 30] Hok Hl)).
  vm_compute; reflexivity.
Defined.

Lemma spare_capacity_keeps_storage_witness :
  ∃ r v' w',
    Emplace (Ptr (Some 1%positive) 1) ByCopy 15 (spare_seq, spare_world) = Ok r (v', w') ∧
    data_ v' = data_ spare_seq ∧
    allocs (log w') = allocs (log spare_world) ∧
    r = Ptr (Some 1%positive) 1 ∧
    ∀ j y, (j < 1)%nat → [10; 20; 30] !! j = Some y →
           peek (heap w') (buffer_ (data_ spare_seq) +ₚ N.of_nat j) = Some (Some y).
Proof.
  assert (vec_ok spare_seq spare_world = true) as Hok by reflexivity.
  assert (contents spare_seq spare_world = Some [10; 20; 30]) as Hl by reflexivity.
  eexists _, _, _. split; [vm_compute; reflexivity|].
  eapply (spare_capacity_keeps_storage (Ptr (Some 1%positive) 1) ByCopy 15
            spare_seq spare_world [10; 20; 30] _ _ _ Hok Hl).
  - reflexivity.
  - vm_compute; reflexivity.
Defined.

Lemma reserve_then_append_witness :
  ∃ v1 w1 v' w',
    Reserve 3 (Vector_default, @empty_world N never) = Ok tt (v1, w1) ∧
    EmplaceBack_all [(ByCopy, 10); (ByCopy, 20); (ByCopy, 30)] (v1, w1) = Ok tt (v', w') ∧
    data_ v' = data_ v1 ∧ Capacity v' = 3 ∧ allocs (log w') = allocs (log w1).
Proof.
  eexists _, _, _, _. split; [vm_compute; reflexivity|].
  split; [vm_compute; reflexivity|].
  eapply (reserve_then_append 3 [(ByCopy, 10); (ByCopy, 20); (ByCopy, 30)]
            Vector_default (@empty_world N never)).
  - reflexivity.
  - vm_compute. discriminate.
  - vm_compute; reflexivity.
  - vm_compute; reflexivity.
Defined.

Lemma append_strong_guarantee_witness :
  ∃ e v' w',
    EmplaceBack ByArgs [3] (full_seq, full_world [1] [2] (only 3)) = Raise e (v', w') ∧
    v' = full_seq ∧ heap w' = heap (full_world [1] [2] (only 3)).
Proof.
  assert (vec_ok full_seq (full_world [1] [2] (only 3)) = true) as Hok by reflexivity.
  assert (@fits (list N) _ (Capacity full_seq) = true) as Hfit by reflexivity.
  assert (@is_copy_constructible (list N) _ = true) as Hcopy by reflexivity.
  eexists _, _, _. split; [vm_compute; reflexivity|].
  eapply (proj1 (append_strong_guarantee full_seq (full_world [1] [2] (only 3))
                   Hok Hfit (or_intror (or_introl Hcopy))) ByArgs [3]).
  vm_compute; reflexivity.
Defined.

Lemma failed_insertion_leaves_object_witness :
  peek (heap (words_world (only 2))) (Ptr (Some 1%positive) 3) = Some None ∧
  ∃ e w',
    Emplace (Ptr (Some 1%positive) 0) ByArgs [9] (words_seq, words_world (only 2))
      = Raise e (words_seq, w') ∧
    peek (heap w') (Ptr (Some 1%positive) 3) = Some (Some [3]) ∧
    contents words_seq w' = Some [[1]; [2]; []] ∧
    words_seq = words_seq ∧ vec_ok words_seq w' = true ∧
    (heap w' = heap (words_world (only 2)) ∨
     0 < 3 ∧ is_live (heap w') (buffer_ (data_ words_seq) +ₚ 3)).
Proof.
  assert (vec_ok words_seq (words_world (only 2)) = true) as Hok by reflexivity.
  assert (@fits (list N) _ (Capacity words_seq) = true) as Hfit by reflexivity.
  split; [reflexivity|].
  eexists _, _. split; [vm_compute; reflexivity|].
  split; [reflexivity|]. split; [reflexivity|].
  eapply (failed_insertion_leaves_object (Ptr (Some 1%positive) 0) ByArgs [9]
            words_seq (words_world (only 2)) _ _ _ Hok Hfit).
  - reflexivity.
  - vm_compute; reflexivity.
Defined.

Lemma apart_right_left : apart right_seq left_seq.
Proof. intros a [= <-]. discriminate. Qed.

Lemma apart_left_right : apart left_seq right_seq.
Proof. intros a [= <-]. discriminate. Qed.

Lemma copy_assignment_copies_witness :
  (∃ v' w',
     Vector_copy_assign (Other right_seq) (left_seq, pair_world) = Ok tt (v', w') ∧
     size_ v' = 1 ∧
     contents v' w' = Some [30] ∧
     contents right_seq w' = Some [30] ∧
     Capacity v' = 2 ∧
     (1 <= 2 → data_ v' = data_ left_seq ∧ allocs (log w') = allocs (log pair_world))) ∧
  (∃ v' w',
     Vector_copy_assign (Other left_seq) (right_seq, pair_world) = Ok tt (v', w') ∧
     size_ v' = 2 ∧
     contents v' w' = Some [10; 20] ∧
     contents left_seq w' = Some [10; 20] ∧
     Capacity v' = 2 ∧
     (2 <= 1 → data_ v' = data_ right_seq ∧ allocs (log w') = allocs (log pair_world))).
Proof.
  assert (vec_ok left_seq pair_world = true) as Hokl by reflexivity.
  assert (vec_ok right_seq pair_world = true) as Hokr by reflexivity.
  split.
  - eexists _, _. split; [vm_compute; reflexivity|].
    eapply (proj1 (copy_assignment_copies right_seq left_seq pair_world
                     Hokl Hokr apart_right_left)).
    vm_compute; reflexivity.
  - eexists _, _. split; [vm_compute; reflexivity|].
    eapply (proj1 (copy_assignment_copies left_seq right_seq pair_world
                     Hokr Hokl apart_left_right)).
    vm_compute; reflexivity.
Defined.

Lemma copy_assignment_exceptions_witness :
  ∃ e v' w',
    Vector_copy_assign (Other left_seq)
      (right_seq, two_blocks [Some 10; Some 20] [Some 30] (only 2)) = Raise e (v', w') ∧
    v' = right_seq ∧ vec_ok right_seq w' = true ∧
    contents left_seq w' = Some [10; 20] ∧
    (1 < 2 → heap w' = heap (two_blocks [Some 10; Some 20] [Some 30] (only 2))) ∧
    (2 <= 1 → allocs (log w') = 0%nat).
Proof.
  assert (vec_ok left_seq (two_blocks [Some 10; Some 20] [Some 30] (only 2)) = true)
    as Hokl by reflexivity.
  assert (vec_ok right_seq (two_blocks [Some 10; Some 20] [Some 30] (only 2)) = true)
    as Hokr by reflexivity.
  eexists _, _, _. split; [vm_compute; reflexivity|].
  eapply (copy_assignment_exceptions left_seq right_seq
            (two_blocks [Some 10; Some 20] [Some 30] (only 2)) _ _ _
            Hokr Hokl apart_left_right).
  vm_compute; reflexivity.
Defined.

Lemma destructor_releases_witness :
  ∃ w', Vector_dtor spare_seq spare_world = Ok tt w' ∧
        heap w' = delete 1%positive (heap spare_world) ∧
        log w' = [EvDestroy; EvDestroy; EvDestroy; EvFree].
Proof.
  assert (vec_ok spare_seq spare_world = true) as Hok by reflexivity.
  exact (destructor_releases spare_seq spare_world Hok).
Defined.

Lemma construct_destroy_roundtrip_witness :
  ∃ v w1 w2,
    Vector_ctor 3 spare_world = Ok v w1 ∧
    Vector_dtor v w1 = Ok tt w2 ∧ heap w2 = heap spare_world.
Proof.
  destruct (Vector_ctor 3 spare_world) as [v w1|e w1|] eqn:Heq;
    [|vm_compute in Heq; discriminate|vm_compute in Heq; discriminate].
  destruct (proj1 construct_destroy_roundtrip 3 spare_world v w1 Heq) as (w2 & Hd & Hh).
  by exists v, w1, w2.
Defined.

Lemma element_access_witness :
  (∃ x, [10; 20; 30] !! 1%nat = Some x ∧
        Vector_at 1 (spare_seq, spare_world)
          = Ok (Ptr (Some 1%positive) 1) (spare_seq, spare_world) ∧
        peek (heap spare_world) (Ptr (Some 1%positive) 1) = Some (Some x)) ∧
  Vector_at 3 (spare_seq, spare_world) = Fault.
Proof.
  assert (vec_ok spare_seq spare_world = true) as Hok by reflexivity.
  assert (contents spare_seq spare_world = Some [10; 20; 30]) as Hl by reflexivity.
  destruct (element_access 1 spare_seq spare_world [10; 20; 30] Hok Hl) as (Hin & _).
  destruct (element_access 3 spare_seq spare_world [10; 20; 30] Hok Hl) as (_ & Hout & _).
  split; [apply Hin; reflexivity|apply Hout; discriminate].
Defined.

Lemma raw_memory_allocation_witness :
  (∃ rm w',
     RawMemory_ctor 3 (@empty_world N never) = Ok rm w' ∧
     capacity_ rm = 3 ∧ slots rm w' = 3) ∧
  (∃ rm w',
     RawMemory_ctor (2 ^ 62) (@empty_world N never) = Ok rm w' ∧
     capacity_ rm = 2 ^ 62 ∧ slots rm w' < 2 ^ 62).
Proof.
  split.
  - destruct (RawMemory_ctor 3 (@empty_world N never)) as [rm w'|e w'|] eqn:Heq;
      [|vm_compute in Heq; discriminate|vm_compute in Heq; discriminate].
    exists rm, w'. split; [done|].
    destruct (proj1 (proj2 (raw_memory_allocation 3 (@empty_world N never))) rm w' Heq)
      as (Hc & _ & Hfit & _); [discriminate|].
    split; [exact Hc|]. apply Hfit. reflexivity.
  - destruct (RawMemory_ctor (2 ^ 62) (@empty_world N never)) as [rm w'|e w'|] eqn:Heq;
      [|vm_compute in Heq; discriminate|vm_compute in Heq; discriminate].
    exists rm, w'. split; [done|].
    destruct (proj1 (proj2 (raw_memory_allocation (2 ^ 62) (@empty_world N never)))
                rm w' Heq) as (Hc & _ & _ & Hover); [discriminate|].
    split; [exact Hc|]. apply Hover. reflexivity.
Defined.

(** What the wrap-around leads to: [Reserve(2^62)] on a sequence of [int]
    succeeds with a block of no slots, and the next [PushBack] writes outside
    it. *)
Example overflowing_reserve :
  ∃ v w,
    Reserve (2 ^ 62) (Vector_default, @empty_world N never) = Ok tt (v, w) ∧
    Capacity v = 2 ^ 62 ∧ slots (data_ v) w = 0 ∧
    PushBack_copy 7 (v, w) = Fault.
Proof. eexists _, _. repeat split; vm_compute; reflexivity. Qed.

Lemma valid_calls_never_fault_witness :
  match invoke (MInsertCopy (Ptr (Some 1%positive) 1) 15)
          (full_seq, full_world 10 20 never) with
  | Ok o (v', w') =>
      sound v' w' = true ∧ match o with Other r => sound r w' = true | Self => True end
  | Raise _ (v', w') => sound v' w' = true
  | Fault => False
  end.
Proof.
  assert (@sizeof N _ < SIZE_MOD) as Hsz by reflexivity.
  assert (sound full_seq (full_world 10 20 never) = true) as Hs by reflexivity.
  apply (valid_calls_never_fault (MInsertCopy (Ptr (Some 1%positive) 1) 15)
           full_seq (full_world 10 20 never) Hsz Hs).
  reflexivity.
Defined.

Lemma constructors_never_fault_witness :
  match Vector_ctor 3 (@empty_world N never) with
  | Ok v w' => sound v w' = true
  | Raise _ _ => True
  | Fault => False
  end ∧
  match Vector_copy_ctor spare_seq spare_world with
  | Ok v w' => sound v w' = true ∧ sound spare_seq w' = true
  | Raise _ w' => sound spare_seq w' = true
  | Fault => False
  end.
Proof.
  assert (@fits N _ 3 = true) as Hfit by reflexivity.
  assert (sound spare_seq spare_world = true) as Hs by reflexivity.
  split.
  - exact (proj1 (proj2 constructors_never_fault) 3 (@empty_world N never) Hfit).
  - exact (proj1 (proj2 (proj2 constructors_never_fault)) spare_seq spare_world Hs).
Defined.

Lemma position_checks_witness :
  Emplace (Ptr (Some 1%positive) 4) ByCopy 15 (spare_seq, spare_world) = Fault ∧
  Erase (Ptr (Some 1%positive) 3) (spare_seq, spare_world) = Fault ∧
  Emplace (Ptr (Some 1%positive) 3) ByCopy 15 (spare_seq, spare_world) ≠ Fault.
Proof.
  assert (@sizeof N _ < SIZE_MOD) as Hsz by reflexivity.
  assert (sound spare_seq spare_world = true) as Hs by reflexivity.
  split; [|split].
  - apply (proj1 (position_checks (Ptr (Some 1%positive) 4) spare_seq spare_world Hsz Hs)
             ByCopy 15).
    reflexivity.
  - apply (proj2 (position_checks (Ptr (Some 1%positive) 3) spare_seq spare_world Hsz Hs)).
    reflexivity.
  - intros Hf.
    apply (proj1 (position_checks (Ptr (Some 1%positive) 3) spare_seq spare_world Hsz Hs)
             ByCopy 15) in Hf.
    discriminate.
Defined.

Lemma calls_keep_to_their_block_witness :
  ∃ o v' w',
    invoke (MInsertCopy (Ptr (Some 1%positive) 1) 15) (full_seq, full_world 10 20 never)
      = Ok o (v', w') ∧
    (∀ b, ¬ own full_seq b → ¬ own v' b →
          heap w' !! b = heap (full_world 10 20 never) !! b) ∧
    (∀ b, own full_seq b → ¬ own v' b → heap w' !! b = None).
Proof.
  assert (vec_ok full_seq (full_world 10 20 never) = true) as Hok by reflexivity.
  assert (method_ok (MInsertCopy (Ptr (Some 1%positive) 1) 15)
            full_seq (full_world 10 20 never) = true) as Hm by reflexivity.
  pose proof (calls_keep_to_their_block (MInsertCopy (Ptr (Some 1%positive) 1) 15)
                full_seq (full_world 10 20 never) Hok Hm) as Hk.
  destruct (invoke (MInsertCopy (Ptr (Some 1%positive) 1) 15)
              (full_seq, full_world 10 20 never)) as [o [v' w']|e [v' w']|] eqn:Heq;
    [|vm_compute in Heq; discriminate|vm_compute in Heq; discriminate].
  exists o, v', w'. split; [reflexivity|exact Hk].
Defined.

Lemma reserve_trace_witness :
  ∃ v' w',
    Reserve 8 (spare_seq, spare_world) = Ok tt (v', w') ∧
    log w' = [EvAlloc 32; EvConstruct ByMove; EvConstruct ByMove; EvConstruct ByMove;
              EvDestroy; EvDestroy; EvDestroy; EvFree].
Proof.
  assert (vec_ok spare_seq spare_world = true) as Hok by reflexivity.
  destruct (Reserve 8 (spare_seq, spare_world)) as [[] [v' w']|e [v' w']|] eqn:Heq;
    [|vm_compute in Heq; discriminate|vm_compute in Heq; discriminate].
  exists v', w'. split; [reflexivity|].
  exact (reserve_trace 8 spare_seq spare_world v' w' Hok Heq).
Defined.

Lemma insertion_trace_witness :
  (∃ r v' w',
     Emplace (Ptr (Some 1%positive) 1) ByCopy 15 (full_seq, full_world 10 20 never)
       = Ok r (v', w') ∧
     log w' = [EvAlloc 16; EvConstruct ByCopy; EvConstruct ByMove; EvConstruct ByMove;
               EvDestroy; EvDestroy; EvFree]) ∧
  (∃ r v' w',
     Emplace (Ptr (Some 1%positive) 3) ByCopy 15 (spare_seq, spare_world)
       = Ok r (v', w') ∧
     log w' = [EvConstruct ByCopy]) ∧
  (∃ r v' w',
     Emplace (Ptr (Some 1%positive) 1) ByCopy 15 (spare_seq, spare_world)
       = Ok r (v', w') ∧
     log w' = [EvConstruct ByCopy; EvConstruct ByMove;
               EvAssign ByMove; EvAssign ByMove; EvDestroy]).
Proof.
  assert (vec_ok full_seq (full_world 10 20 never) = true) as Hok by reflexivity.
  assert (vec_ok spare_seq spare_world = true) as Hok' by reflexivity.
  split; [|split].
  - destruct (Emplace (Ptr (Some 1%positive) 1) ByCopy 15
                (full_seq, full_world 10 20 never)) as [r [v' w']|e [v' w']|] eqn:Heq;
      [|vm_compute in Heq; discriminate|vm_compute in Heq; discriminate].
    exists r, v', w'. split; [reflexivity|].
    exact (insertion_trace _ ByCopy 15 full_seq (full_world 10 20 never) r v' w' Hok Heq).
  - destruct (Emplace (Ptr (Some 1%positive) 3) ByCopy 15
                (spare_seq, spare_world)) as [r [v' w']|e [v' w']|] eqn:Heq;
      [|vm_compute in Heq; discriminate|vm_compute in Heq; discriminate].
    exists r, v', w'. split; [reflexivity|].
    exact (insertion_trace _ ByCopy 15 spare_seq spare_world r v' w' Hok' Heq).
  - destruct (Emplace (Ptr (Some 1%positive) 1) ByCopy 15
                (spare_seq, spare_world)) as [r [v' w']|e [v' w']|] eqn:Heq;
      [|vm_compute in Heq; discriminate|vm_compute in Heq; discriminate].
    exists r, v', w'. split; [reflexivity|].
    exact (insertion_trace _ ByCopy 15 spare_seq spare_world r v' w' Hok' Heq).
Defined.

Lemma erase_trace_witness :
  ∃ r v' w',
    Erase (Ptr (Some 1%positive) 0) (spare_seq, spare_world) = Ok r (v', w') ∧
    log w' = [EvAssign ByMove; EvAssign ByMove; EvDestroy].
Proof.
  assert (vec_ok spare_seq spare_world = true) as Hok by reflexivity.
  destruct (Erase (Ptr (Some 1%positive) 0) (spare_seq, spare_world))
    as [r [v' w']|e [v' w']|] eqn:Heq;
    [|vm_compute in Heq; discriminate|vm_compute in Heq; discriminate].
  exists r, v', w'. split; [reflexivity|].
  exact (erase_trace _ spare_seq spare_world r v' w' Hok Heq).
Defined.

Lemma relocation_choice_witness :
  (∃ w',
     InitializeDataUsingOtherData (Ptr (Some 1%positive) 0) (Ptr (Some 2%positive) 0) 2
       (two_blocks [Some (Some 1); Some (Some 2)] [None; None] never) = Ok tt w' ∧
     live_range (heap w') (Ptr (Some 2%positive) 0) 2 = Some [Some 1; Some 2] ∧
     live_range (heap w') (Ptr (Some 1%positive) 0) 2 = Some [None; None] ∧
     log w' = [EvConstruct ByMove; EvConstruct ByMove]) ∧
  (∃ w',
     InitializeDataUsingOtherData (Ptr (Some 1%positive) 0) (Ptr (Some 2%positive) 0) 2
       (two_blocks [Some [1]; Some [2]] [None; None] never) = Ok tt w' ∧
     live_range (heap w') (Ptr (Some 2%positive) 0) 2 = Some [[1]; [2]] ∧
     live_range (heap w') (Ptr (Some 1%positive) 0) 2 = Some [[1]; [2]] ∧
     log w' = [EvConstruct ByCopy; EvConstruct ByCopy]).
Proof.
  assert (base (Ptr (Some 1%positive) 0) ≠ base (Ptr (Some 2%positive) 0)) as Hne
    by discriminate.
  split.
  - assert (live_range (heap (two_blocks [Some (Some 1); Some (Some 2)] [None; None] never))
              (Ptr (Some 1%positive) 0) 2 = Some [Some 1; Some 2]) as Hl by reflexivity.
    pose proof (relocation_choice (Ptr (Some 1%positive) 0) (Ptr (Some 2%positive) 0) 2
                  (two_blocks [Some (Some 1); Some (Some 2)] [None; None] never)
                  [Some 1; Some 2] Hne Hl) as Hk.
    assert (∀ q, in_range (Ptr (Some 2%positive) 0) 2 q →
                 is_Some (peek (heap (two_blocks [Some (Some 1); Some (Some 2)]
                                        [None; None] never)) q)) as Hdst.
    { intros [qb qo] [Hb Ho]. cbn in Hb, Ho. subst qb.
      assert (qo = 0 ∨ qo = 1) as [-> | ->] by lia; vm_compute; eauto. }
    specialize (Hk Hdst).
    destruct (InitializeDataUsingOtherData (Ptr (Some 1%positive) 0)
                (Ptr (Some 2%positive) 0) 2
                (two_blocks [Some (Some 1); Some (Some 2)] [None; None] never))
      as [[] w'|e w'|] eqn:Heq; [|vm_compute in Heq; discriminate|done].
    exists w'. split; [reflexivity|exact Hk].
  - assert (live_range (heap (two_blocks [Some [1]; Some [2]] [None; None] never))
              (Ptr (Some 1%positive) 0) 2 = Some [[1]; [2]]) as Hl by reflexivity.
    pose proof (relocation_choice (Ptr (Some 1%positive) 0) (Ptr (Some 2%positive) 0) 2
                  (two_blocks [Some [1]; Some [2]] [None; None] never)
                  [[1]; [2]] Hne Hl) as Hk.
    assert (∀ q, in_range (Ptr (Some 2%positive) 0) 2 q →
                 is_Some (peek (heap (two_blocks [Some [1]; Some [2]]
                                        [None; None] never)) q)) as Hdst.
    { intros [qb qo] [Hb Ho]. cbn in Hb, Ho. subst qb.
      assert (qo = 0 ∨ qo = 1) as [-> | ->] by lia; vm_compute; eauto. }
    specialize (Hk Hdst).
    destruct (InitializeDataUsingOtherData (Ptr (Some 1%positive) 0)
                (Ptr (Some 2%positive) 0) 2
                (two_blocks [Some [1]; Some [2]] [None; None] never))
      as [[] w'|e w'|] eqn:Heq; [|vm_compute in Heq; discriminate|done].
    exists w'. split; [reflexivity|exact Hk].
Defined.

Lemma strong_guarantee_realloc_witness :
  (∃ e v' w',
     Emplace (Ptr (Some 1%positive) 2) ByArgs [3] (full_seq, full_world [1] [2] (only 3))
       = Raise e (v', w') ∧
     v' = full_seq ∧
     heap w' = heap (full_world [1] [2] (only 3)) ∧
     contents v' w' = Some [[1]; [2]]) ∧
  (∃ e v' w',
     Reserve 4 (full_seq, full_world [1] [2] (only 2)) = Raise e (v', w') ∧
     v' = full_seq ∧
     heap w' = heap (full_world [1] [2] (only 2)) ∧
     contents v' w' = Some [[1]; [2]]) ∧
  (∃ e v' w',
     Emplace (Ptr (Some 1%positive) 2) ByArgs (Some 3)
       (full_seq, full_world (Some 1) (Some 2) (only 3)) = Raise e (v', w') ∧
     v' = full_seq ∧
     vec_ok full_seq w' = true ∧
     ∀ b, ¬ own full_seq b →
          heap w' !! b = heap (full_world (Some 1) (Some 2) (only 3)) !! b).
Proof.
  assert (size_ full_seq = Capacity full_seq) as Hfull by reflexivity.
  split; [|split].
  - assert (vec_ok full_seq (full_world [1] [2] (only 3)) = true) as Hok by reflexivity.
    destruct (Emplace (Ptr (Some 1%positive) 2) ByArgs [3]
                (full_seq, full_world [1] [2] (only 3)))
      as [r [v' w']|e [v' w']|] eqn:Heq;
      [vm_compute in Heq; discriminate| |vm_compute in Heq; discriminate].
    exists e, v', w'. split; [reflexivity|].
    destruct (proj1 (strong_guarantee_realloc full_seq (full_world [1] [2] (only 3)) Hok)
                (Ptr (Some 1%positive) 2) ByArgs [3] e v' w' Hfull Heq)
      as (Hv & _ & _ & Hs).
    destruct Hs as [Hh Hc]; [left; reflexivity|].
    split; [exact Hv|]. split; [exact Hh|]. rewrite Hc. reflexivity.
  - assert (vec_ok full_seq (full_world [1] [2] (only 2)) = true) as Hok by reflexivity.
    destruct (Reserve 4 (full_seq, full_world [1] [2] (only 2)))
      as [r [v' w']|e [v' w']|] eqn:Heq;
      [vm_compute in Heq; discriminate| |vm_compute in Heq; discriminate].
    exists e, v', w'. split; [reflexivity|].
    destruct (proj2 (strong_guarantee_realloc full_seq (full_world [1] [2] (only 2)) Hok)
                4 e v' w' Heq)
      as (Hv & _ & _ & Hs).
    destruct Hs as [Hh Hc]; [left; reflexivity|].
    split; [exact Hv|]. split; [exact Hh|]. rewrite Hc. reflexivity.
  - assert (vec_ok full_seq (full_world (Some 1) (Some 2) (only 3)) = true) as Hok
      by reflexivity.
    destruct (Emplace (Ptr (Some 1%positive) 2) ByArgs (Some 3)
                (full_seq, full_world (Some 1) (Some 2) (only 3)))
      as [r [v' w']|e [v' w']|] eqn:Heq;
      [vm_compute in Heq; discriminate| |vm_compute in Heq; discriminate].
    exists e, v', w'. split; [reflexivity|].
    destruct (proj1 (strong_guarantee_realloc full_seq
                       (full_world (Some 1) (Some 2) (only 3)) Hok)
                (Ptr (Some 1%positive) 2) ByArgs (Some 3) e v' w' Hfull Heq)
      as (Hv & Hok' & Hb & _).
    split; [exact Hv|]. split; [exact Hok'|exact Hb].
Defined.



End FurtherExamples.
